(** * flashrom: the erase-and-write planner and its executor

    A shallow embedding of
      - [action_descriptor.c]: [fill_sorted_erasers], [clear_all_nested],
        [fold_range_maps], [fill_action_descriptor],
        [prepare_action_descriptor];
      - [flashrom.c]: [compare_range], [check_erased_range], [verify_range],
        [need_erase_gran_bytes], [need_erase], [get_next_write],
        [write_flash], [erase_and_write_block_helper], [walk_eraseregions],
        [erase_and_write_flash], [verify_flash]; [register_shutdown],
        [programmer_shutdown], [register_chip_restore], [chip_restore];
        [extract_param]; [check_block_eraser], [count_usable_erasers],
        [chip_safety_check]; [generate_testpattern].

    C integers are values of [Z]; where the source stores a value of a
    wider or unsigned type in an [int] or an [unsigned] the conversion is
    written out ([to_int], [to_uint]).  Arithmetic on [int] is exact: its
    overflow is undefined in C.
    Arrays are lists read with [nth] and updated in place by index; the
    pointer [buf + n] is the list [buf] without its first [n] elements.  The
    chip behind the function pointers of [struct flashchip] is a state [hw]
    holding the contents of the array and the log of the calls made through
    the pointers.  A loop that the source can fail to leave takes fuel and
    gives [None] when it runs out; [exit] and a call through a null pointer
    give [None] too, and so do a division by zero and a write past the end
    of an allocated array.  A [size_t] is taken to be wide enough for the
    products formed in it.  Left out: the messages, the failure of [malloc]
    and the flag [content_has_changed]. *)

From Stdlib Require Import ZArith List Bool Lia Sorted Ascii.
Import ListNotations.
Local Open Scope Z_scope.

(** ** Machine integers *)

Definition UINT_MODULUS : Z := 4294967296.
Definition INT_MAX : Z := 2147483647.

(** Conversion to [unsigned int]. *)
Definition to_uint (z : Z) : Z := z mod UINT_MODULUS.

(** Conversion to [int] (two's complement, as gcc and clang do it). *)
Definition to_int (z : Z) : Z :=
  let u := z mod UINT_MODULUS in
  if u <=? INT_MAX then u else u - UINT_MODULUS.

(** ** flash.h: the chip descriptor *)

Definition NUM_ERASEREGIONS : nat := 5.
Definition NUM_ERASEFUNCTIONS : nat := 6.

Definition FEATURE_ERASE_TO_ZERO : Z := Z.shiftl 1 9.

Definition ACCESS_DENIED : Z := -7.

Inductive write_granularity :=
| write_gran_256bytes
| write_gran_1bit
| write_gran_1byte
| write_gran_128bytes
| write_gran_264bytes
| write_gran_512bytes
| write_gran_528bytes
| write_gran_1024bytes
| write_gran_1056bytes
| write_gran_1byte_implicit_erase.

(** The functions behind the pointers of [struct flashchip] act on the
    contents of the flash array, one value per byte. *)
Definition erase_fn := list Z -> Z -> Z -> Z * list Z.
Definition write_fn := list Z -> list Z -> Z -> Z -> Z * list Z.
Definition read_fn := list Z -> Z -> Z -> Z * list Z * list Z.
Definition access_fn := list Z -> Z -> Z -> Z -> Z.

Record eraseblock := mkEraseblock {
  size : Z;   (* unsigned int: eraseblock size in bytes *)
  count : Z   (* unsigned int: number of contiguous blocks with that size *)
}.

Record block_eraser := mkBlockEraser {
  eraseblocks : list eraseblock;   (* eraseblocks[NUM_ERASEREGIONS] *)
  block_erase : option erase_fn    (* None is the NULL pointer *)
}.

Record flashchip := mkFlashchip {
  total_size : Z;                  (* in kilobytes *)
  page_size : Z;
  feature_bits : Z;
  gran : write_granularity;
  block_erasers : list block_eraser;   (* block_erasers[NUM_ERASEFUNCTIONS] *)
  chip_write : option write_fn;
  chip_read : option read_fn;
  check_access : option access_fn
}.

Definition no_eraseblock : eraseblock := mkEraseblock 0 0.
Definition no_eraser : block_eraser := mkBlockEraser [] None.

(** [chip->block_erasers[k]] and [chip->block_erasers[k].eraseblocks[n]];
    the zero-initialised tail of a table is read as zeros. *)
Definition eraser_at (erasers : list block_eraser) (k : nat) : block_eraser :=
  nth k erasers no_eraser.

Definition region_at (erasers : list block_eraser) (k n : nat) : eraseblock :=
  nth n (eraseblocks (eraser_at erasers k)) no_eraseblock.

(** ** action_descriptor.c: eraser selection *)

Record eraser := mkEraser { eraser_index : nat; region_index : nat }.

(** The block size an entry of the sorted array stands for. *)
Definition eraser_size (erasers : list block_eraser) (e : eraser) : Z :=
  size (region_at erasers (eraser_index e) (region_index e)).

(** The product [eb->size * eb->count] of two [unsigned int]. *)
Definition region_reach (eb : eraseblock) : Z := to_uint (size eb * count eb).

(** The scan over the regions of eraser [k]: the first [n], counted from
    [n], with [size * count >= erase_size]; [None] when the scan runs to
    [NUM_ERASEREGIONS]. *)
Fixpoint find_region (erasers : list block_eraser) (k : nat) (erase_size : Z)
    (n fuel : nat) : option nat :=
  match fuel with
  | O => None
  | S fuel' =>
      if erase_size <=? region_reach (region_at erasers k n) then Some n
      else find_region erasers k erase_size (S n) fuel'
  end.

(** The placement loop over [m]: [sorted] is [sorted_erasers[m..j)].  An
    entry of smaller size is stepped over; at an entry of equal size [j] is
    taken back and the entry is overwritten; at a larger entry the tail is
    moved up by one ([memmove]) and the new entry takes its place; past the
    end the new entry is appended. *)
Fixpoint place_eraser (erasers : list block_eraser) (new_block_size : Z)
    (new : eraser) (sorted : list eraser) : list eraser :=
  match sorted with
  | [] => [new]
  | old :: rest =>
      let old_block_size := eraser_size erasers old in
      if old_block_size <? new_block_size then
        old :: place_eraser erasers new_block_size new rest
      else if old_block_size =? new_block_size then new :: rest
      else new :: old :: rest
  end.

(** The region eraser [k] is taken with, if it is taken. *)
Definition qualifies (erasers : list block_eraser) (erase_size : Z) (k : nat)
    : option nat :=
  match block_erase (eraser_at erasers k) with
  | None => None
  | Some _ => find_region erasers k erase_size 0 NUM_ERASEREGIONS
  end.

(** One turn of the loop over [k]. *)
Definition sorted_erasers_step (erasers : list block_eraser) (erase_size : Z)
    (sorted : list eraser) (k : nat) : list eraser :=
  match qualifies erasers erase_size k with
  | None => sorted
  | Some n =>
      let new_block_size := size (region_at erasers k n) in
      place_eraser erasers new_block_size (mkEraser k n) sorted
  end.

Definition sorted_erasers_loop (erasers : list block_eraser) (erase_size : Z)
    (ks : list nat) (sorted : list eraser) : list eraser :=
  fold_left (sorted_erasers_step erasers erase_size) ks sorted.

(** [fill_sorted_erasers]: the filled part of [sorted_erasers]; [None] is
    [exit(1)] on an empty result. *)
Definition fill_sorted_erasers (chip : flashchip) (erase_size : Z)
    : option (list eraser) :=
  match sorted_erasers_loop (block_erasers chip) erase_size
          (seq 0 NUM_ERASEFUNCTIONS) [] with
  | [] => None
  | sorted => Some sorted
  end.

(** ** action_descriptor.c: range maps *)

(** The bit fields [need_change] and [need_erase] of [struct b_map]. *)
Record b_map := mkBMap { b_need_change : bool; b_need_erase : bool }.

Record range_map := mkRangeMap {
  block_size : Z;            (* size_t *)
  limit : Z;                 (* int *)
  block_map : list b_map     (* one entry per block of this size *)
}.

Definition no_mark : b_map := mkBMap false false.
Definition no_map : range_map := mkRangeMap 0 0 [].

(** [for (j = lo; j < hi; j++)]: the values [j] takes. *)
Definition zrange (lo hi : Z) : list Z :=
  map (fun k => lo + Z.of_nat k) (seq 0 (Z.to_nat (hi - lo))).

Fixpoint upd_nth {A : Type} (n : nat) (f : A -> A) (l : list A) : list A :=
  match l, n with
  | [], _ => []
  | x :: l', O => f x :: l'
  | x :: l', S n' => x :: upd_nth n' f l'
  end.

(** [block_map[j]], read and written.  An index outside the array is
    undefined behaviour in C; here the read gives an unmarked block and the
    write changes nothing. *)
Definition block_at (bm : list b_map) (j : Z) : b_map :=
  if j <? 0 then no_mark else nth (Z.to_nat j) bm no_mark.

Definition upd_block (bm : list b_map) (j : Z) (f : b_map -> b_map)
    : list b_map :=
  if j <? 0 then bm else upd_nth (Z.to_nat j) f bm.

Definition map_at (maps : list range_map) (i : nat) : range_map :=
  nth i maps no_map.

Definition with_block_map (f : list b_map -> list b_map) (m : range_map)
    : range_map :=
  mkRangeMap (block_size m) (limit m) (f (block_map m)).

(** [maps[i].block_map[j] = f (maps[i].block_map[j])]. *)
Definition upd_mark (maps : list range_map) (i : nat) (j : Z)
    (f : b_map -> b_map) : list range_map :=
  upd_nth i (with_block_map (fun bm => upd_block bm j f)) maps.

Definition mark_at (maps : list range_map) (i : nat) (j : Z) : b_map :=
  block_at (block_map (map_at maps i)) j.

Definition marked (b : b_map) : bool := b_need_erase b || b_need_change b.

(** [clear_all_nested (maps + i, block_index, i)]; the recursion is on the
    level [i], which the source guarantees to be 1 or above. *)
Fixpoint clear_all_nested (maps : list range_map) (i : nat) (block_index : Z)
    : list range_map :=
  match i with
  | O => maps
  | S i' =>
      let upper_block_size := block_size (map_at maps i) in
      let this_block_size := block_size (map_at maps i') in
      let range_start := to_int (upper_block_size * block_index) in
      let range_end := to_int (range_start + upper_block_size) in
      fold_left
        (fun maps j =>
           let maps := upd_mark maps i' j (fun _ => mkBMap false false) in
           if (1 <? i)%nat then clear_all_nested maps i' j else maps)
        (zrange (to_int (range_start / this_block_size))
                (range_end / this_block_size))
        maps
  end.

(** The number of blocks among [bm[lo..hi)] with flag [f] set. *)
Definition count_marked (f : b_map -> bool) (bm : list b_map) (lo hi : Z) : Z :=
  fold_left (fun n idx => if f (block_at bm idx) then n + 1 else n)
            (zrange lo hi) 0.

(** The body of the upward loop for block [block_index] of level [i]. *)
Definition fold_block (maps : list range_map) (i : nat) (block_mult : Z)
    (block_index : Z) : list range_map :=
  let lower := map_at maps (i - 1) in
  let lower_start := block_index * block_mult in
  let lower_end := lower_start + block_mult in
  let erase_marked_blocks :=
    count_marked b_need_erase (block_map lower) lower_start lower_end in
  let change_marked_blocks :=
    count_marked b_need_change (block_map lower) lower_start lower_end in
  if limit lower <? erase_marked_blocks then
    upd_mark maps i block_index
      (fun _ => mkBMap (negb (change_marked_blocks =? 0)) true)
  else maps.

(** One turn of the upward loop: level [i] is marked from level [i - 1]. *)
Definition fold_up_level (chip_size : Z) (maps : list range_map) (i : nat)
    : list range_map :=
  let block_mult :=
    to_int (block_size (map_at maps i) / block_size (map_at maps (i - 1))) in
  fold_left (fun maps block_index => fold_block maps i block_mult block_index)
            (zrange 0 (chip_size / block_size (map_at maps i))) maps.

(** One turn of the downward loop: what lies under the blocks of level [i]
    marked for erase is unmarked. *)
Definition prune_level (chip_size : Z) (maps : list range_map) (i : nat)
    : list range_map :=
  fold_left
    (fun maps block_index =>
       if b_need_erase (mark_at maps i block_index)
       then clear_all_nested maps i block_index
       else maps)
    (zrange 0 (chip_size / block_size (map_at maps i))) maps.

Definition fold_up (chip_size : Z) (num_maps : nat) (maps : list range_map)
    : list range_map :=
  fold_left (fold_up_level chip_size) (seq 1 (num_maps - 1)) maps.

Definition prune_down (chip_size : Z) (num_maps : nat) (maps : list range_map)
    : list range_map :=
  fold_left (prune_level chip_size) (rev (seq 1 (num_maps - 1))) maps.

Definition fold_range_maps (maps : list range_map) (num_maps : nat)
    (chip_size : Z) : list range_map :=
  prune_down chip_size num_maps (fold_up chip_size num_maps maps).

(** ** action_descriptor.c: the action descriptor *)

Record processing_unit := mkUnit {
  offset : Z;
  unit_block_size : Z;          (* the field block_size *)
  num_blocks : Z;
  block_eraser_index : nat;
  block_region_index : nat
}.

Record action_descriptor := mkDescriptor {
  oldcontents : list Z;
  newcontents : list Z;
  processing_units : list processing_unit   (* ends with num_blocks = 0 *)
}.

(** [buf[i]] of a byte buffer. *)
Definition byte_at (buf : list Z) (i : Z) : Z :=
  if i <? 0 then 0 else nth (Z.to_nat i) buf 0.

(** Modelled from the spec: [flash_erase_value] and the macro [ERASED_VALUE]
    are declared or used in the sources at hand but defined elsewhere.  The
    erased value is all ones, and all zeros on a chip that inverts this
    (feature bit [ERASE_TO_ZERO]). *)
Definition flash_erase_value (chip : flashchip) : Z :=
  if Z.land (feature_bits chip) FEATURE_ERASE_TO_ZERO =? 0 then 255 else 0.

Definition ERASED_VALUE (chip : flashchip) : Z := flash_erase_value chip.

(** The initialisation of [range_maps[i]]. *)
Definition init_range_map (sorted_erasers : list eraser)
    (chip_erasers : list block_eraser) (chip_size : Z)
    (num_sorted_erasers : nat) (i : nat) : range_map :=
  let block_size :=
    eraser_size chip_erasers (nth i sorted_erasers (mkEraser 0 0)) in
  let num_blocks := chip_size / block_size in
  let limit :=
    if (i <? num_sorted_erasers - 1)%nat then
      let larger_block_size :=
        eraser_size chip_erasers (nth (i + 1) sorted_erasers (mkEraser 0 0)) in
      to_int (((larger_block_size / block_size) * 7) / 10)
    else 0 in
  mkRangeMap block_size limit (repeat no_mark (Z.to_nat num_blocks)).

Definition init_range_maps (sorted_erasers : list eraser)
    (chip_erasers : list block_eraser) (chip_size : Z)
    (num_sorted_erasers : nat) : list range_map :=
  map (init_range_map sorted_erasers chip_erasers chip_size num_sorted_erasers)
      (seq 0 num_sorted_erasers).

Definition set_need_erase (b : b_map) : b_map := mkBMap (b_need_change b) true.
Definition set_need_change (b : b_map) : b_map := mkBMap true (b_need_erase b).

(** The scan of the two images that fills the map of the smallest block
    size, from offset [i] on ([i] is an [unsigned]).  Every turn of the loop
    takes one unit of [fuel]; [None] when it runs out. *)
Fixpoint diff_scan (fuel : nat) (oldc newc : list Z)
    (chip_size erased_value block_size : Z) (i : Z) (block_map : list b_map)
    : option (list b_map) :=
  if i <? chip_size then
    match fuel with
    | O => None
    | S fuel' =>
        if byte_at oldc i =? byte_at newc i then
          diff_scan fuel' oldc newc chip_size erased_value block_size
                    (to_uint (i + 1)) block_map
        else
          let block_index := to_int (i / block_size) in
          let block_map :=
            if negb (byte_at oldc i =? erased_value)
            then upd_block block_map block_index set_need_erase
            else block_map in
          let block_map :=
            if negb (byte_at newc i =? erased_value)
            then upd_block block_map block_index set_need_change
            else block_map in
          let i :=
            if b_need_erase (block_at block_map block_index)
               && b_need_change (block_at block_map block_index)
            then to_uint (Z.land (to_uint (i + block_size))
                                 (Z.lnot (block_size - 1)))
            else i in
          diff_scan fuel' oldc newc chip_size erased_value block_size
                    (to_uint (i + 1)) block_map
    end
  else Some block_map.

(** The unit for the [consecutive_blocks] blocks that end before block [j]. *)
Definition new_unit (m : range_map) (e : eraser) (j consecutive_blocks : Z)
    : processing_unit :=
  mkUnit ((j - consecutive_blocks) * block_size m) (block_size m)
         consecutive_blocks (eraser_index e) (region_index e).

(** The state of the last loop: [consecutive_blocks] and the units written
    so far, [processing_units[0..pu_index)]. *)
Definition emit_state : Type := Z * list processing_unit.

Definition emit_block (m : range_map) (e : eraser) (st : emit_state) (j : Z)
    : emit_state :=
  let '(consecutive_blocks, units) := st in
  let b := block_at (block_map m) j in
  if b_need_erase b || b_need_change b then (consecutive_blocks + 1, units)
  else if consecutive_blocks =? 0 then st
  else (0, units ++ [new_unit m e j consecutive_blocks]).

Definition emit_level (chip_size : Z) (st : emit_state)
    (me : range_map * eraser) : emit_state :=
  let '(m, e) := me in
  let map_size := chip_size / block_size m in
  let '(consecutive_blocks, units) :=
    fold_left (emit_block m e) (zrange 0 map_size) st in
  if consecutive_blocks =? 0 then (consecutive_blocks, units)
  else (0, units ++ [new_unit m e map_size consecutive_blocks]).

(** The terminating entry; only its [num_blocks] is written. *)
Definition sentinel : processing_unit := mkUnit 0 0 0 0 0.

(** The entries the last loop writes, [processing_units[0..pu_index]], in
    the order of the writes, the terminating entry last.  The array they go
    to is the caller's: whether it has room for them is settled where it is
    allocated, in [prepare_action_descriptor]. *)
Definition emit_units (chip_size : Z) (maps : list range_map)
    (sorted_erasers : list eraser) : list processing_unit :=
  snd (fold_left (emit_level chip_size) (combine maps sorted_erasers) (0, []))
  ++ [sentinel].

(** The range maps after their initialisation and the scan of the images:
    only the map of the smallest block size is filled. *)
Definition scan_maps (oldc newc : list Z) (sorted_erasers : list eraser)
    (chip_erasers : list block_eraser) (chip_size : Z)
    (num_sorted_erasers : nat) (erased_value : Z) : option (list range_map) :=
  let range_maps :=
    init_range_maps sorted_erasers chip_erasers chip_size num_sorted_erasers in
  let block_size := block_size (map_at range_maps 0) in
  let block_map := block_map (map_at range_maps 0) in
  match diff_scan (S (Z.to_nat chip_size)) oldc newc chip_size erased_value
                  block_size 0 block_map with
  | None => None
  | Some block_map =>
      Some (upd_nth 0 (with_block_map (fun _ => block_map)) range_maps)
  end.

(** The range maps as they stand before the units are written. *)
Definition plan_maps (oldc newc : list Z) (sorted_erasers : list eraser)
    (chip_erasers : list block_eraser) (chip_size : Z)
    (num_sorted_erasers : nat) (erased_value : Z) : option (list range_map) :=
  match scan_maps oldc newc sorted_erasers chip_erasers chip_size
                  num_sorted_erasers erased_value with
  | None => None
  | Some range_maps =>
      Some (fold_range_maps range_maps num_sorted_erasers chip_size)
  end.

(** [fill_action_descriptor]: the entries it writes to [processing_units]
    of the descriptor it is handed. *)
Definition fill_action_descriptor (oldc newc : list Z)
    (sorted_erasers : list eraser) (chip_erasers : list block_eraser)
    (chip_size : Z) (num_sorted_erasers : nat) (erased_value : Z)
    : option (list processing_unit) :=
  match plan_maps oldc newc sorted_erasers chip_erasers chip_size
                  num_sorted_erasers erased_value with
  | None => None
  | Some range_maps =>
      Some (emit_units chip_size range_maps sorted_erasers)
  end.

(** The highest modified offset plus one, zero for equal images. *)
Definition max_modified (oldcontents newcontents : list Z) (chip_size : Z) : Z :=
  fold_left
    (fun block_size i =>
       if byte_at newcontents i =? byte_at oldcontents i then block_size
       else i + 1)
    (zrange 0 chip_size) 0.

(** [max_units = chip_size / (2 * block_size) + 1], an [int]: the number of
    entries allocated for [processing_units]; [block_size] is the block size
    of [sorted_erasers[0]].  [None] is the division by zero. *)
Definition max_units_for (chip_size block_size : Z) : option Z :=
  if 2 * block_size =? 0 then None
  else Some (to_int (chip_size / (2 * block_size) + 1)).

(** The entries [units] written from index 0 on into an array of
    [max_units] entries; [None] when one of them lies past its end.  The
    array [processing_units] is the last member of the descriptor, and
    [malloc (sizeof (struct action_descriptor)
             + sizeof (struct processing_unit) * max_units)]
    gives it [max_units] entries. *)
Definition store_units (max_units : Z) (units : list processing_unit)
    : option (list processing_unit) :=
  if Z.of_nat (length units) <=? max_units then Some units else None.

(** [prepare_action_descriptor]; [None] where the source calls [exit], where
    it divides by zero and where [fill_action_descriptor] writes past the
    entries allocated for it. *)
Definition prepare_action_descriptor (chip : flashchip)
    (oldcontents newcontents : list Z) : option action_descriptor :=
  let chip_size := to_uint (total_size chip * 1024) in
  let block_size := max_modified oldcontents newcontents chip_size in
  match fill_sorted_erasers chip block_size with
  | None => None
  | Some sorted_erasers =>
      let block_size :=
        eraser_size (block_erasers chip)
                    (nth 0 sorted_erasers (mkEraser 0 0)) in
      match max_units_for chip_size block_size with
      | None => None
      | Some max_units =>
          match fill_action_descriptor oldcontents newcontents sorted_erasers
                  (block_erasers chip) chip_size (length sorted_erasers)
                  (flash_erase_value chip) with
          | None => None
          | Some units =>
              match store_units max_units units with
              | None => None
              | Some units => Some (mkDescriptor oldcontents newcontents units)
              end
          end
      end
  end.

(** ** flashrom.c: the programmer and the hardware *)

Inductive error_action := error_fail | error_ignore.

(** The globals the executor reads: [programmer_table[programmer].paranoid]
    and [access_denied_action]. *)
Record programmer_state := mkProgrammer {
  paranoid : bool;
  access_denied_action : error_action
}.

(** One call through a pointer of the chip descriptor; a read is logged
    with the bytes it gave and an access check with the value it returned. *)
Inductive event :=
| EvErase (addr len : Z)
| EvWrite (addr len : Z)
| EvRead (addr len : Z) (data : list Z)
| EvAccess (addr len : Z) (rc : Z).

(** The hardware: the contents of the array and the calls made so far, the
    latest first. *)
Record hw := mkHw { mem : list Z; trace : list event }.

Definition call_erase (f : erase_fn) (h : hw) (addr len : Z) : Z * hw :=
  let '(rc, m) := f (mem h) addr len in
  (rc, mkHw m (EvErase addr len :: trace h)).

Definition call_write (f : write_fn) (h : hw) (buf : list Z) (start len : Z)
    : Z * hw :=
  let '(rc, m) := f (mem h) buf start len in
  (rc, mkHw m (EvWrite start len :: trace h)).

Definition call_read (f : read_fn) (h : hw) (start len : Z)
    : Z * list Z * hw :=
  let '(rc, data, m) := f (mem h) start len in
  (rc, data, mkHw m (EvRead start len data :: trace h)).

Definition call_access (f : access_fn) (h : hw) (start len read : Z)
    : Z * hw :=
  let rc := f (mem h) start len read in
  (rc, mkHw (mem h) (EvAccess start len rc :: trace h)).

Definition ignore_error (p : programmer_state) (err : Z) : bool :=
  if err =? ACCESS_DENIED then
    match access_denied_action p with
    | error_ignore => true
    | error_fail => false
    end
  else false.

(** [int min(int a, int b)] of helpers.c on two [unsigned] arguments. *)
Definition min_int (a b : Z) : Z := Z.min (to_int a) (to_int b).

(** [buf + n]. *)
Definition ptr_add (buf : list Z) (n : Z) : list Z := skipn (Z.to_nat n) buf.

(** [memset (buf + off, c, len)] on the buffer [buf]. *)
Definition memset (buf : list Z) (off c len : Z) : list Z :=
  firstn (Z.to_nat off) buf
  ++ repeat c (Nat.min (Z.to_nat len) (length buf - Z.to_nat off))
  ++ skipn (Z.to_nat off + Z.to_nat len) buf.

(** [memcmp (a, b, n) == 0]. *)
Definition memcmp_eq (a b : list Z) (n : Z) : bool :=
  forallb (fun i => byte_at a i =? byte_at b i) (zrange 0 n).

Definition compare_range (wantbuf havebuf : list Z) (start len : Z) : Z :=
  let failcount :=
    fold_left
      (fun failcount i =>
         if byte_at wantbuf i =? byte_at havebuf i then failcount
         else failcount + 1)
      (zrange 0 len) 0 in
  if failcount =? 0 then 0 else -1.

(** The loop of [verify_range] for a paranoid programmer, from chunk offset
    [i] on, with the current [ret].  Every turn takes one unit of [fuel];
    [None] when it runs out (a chip with [page_size = 0] never leaves the
    loop). *)
Fixpoint verify_chunks (fuel : nat) (p : programmer_state) (chip : flashchip)
    (read : read_fn) (h : hw) (cmpbuf : list Z) (start len i ret : Z)
    : option (Z * hw) :=
  if i <? len then
    match fuel with
    | O => None
    | S fuel' =>
        let chunksize := to_uint (min_int (page_size chip) (to_uint (len - i))) in
        let '(tmp, readbuf, h) :=
          call_read read h (to_uint (start + i)) chunksize in
        if negb (tmp =? 0) then
          if ignore_error p tmp then
            verify_chunks fuel' p chip read h cmpbuf start len
                          (to_uint (i + chunksize)) tmp
          else Some (tmp, h)
        else
          let '(denied, h) :=
            match check_access chip with
            | Some access =>
                let '(tmp, h) :=
                  call_access access h (to_uint (start + i)) chunksize 0 in
                (negb (tmp =? 0) && ignore_error p tmp, h)
            | None => (false, h)
            end in
          if denied then
            verify_chunks fuel' p chip read h cmpbuf start len
                          (to_uint (i + chunksize)) ret
          else
            let failcount :=
              compare_range (ptr_add cmpbuf i) readbuf
                            (to_uint (start + i)) chunksize in
            if negb (failcount =? 0) then Some (-1, h)
            else
              verify_chunks fuel' p chip read h cmpbuf start len
                            (to_uint (i + chunksize)) ret
    end
  else Some (ret, h).

(** [verify_range]: 0 for success; [start] and [len] are [unsigned]. *)
Definition verify_range (p : programmer_state) (chip : flashchip) (h : hw)
    (cmpbuf : list Z) (start len : Z) : option (Z * hw) :=
  if len =? 0 then Some (-1, h)
  else
    match chip_read chip with
    | None => Some (-1, h)
    | Some read =>
        if to_uint (total_size chip * 1024) <? to_uint (start + len) then
          Some (-1, h)
        else if paranoid p then
          verify_chunks (Z.to_nat len) p chip read h cmpbuf start len 0 0
        else
          let '(tmp, readbuf, h) := call_read read h start len in
          if negb (tmp =? 0) && negb (ignore_error p tmp) then Some (tmp, h)
          else
            let failcount := compare_range cmpbuf readbuf start len in
            if negb (failcount =? 0) then Some (-1, h) else Some (0, h)
    end.

Definition check_erased_range (p : programmer_state) (chip : flashchip)
    (h : hw) (start len : Z) : option (Z * hw) :=
  let erased_value := ERASED_VALUE chip in
  let cmpbuf := repeat erased_value (Z.to_nat len) in
  verify_range p chip h cmpbuf start len.

(** ** flashrom.c: the decisions of the executor *)

Definition need_erase_gran_bytes (have want : list Z) (len gran erased_value : Z)
    : Z :=
  if existsb
       (fun j =>
          let limit := to_uint (min_int gran (to_uint (len - j * gran))) in
          negb (memcmp_eq (ptr_add have (j * gran)) (ptr_add want (j * gran)) limit)
          && existsb (fun i => negb (byte_at have (j * gran + i) =? erased_value))
                     (zrange 0 limit))
       (zrange 0 (len / gran))
  then 1 else 0.

Definition need_erase (have want : list Z) (len : Z) (gran : write_granularity)
    (erased_value : Z) : Z :=
  match gran with
  | write_gran_1bit =>
      if existsb
           (fun i => negb (Z.land (byte_at have i) (byte_at want i)
                           =? byte_at want i))
           (zrange 0 len)
      then 1 else 0
  | write_gran_1byte =>
      if existsb
           (fun i => negb (byte_at have i =? byte_at want i)
                     && negb (byte_at have i =? erased_value))
           (zrange 0 len)
      then 1 else 0
  | write_gran_128bytes => need_erase_gran_bytes have want len 128 erased_value
  | write_gran_256bytes => need_erase_gran_bytes have want len 256 erased_value
  | write_gran_264bytes => need_erase_gran_bytes have want len 264 erased_value
  | write_gran_512bytes => need_erase_gran_bytes have want len 512 erased_value
  | write_gran_528bytes => need_erase_gran_bytes have want len 528 erased_value
  | write_gran_1024bytes => need_erase_gran_bytes have want len 1024 erased_value
  | write_gran_1056bytes => need_erase_gran_bytes have want len 1056 erased_value
  | write_gran_1byte_implicit_erase => 0
  end.

Definition stride_of (gran : write_granularity) : Z :=
  match gran with
  | write_gran_1bit | write_gran_1byte | write_gran_1byte_implicit_erase => 1
  | write_gran_128bytes => 128
  | write_gran_256bytes => 256
  | write_gran_264bytes => 264
  | write_gran_512bytes => 512
  | write_gran_528bytes => 528
  | write_gran_1024bytes => 1024
  | write_gran_1056bytes => 1056
  end.

(** The loop of [get_next_write] over the chunks [idxs]: the values of
    [need_write], [rel_start] and [i] it ends with; [i_end] is the value of
    [i] when the loop runs to its bound. *)
Fixpoint next_write_scan (have want : list Z) (len stride : Z) (idxs : list Z)
    (need_write : bool) (rel_start i_end : Z) : bool * Z * Z :=
  match idxs with
  | [] => (need_write, rel_start, i_end)
  | i :: idxs' =>
      let limit := to_uint (min_int stride (to_uint (len - i * stride))) in
      if negb (memcmp_eq (ptr_add have (i * stride)) (ptr_add want (i * stride))
                         limit)
      then
        if need_write
        then next_write_scan have want len stride idxs' need_write rel_start i_end
        else next_write_scan have want len stride idxs' true (i * stride) i_end
      else
        if need_write then (need_write, rel_start, i)
        else next_write_scan have want len stride idxs' need_write rel_start i_end
  end.

(** [get_next_write]: the length of the first run to write and the new
    value of [*first_start]. *)
Definition get_next_write (have want : list Z) (len first_start : Z)
    (gran : write_granularity) : Z * Z :=
  let stride := stride_of gran in
  let '(need_write, rel_start, i) :=
    next_write_scan have want len stride (zrange 0 (len / stride))
                    false 0 (len / stride) in
  let first_len :=
    if need_write then to_uint (min_int (to_uint (i * stride - rel_start)) len)
    else 0 in
  (first_len, to_uint (first_start + rel_start)).

Definition write_flash (chip : flashchip) (h : hw) (buf : list Z)
    (start len : Z) : Z * hw :=
  match chip_write chip with
  | None => (-1, h)
  | Some write => call_write write h buf start len
  end.

(** ** flashrom.c: the executor *)

(** The [while] loop of [erase_and_write_block_helper]: [cur] and [new] are
    the two buffers moved up by [start].  Every write takes one unit of
    [fuel]; [None] when it runs out or when the verification does not end. *)
Fixpoint write_runs (fuel : nat) (p : programmer_state) (chip : flashchip)
    (h : hw) (start len : Z) (cur new : list Z) (block_was_erased : bool)
    (starthere ret : Z) : option (Z * hw) :=
  let '(lenhere, starthere) :=
    get_next_write (ptr_add cur starthere) (ptr_add new starthere)
                   (to_uint (len - starthere)) starthere (gran chip) in
  if lenhere =? 0 then Some (ret, h)
  else
    match fuel with
    | O => None
    | S fuel' =>
        let '(ret, h) :=
          write_flash chip h (ptr_add new starthere)
                      (to_uint (start + starthere)) lenhere in
        if negb (ret =? 0) then Some (ret, h)
        else if paranoid p && negb block_was_erased then
          match verify_range p chip h (ptr_add new starthere)
                             (to_uint (start + starthere)) lenhere with
          | None => None
          | Some (failed, h) =>
              if negb (failed =? 0) then Some (-1, h)
              else write_runs fuel' p chip h start len cur new block_was_erased
                              (to_uint (starthere + lenhere)) ret
          end
        else write_runs fuel' p chip h start len cur new block_was_erased
                        (to_uint (starthere + lenhere)) ret
    end.

(** [erase_and_write_block_helper]: the return value, the hardware and the
    buffer [curcontents], which an erase overwrites with the erased value. *)
Definition erase_and_write_block_helper (p : programmer_state)
    (chip : flashchip) (h : hw) (start len : Z)
    (curcontents newcontents : list Z) (erasefn : erase_fn)
    : option (Z * hw * list Z) :=
  let cur := ptr_add curcontents start in
  let new := ptr_add newcontents start in
  let run_writes h curcontents block_was_erased :=
    match write_runs (S (Z.to_nat len)) p chip h start len
                     (ptr_add curcontents start) new block_was_erased 0 0 with
    | None => None
    | Some (ret, h) => Some (ret, h, curcontents)
    end in
  if negb (need_erase cur new len (gran chip) 255 =? 0) then
    let '(ret, h) := call_erase erasefn h start len in
    if negb (ret =? 0) then Some (ret, h, curcontents)
    else
      let checked :=
        if paranoid p then check_erased_range p chip h start len
        else Some (0, h) in
      match checked with
      | None => None
      | Some (failed, h) =>
          if negb (failed =? 0) then Some (-1, h, curcontents)
          else
            run_writes h (memset curcontents start (ERASED_VALUE chip) len) true
      end
  else run_writes h curcontents false.

(** The call [do_something (flash, base, pu->block_size, ...,
    block_erasers[pu->block_eraser_index].block_erase)] of
    [walk_eraseregions].  The pointer is handed on as it stands in the
    table, null or not; [erase_and_write_block_helper] calls through it only
    when [need_erase] asks for an erase.  A null pointer gives [None] there
    and is of no consequence otherwise: the function put in its place below
    is never called. *)
Definition do_something (p : programmer_state) (chip : flashchip) (h : hw)
    (start len : Z) (curcontents newcontents : list Z)
    (block_erase : option erase_fn) : option (Z * hw * list Z) :=
  match block_erase with
  | Some erasefn =>
      erase_and_write_block_helper p chip h start len curcontents newcontents
                                   erasefn
  | None =>
      if negb (need_erase (ptr_add curcontents start)
                          (ptr_add newcontents start) len (gran chip) 255 =? 0)
      then None
      else
        erase_and_write_block_helper p chip h start len curcontents
                                     newcontents (fun mem _ _ => (0, mem))
  end.

(** The blocks of one processing unit, from [base] on. The result is
    [(true, rc)] when the function returns from inside the loop. *)
Fixpoint walk_unit (fuel : nat) (p : programmer_state) (chip : flashchip)
    (h : hw) (pu : processing_unit) (base top : Z)
    (oldcontents newcontents : list Z) (rc : Z)
    : option (bool * Z * hw * list Z) :=
  if base <? top then
    match fuel with
    | O => None
    | S fuel' =>
        match do_something p chip h base (to_uint (unit_block_size pu))
                oldcontents newcontents
                (block_erase (eraser_at (block_erasers chip)
                                        (block_eraser_index pu))) with
        | None => None
        | Some (rc, h, oldcontents) =>
            if negb (rc =? 0) && negb (ignore_error p rc)
            then Some (true, rc, h, oldcontents)
            else
              walk_unit fuel' p chip h pu
                        (to_uint (base + unit_block_size pu)) top
                        oldcontents newcontents 0
        end
    end
  else Some (false, rc, h, oldcontents).

(** [walk_eraseregions] with [erase_and_write_block_helper] for
    [do_something], over the units from [units] on. *)
Fixpoint walk_units (p : programmer_state) (chip : flashchip) (h : hw)
    (units : list processing_unit) (oldcontents newcontents : list Z) (rc : Z)
    : option (Z * hw * list Z) :=
  match units with
  | [] => Some (rc, h, oldcontents)
  | pu :: units' =>
      if num_blocks pu =? 0 then Some (rc, h, oldcontents)
      else
        let base := to_uint (offset pu) in
        let top := to_uint (offset pu + unit_block_size pu * num_blocks pu) in
        match walk_unit (Z.to_nat (num_blocks pu)) p chip h pu base top
                        oldcontents newcontents rc with
        | None => None
        | Some (true, rc, h, oldcontents) => Some (rc, h, oldcontents)
        | Some (false, rc, h, oldcontents) =>
            walk_units p chip h units' oldcontents newcontents rc
        end
  end.

Definition walk_eraseregions (p : programmer_state) (chip : flashchip)
    (h : hw) (descriptor : action_descriptor) : option (Z * hw * list Z) :=
  walk_units p chip h (processing_units descriptor)
             (oldcontents descriptor) (newcontents descriptor) 0.

Definition erase_and_write_flash (p : programmer_state) (chip : flashchip)
    (h : hw) (descriptor : action_descriptor) : option (Z * hw * list Z) :=
  walk_eraseregions p chip h descriptor.

(** ** flashrom.c: the functions kept for shutdown and for chip restore *)

Definition SHUTDOWN_MAXFN : nat := 32.
Definition CHIP_RESTORE_MAXFN : nat := 4.

Section Callbacks.

(** What the registered functions act on: the programmer and the chip, the
    two tables apart.  A registered function returns an [int] and leaves
    the world changed. *)
Variable world : Type.

(** What the [void *data] of a shutdown function points to. *)
Variable data : Type.

(** [struct flashctx]. *)
Variable flashctx : Type.

(** An entry of [shutdown_fn]. *)
Record shutdown_func_data := mkShutdownFunc {
  shutdown_func : data -> world -> Z * world;
  shutdown_data : data
}.

(** The globals [shutdown_fn], of which the list holds the
    [shutdown_fn_count] entries in use, and [may_register_shutdown]. *)
Record shutdown_state := mkShutdownState {
  shutdown_fn : list shutdown_func_data;
  may_register_shutdown : bool
}.

Definition register_shutdown (st : shutdown_state)
    (function : data -> world -> Z * world) (d : data) : Z * shutdown_state :=
  if (SHUTDOWN_MAXFN <=? length (shutdown_fn st))%nat then (1, st)
  else if negb (may_register_shutdown st) then (1, st)
  else
    (0, mkShutdownState (shutdown_fn st ++ [mkShutdownFunc function d])
                        (may_register_shutdown st)).

(** The loop of [programmer_shutdown]:
    [while (shutdown_fn_count > 0) { i = --shutdown_fn_count; ret |= ...}]. *)
Fixpoint shutdown_loop (fns : list shutdown_func_data) (shutdown_fn_count : nat)
    (ret : Z) (w : world) : Z * world :=
  match shutdown_fn_count with
  | O => (ret, w)
  | S i =>
      match nth_error fns i with
      | None => (ret, w)
      | Some f =>
          let '(r, w) := shutdown_func f (shutdown_data f) w in
          shutdown_loop fns i (Z.lor ret r) w
      end
  end.

Definition programmer_shutdown (st : shutdown_state) (w : world)
    : Z * shutdown_state * world :=
  let '(ret, w) :=
    shutdown_loop (shutdown_fn st) (length (shutdown_fn st)) 0 w in
  (ret, mkShutdownState [] false, w).

(** An entry of [chip_restore_fn]; [status] is a [uint8_t]. *)
Record chip_restore_func_data := mkChipRestoreFunc {
  restore_func : flashctx -> Z -> world -> Z * world;
  restore_flash : flashctx;
  restore_status : Z
}.

(** [register_chip_restore] on the [chip_restore_fn_count] entries in use
    of [chip_restore_fn]. *)
Definition register_chip_restore (fns : list chip_restore_func_data)
    (func : flashctx -> Z -> world -> Z * world) (flash : flashctx) (status : Z)
    : Z * list chip_restore_func_data :=
  if (CHIP_RESTORE_MAXFN <=? length fns)%nat then (1, fns)
  else (0, fns ++ [mkChipRestoreFunc func flash status]).

Fixpoint chip_restore_loop (fns : list chip_restore_func_data)
    (chip_restore_fn_count : nat) (rc : Z) (w : world) : Z * world :=
  match chip_restore_fn_count with
  | O => (rc, w)
  | S i =>
      match nth_error fns i with
      | None => (rc, w)
      | Some f =>
          let '(r, w) := restore_func f (restore_flash f) (restore_status f) w in
          chip_restore_loop fns i (Z.lor rc r) w
      end
  end.

Definition chip_restore (fns : list chip_restore_func_data) (w : world)
    : Z * list chip_restore_func_data * world :=
  let '(rc, w) := chip_restore_loop fns (length fns) 0 w in
  (rc, [], w).

End Callbacks.

Arguments mkShutdownFunc {world data}.
Arguments shutdown_func {world data}.
Arguments shutdown_data {world data}.
Arguments mkShutdownState {world data}.
Arguments shutdown_fn {world data}.
Arguments may_register_shutdown {world data}.
Arguments register_shutdown {world data}.
Arguments shutdown_loop {world data}.
Arguments programmer_shutdown {world data}.
Arguments mkChipRestoreFunc {world flashctx}.
Arguments restore_func {world flashctx}.
Arguments restore_flash {world flashctx}.
Arguments restore_status {world flashctx}.
Arguments register_chip_restore {world flashctx}.
Arguments chip_restore_loop {world flashctx}.
Arguments chip_restore {world flashctx}.

(** ** flashrom.c: the parameters of the programmer *)

(** A C string is the list of its characters, the terminating NUL left out;
    the NULL pointer is [None]. *)
Definition cstring : Type := list ascii.

(** [needle] is a prefix of [s]. *)
Fixpoint starts_with (s needle : cstring) : bool :=
  match needle, s with
  | [], _ => true
  | c :: needle', d :: s' => Ascii.eqb c d && starts_with s' needle'
  | _ :: _, [] => false
  end.

(** [strstr (s, needle)]: the offset of the first occurrence of [needle]
    in [s]. *)
Fixpoint strstr (s needle : cstring) : option nat :=
  if starts_with s needle then Some O
  else
    match s with
    | [] => None
    | _ :: s' => option_map S (strstr s' needle)
    end.

(** [strchr (delim, c) != NULL], for a character [c] of a string. *)
Definition strchr (delim : cstring) (c : ascii) : bool :=
  existsb (Ascii.eqb c) delim.

Fixpoint strcspn (s delim : cstring) : nat :=
  match s with
  | [] => O
  | c :: s' => if strchr delim c then O else S (strcspn s' delim)
  end.

Fixpoint strspn (s delim : cstring) : nat :=
  match s with
  | [] => O
  | c :: s' => if strchr delim c then S (strspn s' delim) else O
  end.

(** The test in the loop of [extract_param]: the needle at offset
    [param_pos] is followed by ['='] and stands at the beginning of the
    string or after a delimiter. *)
Definition param_here (haystack needle delim : cstring) (param_pos : nat)
    : bool :=
  match nth_error haystack (param_pos + length needle) with
  | Some c =>
      if Ascii.eqb c "="%char then
        if (param_pos =? 0)%nat then true
        else
          match nth_error haystack (param_pos - 1) with
          | Some before => strchr delim before
          | None => false
          end
      else false
  | None => false
  end.

(** The [do ... while (1)] loop of [extract_param]; [param_pos] is an
    offset into [haystack], or [None] for NULL.  [Some None] is the
    [return NULL] inside the loop and [Some (Some pos)] a [break]; every
    turn past the first takes one unit of [fuel], [None] when it runs
    out. *)
Fixpoint find_param (fuel : nat) (haystack needle delim : cstring)
    (param_pos : option nat) : option (option nat) :=
  match param_pos with
  | None => Some None
  | Some pos =>
      if param_here haystack needle delim pos then Some (Some pos)
      else
        match fuel with
        | O => None
        | S fuel' =>
            find_param fuel' haystack needle delim
              (option_map (fun k => (pos + 1 + k)%nat)
                          (strstr (skipn (pos + 1) haystack) needle))
        end
  end.

(** [extract_param]: the string returned and the string [*haystack] is
    left as, each [None] for NULL. *)
Definition extract_param (haystack : option cstring) (needle delim : cstring)
    : option (option cstring * option cstring) :=
  let needlelen := length needle in
  if (needlelen =? 0)%nat then Some (None, haystack)
  else
    match haystack with
    | None => Some (None, None)
    | Some hs =>
        match find_param (length hs) hs needle delim (strstr hs needle) with
        | None => None
        | Some None => Some (None, haystack)
        | Some (Some param_pos) =>
            let opt_pos := (param_pos + needlelen + 1)%nat in
            let optlen := strcspn (skipn opt_pos hs) delim in
            let opt := firstn optlen (skipn opt_pos hs) in
            let rest := (opt_pos + optlen)%nat in
            let rest := (rest + strspn (skipn rest hs) delim)%nat in
            Some (Some opt, Some (firstn param_pos hs ++ skipn rest hs))
        end
    end.

(** [extract_programmer_param] on the global [programmer_param]. *)
Definition extract_programmer_param (programmer_param : option cstring)
    (param_name : cstring) : option (option cstring * option cstring) :=
  extract_param programmer_param param_name [","%char].

(** ** flashrom.c: the verification after the run *)

Definition VERIFY_OFF : Z := 0.
Definition VERIFY_FULL : Z := 1.
Definition VERIFY_PARTIAL : Z := 2.

(** The loop of [verify_flash] over the processing units, with the current
    [ret]; it stops at the terminating entry or at the first range that
    does not verify. *)
Fixpoint verify_units (p : programmer_state) (chip : flashchip) (h : hw)
    (buf : list Z) (units : list processing_unit) (ret : Z)
    : option (Z * hw) :=
  match units with
  | [] => Some (ret, h)
  | pu :: units' =>
      if num_blocks pu =? 0 then Some (ret, h)
      else
        match verify_range p chip h (ptr_add buf (offset pu))
                (to_uint (offset pu))
                (to_uint (unit_block_size pu * num_blocks pu)) with
        | None => None
        | Some (ret, h) =>
            if negb (ret =? 0) then Some (ret, h)
            else verify_units p chip h buf units' ret
        end
  end.

(** [verify_flash].  The source declares [int ret] without a value and
    reads it unassigned when [verify_it] is [VERIFY_PARTIAL] and the first
    unit is the terminating entry: [ret_unassigned] is what it holds
    then. *)
Definition verify_flash (p : programmer_state) (chip : flashchip) (h : hw)
    (descriptor : action_descriptor) (verify_it : Z) (ret_unassigned : Z)
    : option (Z * hw) :=
  let total_size := to_uint (total_size chip * 1024) in
  let buf := newcontents descriptor in
  let verified :=
    if verify_it =? VERIFY_PARTIAL then
      verify_units p chip h buf (processing_units descriptor) ret_unassigned
    else verify_range p chip h buf 0 total_size in
  match verified with
  | None => None
  | Some (ret, h) =>
      if ret =? ACCESS_DENIED then
        match access_denied_action p with
        | error_ignore => Some (0, h)
        | error_fail => Some (ret, h)
        end
      else Some (ret, h)
  end.

(** ** flashrom.c: whether the chip can be worked on *)

Inductive test_state := OK | NT | BAD | DEP | NA.

(** The field [tested] of [struct flashchip]. *)
Record tested := mkTested {
  tested_probe : test_state;
  tested_read : test_state;
  tested_erase : test_state;
  tested_write : test_state;
  tested_uread : test_state
}.

Definition test_state_eqb (a b : test_state) : bool :=
  match a, b with
  | OK, OK | NT, NT | BAD, BAD | DEP, DEP | NA, NA => true
  | _, _ => false
  end.

(** [check_block_eraser]: 0 for an eraser with an erase function and an
    eraseblock layout. *)
Definition check_block_eraser (chip : flashchip) (k : nat) : Z :=
  let eraser := eraser_at (block_erasers chip) k in
  let no_block_erase :=
    match block_erase eraser with
    | None => true
    | Some _ => false
    end in
  let no_count := count (nth 0 (eraseblocks eraser) no_eraseblock) =? 0 in
  if no_block_erase && no_count then 1
  else if no_block_erase && negb no_count then 1
  else if negb no_block_erase && no_count then 1
  else 0.

Definition count_usable_erasers (chip : flashchip) : Z :=
  fold_left
    (fun usable_erasefunctions k =>
       if check_block_eraser chip k =? 0
       then to_uint (usable_erasefunctions + 1)
       else usable_erasefunctions)
    (seq 0 NUM_ERASEFUNCTIONS) 0.

(** [chip_safety_check]: 0 when the actions asked for may go ahead.  The
    flags are [int]s, true when not 0; [programmer_may_write] is the
    global of that name and [t] the field [tested] of the chip. *)
Definition chip_safety_check (programmer_may_write : Z) (chip : flashchip)
    (t : tested) (force read_it write_it erase_it verify_it : Z) : Z :=
  let set (x : Z) := negb (x =? 0) in
  if negb (set programmer_may_write) && (set write_it || set erase_it)
     && negb (set force)
  then 1
  else
    let read_checks :=
      if set read_it || set erase_it || set write_it || set verify_it then
        if test_state_eqb (tested_read t) BAD && negb (set force) then 1
        else
          match chip_read chip with
          | None => 1
          | Some _ => 0
          end
      else 0 in
    if negb (read_checks =? 0) then 1
    else
      let erase_checks :=
        if set erase_it || set write_it then
          if test_state_eqb (tested_erase t) NA then 1
          else if test_state_eqb (tested_erase t) BAD && negb (set force) then 1
          else if count_usable_erasers chip =? 0 then 1
          else 0
        else 0 in
      if negb (erase_checks =? 0) then 1
      else if set write_it then
        if test_state_eqb (tested_write t) NA then 1
        else if test_state_eqb (tested_write t) BAD && negb (set force) then 1
        else
          match chip_write chip with
          | None => 1
          | Some _ => 0
          end
      else 0.

(** ** flashrom.c: test patterns *)

(** Conversion to [uint8_t]. *)
Definition to_uint8 (z : Z) : Z := z mod 256.

(** [buf[i] = v] on a buffer of [uint8_t].  A write outside the buffer is
    undefined in C; here it changes nothing. *)
Definition set_byte (buf : list Z) (i v : Z) : list Z :=
  if i <? 0 then buf else upd_nth (Z.to_nat i) (fun _ => to_uint8 v) buf.

(** [for (i = 0; i < size; i++) buf[i] = f (i);] *)
Definition fill_bytes (f : Z -> Z) (size : Z) (buf : list Z) : list Z :=
  fold_left (fun buf i => set_byte buf i (f i)) (zrange 0 size) buf.

(** The loop of the variants 10 and 11 with its bound [size % 2], and the
    statement after it, in which [i] has the value the loop left; [g] is
    the identity or the complement. *)
Definition fill_counter (g : Z -> Z) (size : Z) (buf : list Z) : list Z :=
  let buf :=
    fold_left
      (fun buf i =>
         let buf := set_byte buf (i * 2) (g (Z.land (Z.shiftr i 8) 255)) in
         set_byte buf (i * 2 + 1) (g (Z.land i 255)))
      (zrange 0 (size mod 2)) buf in
  let i := size mod 2 in
  if negb (Z.land size 1 =? 0)
  then set_byte buf (i * 2) (g (Z.land (Z.shiftr i 8) 255))
  else buf.

(** The block numbers written into the patterns 0 to 7. *)
Definition write_block_numbers (size : Z) (buf : list Z) : list Z :=
  fold_left
    (fun buf i =>
       let buf := set_byte buf (i * 256 + 254) (Z.land (Z.shiftr i 8) 255) in
       set_byte buf (i * 256 + 255) (Z.land i 255))
    (zrange 0 (size / 256)) buf.

(** [generate_testpattern]: the return value and the buffer, [None] for a
    null pointer. *)
Definition generate_testpattern (buf : option (list Z)) (size variant : Z)
    : Z * option (list Z) :=
  match buf with
  | None => (1, None)
  | Some buf =>
      let buf :=
        match variant with
        | 0 => fill_bytes (fun i => Z.lor (Z.shiftl (Z.land i 15) 4) 5) size buf
        | 1 => fill_bytes (fun i => Z.lor (Z.shiftl (Z.land i 15) 4) 10) size buf
        | 2 => fill_bytes (fun i => Z.lor 80 (Z.land i 15)) size buf
        | 3 => fill_bytes (fun i => Z.lor 160 (Z.land i 15)) size buf
        | 4 => fill_bytes (fun i => Z.shiftl (Z.land i 15) 4) size buf
        | 5 => fill_bytes (fun i => Z.land i 15) size buf
        | 6 => memset buf 0 0 size
        | 7 => memset buf 0 255 size
        | 8 => fill_bytes (fun i => Z.land i 255) size buf
        | 9 => fill_bytes (fun i => Z.lnot (Z.land i 255)) size buf
        | 10 => fill_counter (fun v => v) size buf
        | 11 => fill_counter Z.lnot size buf
        | 12 => memset buf 0 0 size
        | 13 => memset buf 0 255 size
        | _ => buf
        end in
      let buf :=
        if (0 <=? variant) && (variant <=? 7)
        then write_block_numbers size buf
        else buf in
      (0, Some buf)
  end.

(** ** An ideal master

    Each erase sets the block to the erased value, each write copies the
    bytes it is given, each read returns the contents of the array. *)

Definition memcpy (buf : list Z) (off : Z) (src : list Z) (len : Z) : list Z :=
  firstn (Z.to_nat off) buf
  ++ firstn (Nat.min (Z.to_nat len) (length buf - Z.to_nat off))
            (src ++ repeat 0 (Z.to_nat len))
  ++ skipn (Z.to_nat off + Z.to_nat len) buf.

Definition ideal_erase (erased_value : Z) : erase_fn :=
  fun m addr len => (0, memset m addr erased_value len).

Definition ideal_write : write_fn :=
  fun m buf start len => (0, memcpy m start buf len).

Definition ideal_read : read_fn :=
  fun m start len => (0, firstn (Z.to_nat len) (ptr_add m start), m).

(** ** Statements about eraser selection *)

(** The reading of the tie-break under which the eraser enumerated first is
    the one kept: of two qualifying erasers of equal block size the list has
    the one of lower index and not the other. *)
Definition keeps_earlier_eraser (chip : flashchip) (erase_size : Z) : Prop :=
  forall k1 k2 n1 n2 sorted,
    (k1 < k2 < NUM_ERASEFUNCTIONS)%nat ->
    qualifies (block_erasers chip) erase_size k1 = Some n1 ->
    qualifies (block_erasers chip) erase_size k2 = Some n2 ->
    size (region_at (block_erasers chip) k1 n1)
    = size (region_at (block_erasers chip) k2 n2) ->
    fill_sorted_erasers chip erase_size = Some sorted ->
    In (mkEraser k1 n1) sorted /\ ~ In (mkEraser k2 n2) sorted.

(** What holds of the array [sorted] after the erasers below [n] have been
    seen: it is strictly ascending in block size, its entries are qualifying
    erasers below [n], and for every qualifying eraser below [n] it has an
    entry of the same block size that was enumerated no earlier. *)
Definition selection_inv (erasers : list block_eraser) (erase_size : Z)
    (n : nat) (sorted : list eraser) : Prop :=
  StronglySorted Z.lt (map (eraser_size erasers) sorted)
  /\ (forall e, In e sorted ->
        (eraser_index e < n)%nat
        /\ qualifies erasers erase_size (eraser_index e) = Some (region_index e))
  /\ (forall k m, (k < n)%nat ->
        qualifies erasers erase_size k = Some m ->
        exists e, In e sorted
                  /\ eraser_size erasers e = size (region_at erasers k m)
                  /\ (k <= eraser_index e)%nat).

(** A chip of 1 KiB with two erase commands for blocks of 256 bytes and one
    for the whole chip, behind an ideal master. *)
Definition one_region (s c : Z) (erased_value : Z) : block_eraser :=
  mkBlockEraser [mkEraseblock s c] (Some (ideal_erase erased_value)).

Definition twin_chip : flashchip :=
  mkFlashchip 1 256 0 write_gran_256bytes
    [one_region 256 4 255; one_region 256 4 255; one_region 1024 1 255]
    (Some ideal_write) (Some ideal_read) None.

(** A chip with blocks of 256 bytes and blocks of 384 bytes, which are not
    made of whole blocks of 256. *)
Definition skew_chip : flashchip :=
  mkFlashchip 1 256 0 write_gran_256bytes
    [one_region 256 4 255; one_region 384 2 255]
    (Some ideal_write) (Some ideal_read) None.

(** A chip of 1024 bytes whose only eraser takes the chip as a whole. *)
Definition lone_chip : flashchip :=
  mkFlashchip 1 256 0 write_gran_256bytes
    [one_region 1024 1 255]
    (Some ideal_write) (Some ideal_read) None.

(** A chip whose first eraser has a function and a region without blocks. *)
Definition void_chip : flashchip :=
  mkFlashchip 1 256 0 write_gran_256bytes
    [one_region 0 0 255; one_region 256 4 255]
    (Some ideal_write) (Some ideal_read) None.

(** ** Statements about the range maps *)

(** What the loops over the maps leave alone: the block sizes, the limits
    and the lengths of the block maps. *)
Definition shape (maps : list range_map) : list (Z * Z * nat) :=
  map (fun m => (block_size m, limit m, length (block_map m))) maps.

(** [maps'] is [maps] with some blocks of the levels below [i] unmarked. *)
Definition cleared_below (i : nat) (maps maps' : list range_map) : Prop :=
  shape maps' = shape maps
  /\ (forall k j, mark_at maps' k j = mark_at maps k j
                  \/ mark_at maps' k j = no_mark)
  /\ (forall k j, (i <= k)%nat -> mark_at maps' k j = mark_at maps k j).

(** The block sizes of the levels, smallest first. *)
Definition has_sizes (sizes : list Z) (maps : list range_map) : Prop :=
  map block_size maps = sizes.

(** Every block map has one entry for each block of its size in the chip. *)
Definition fits (chip_size : Z) (maps : list range_map) : Prop :=
  forall i,
    length (block_map (map_at maps i))
    = Z.to_nat (chip_size / block_size (map_at maps i)).

(** Above the smallest block size a block is marked only by the upward loop,
    which marks it for erase. *)
Definition upper_marks_erase (maps : list range_map) : Prop :=
  forall i j, (1 <= i)%nat ->
    marked (mark_at maps i j) = true -> b_need_erase (mark_at maps i j) = true.

(** Byte [a] lies in block [j] of size [bs]. *)
Definition in_block (bs j a : Z) : Prop := j * bs <= a < (j + 1) * bs.

(** No byte lies in two marked blocks of different levels. *)
Definition levels_disjoint (maps : list range_map) : Prop :=
  forall i1 i2 j1 j2 a,
    i1 <> i2 ->
    marked (mark_at maps i1 j1) = true ->
    marked (mark_at maps i2 j2) = true ->
    in_block (block_size (map_at maps i1)) j1 a ->
    in_block (block_size (map_at maps i2)) j2 a ->
    False.

(** Under a block of level [i] that is marked for erase no block of a lower
    level is marked; the levels have the block sizes [sizes]. *)
Definition nothing_under (sizes : list Z) (i : nat) (maps : list range_map)
    : Prop :=
  forall b k j,
    b_need_erase (mark_at maps i b) = true ->
    (k < i)%nat ->
    b * nth i sizes 0 <= j * nth k sizes 0 < (b + 1) * nth i sizes 0 ->
    mark_at maps k j = no_mark.

(** [maps'] differs from [maps] in the marks of level [i] at most. *)
Definition only_level (i : nat) (maps maps' : list range_map) : Prop :=
  shape maps' = shape maps
  /\ forall k, k <> i -> map_at maps' k = map_at maps k.

(** The children of block [j] of level [i]: with [M] the number of blocks
    of level [i - 1] in one block of level [i], the [M] blocks of level
    [i - 1] from block [j * M] on. *)
Definition children (maps : list range_map) (i : nat) (j : Z) : list Z :=
  let block_mult := block_size (map_at maps i) / block_size (map_at maps (i - 1)) in
  zrange (j * block_mult) (j * block_mult + block_mult).

(** The number of children of block [j] of level [i] that have flag [f]
    set. *)
Definition children_marked (f : b_map -> bool) (maps : list range_map)
    (i : nat) (j : Z) : Z :=
  Z.of_nat (length (filter (fun k => f (mark_at maps (i - 1) k))
                           (children maps i j))).


(** No block of any level is marked. *)
Definition unmarked (maps : list range_map) : Prop :=
  forall i j, mark_at maps i j = no_mark.

(** ** Sample images for [twin_chip]

    [before_image] and [after_image] are 1024 bytes, all ones but for the
    first byte of each of the first two blocks of 256 bytes, which the one
    has as 0 and the other as 1. *)
Definition poke (buf : list Z) (i : nat) (v : Z) : list Z :=
  upd_nth i (fun _ => v) buf.

Definition blank_image : list Z := repeat 255 1024.
Definition before_image : list Z := poke (poke blank_image 0 0) 256 0.
Definition after_image : list Z := poke (poke blank_image 0 1) 256 1.

(** [worn_image] and [fresh_image] are all ones but for the second byte of
    each of the first three blocks of 256 bytes, which the one has as 0 and
    the other as 1.  [patch_before] has a 0 at byte 1, where [patch_after]
    has a 1, and [patch_after] has another 1 at byte 300. *)
Definition patch_before : list Z := poke blank_image 1 0.
Definition patch_after : list Z := poke (poke blank_image 1 1) 300 1.

Definition worn_image : list Z :=
  poke (poke (poke blank_image 1 0) 257 0) 513 0.
Definition fresh_image : list Z :=
  poke (poke (poke blank_image 1 1) 257 1) 513 1.

(** ** Statements about the processing units *)

(** Byte [a] lies in the range of unit [u], from [offset] to
    [offset + num_blocks * block_size]. *)
Definition covers (u : processing_unit) (a : Z) : Prop :=
  offset u <= a < offset u + num_blocks u * unit_block_size u.

(** No byte lies in the ranges of two units of different block sizes. *)
Definition units_disjoint (units : list processing_unit) : Prop :=
  forall u1 u2 a,
    In u1 units -> In u2 units ->
    unit_block_size u1 <> unit_block_size u2 ->
    covers u1 a -> covers u2 a -> False.

(** The reading of the prune under which it separates the levels whatever
    the block sizes are: in the maps the planner ends with no byte lies in
    two marked blocks of different levels, and no byte lies in the ranges of
    two of its units of different block sizes. *)
Definition levels_never_overlap (oldc newc : list Z)
    (sorted_erasers : list eraser) (chip_erasers : list block_eraser)
    (chip_size erased_value : Z) : Prop :=
  forall maps units,
    plan_maps oldc newc sorted_erasers chip_erasers chip_size
              (length sorted_erasers) erased_value = Some maps ->
    fill_action_descriptor oldc newc sorted_erasers chip_erasers chip_size
                           (length sorted_erasers) erased_value = Some units ->
    levels_disjoint maps /\ units_disjoint units.

(** Unit [u] stands for a run of marked blocks of the map [m]. *)
Definition run_of (m : range_map) (u : processing_unit) : Prop :=
  unit_block_size u = block_size m
  /\ exists s,
       offset u = s * block_size m
       /\ 0 <= s
       /\ 0 < num_blocks u
       /\ forall t, s <= t < s + num_blocks u ->
            marked (block_at (block_map m) t) = true.

(** Some unit covers byte [a]. *)
Definition covered (units : list processing_unit) (a : Z) : Prop :=
  exists u, In u units /\ covers u a.

(** The units cover every byte at which the two images differ. *)
Definition covers_differences (oldc newc : list Z) (chip_size : Z)
    (units : list processing_unit) : Prop :=
  forall a, 0 <= a < chip_size ->
    byte_at oldc a <> byte_at newc a -> covered units a.

(** The programmer of the examples: not paranoid, access errors ignored. *)
Definition plain_programmer : programmer_state := mkProgrammer false error_ignore.

(** Planning the change from [oldc] to [newc] and carrying the plan out on
    hardware that holds [oldc]: the return value and the final contents of
    the array. *)
Definition plan_and_execute (p : programmer_state) (chip : flashchip)
    (oldc newc : list Z) : option (Z * list Z) :=
  match prepare_action_descriptor chip oldc newc with
  | None => None
  | Some descriptor =>
      match erase_and_write_flash p chip (mkHw oldc []) descriptor with
      | None => None
      | Some (rc, h, _) => Some (rc, mem h)
      end
  end.

(** ** A chip that erases to zero

    1 KiB behind an ideal master, written byte by byte; an erased byte
    reads 0.  In [stale_block] byte 0 holds 255 where an erased chip has 0,
    and [fresh_block] wants 18 there. *)
Definition zero_chip : flashchip :=
  mkFlashchip 1 256 FEATURE_ERASE_TO_ZERO write_gran_1byte
    [one_region 256 4 0; one_region 1024 1 0]
    (Some ideal_write) (Some ideal_read) None.

Definition stale_block : list Z := poke (repeat 0 1024) 0 255.
Definition fresh_block : list Z := poke (repeat 0 1024) 0 18.

(** ** Statements about the executor *)

Definition is_write (e : event) : bool :=
  match e with
  | EvWrite _ _ => true
  | _ => false
  end.

(** The access check denies a chunk when it returns an error that the
    programmer ignores: [tmp && ignore_error (tmp)]. *)
Definition access_denied (p : programmer_state) (rc : Z) : bool :=
  negb (rc =? 0) && ignore_error p rc.

(** The calls [reads], in the order they were made, read the range from [a]
    to [b] chunk after chunk.  On a chip without an access check what each
    read gave is what [want] has at the addresses it read; on a chip with
    one the check follows the read, for the same chunk, and what the read
    gave is what [want] has unless the check denied the chunk. *)
Inductive reads_back (p : programmer_state) (want : list Z)
    : Z -> Z -> list event -> Prop :=
| reads_back_done : forall a, reads_back p want a a []
| reads_back_chunk : forall a b l data rest,
    0 < l -> a + l <= b ->
    (forall k, 0 <= k < l -> byte_at data k = byte_at want (a + k)) ->
    reads_back p want (a + l) b rest ->
    reads_back p want a b (EvRead a l data :: rest)
| reads_back_checked : forall a b l data rc rest,
    0 < l -> a + l <= b ->
    (access_denied p rc = false ->
     forall k, 0 <= k < l -> byte_at data k = byte_at want (a + k)) ->
    reads_back p want (a + l) b rest ->
    reads_back p want a b (EvRead a l data :: EvAccess a l rc :: rest).

(** In the calls [evs], in the order they were made, every write is
    followed at once by the reading back of the run it wrote. *)
Inductive writes_read_back (p : programmer_state) (want : list Z)
    : list event -> Prop :=
| writes_read_back_nil : writes_read_back p want []
| writes_read_back_other : forall e rest,
    is_write e = false ->
    writes_read_back p want rest ->
    writes_read_back p want (e :: rest)
| writes_read_back_run : forall a l reads rest,
    reads_back p want a (a + l) reads ->
    writes_read_back p want rest ->
    writes_read_back p want (EvWrite a l :: reads ++ rest).

(** When the processing of the block succeeds, every run it wrote was read
    back and found equal to the new contents before anything else was done. *)
Definition written_runs_read_back (p : programmer_state) (chip : flashchip)
    (h : hw) (start len : Z) (curcontents newcontents : list Z)
    (erasefn : erase_fn) : Prop :=
  forall rc h' curcontents',
    erase_and_write_block_helper p chip h start len curcontents newcontents
                                 erasefn = Some (rc, h', curcontents') ->
    rc = 0 ->
    exists evs,
      trace h' = rev evs ++ trace h /\ writes_read_back p newcontents evs.

(** However the processing of the block ends, its calls are the erase, then
    calls that write nothing (the check of the erase), then writes and
    nothing else: no run is read back.  The latest call comes first. *)
Definition written_runs_unread (p : programmer_state) (chip : flashchip)
    (h : hw) (start len : Z) (curcontents newcontents : list Z)
    (erasefn : erase_fn) : Prop :=
  forall rc h' curcontents',
    erase_and_write_block_helper p chip h start len curcontents newcontents
                                 erasefn = Some (rc, h', curcontents') ->
    exists writes checks,
      trace h' = writes ++ checks ++ EvErase start len :: trace h
      /\ Forall (fun e => is_write e = true) writes
      /\ Forall (fun e => is_write e = false) checks.

Definition paranoid_programmer : programmer_state := mkProgrammer true error_ignore.

(** A master whose writes report success and change nothing, as a chip that
    is write protected does; [deaf_chip] is [twin_chip] behind it. *)
Definition deaf_write : write_fn := fun m buf start len => (0, m).

Definition deaf_chip : flashchip :=
  mkFlashchip 1 256 0 write_gran_256bytes
    [one_region 256 4 255; one_region 256 4 255; one_region 1024 1 255]
    (Some deaf_write) (Some ideal_read) None.

(** An access check that denies what lies from byte 512 on; [guarded_chip]
    is [twin_chip] with this check. *)
Definition upper_half_denied : access_fn :=
  fun _ start len _ => if start + len <=? 512 then 0 else ACCESS_DENIED.

Definition guarded_chip : flashchip :=
  mkFlashchip 1 256 0 write_gran_256bytes
    [one_region 256 4 255; one_region 256 4 255; one_region 1024 1 255]
    (Some ideal_write) (Some ideal_read) (Some upper_half_denied).

Definition guarded_deaf_chip : flashchip :=
  mkFlashchip 1 256 0 write_gran_256bytes
    [one_region 256 4 255; one_region 256 4 255; one_region 1024 1 255]
    (Some deaf_write) (Some ideal_read) (Some upper_half_denied).

Definition is_erase (e : event) : bool :=
  match e with
  | EvErase _ _ => true
  | _ => false
  end.

(** From [h] to [h'] the calls [evs] were made, the latest first, and none
    of them is an erase. *)
Definition no_erase_between (h h' : hw) : Prop :=
  exists evs,
    trace h' = evs ++ trace h /\ Forall (fun e => is_erase e = false) evs.

(** The buffers [have] and [want] hold the same bytes in chunk [i] of
    [stride] bytes. *)
Definition chunk_equal (have want : list Z) (stride i : Z) : Prop :=
  forall k, i * stride <= k < (i + 1) * stride ->
    byte_at have k = byte_at want k.

(** Unit [u] can be carried out on an array of [n] bytes behind an ideal
    master: its blocks lie in the array, they are made of whole chunks of
    the write granularity, and its eraser sets a block to the erased value
    of the chip. *)
Definition unit_fits (chip : flashchip) (n : Z) (u : processing_unit) : Prop :=
  0 <= offset u /\ 0 < unit_block_size u /\ 0 < num_blocks u
  /\ offset u + num_blocks u * unit_block_size u <= n
  /\ (stride_of (gran chip) | unit_block_size u)
  /\ block_erase (eraser_at (block_erasers chip) (block_eraser_index u))
     = Some (ideal_erase (ERASED_VALUE chip)).

(** ** Statements about the registered functions *)

(** The shutdown functions [fns] called one after the other, first to
    last, each on the world the one before left: the values they return
    and the world at the end. *)
Fixpoint shutdown_calls {world data : Type}
    (fns : list (shutdown_func_data world data)) (w : world)
    : list Z * world :=
  match fns with
  | [] => ([], w)
  | f :: fns' =>
      let '(r, w) := shutdown_func f (shutdown_data f) w in
      let '(rs, w) := shutdown_calls fns' w in
      (r :: rs, w)
  end.

Fixpoint restore_calls {world flashctx : Type}
    (fns : list (chip_restore_func_data world flashctx)) (w : world)
    : list Z * world :=
  match fns with
  | [] => ([], w)
  | f :: fns' =>
      let '(r, w) := restore_func f (restore_flash f) (restore_status f) w in
      let '(rs, w) := restore_calls fns' w in
      (r :: rs, w)
  end.

(** Registering the functions [fs] one after the other: the values
    [register_shutdown] returns and the state at the end. *)
Fixpoint register_each {world data : Type} (st : shutdown_state world data)
    (fs : list (shutdown_func_data world data))
    : list Z * shutdown_state world data :=
  match fs with
  | [] => ([], st)
  | f :: fs' =>
      let '(r, st) := register_shutdown st (shutdown_func f) (shutdown_data f) in
      let '(rs, st) := register_each st fs' in
      (r :: rs, st)
  end.

(** The range a call through a pointer of the chip descriptor was made
    for: its first address and its length. *)
Definition event_range (e : event) : Z * Z :=
  match e with
  | EvErase addr len => (addr, len)
  | EvWrite addr len => (addr, len)
  | EvRead addr len _ => (addr, len)
  | EvAccess addr len _ => (addr, len)
  end.

Definition within (lo hi : Z) (e : event) : Prop :=
  lo <= fst (event_range e) /\ fst (event_range e) + snd (event_range e) <= hi.

(** From [h] to [h'] the calls [evs] were made, the latest first, each for
    a range between [lo] and [hi]. *)
Definition calls_within (lo hi : Z) (h h' : hw) : Prop :=
  exists evs, trace h' = evs ++ trace h /\ Forall (within lo hi) evs.

(** Call [e] was made for a range inside the range of one of the units. *)
Definition within_a_unit (units : list processing_unit) (e : event) : Prop :=
  exists u,
    In u units
    /\ within (offset u) (offset u + num_blocks u * unit_block_size u) e.

(** * Properties *)

(** ** Eraser selection *)

Section EraserSelection.

Variable erasers : list block_eraser.
Variable erase_size : Z.

Let sz := eraser_size erasers.

Lemma find_region_some : forall fuel k n r,
  find_region erasers k erase_size n fuel = Some r ->
  (n <= r < n + fuel)%nat
  /\ erase_size <= region_reach (region_at erasers k r).
Proof.
  induction fuel as [|fuel IH]; intros k n r H; simpl in H; [discriminate|].
  destruct (erase_size <=? region_reach (region_at erasers k n)) eqn:E.
  - inversion H; subst. apply Z.leb_le in E. split; [lia|assumption].
  - apply IH in H. destruct H as [H1 H2]. split; [lia|assumption].
Qed.

Lemma qualifies_some : forall k n,
  qualifies erasers erase_size k = Some n ->
  block_erase (eraser_at erasers k) <> None
  /\ (n < NUM_ERASEREGIONS)%nat
  /\ erase_size <= region_reach (region_at erasers k n).
Proof.
  unfold qualifies. intros k n H.
  destruct (block_erase (eraser_at erasers k)); [|discriminate].
  apply find_region_some in H. destruct H as [H1 H2].
  split; [discriminate|]. split; [lia|assumption].
Qed.

(** Placement keeps the array strictly ascending in block size. *)
Lemma place_eraser_lower_bound : forall s new l b,
  sz new = s -> b < s ->
  Forall (fun x => b < x) (map sz l) ->
  Forall (fun x => b < x) (map sz (place_eraser erasers s new l)).
Proof.
  intros s new l b Hs Hb. induction l as [|old rest IH]; intros HF; simpl.
  - constructor; [lia|constructor].
  - inversion HF as [|x xs Hx Hxs]; subst x xs.
    fold sz. destruct (sz old <? s) eqn:E1; [|destruct (sz old =? s) eqn:E2]; simpl.
    + constructor; [assumption|]. apply IH; assumption.
    + constructor; [lia|assumption].
    + constructor; [lia|]. constructor; assumption.
Qed.

Lemma place_eraser_sorted : forall s new l,
  sz new = s ->
  StronglySorted Z.lt (map sz l) ->
  StronglySorted Z.lt (map sz (place_eraser erasers s new l)).
Proof.
  intros s new l Hs. induction l as [|old rest IH]; intros HS; simpl.
  - constructor; constructor.
  - inversion HS as [|x xs HSr HF]; subst x xs. fold sz.
    destruct (sz old <? s) eqn:E1; [|destruct (sz old =? s) eqn:E2]; simpl.
    + apply Z.ltb_lt in E1. constructor; [apply IH; assumption|].
      apply place_eraser_lower_bound; assumption.
    + apply Z.eqb_eq in E2. constructor; [assumption|].
      rewrite Hs, <- E2. assumption.
    + apply Z.ltb_ge in E1. apply Z.eqb_neq in E2.
      constructor; [assumption|]. constructor; [lia|].
      rewrite Hs. eapply Forall_impl; [|exact HF]. simpl. intros; lia.
Qed.

(** Placement drops the entry of the same block size, if there is one, and
    no other. *)
Lemma place_eraser_In : forall s new l e,
  sz new = s ->
  StronglySorted Z.lt (map sz l) ->
  In e (place_eraser erasers s new l) <-> e = new \/ (In e l /\ sz e <> s).
Proof.
  intros s new l e Hs. induction l as [|old rest IH]; intros HS; simpl.
  - intuition.
  - inversion HS as [|x xs HSr HF]; subst x xs. fold sz.
    assert (Hrest : forall x, In x rest -> sz old < sz x).
    { intros x Hx. rewrite Forall_forall in HF. apply HF.
      apply in_map. assumption. }
    destruct (sz old <? s) eqn:E1; [|destruct (sz old =? s) eqn:E2]; simpl.
    + apply Z.ltb_lt in E1. rewrite (IH HSr). intuition (subst; auto; lia).
    + apply Z.eqb_eq in E2. split.
      * intros [H|H]; [left; auto|]. right. split; [auto|].
        apply Hrest in H. lia.
      * intros [H|[[H|H] Hne]]; [left; auto| subst; contradiction | right; auto].
    + apply Z.ltb_ge in E1. apply Z.eqb_neq in E2. split.
      * intros [H|[H|H]]; [left; auto | right; subst; auto | right].
        split; [auto|]. apply Hrest in H. lia.
      * intros [H|[[H|H] Hne]]; auto.
Qed.

Lemma selection_inv_loop : forall n,
  selection_inv erasers erase_size n
    (sorted_erasers_loop erasers erase_size (seq 0 n) []).
Proof.
  induction n as [|n IH].
  - simpl. split; [constructor|]. split; [intros e []|intros k m Hk; lia].
  - rewrite seq_S. unfold sorted_erasers_loop in *. rewrite fold_left_app. simpl.
    set (sorted := fold_left (sorted_erasers_step erasers erase_size) (seq 0 n) []) in *.
    destruct IH as (HS & HI & HC).
    unfold sorted_erasers_step.
    destruct (qualifies erasers erase_size n) as [r|] eqn:Q.
    + set (new := mkEraser n r).
      assert (Hnew : sz new = size (region_at erasers n r)) by reflexivity.
      split; [apply place_eraser_sorted; assumption|]. split.
      * intros e He. apply place_eraser_In in He; [|assumption|assumption].
        destruct He as [He|[He _]].
        -- subst e. simpl. split; [lia|assumption].
        -- apply HI in He. destruct He. split; [lia|assumption].
      * intros k m Hk Hq.
        destruct (Nat.eq_dec k n) as [->|Hne].
        -- rewrite Q in Hq. inversion Hq; subst m. exists new.
           split; [apply place_eraser_In; auto|]. split; [assumption|simpl; lia].
        -- destruct (HC k m) as (e & He & Hse & Hke); [lia|assumption|].
           destruct (Z.eq_dec (sz e) (size (region_at erasers n r))) as [Heq|Hneq].
           ++ exists new. split; [apply place_eraser_In; auto|].
              split; [unfold sz in *; congruence|simpl; lia].
           ++ exists e. split; [apply place_eraser_In; auto|]. split; assumption.
    + split; [assumption|]. split.
      * intros e He. apply HI in He. destruct He. split; [lia|assumption].
      * intros k m Hk Hq.
        destruct (Nat.eq_dec k n) as [->|Hne]; [congruence|].
        apply HC; [lia|assumption].
Qed.

End EraserSelection.

Lemma to_uint_le : forall z, 0 <= z -> to_uint z <= z.
Proof.
  intros z Hz. unfold to_uint, UINT_MODULUS. apply Z.mod_le; lia.
Qed.

Lemma fill_sorted_erasers_loop : forall chip erase_size sorted,
  fill_sorted_erasers chip erase_size = Some sorted ->
  sorted = sorted_erasers_loop (block_erasers chip) erase_size
             (seq 0 NUM_ERASEFUNCTIONS) [].
Proof.
  unfold fill_sorted_erasers. intros chip erase_size sorted H.
  destruct (sorted_erasers_loop _ _ _ _); [discriminate|]. congruence.
Qed.

Lemma strongly_sorted_lt_nodup : forall l,
  StronglySorted Z.lt l -> NoDup l.
Proof.
  induction 1 as [|a l HS IH HF]; constructor; [|assumption].
  intros Hin. rewrite Forall_forall in HF. apply HF in Hin. lia.
Qed.

(** C6: the list the selection produces is strictly ascending in block
    size, so it has no two entries of one block size, and each entry names
    an eraser with an erase function and a region of it whose size times
    count, as the code computes the product, reaches the highest modified
    offset (and so does the exact product of a size and a count that are
    not negative). *)
Theorem fill_sorted_erasers_ascending_reaching : forall chip erase_size,
  match fill_sorted_erasers chip erase_size with
  | None => True
  | Some sorted =>
      let sizes := map (eraser_size (block_erasers chip)) sorted in
      StronglySorted Z.lt sizes
      /\ NoDup sizes
      /\ forall e, In e sorted ->
           let eb := region_at (block_erasers chip) (eraser_index e) (region_index e) in
           (eraser_index e < NUM_ERASEFUNCTIONS)%nat
           /\ (region_index e < NUM_ERASEREGIONS)%nat
           /\ block_erase (eraser_at (block_erasers chip) (eraser_index e)) <> None
           /\ erase_size <= region_reach eb
           /\ (0 <= size eb -> 0 <= count eb -> erase_size <= size eb * count eb)
  end.
Proof.
  intros chip erase_size.
  destruct (fill_sorted_erasers chip erase_size) as [sorted|] eqn:F; [|exact I].
  apply fill_sorted_erasers_loop in F.
  destruct (selection_inv_loop (block_erasers chip) erase_size NUM_ERASEFUNCTIONS)
    as (HS & HI & _).
  rewrite <- F in HS, HI. cbv zeta.
  split; [assumption|]. split; [apply strongly_sorted_lt_nodup; assumption|].
  intros e He. apply HI in He. destruct He as [Hk Hq].
  apply qualifies_some in Hq. destruct Hq as (Hf & Hn & Hr).
  repeat split; try assumption.
  intros Hs Hc. unfold region_reach in Hr.
  pose proof (to_uint_le (size (region_at (block_erasers chip) (eraser_index e) (region_index e))
                          * count (region_at (block_erasers chip) (eraser_index e) (region_index e)))).
  nia.
Qed.

Lemma fill_sorted_erasers_ascending_reaching_witness :
  match fill_sorted_erasers twin_chip 257 with
  | None => True
  | Some sorted =>
      let sizes := map (eraser_size (block_erasers twin_chip)) sorted in
      StronglySorted Z.lt sizes
      /\ NoDup sizes
      /\ forall e, In e sorted ->
           let eb := region_at (block_erasers twin_chip) (eraser_index e) (region_index e) in
           (eraser_index e < NUM_ERASEFUNCTIONS)%nat
           /\ (region_index e < NUM_ERASEREGIONS)%nat
           /\ block_erase (eraser_at (block_erasers twin_chip) (eraser_index e)) <> None
           /\ 257 <= region_reach eb
           /\ (0 <= size eb -> 0 <= count eb -> 257 <= size eb * count eb)
  end.
Proof.
  exact (fill_sorted_erasers_ascending_reaching twin_chip 257).
Defined.

(** C7, as stated: on [twin_chip] the erasers 0 and 1 both qualify with
    blocks of 256 bytes, and the list keeps eraser 1, not eraser 0. *)
Lemma keeps_earlier_eraser_fails : ~ keeps_earlier_eraser twin_chip 0.
Proof.
  intros H.
  destruct (H 0%nat 1%nat 0%nat 0%nat [mkEraser 1 0; mkEraser 2 0]) as [_ Hnot];
    try reflexivity.
  - unfold NUM_ERASEFUNCTIONS. lia.
  - apply Hnot. left. reflexivity.
Qed.

(** C7, amended: of two qualifying erasers of equal block size the one
    enumerated first is not in the list; the entry of that block size names
    a qualifying eraser enumerated no earlier than the second, which has
    overwritten the entries of that size placed before it. *)
Theorem fill_sorted_erasers_keeps_later : forall chip erase_size k1 k2 n1 n2,
  (k1 < k2 < NUM_ERASEFUNCTIONS)%nat ->
  qualifies (block_erasers chip) erase_size k1 = Some n1 ->
  qualifies (block_erasers chip) erase_size k2 = Some n2 ->
  size (region_at (block_erasers chip) k1 n1)
  = size (region_at (block_erasers chip) k2 n2) ->
  exists sorted,
    fill_sorted_erasers chip erase_size = Some sorted
    /\ ~ In (mkEraser k1 n1) sorted
    /\ exists e,
         In e sorted
         /\ eraser_size (block_erasers chip) e
            = size (region_at (block_erasers chip) k2 n2)
         /\ (k2 <= eraser_index e)%nat
         /\ qualifies (block_erasers chip) erase_size (eraser_index e)
            = Some (region_index e).
Proof.
  intros chip erase_size k1 k2 n1 n2 Hk Hq1 Hq2 Hsz.
  destruct (selection_inv_loop (block_erasers chip) erase_size NUM_ERASEFUNCTIONS)
    as (HS & HI & HC).
  destruct (HC k2 n2) as (e & He & Hse & Hke); [lia|assumption|].
  set (sorted := sorted_erasers_loop (block_erasers chip) erase_size
                   (seq 0 NUM_ERASEFUNCTIONS) []) in *.
  exists sorted. split.
  { unfold fill_sorted_erasers. fold sorted.
    destruct sorted; [destruct He|reflexivity]. }
  split.
  - intros Hin.
    assert (Heq : mkEraser k1 n1 = e).
    { apply strongly_sorted_lt_nodup in HS.
      assert (Hinj : forall l : list eraser,
                 NoDup (map (eraser_size (block_erasers chip)) l) ->
                 forall a b, In a l -> In b l ->
                 eraser_size (block_erasers chip) a
                 = eraser_size (block_erasers chip) b -> a = b).
      { induction l as [|x l IH]; intros HN a b Ha Hb Hab; [destruct Ha|].
        simpl in HN. inversion HN as [|y ys Hnin HN']; subst y ys.
        destruct Ha as [Ha|Ha], Hb as [Hb|Hb]; subst.
        - reflexivity.
        - exfalso. apply Hnin. rewrite Hab. apply in_map. assumption.
        - exfalso. apply Hnin. rewrite <- Hab. apply in_map. assumption.
        - apply IH; assumption. }
      apply (Hinj sorted HS); try assumption.
      rewrite Hse. unfold eraser_size. simpl. assumption. }
    subst e. simpl in Hke. lia.
  - exists e. split; [assumption|]. split; [assumption|]. split; [assumption|].
    apply HI. assumption.
Qed.

Lemma fill_sorted_erasers_keeps_later_witness :
  exists sorted,
    fill_sorted_erasers twin_chip 0 = Some sorted
    /\ ~ In (mkEraser 0 0) sorted
    /\ exists e,
         In e sorted
         /\ eraser_size (block_erasers twin_chip) e
            = size (region_at (block_erasers twin_chip) 1 0)
         /\ (1 <= eraser_index e)%nat
         /\ qualifies (block_erasers twin_chip) 0 (eraser_index e)
            = Some (region_index e).
Proof.
  apply (fill_sorted_erasers_keeps_later twin_chip 0 0%nat 1%nat 0%nat 0%nat).
  - unfold NUM_ERASEFUNCTIONS. lia.
  - reflexivity.
  - reflexivity.
  - reflexivity.
Defined.

(** ** Integers, ranges and updates *)

Lemma to_int_id : forall z, 0 <= z <= INT_MAX -> to_int z = z.
Proof.
  intros z Hz. unfold to_int, UINT_MODULUS, INT_MAX in *.
  rewrite Z.mod_small by lia.
  destruct (z <=? 2147483647) eqn:E; [reflexivity|].
  apply Z.leb_gt in E. lia.
Qed.

Lemma to_uint_id : forall z, 0 <= z < UINT_MODULUS -> to_uint z = z.
Proof.
  intros z Hz. unfold to_uint. apply Z.mod_small. assumption.
Qed.

Lemma zrange_In : forall lo hi x, In x (zrange lo hi) <-> lo <= x < hi.
Proof.
  intros lo hi x. unfold zrange. rewrite in_map_iff. split.
  - intros (k & Hk & Hin). apply in_seq in Hin. lia.
  - intros H. exists (Z.to_nat (x - lo)). split; [lia|].
    apply in_seq. lia.
Qed.

Lemma zrange_nil : forall lo hi, hi <= lo -> zrange lo hi = [].
Proof.
  intros lo hi H. unfold zrange.
  replace (Z.to_nat (hi - lo)) with O by lia. reflexivity.
Qed.

Lemma zrange_snoc : forall lo hi,
  lo <= hi -> zrange lo (hi + 1) = zrange lo hi ++ [hi].
Proof.
  intros lo hi H. unfold zrange.
  replace (Z.to_nat (hi + 1 - lo)) with (S (Z.to_nat (hi - lo))) by lia.
  rewrite seq_S, map_app. simpl. f_equal. f_equal. lia.
Qed.

(** A loop over [lo..hi) carries an invariant that depends on the index. *)
Lemma fold_zrange_inv : forall (S : Type) (Q : Z -> S -> Prop) (f : S -> Z -> S)
    lo hi s,
  lo <= hi ->
  Q lo s ->
  (forall j s, lo <= j < hi -> Q j s -> Q (j + 1) (f s j)) ->
  Q hi (fold_left f (zrange lo hi) s).
Proof.
  intros S Q f lo hi s Hle H0 Hstep.
  assert (G : forall n, lo + Z.of_nat n <= hi ->
              Q (lo + Z.of_nat n) (fold_left f (zrange lo (lo + Z.of_nat n)) s)).
  { induction n as [|n IH]; intros Hn.
    - rewrite zrange_nil by lia. simpl. rewrite Z.add_0_r. assumption.
    - replace (lo + Z.of_nat (Datatypes.S n)) with (lo + Z.of_nat n + 1) by lia.
      rewrite zrange_snoc by lia. rewrite fold_left_app. simpl.
      apply Hstep; [lia|]. apply IH. lia. }
  specialize (G (Z.to_nat (hi - lo))).
  replace (lo + Z.of_nat (Z.to_nat (hi - lo))) with hi in G by lia.
  apply G. lia.
Qed.

(** A loop keeps what every turn keeps. *)
Lemma fold_left_inv : forall (S X : Type) (I : S -> Prop) (f : S -> X -> S) l s,
  I s ->
  (forall s x, In x l -> I s -> I (f s x)) ->
  I (fold_left f l s).
Proof.
  intros S X I f l. induction l as [|x l IH]; intros s Hs Hstep; simpl.
  - assumption.
  - apply IH.
    + apply Hstep; [left; reflexivity|assumption].
    + intros s' x' Hin. apply Hstep. right. assumption.
Qed.

(** What one turn of a loop establishes and the later turns keep holds at
    the end. *)
Lemma fold_left_establish : forall (S X : Type) (I P : S -> Prop)
    (f : S -> X -> S) x0 l s,
  In x0 l ->
  I s ->
  (forall s x, In x l -> I s -> I (f s x)) ->
  (forall s, I s -> P (f s x0)) ->
  (forall s x, In x l -> I s -> P s -> P (f s x)) ->
  P (fold_left f l s).
Proof.
  intros S X I P f x0 l. induction l as [|x l IH]; intros s Hin Hs HI Hest Hkeep.
  - destruct Hin.
  - simpl. destruct Hin as [Heq|Hin].
    + subst x.
      apply (fold_left_inv S X (fun t => I t /\ P t) f l (f s x0)).
      * split; [apply HI; [left; reflexivity|assumption]|apply Hest; assumption].
      * intros t y Hy [Ht Pt].
        split; [apply HI; [right|]; assumption|apply Hkeep; [right| |]; assumption].
    + apply IH; try assumption.
      * apply HI; [left; reflexivity|assumption].
      * intros s' x' Hx'. apply HI. right. assumption.
      * intros s' x' Hx'. apply Hkeep. right. assumption.
Qed.

Lemma upd_nth_length : forall (A : Type) (f : A -> A) l n,
  length (upd_nth n f l) = length l.
Proof.
  intros A f l. induction l as [|x l IH]; intros [|n]; simpl; auto.
Qed.

Lemma nth_upd_nth : forall (A : Type) (f : A -> A) (d : A) l n m,
  nth m (upd_nth n f l) d
  = if (Nat.eqb n m && (n <? length l)%nat)%bool then f (nth m l d) else nth m l d.
Proof.
  intros A f d l. induction l as [|x l IH]; intros n m.
  - destruct n, m; simpl; rewrite ?andb_false_r; reflexivity.
  - destruct n as [|n], m as [|m]; simpl; try reflexivity.
    rewrite IH. destruct (Nat.eqb n m); simpl; [|reflexivity].
    change (S n <? S (length l))%nat with (n <? length l)%nat. reflexivity.
Qed.

(** ** Marks and their updates *)

Lemma block_at_upd_block_same : forall bm j f,
  0 <= j < Z.of_nat (length bm) ->
  block_at (upd_block bm j f) j = f (block_at bm j).
Proof.
  intros bm j f Hj. unfold block_at, upd_block.
  destruct (j <? 0) eqn:E; [apply Z.ltb_lt in E; lia|].
  rewrite nth_upd_nth. rewrite Nat.eqb_refl. simpl.
  destruct (Z.to_nat j <? length bm)%nat eqn:E2; [reflexivity|].
  apply Nat.ltb_ge in E2. lia.
Qed.

Lemma block_at_upd_block_other : forall bm j j' f,
  j <> j' -> block_at (upd_block bm j f) j' = block_at bm j'.
Proof.
  intros bm j j' f Hne. unfold block_at, upd_block.
  destruct (j' <? 0) eqn:E'; [reflexivity|].
  destruct (j <? 0) eqn:E; [reflexivity|].
  apply Z.ltb_ge in E, E'. rewrite nth_upd_nth.
  destruct (Nat.eqb (Z.to_nat j) (Z.to_nat j')) eqn:E2; [|reflexivity].
  apply Nat.eqb_eq in E2. lia.
Qed.

Lemma block_at_outside : forall bm j,
  Z.of_nat (length bm) <= j -> block_at bm j = no_mark.
Proof.
  intros bm j Hj. unfold block_at.
  destruct (j <? 0); [reflexivity|]. apply nth_overflow. lia.
Qed.

Lemma block_at_negative : forall bm j, j < 0 -> block_at bm j = no_mark.
Proof.
  intros bm j Hj. unfold block_at.
  destruct (j <? 0) eqn:E; [reflexivity|]. apply Z.ltb_ge in E. lia.
Qed.

Lemma block_at_upd_block_either : forall bm j j' f,
  block_at (upd_block bm j f) j' = block_at bm j'
  \/ (j' = j /\ block_at (upd_block bm j f) j' = f (block_at bm j')).
Proof.
  intros bm j j' f.
  destruct (Z.eq_dec j j') as [<-|Hne].
  - destruct (Z_lt_dec j 0) as [Hneg|Hpos].
    + left. unfold upd_block.
      destruct (j <? 0) eqn:E; [reflexivity|]. apply Z.ltb_ge in E. lia.
    + destruct (Z_lt_dec j (Z.of_nat (length bm))) as [Hin|Hout].
      * right. split; [reflexivity|]. apply block_at_upd_block_same. lia.
      * left. rewrite !block_at_outside; [reflexivity|lia|].
        unfold upd_block. destruct (j <? 0); [lia|].
        rewrite upd_nth_length. lia.
  - left. apply block_at_upd_block_other. assumption.
Qed.

Lemma upd_block_length : forall bm j f,
  length (upd_block bm j f) = length bm.
Proof.
  intros bm j f. unfold upd_block. destruct (j <? 0); [reflexivity|].
  apply upd_nth_length.
Qed.

Lemma map_at_upd_nth : forall maps i k g,
  map_at (upd_nth i g maps) k
  = if (Nat.eqb i k && (i <? length maps)%nat)%bool
    then g (map_at maps k) else map_at maps k.
Proof.
  intros maps i k g. unfold map_at. apply nth_upd_nth.
Qed.

Lemma shape_upd_nth : forall maps i g,
  (forall m, block_size (g m) = block_size m
             /\ limit (g m) = limit m
             /\ length (block_map (g m)) = length (block_map m)) ->
  shape (upd_nth i g maps) = shape maps.
Proof.
  intros maps i g Hg. revert i.
  induction maps as [|m maps IH]; intros [|i]; simpl; try reflexivity.
  - destruct (Hg m) as (H1 & H2 & H3). rewrite H1, H2, H3. reflexivity.
  - unfold shape in IH. rewrite IH. reflexivity.
Qed.

Lemma shape_upd_mark : forall maps i j f,
  shape (upd_mark maps i j f) = shape maps.
Proof.
  intros maps i j f. unfold upd_mark. apply shape_upd_nth.
  intros m. simpl. rewrite upd_block_length. auto.
Qed.

Lemma shape_map_at : forall a b k,
  shape a = shape b ->
  block_size (map_at a k) = block_size (map_at b k)
  /\ limit (map_at a k) = limit (map_at b k)
  /\ length (block_map (map_at a k)) = length (block_map (map_at b k)).
Proof.
  intros a b k H. unfold map_at, shape in *.
  set (f := fun m : range_map => (block_size m, limit m, length (block_map m))) in *.
  assert (G : nth k (map f a) (f no_map) = nth k (map f b) (f no_map))
    by (rewrite H; reflexivity).
  rewrite (map_nth f a no_map k), (map_nth f b no_map k) in G.
  unfold f in G. injection G as H1 H2 H3.
  split; [exact H1|]. split; [exact H2|exact H3].
Qed.

Lemma shape_length : forall a b, shape a = shape b -> length a = length b.
Proof.
  intros a b H. unfold shape in H.
  apply (f_equal (@length _)) in H. rewrite !length_map in H. assumption.
Qed.

Lemma mark_at_upd_mark_other : forall maps i j f k j',
  i <> k \/ j <> j' ->
  mark_at (upd_mark maps i j f) k j' = mark_at maps k j'.
Proof.
  intros maps i j f k j' H. unfold mark_at, upd_mark.
  rewrite map_at_upd_nth.
  destruct (Nat.eqb i k) eqn:E; simpl; [|reflexivity].
  destruct (i <? length maps)%nat; [|reflexivity].
  apply Nat.eqb_eq in E. simpl.
  apply block_at_upd_block_other. destruct H; [contradiction|assumption].
Qed.

Lemma mark_at_upd_mark_same : forall maps i j f,
  (i < length maps)%nat ->
  0 <= j < Z.of_nat (length (block_map (map_at maps i))) ->
  mark_at (upd_mark maps i j f) i j = f (mark_at maps i j).
Proof.
  intros maps i j f Hi Hj. unfold mark_at, upd_mark.
  rewrite map_at_upd_nth. rewrite Nat.eqb_refl.
  apply Nat.ltb_lt in Hi. rewrite Hi. simpl.
  apply block_at_upd_block_same. assumption.
Qed.

Lemma mark_at_upd_mark_either : forall maps i j f k j',
  mark_at (upd_mark maps i j f) k j' = mark_at maps k j'
  \/ (k = i /\ j' = j /\ mark_at (upd_mark maps i j f) k j' = f (mark_at maps k j')).
Proof.
  intros maps i j f k j'. unfold mark_at, upd_mark.
  rewrite map_at_upd_nth.
  destruct (Nat.eqb i k) eqn:E; simpl; [|left; reflexivity].
  destruct (i <? length maps)%nat; [|left; reflexivity].
  apply Nat.eqb_eq in E. subst k. simpl.
  destruct (block_at_upd_block_either (block_map (map_at maps i)) j j' f) as [H|[H1 H2]].
  - left. assumption.
  - right. auto.
Qed.

Lemma mark_at_outside : forall maps i j,
  Z.of_nat (length (block_map (map_at maps i))) <= j ->
  mark_at maps i j = no_mark.
Proof.
  intros maps i j H. unfold mark_at. apply block_at_outside. assumption.
Qed.

(** ** Unmarking *)

Lemma cleared_below_refl : forall i maps, cleared_below i maps maps.
Proof.
  intros i maps. split; [reflexivity|]. split; auto.
Qed.

Lemma cleared_below_trans : forall i a b c,
  cleared_below i a b -> cleared_below i b c -> cleared_below i a c.
Proof.
  intros i a b c (S1 & M1 & U1) (S2 & M2 & U2). split; [congruence|]. split.
  - intros k j. destruct (M2 k j) as [H|H]; [|right; assumption].
    rewrite H. apply M1.
  - intros k j Hk. rewrite U2, U1; auto.
Qed.

Lemma cleared_below_mono : forall i i' a b,
  (i <= i')%nat -> cleared_below i a b -> cleared_below i' a b.
Proof.
  intros i i' a b Hi (S1 & M1 & U1). split; [assumption|]. split; [assumption|].
  intros k j Hk. apply U1. lia.
Qed.

Lemma cleared_below_upd_mark : forall maps i j,
  cleared_below (S i) maps (upd_mark maps i j (fun _ => mkBMap false false)).
Proof.
  intros maps i j. split; [apply shape_upd_mark|]. split.
  - intros k j'.
    destruct (mark_at_upd_mark_either maps i j (fun _ => mkBMap false false) k j')
      as [H|(_ & _ & H)]; [left|right]; assumption.
  - intros k j' Hk. apply mark_at_upd_mark_other. left. lia.
Qed.

Lemma cleared_below_fold : forall (X : Type) i (f : list range_map -> X -> list range_map) l maps,
  (forall s x, cleared_below i s (f s x)) ->
  cleared_below i maps (fold_left f l maps).
Proof.
  intros X i f l. induction l as [|x l IH]; intros maps Hf; simpl.
  - apply cleared_below_refl.
  - eapply cleared_below_trans; [apply Hf|]. apply IH. assumption.
Qed.

Lemma clear_all_nested_below : forall i maps block_index,
  cleared_below i maps (clear_all_nested maps i block_index).
Proof.
  induction i as [|i IH]; intros maps block_index.
  - apply cleared_below_refl.
  - cbn [clear_all_nested]. apply cleared_below_fold. intros s j.
    destruct (1 <? S i)%nat.
    + eapply cleared_below_trans; [apply cleared_below_upd_mark|].
      apply cleared_below_mono with (i := i); [lia|]. apply IH.
    + apply cleared_below_upd_mark.
Qed.

Lemma mark_at_upd_mark_clear : forall maps i j,
  mark_at (upd_mark maps i j (fun _ => mkBMap false false)) i j = no_mark.
Proof.
  intros maps i j.
  destruct (mark_at_upd_mark_either maps i j (fun _ => mkBMap false false) i j)
    as [H|(_ & _ & H)]; [|exact H].
  rewrite H.
  destruct (Z_lt_dec j 0) as [Hn|Hn].
  { unfold mark_at. apply block_at_negative. assumption. }
  destruct (Z_lt_dec j (Z.of_nat (length (block_map (map_at maps i))))) as [Hin|Hout].
  - destruct (Nat.lt_ge_cases i (length maps)) as [Hi|Hi].
    + rewrite mark_at_upd_mark_same in H by (assumption || lia).
      rewrite <- H. reflexivity.
    + unfold map_at in Hin. rewrite nth_overflow in Hin by assumption.
      simpl in Hin. lia.
  - apply mark_at_outside. lia.
Qed.

Lemma has_sizes_shape : forall sizes a b,
  shape b = shape a -> has_sizes sizes a -> has_sizes sizes b.
Proof.
  intros sizes a b H Ha. unfold has_sizes in *.
  assert (G : forall m, map block_size m = map (fun t => fst (fst t)) (shape m)).
  { intros m. unfold shape. rewrite map_map. reflexivity. }
  rewrite G, H, <- G. assumption.
Qed.

Lemma has_sizes_block_size : forall sizes maps i,
  has_sizes sizes maps -> block_size (map_at maps i) = nth i sizes 0.
Proof.
  intros sizes maps i H. unfold has_sizes in H. subst sizes. unfold map_at.
  change 0 with (block_size no_map). rewrite map_nth. reflexivity.
Qed.

Lemma has_sizes_length : forall sizes maps,
  has_sizes sizes maps -> length maps = length sizes.
Proof.
  intros sizes maps H. unfold has_sizes in H. subst sizes.
  rewrite length_map. reflexivity.
Qed.

Section Nesting.

Variable sizes : list Z.

Let bsz (i : nat) : Z := nth i sizes 0.

Hypothesis sizes_pos : forall i, (i < length sizes)%nat -> 0 < bsz i.
Hypothesis sizes_chain :
  forall i, (S i < length sizes)%nat -> (bsz i | bsz (S i)).

(** A block of level [i] marked for erase unmarks every block of a lower
    level that starts inside it. *)
Lemma clear_all_nested_clears : forall i maps b k j,
  has_sizes sizes maps ->
  (i < length sizes)%nat ->
  0 <= b ->
  (b + 1) * bsz i <= INT_MAX ->
  (k < i)%nat ->
  b * bsz i <= j * bsz k < (b + 1) * bsz i ->
  mark_at (clear_all_nested maps i b) k j = no_mark.
Proof.
  induction i as [|i IH]; intros maps b k j Hs Hi Hb Hmax Hk Hj; [lia|].
  cbn [clear_all_nested].
  rewrite !(has_sizes_block_size sizes) by assumption.
  fold (bsz (S i)). fold (bsz i).
  pose proof (sizes_pos i ltac:(lia)) as HT.
  pose proof (sizes_pos (S i) Hi) as HU.
  destruct (sizes_chain i Hi) as [M HM].
  assert (HMpos : 0 < M) by nia.
  set (T := bsz i) in *. set (U := bsz (S i)) in *.
  assert (Hstart : to_int (U * b) = U * b) by (apply to_int_id; nia).
  rewrite Hstart.
  assert (Hend : to_int (U * b + U) = U * b + U) by (apply to_int_id; nia).
  rewrite Hend.
  assert (Hlo : U * b / T = M * b).
  { rewrite HM. replace (M * T * b) with (M * b * T) by ring.
    apply Z.div_mul. lia. }
  assert (Hhi : (U * b + U) / T = M * (b + 1)).
  { rewrite HM. replace (M * T * b + M * T) with (M * (b + 1) * T) by ring.
    apply Z.div_mul. lia. }
  rewrite Hlo, Hhi.
  rewrite to_int_id by nia.
  set (j0 := j * bsz k / T).
  assert (Hj0 : M * b <= j0 < M * (b + 1)).
  { unfold j0. split.
    - apply Z.div_le_lower_bound; [lia|]. nia.
    - apply Z.div_lt_upper_bound; [lia|]. nia. }
  assert (Hj0T : j0 * T <= j * bsz k < (j0 + 1) * T).
  { unfold j0.
    pose proof (Z.mul_div_le (j * bsz k) T HT).
    pose proof (Z.mul_succ_div_gt (j * bsz k) T HT). lia. }
  apply (fold_left_establish _ _ (has_sizes sizes)
           (fun s => mark_at s k j = no_mark) _ j0).
  - apply zrange_In. assumption.
  - assumption.
  - intros s x _ Hs'. eapply has_sizes_shape; [|exact Hs'].
    destruct (1 <? S i)%nat.
    + destruct (clear_all_nested_below i
                  (upd_mark s i x (fun _ => mkBMap false false)) x) as (E & _).
      rewrite E. apply shape_upd_mark.
    + apply shape_upd_mark.
  - intros s Hs'.
    assert (Hs1 : has_sizes sizes (upd_mark s i j0 (fun _ => mkBMap false false))).
    { eapply has_sizes_shape; [apply shape_upd_mark|exact Hs']. }
    destruct (Nat.eq_dec k i) as [->|Hne].
    + assert (j0 = j).
      { unfold j0. fold T. apply Z.div_mul. lia. }
      subst j0. rewrite H in *.
      assert (G : mark_at (upd_mark s i j (fun _ => mkBMap false false)) i j = no_mark)
        by apply mark_at_upd_mark_clear.
      destruct (1 <? S i)%nat; [|exact G].
      destruct (clear_all_nested_below i
                  (upd_mark s i j (fun _ => mkBMap false false)) j) as (_ & Mo & _).
      destruct (Mo i j) as [E|E]; [rewrite E; exact G|exact E].
    + assert (H1 : (1 <? S i)%nat = true) by (apply Nat.ltb_lt; lia).
      rewrite H1. apply IH; try assumption; try lia.
      nia.
  - intros s x _ Hs' HP.
    assert (G : cleared_below (S i) s
                  (if (1 <? S i)%nat
                   then clear_all_nested (upd_mark s i x (fun _ => mkBMap false false)) i x
                   else upd_mark s i x (fun _ => mkBMap false false))).
    { destruct (1 <? S i)%nat.
      - eapply cleared_below_trans; [apply cleared_below_upd_mark|].
        apply cleared_below_mono with (i := i); [lia|].
        apply clear_all_nested_below.
      - apply cleared_below_upd_mark. }
    destruct G as (_ & Mo & _).
    destruct (Mo k j) as [E|E]; [rewrite E; exact HP|exact E].
Qed.


Lemma chain_divide : forall i1 i2,
  (i1 <= i2)%nat -> (i2 < length sizes)%nat -> (bsz i1 | bsz i2).
Proof.
  intros i1 i2 H. induction H as [|i2 H IH]; intros Hlen.
  - apply Z.divide_refl.
  - eapply Z.divide_trans; [apply IH; lia|]. apply sizes_chain. assumption.
Qed.

Variable chip_size : Z.
Hypothesis chip_size_max : chip_size <= INT_MAX.

Lemma need_erase_in_range : forall maps i b,
  b_need_erase (mark_at maps i b) = true ->
  0 <= b < Z.of_nat (length (block_map (map_at maps i))).
Proof.
  intros maps i b H.
  destruct (Z_lt_dec b 0) as [Hn|Hn].
  { unfold mark_at in H. rewrite block_at_negative in H by assumption.
    discriminate. }
  destruct (Z_lt_dec b (Z.of_nat (length (block_map (map_at maps i))))) as [Hin|Hout].
  - lia.
  - rewrite mark_at_outside in H by lia. discriminate.
Qed.

Lemma fits_shape : forall a b,
  shape b = shape a -> fits chip_size a -> fits chip_size b.
Proof.
  intros a b H Ha i. destruct (shape_map_at b a i H) as (H1 & _ & H3).
  rewrite H1, H3. apply Ha.
Qed.

Lemma nothing_under_cleared : forall n i s s',
  cleared_below n s s' -> nothing_under sizes i s -> nothing_under sizes i s'.
Proof.
  intros n i s s' (_ & Mo & _) HP b k j Hb Hk Hj.
  destruct (Mo k j) as [E|E]; [|exact E].
  rewrite E. apply (HP b); try assumption.
  destruct (Mo i b) as [E'|E']; [rewrite <- E'; assumption|].
  rewrite E' in Hb. discriminate.
Qed.

Lemma prune_level_below : forall i maps,
  cleared_below i maps (prune_level chip_size maps i).
Proof.
  intros i maps. unfold prune_level. apply cleared_below_fold. intros s x.
  destruct (b_need_erase (mark_at s i x)).
  - apply clear_all_nested_below.
  - apply cleared_below_refl.
Qed.

Lemma prune_level_clears : forall i maps,
  has_sizes sizes maps ->
  fits chip_size maps ->
  (i < length sizes)%nat ->
  nothing_under sizes i (prune_level chip_size maps i).
Proof.
  intros i maps Hs Hf Hi b k j Hb Hk Hj.
  pose proof (prune_level_below i maps) as (_ & _ & Un).
  rewrite Un in Hb by lia.
  pose proof (need_erase_in_range maps i b Hb) as Hrange.
  pose proof (Hf i) as Hfi. rewrite (has_sizes_block_size sizes) in Hfi by assumption.
  fold (bsz i) in Hfi.
  pose proof (sizes_pos i Hi) as Hpos.
  unfold prune_level. rewrite (has_sizes_block_size sizes) by assumption.
  fold (bsz i).
  apply (fold_left_establish _ _ (cleared_below i maps)
           (fun s => mark_at s k j = no_mark) _ b).
  - apply zrange_In. lia.
  - apply cleared_below_refl.
  - intros s x _ Hs'. eapply cleared_below_trans; [exact Hs'|].
    destruct (b_need_erase (mark_at s i x)).
    + apply clear_all_nested_below.
    + apply cleared_below_refl.
  - intros s (Sh & _ & Un').
    rewrite Un' by lia. rewrite Hb.
    apply clear_all_nested_clears; try assumption; try lia.
    + eapply has_sizes_shape; eassumption.
    + assert (b + 1 <= chip_size / bsz i) by lia.
      pose proof (Z.mul_div_le chip_size (bsz i) Hpos). nia.
  - intros s x _ _ HP.
    assert (G : cleared_below i s
                  (if b_need_erase (mark_at s i x)
                   then clear_all_nested s i x else s)).
    { destruct (b_need_erase (mark_at s i x)).
      - apply clear_all_nested_below.
      - apply cleared_below_refl. }
    destruct G as (_ & Mo & _).
    destruct (Mo k j) as [E|E]; [rewrite E; exact HP|exact E].
Qed.

Lemma prune_down_below : forall n maps,
  cleared_below n maps (prune_down chip_size n maps).
Proof.
  intros n maps. unfold prune_down.
  apply (fold_left_inv _ _ (cleared_below n maps)).
  - apply cleared_below_refl.
  - intros s x Hx Hs. eapply cleared_below_trans; [exact Hs|].
    apply cleared_below_mono with (i := x); [|apply prune_level_below].
    apply in_rev in Hx. apply in_seq in Hx. lia.
Qed.

Lemma prune_down_clears : forall maps i,
  has_sizes sizes maps ->
  fits chip_size maps ->
  (1 <= i < length sizes)%nat ->
  nothing_under sizes i (prune_down chip_size (length sizes) maps).
Proof.
  intros maps i Hs Hf Hi. unfold prune_down.
  apply (fold_left_establish _ _ (cleared_below (length sizes) maps)
           (nothing_under sizes i) _ i).
  - apply in_rev. rewrite rev_involutive. apply in_seq. lia.
  - apply cleared_below_refl.
  - intros s x Hx Hs'. eapply cleared_below_trans; [exact Hs'|].
    apply cleared_below_mono with (i := x); [|apply prune_level_below].
    apply in_rev in Hx. apply in_seq in Hx. lia.
  - intros s (Sh & _). apply prune_level_clears; [| |lia].
    + eapply has_sizes_shape; eassumption.
    + eapply fits_shape; eassumption.
  - intros s x _ _ HP.
    eapply nothing_under_cleared; [apply prune_level_below|exact HP].
Qed.

Lemma upper_marks_erase_cleared : forall n s s',
  cleared_below n s s' -> upper_marks_erase s -> upper_marks_erase s'.
Proof.
  intros n s s' (_ & Mo & _) H i j Hi Hm.
  destruct (Mo i j) as [E|E]; rewrite E in *; [apply H; assumption|discriminate].
Qed.

(** After the downward loop no byte lies in two marked blocks of different
    levels. *)
Lemma prune_down_disjoint : forall maps,
  has_sizes sizes maps ->
  fits chip_size maps ->
  upper_marks_erase maps ->
  levels_disjoint (prune_down chip_size (length sizes) maps).
Proof.
  intros maps Hs Hf Hu.
  set (r := prune_down chip_size (length sizes) maps).
  assert (Hr : cleared_below (length sizes) maps r) by apply prune_down_below.
  assert (Hsr : has_sizes sizes r).
  { destruct Hr as (Sh & _). eapply has_sizes_shape; eassumption. }
  assert (Hur : upper_marks_erase r)
    by (eapply upper_marks_erase_cleared; eassumption).
  assert (G : forall i1 i2 j1 j2 a,
             (i1 < i2)%nat ->
             marked (mark_at r i1 j1) = true ->
             marked (mark_at r i2 j2) = true ->
             in_block (bsz i1) j1 a -> in_block (bsz i2) j2 a -> False).
  { intros i1 i2 j1 j2 a Hlt M1 M2 B1 B2.
    assert (Hi2 : (i2 < length sizes)%nat).
    { destruct (Nat.lt_ge_cases i2 (length sizes)) as [H|H]; [assumption|].
      exfalso. unfold mark_at, map_at in M2.
      rewrite nth_overflow in M2
        by (rewrite (has_sizes_length sizes r Hsr); assumption).
      simpl in M2. unfold block_at in M2.
      destruct (j2 <? 0); [discriminate|].
      destruct (Z.to_nat j2); discriminate. }
    assert (E2 : b_need_erase (mark_at r i2 j2) = true)
      by (apply Hur; [lia|assumption]).
    pose proof (sizes_pos i1 ltac:(lia)) as P1.
    pose proof (sizes_pos i2 Hi2) as P2.
    destruct (chain_divide i1 i2 ltac:(lia) Hi2) as [K HK].
    assert (HKpos : 0 < K) by nia.
    unfold in_block in B1, B2.
    assert (Hin : j2 * bsz i2 <= j1 * bsz i1 < (j2 + 1) * bsz i2).
    { rewrite HK in *. 
      assert (j2 * K <= j1).
      { destruct (Z_le_gt_dec (j2 * K) j1) as [H|H]; [assumption|].
        exfalso. assert (j1 + 1 <= j2 * K) by lia. nia. }
      assert (j1 < (j2 + 1) * K).
      { destruct (Z_lt_ge_dec j1 ((j2 + 1) * K)) as [H'|H']; [assumption|].
        exfalso. nia. }
      nia. }
    pose proof (prune_down_clears maps i2 Hs Hf ltac:(lia) j2 i1 j1 E2 Hlt Hin) as C.
    fold r in C. rewrite C in M1. discriminate. }
  intros i1 i2 j1 j2 a Hne M1 M2 B1 B2.
  rewrite (has_sizes_block_size sizes) in B1, B2 by assumption.
  destruct (Nat.lt_ge_cases i1 i2) as [H|H].
  - eapply (G i1 i2); eassumption.
  - eapply (G i2 i1 j2 j1); try eassumption. lia.
Qed.

End Nesting.

(** ** The upward loop *)

Lemma only_level_refl : forall i maps, only_level i maps maps.
Proof.
  intros i maps. split; [reflexivity|auto].
Qed.

Lemma only_level_trans : forall i a b c,
  only_level i a b -> only_level i b c -> only_level i a c.
Proof.
  intros i a b c (S1 & U1) (S2 & U2). split; [congruence|].
  intros k Hk. rewrite U2, U1; auto.
Qed.

Lemma only_level_upd_mark : forall maps i j f,
  only_level i maps (upd_mark maps i j f).
Proof.
  intros maps i j f. split; [apply shape_upd_mark|].
  intros k Hk. unfold upd_mark. rewrite map_at_upd_nth.
  destruct (Nat.eqb i k) eqn:E; [|reflexivity].
  apply Nat.eqb_eq in E. congruence.
Qed.

Lemma fold_block_only : forall maps i block_mult block_index,
  only_level i maps (fold_block maps i block_mult block_index).
Proof.
  intros maps i block_mult block_index. unfold fold_block.
  destruct (_ <? _); [apply only_level_upd_mark|apply only_level_refl].
Qed.

Lemma fold_up_level_only : forall chip_size maps i,
  only_level i maps (fold_up_level chip_size maps i).
Proof.
  intros chip_size maps i. unfold fold_up_level.
  apply (fold_left_inv _ _ (only_level i maps)).
  - apply only_level_refl.
  - intros s x _ Hs. eapply only_level_trans; [exact Hs|apply fold_block_only].
Qed.

Lemma fold_up_shape : forall chip_size n maps,
  shape (fold_up chip_size n maps) = shape maps.
Proof.
  intros chip_size n maps. unfold fold_up.
  apply (fold_left_inv _ _ (fun s => shape s = shape maps)).
  - reflexivity.
  - intros s x _ Hs. destruct (fold_up_level_only chip_size s x) as (E & _).
    congruence.
Qed.






Lemma fold_block_upper_marks : forall maps i block_mult block_index,
  upper_marks_erase maps ->
  upper_marks_erase (fold_block maps i block_mult block_index).
Proof.
  intros maps i block_mult block_index H. unfold fold_block.
  destruct (_ <? _); [|assumption].
  intros k j Hk Hm.
  match goal with |- context [upd_mark maps i block_index ?f] =>
    destruct (mark_at_upd_mark_either maps i block_index f k j) as [E|(_ & _ & E)]
  end.
  - rewrite E in *. apply H; assumption.
  - rewrite E. reflexivity.
Qed.

Lemma fold_up_upper_marks : forall chip_size n maps,
  upper_marks_erase maps -> upper_marks_erase (fold_up chip_size n maps).
Proof.
  intros chip_size n maps H. unfold fold_up.
  apply (fold_left_inv _ _ upper_marks_erase); [assumption|].
  intros s i _ Hs. unfold fold_up_level.
  apply (fold_left_inv _ _ upper_marks_erase); [assumption|].
  intros s' x _ Hs'. apply fold_block_upper_marks. assumption.
Qed.



(** ** The initialisation and the scan of the images *)

Section Planner.

Variable sorted_erasers : list eraser.
Variable chip_erasers : list block_eraser.
Variable chip_size : Z.

Let n := length sorted_erasers.
Let sizes := map (eraser_size chip_erasers) sorted_erasers.
Let init := init_range_maps sorted_erasers chip_erasers chip_size n.

Lemma init_length : length init = n.
Proof.
  unfold init, init_range_maps. rewrite length_map, length_seq. reflexivity.
Qed.

Lemma init_map_at : forall i,
  (i < n)%nat ->
  map_at init i = init_range_map sorted_erasers chip_erasers chip_size n i.
Proof.
  intros i Hi. unfold map_at, init, init_range_maps.
  rewrite nth_indep with (d' := init_range_map sorted_erasers chip_erasers chip_size n 0)
    by (rewrite length_map, length_seq; assumption).
  rewrite map_nth. rewrite seq_nth by assumption. reflexivity.
Qed.

Lemma init_has_sizes : has_sizes sizes init.
Proof.
  unfold has_sizes, init, init_range_maps, sizes, n. rewrite map_map. simpl.
  clear. induction sorted_erasers as [|e l IH]; [reflexivity|].
  simpl. f_equal. rewrite <- seq_shift, map_map. exact IH.
Qed.

Lemma init_fits : fits chip_size init.
Proof.
  intros i. destruct (Nat.lt_ge_cases i n) as [Hi|Hi].
  - rewrite init_map_at by assumption. simpl. apply repeat_length.
  - unfold map_at. rewrite nth_overflow by (rewrite init_length; assumption).
    simpl. rewrite Z.div_0_r. reflexivity.
Qed.

Lemma block_at_repeat : forall k j, block_at (repeat no_mark k) j = no_mark.
Proof.
  intros k j. unfold block_at. destruct (j <? 0); [reflexivity|].
  destruct (Nat.lt_ge_cases (Z.to_nat j) k) as [H|H].
  - apply nth_repeat_lt. assumption.
  - apply nth_overflow. rewrite repeat_length. assumption.
Qed.

Lemma init_unmarked : unmarked init.
Proof.
  intros i j. unfold mark_at. destruct (Nat.lt_ge_cases i n) as [Hi|Hi].
  - rewrite init_map_at by assumption. simpl. apply block_at_repeat.
  - unfold map_at. rewrite nth_overflow by (rewrite init_length; assumption).
    simpl. unfold block_at. destruct (j <? 0); [reflexivity|].
    destruct (Z.to_nat j); reflexivity.
Qed.

(** The limit of a level is seven tenths of the number of its blocks that
    make one block of the next level. *)
Lemma init_limit : forall i,
  (S i < n)%nat ->
  limit (map_at init i)
  = to_int (block_size (map_at init (S i)) / block_size (map_at init i) * 7 / 10).
Proof.
  intros i Hi. rewrite !init_map_at by lia. unfold init_range_map. simpl.
  assert (E : (i <? n - 1)%nat = true) by (apply Nat.ltb_lt; lia).
  rewrite E. replace (i + 1)%nat with (S i) by lia. reflexivity.
Qed.

Lemma diff_scan_length : forall fuel oldc newc erased_value bs i bm bm',
  diff_scan fuel oldc newc chip_size erased_value bs i bm = Some bm' ->
  length bm' = length bm.
Proof.
  induction fuel as [|fuel IH]; intros oldc newc erased_value bs i bm bm' H;
    simpl in H; destruct (i <? chip_size); try discriminate;
    try (inversion H; reflexivity).
  destruct (byte_at oldc i =? byte_at newc i).
  - apply IH in H. assumption.
  - apply IH in H. rewrite H.
    destruct (negb (byte_at newc i =? erased_value));
      destruct (negb (byte_at oldc i =? erased_value));
      rewrite ?upd_block_length; reflexivity.
Qed.

(** On equal images the scan marks nothing. *)
Lemma diff_scan_same : forall fuel c erased_value bs i bm,
  chip_size < UINT_MODULUS ->
  0 <= i ->
  (Z.to_nat (chip_size - i) <= fuel)%nat ->
  diff_scan fuel c c chip_size erased_value bs i bm = Some bm.
Proof.
  induction fuel as [|fuel IH]; intros c erased_value bs i bm Hc Hi Hfuel;
    simpl; destruct (i <? chip_size) eqn:E; try reflexivity.
  - apply Z.ltb_lt in E. lia.
  - apply Z.ltb_lt in E. rewrite Z.eqb_refl.
    rewrite to_uint_id by lia. apply IH; lia.
Qed.

Lemma scan_maps_eq : forall oldc newc erased_value,
  scan_maps oldc newc sorted_erasers chip_erasers chip_size n erased_value
  = match diff_scan (S (Z.to_nat chip_size)) oldc newc chip_size erased_value
            (block_size (map_at init 0)) 0 (block_map (map_at init 0)) with
    | None => None
    | Some bm => Some (upd_nth 0 (with_block_map (fun _ => bm)) init)
    end.
Proof.
  reflexivity.
Qed.

Lemma scan_maps_some : forall oldc newc erased_value maps0,
  scan_maps oldc newc sorted_erasers chip_erasers chip_size n erased_value
  = Some maps0 ->
  shape maps0 = shape init
  /\ (forall k, (1 <= k)%nat -> map_at maps0 k = map_at init k).
Proof.
  intros oldc newc erased_value maps0 H. rewrite scan_maps_eq in H.
  destruct (diff_scan _ _ _ _ _ _ _ _) as [bm|] eqn:D; [|discriminate].
  assert (E : maps0 = upd_nth 0 (with_block_map (fun _ => bm)) init) by congruence.
  clear H. subst maps0. apply diff_scan_length in D. split.
  - unfold shape. destruct init as [|m l]; [reflexivity|].
    simpl. unfold map_at in D. simpl in D. rewrite D. reflexivity.
  - intros k Hk. rewrite map_at_upd_nth.
    destruct k; [lia|reflexivity].
Qed.

Lemma scan_maps_fits : forall oldc newc erased_value maps0,
  scan_maps oldc newc sorted_erasers chip_erasers chip_size n erased_value
  = Some maps0 ->
  has_sizes sizes maps0 /\ fits chip_size maps0 /\ upper_marks_erase maps0
  /\ length maps0 = n.
Proof.
  intros oldc newc erased_value maps0 H. apply scan_maps_some in H.
  destruct H as (Sh & Up). split; [|split; [|split]].
  - eapply has_sizes_shape; [exact Sh|apply init_has_sizes].
  - eapply fits_shape; [exact Sh|apply init_fits].
  - intros i j Hi Hm. unfold mark_at in *. rewrite Up in * by assumption.
    fold (mark_at init i j) in Hm. rewrite init_unmarked in Hm. discriminate.
  - apply shape_length in Sh. rewrite Sh. apply init_length.
Qed.

Lemma scan_maps_same : forall c erased_value,
  0 <= chip_size < UINT_MODULUS ->
  exists maps0,
    scan_maps c c sorted_erasers chip_erasers chip_size n erased_value = Some maps0
    /\ unmarked maps0.
Proof.
  intros c erased_value Hc. rewrite scan_maps_eq.
  rewrite diff_scan_same by lia.
  eexists. split; [reflexivity|].
  intros i j. unfold mark_at. rewrite map_at_upd_nth.
  destruct (Nat.eqb 0 i && (0 <? length init)%nat)%bool eqn:E.
  - apply andb_prop in E. destruct E as [E _]. apply Nat.eqb_eq in E. subst i.
    simpl. apply init_unmarked.
  - apply init_unmarked.
Qed.

End Planner.

(** ** Equal images *)

Lemma count_marked_none : forall f bm lo hi,
  (forall j, f (block_at bm j) = false) -> count_marked f bm lo hi = 0.
Proof.
  intros f bm lo hi H. unfold count_marked.
  apply (fold_left_inv _ _ (fun n => n = 0)); [reflexivity|].
  intros n x _ ->. rewrite H. reflexivity.
Qed.

Lemma fold_up_level_unmarked : forall chip_size maps i,
  unmarked maps ->
  (0 < chip_size / block_size (map_at maps i) ->
   0 <= limit (map_at maps (i - 1))) ->
  fold_up_level chip_size maps i = maps.
Proof.
  intros chip_size maps i Hu Hl. unfold fold_up_level.
  destruct (Z_lt_le_dec 0 (chip_size / block_size (map_at maps i))) as [Hpos|Hnone].
  - apply (fold_left_inv _ _ (fun s => s = maps)); [reflexivity|].
    intros s x _ ->. unfold fold_block.
    rewrite count_marked_none by (intros j; apply (f_equal b_need_erase (Hu (i - 1)%nat j))).
    specialize (Hl Hpos).
    destruct (limit (map_at maps (i - 1)) <? 0) eqn:E; [|reflexivity].
    apply Z.ltb_lt in E. lia.
  - rewrite zrange_nil by lia. reflexivity.
Qed.

Lemma prune_level_unmarked : forall chip_size maps i,
  unmarked maps -> prune_level chip_size maps i = maps.
Proof.
  intros chip_size maps i Hu. unfold prune_level.
  apply (fold_left_inv _ _ (fun s => s = maps)); [reflexivity|].
  intros s x _ ->. rewrite Hu. reflexivity.
Qed.

Lemma fold_range_maps_unmarked : forall chip_size n maps,
  unmarked maps ->
  (forall i, (1 <= i < n)%nat ->
     0 < chip_size / block_size (map_at maps i) ->
     0 <= limit (map_at maps (i - 1))) ->
  fold_range_maps maps n chip_size = maps.
Proof.
  intros chip_size n maps Hu Hl. unfold fold_range_maps, fold_up, prune_down.
  assert (E : fold_left (fold_up_level chip_size) (seq 1 (n - 1)) maps = maps).
  { apply (fold_left_inv _ _ (fun s => s = maps)); [reflexivity|].
    intros s i Hi ->. apply fold_up_level_unmarked; [assumption|].
    apply Hl. apply in_seq in Hi. lia. }
  rewrite E.
  apply (fold_left_inv _ _ (fun s => s = maps)); [reflexivity|].
  intros s i _ ->. apply prune_level_unmarked. assumption.
Qed.

Lemma emit_units_unmarked : forall chip_size maps sorted_erasers,
  unmarked maps -> emit_units chip_size maps sorted_erasers = [sentinel].
Proof.
  intros chip_size maps sorted_erasers Hu. unfold emit_units.
  assert (E : fold_left (emit_level chip_size) (combine maps sorted_erasers) (0, [])
              = (0, [])).
  { apply (fold_left_inv _ _ (fun st => st = (0, []))); [reflexivity|].
    intros st [m e] Hin ->. apply in_combine_l in Hin.
    apply (In_nth _ _ no_map) in Hin. destruct Hin as (i & _ & Hi).
    unfold emit_level.
    assert (F : fold_left (emit_block m e) (zrange 0 (chip_size / block_size m)) (0, [])
                = (0, [])).
    { apply (fold_left_inv _ _ (fun st => st = (0, []))); [reflexivity|].
      intros st j _ ->. unfold emit_block.
      assert (B : block_at (block_map m) j = no_mark).
      { rewrite <- Hi. apply (Hu i j). }
      rewrite B. reflexivity. }
    rewrite F. reflexivity. }
  rewrite E. reflexivity.
Qed.

Lemma positive_sizes : forall chip_erasers sorted_erasers,
  (forall e, In e sorted_erasers -> 0 < eraser_size chip_erasers e) ->
  forall i, (i < length (map (eraser_size chip_erasers) sorted_erasers))%nat ->
    0 < nth i (map (eraser_size chip_erasers) sorted_erasers) 0.
Proof.
  intros chip_erasers sorted_erasers H i Hi. rewrite length_map in Hi.
  rewrite nth_indep with (d' := eraser_size chip_erasers (mkEraser 0 0))
    by (rewrite length_map; assumption).
  rewrite map_nth. apply H. apply nth_In. assumption.
Qed.

(** With the chip no larger than an [int] holds, the limit of a level under
    a level that has blocks is the exact seven tenths, and not negative. *)
Lemma scan_maps_limit : forall oldc newc sorted_erasers chip_erasers chip_size
    erased_value maps0 i,
  chip_size <= INT_MAX ->
  (forall e, In e sorted_erasers -> 0 < eraser_size chip_erasers e) ->
  scan_maps oldc newc sorted_erasers chip_erasers chip_size
            (length sorted_erasers) erased_value = Some maps0 ->
  (1 <= i < length sorted_erasers)%nat ->
  0 < chip_size / block_size (map_at maps0 i) ->
  let block_mult := block_size (map_at maps0 i) / block_size (map_at maps0 (i - 1)) in
  limit (map_at maps0 (i - 1)) = block_mult * 7 / 10
  /\ to_int block_mult = block_mult
  /\ 0 <= block_mult.
Proof.
  intros oldc newc sorted_erasers chip_erasers chip_size erased_value maps0 i
         Hmax Hpos Hscan Hi Hblocks block_mult.
  pose proof (scan_maps_some _ _ _ _ _ _ _ Hscan) as (Sh & _).
  pose proof (scan_maps_fits _ _ _ _ _ _ _ Hscan) as (Hs & _).
  pose proof (positive_sizes _ _ Hpos) as Hp.
  rewrite length_map in Hp.
  destruct (shape_map_at _ _ (i - 1) Sh) as (B1 & L1 & _).
  destruct (shape_map_at _ _ i Sh) as (B2 & _ & _).
  rewrite L1. rewrite init_limit by lia.
  replace (S (i - 1)) with i by lia. rewrite <- B1, <- B2. fold block_mult.
  assert (P1 : 0 < block_size (map_at maps0 (i - 1))).
  { rewrite (has_sizes_block_size _ _ _ Hs). apply Hp. lia. }
  assert (P2 : 0 < block_size (map_at maps0 i)).
  { rewrite (has_sizes_block_size _ _ _ Hs). apply Hp. lia. }
  assert (Hle : block_size (map_at maps0 i) <= chip_size).
  { destruct (Z_le_gt_dec (block_size (map_at maps0 i)) chip_size) as [H|H];
      [assumption|].
    destruct (Z_lt_le_dec chip_size 0) as [Hn|Hn].
    - pose proof (Z.div_lt_upper_bound chip_size (block_size (map_at maps0 i)) 0 P2).
      lia.
    - rewrite Z.div_small in Hblocks by lia. lia. }
  assert (M0 : 0 <= block_mult) by (apply Z.div_pos; lia).
  assert (M1 : block_mult <= block_size (map_at maps0 i)).
  { apply Z.div_le_upper_bound; [lia|]. nia. }
  assert (M2 : 0 <= block_mult * 7 / 10 <= block_mult).
  { split; [apply Z.div_pos; lia|].
    apply Z.div_le_upper_bound; lia. }
  split; [apply to_int_id; lia|]. split; [apply to_int_id; lia|assumption].
Qed.

(** C3: for equal images the planner writes no processing unit: the array
    holds the terminating entry alone, the one with [num_blocks = 0]. *)
Theorem identical_images_no_units : forall image sorted_erasers chip_erasers
    chip_size erased_value,
  0 <= chip_size <= INT_MAX ->
  (forall e, In e sorted_erasers -> 0 < eraser_size chip_erasers e) ->
  exists units,
    fill_action_descriptor image image sorted_erasers chip_erasers chip_size
                           (length sorted_erasers) erased_value
    = Some units
    /\ units = [sentinel]
    /\ num_blocks (hd sentinel units) = 0.
Proof.
  intros image sorted_erasers chip_erasers chip_size erased_value Hc Hpos.
  exists [sentinel]. split; [|split; reflexivity].
  unfold fill_action_descriptor, plan_maps.
  destruct (scan_maps_same sorted_erasers chip_erasers chip_size image erased_value)
    as (maps0 & Hscan & Hu).
  { unfold INT_MAX, UINT_MODULUS in *. lia. }
  rewrite Hscan.
  rewrite fold_range_maps_unmarked.
  - rewrite emit_units_unmarked by assumption. reflexivity.
  - assumption.
  - intros i Hi Hblocks.
    destruct (scan_maps_limit _ _ _ _ _ _ _ i (proj2 Hc) Hpos Hscan Hi Hblocks)
      as (L & _ & M0).
    rewrite L. apply Z.div_pos; lia.
Qed.

Lemma identical_images_no_units_witness :
  exists units,
    fill_action_descriptor blank_image blank_image
      [mkEraser 1 0; mkEraser 2 0] (block_erasers twin_chip) 1024 2 255
    = Some units
    /\ units = [sentinel]
    /\ num_blocks (hd sentinel units) = 0.
Proof.
  apply (identical_images_no_units blank_image
           [mkEraser 1 0; mkEraser 2 0] (block_erasers twin_chip) 1024 255).
  - unfold INT_MAX. lia.
  - intros e [<-|[<-|[]]]; reflexivity.
Defined.

(** ** The scan ends *)

Lemma land_le_r : forall x m, 0 <= m -> Z.land x m <= m.
Proof.
  intros x m Hm.
  assert (E : m - Z.land x m = Z.ldiff m (Z.land x m)).
  { apply Z.sub_nocarry_ldiff. apply Z.bits_inj'. intros k Hk.
    rewrite Z.ldiff_spec, Z.land_spec, Z.bits_0.
    destruct (Z.testbit x k), (Z.testbit m k); reflexivity. }
  assert (0 <= Z.ldiff m (Z.land x m)) by (apply Z.ldiff_nonneg; left; assumption).
  lia.
Qed.

(** Clearing the bits of [m] in [x] takes at most [m] off. *)
Lemma land_lnot_bounds : forall x m,
  0 <= m -> x - m <= Z.land x (Z.lnot m) <= x.
Proof.
  intros x m Hm. rewrite <- Z.ldiff_land.
  assert (E : x - Z.land x m = Z.ldiff x (Z.land x m)).
  { apply Z.sub_nocarry_ldiff. apply Z.bits_inj'. intros k Hk.
    rewrite Z.ldiff_spec, Z.land_spec, Z.bits_0.
    destruct (Z.testbit x k), (Z.testbit m k); reflexivity. }
  assert (F : Z.ldiff x (Z.land x m) = Z.ldiff x m).
  { apply Z.bits_inj'. intros k Hk.
    rewrite !Z.ldiff_spec, Z.land_spec.
    destruct (Z.testbit x k), (Z.testbit m k); reflexivity. }
  pose proof (land_le_r x m Hm).
  assert (0 <= Z.land x m) by (apply Z.land_nonneg; right; assumption).
  lia.
Qed.

Lemma marked_in_range : forall bm j,
  block_at bm j <> no_mark -> 0 <= j < Z.of_nat (length bm).
Proof.
  intros bm j H.
  destruct (Z_lt_dec j 0) as [Hn|Hn];
    [exfalso; apply H; apply block_at_negative; assumption|].
  destruct (Z_lt_dec j (Z.of_nat (length bm))) as [Hin|Hout]; [lia|].
  exfalso. apply H. apply block_at_outside. lia.
Qed.

Lemma diff_scan_total : forall chip_size fuel oldc newc erased_value bs i bm,
  0 <= chip_size <= INT_MAX ->
  0 <= i ->
  length bm = Z.to_nat (chip_size / bs) ->
  (Z.to_nat (chip_size - i) <= fuel)%nat ->
  exists bm', diff_scan fuel oldc newc chip_size erased_value bs i bm = Some bm'.
Proof.
  intros chip_size fuel oldc newc erased_value bs.
  induction fuel as [|fuel IH]; intros i bm Hc Hi Hlen Hfuel;
    simpl; destruct (i <? chip_size) eqn:E; try (eexists; reflexivity).
  - apply Z.ltb_lt in E. lia.
  - apply Z.ltb_lt in E. unfold INT_MAX in Hc.
    assert (Hnext : to_uint (i + 1) = i + 1)
      by (apply to_uint_id; unfold UINT_MODULUS; lia).
    destruct (byte_at oldc i =? byte_at newc i).
    + rewrite Hnext. apply IH; try assumption; unfold INT_MAX; lia.
    + set (block_index := to_int (i / bs)).
      set (bm1 := if negb (byte_at oldc i =? erased_value)
                  then upd_block bm block_index set_need_erase else bm).
      set (bm2 := if negb (byte_at newc i =? erased_value)
                  then upd_block bm1 block_index set_need_change else bm1).
      assert (L2 : length bm2 = Z.to_nat (chip_size / bs)).
      { unfold bm2, bm1.
        destruct (negb (byte_at newc i =? erased_value));
          destruct (negb (byte_at oldc i =? erased_value));
          rewrite ?upd_block_length; assumption. }
      destruct (b_need_erase (block_at bm2 block_index)
                && b_need_change (block_at bm2 block_index))%bool eqn:B.
      * assert (Hr : 0 <= block_index < Z.of_nat (length bm2)).
        { apply marked_in_range. intros Hno. rewrite Hno in B. discriminate. }
        rewrite L2 in Hr.
        assert (Hq : 1 <= chip_size / bs) by lia.
        assert (Hbs : 0 < bs <= chip_size).
        { destruct (Z_lt_le_dec 0 bs) as [Hp|Hp].
          - split; [assumption|].
            destruct (Z_le_gt_dec bs chip_size) as [H|H]; [assumption|].
            rewrite Z.div_small in Hq by lia. lia.
          - destruct (Z.eq_dec bs 0) as [->|Hz].
            + rewrite Z.div_0_r in Hq. lia.
            + assert (chip_size / bs <= 0).
              { rewrite <- Z.div_opp_opp by assumption.
                apply Z.div_le_upper_bound; lia. }
              lia. }
        assert (Hsum : to_uint (i + bs) = i + bs)
          by (apply to_uint_id; unfold UINT_MODULUS; lia).
        rewrite Hsum.
        pose proof (land_lnot_bounds (i + bs) (bs - 1) ltac:(lia)) as Hl.
        rewrite (to_uint_id (Z.land _ _)) by (unfold UINT_MODULUS; lia).
        rewrite to_uint_id by (unfold UINT_MODULUS; lia).
        apply IH; try assumption; unfold INT_MAX; lia.
      * rewrite Hnext. apply IH; try assumption; unfold INT_MAX; lia.
Qed.

Lemma scan_maps_total : forall oldc newc sorted_erasers chip_erasers chip_size
    erased_value,
  0 <= chip_size <= INT_MAX ->
  exists maps0,
    scan_maps oldc newc sorted_erasers chip_erasers chip_size
              (length sorted_erasers) erased_value = Some maps0.
Proof.
  intros oldc newc sorted_erasers chip_erasers chip_size erased_value Hc.
  rewrite scan_maps_eq.
  destruct (diff_scan_total chip_size (S (Z.to_nat chip_size)) oldc newc erased_value
              (block_size (map_at (init_range_maps sorted_erasers chip_erasers
                                     chip_size (length sorted_erasers)) 0))
              0
              (block_map (map_at (init_range_maps sorted_erasers chip_erasers
                                    chip_size (length sorted_erasers)) 0)))
    as (bm & E); try assumption; try lia.
  - apply init_fits.
  - rewrite E. eexists. reflexivity.
Qed.

(** ** The fold threshold *)



(** On [twin_chip] a block of 1024 bytes has four children of 256 bytes and
    the limit is 2.  With [worn_image] and [fresh_image] three of the four
    are marked for erase and for change, and the upward loop marks the
    block of 1024 bytes for both; with [before_image] and [after_image] one
    is, and the block stays unmarked. *)
Lemma fold_up_three_of_four :
  exists maps0,
    scan_maps worn_image fresh_image [mkEraser 1 0; mkEraser 2 0]
              (block_erasers twin_chip) 1024 2 255 = Some maps0
    /\ let up := fold_up 1024 2 maps0 in
       children up 1 0 = [0; 1; 2; 3]
       /\ map (mark_at up 0) (children up 1 0)
          = [mkBMap true true; mkBMap true true; mkBMap true true; no_mark]
       /\ children_marked b_need_erase up 1 0 = 3
       /\ children_marked b_need_change up 1 0 = 3
       /\ limit (map_at up 0) = 2
       /\ mark_at up 1 0 = mkBMap true true.
Proof.
  eexists. split; [vm_compute; reflexivity|]. vm_compute. repeat split.
Qed.

Lemma fold_up_one_of_four :
  exists maps0,
    scan_maps before_image after_image [mkEraser 1 0; mkEraser 2 0]
              (block_erasers twin_chip) 1024 2 255 = Some maps0
    /\ let up := fold_up 1024 2 maps0 in
       map (mark_at up 0) (children up 1 0)
       = [mkBMap true true; no_mark; no_mark; no_mark]
       /\ children_marked b_need_erase up 1 0 = 1
       /\ limit (map_at up 0) = 2
       /\ mark_at up 1 0 = no_mark.
Proof.
  eexists. split; [vm_compute; reflexivity|]. vm_compute. repeat split.
Qed.

(** ** The processing units *)

Lemma emit_level_runs : forall chip_size m e units,
  let st := emit_level chip_size (0, units) (m, e) in
  fst st = 0
  /\ forall u, In u (snd st) -> In u units \/ run_of m u.
Proof.
  intros chip_size m e units. unfold emit_level.
  set (N := chip_size / block_size m).
  set (Q := fun (j : Z) (st : emit_state) =>
              0 <= fst st <= j
              /\ (forall t, j - fst st <= t < j ->
                    marked (block_at (block_map m) t) = true)
              /\ forall u, In u (snd st) -> In u units \/ run_of m u).
  assert (Hstep : forall j st, 0 <= j -> Q j st -> Q (j + 1) (emit_block m e st j)).
  { intros j [cb us] Hj (Hcb & Hrun & Hus). simpl in Hcb, Hrun, Hus.
    unfold emit_block.
    change (b_need_erase (block_at (block_map m) j)
            || b_need_change (block_at (block_map m) j))%bool
      with (marked (block_at (block_map m) j)).
    destruct (marked (block_at (block_map m) j)) eqn:Mk.
    - split; [simpl; lia|]. split; [|exact Hus].
      simpl. intros t Ht. destruct (Z.eq_dec t j) as [->|Hne]; [assumption|].
      apply Hrun. lia.
    - destruct (cb =? 0) eqn:C.
      + apply Z.eqb_eq in C. subst cb. split; [simpl; lia|].
        split; [simpl; intros; lia|exact Hus].
      + apply Z.eqb_neq in C. split; [simpl; lia|].
        split; [simpl; intros; lia|].
        simpl. intros u Hu. apply in_app_or in Hu.
        destruct Hu as [Hu|[<-|[]]]; [apply Hus; assumption|].
        right. split; [reflexivity|]. exists (j - cb). simpl.
        split; [reflexivity|]. split; [lia|]. split; [lia|].
        intros t Ht. apply Hrun. lia. }
  assert (G : exists j, 0 <= j /\ (j = 0 \/ j = N)
                        /\ Q j (fold_left (emit_block m e) (zrange 0 N) (0, units))).
  { destruct (Z_le_gt_dec 0 N) as [HN|HN].
    - exists N. split; [assumption|]. split; [right; reflexivity|].
      apply (fold_zrange_inv _ Q); [assumption| |].
      + split; [simpl; lia|]. split; [simpl; intros; lia|]. simpl. auto.
      + intros j st Hj. apply Hstep. lia.
    - exists 0. split; [lia|]. split; [left; reflexivity|].
      rewrite zrange_nil by lia. simpl.
      split; [simpl; lia|]. split; [simpl; intros; lia|]. simpl. auto. }
  destruct G as (j & Hj & HjN & HQ).
  destruct (fold_left (emit_block m e) (zrange 0 N) (0, units)) as [cb us].
  destruct HQ as (Hcb & Hrun & Hus). simpl in Hcb, Hrun, Hus.
  destruct (cb =? 0) eqn:C.
  - apply Z.eqb_eq in C. subst cb. simpl. split; [reflexivity|exact Hus].
  - apply Z.eqb_neq in C. simpl. split; [reflexivity|].
    intros u Hu. apply in_app_or in Hu.
    destruct Hu as [Hu|[<-|[]]]; [apply Hus; assumption|].
    assert (j = N) by (destruct HjN; lia). subst j.
    right. split; [reflexivity|]. exists (N - cb). simpl.
    split; [reflexivity|]. split; [lia|]. split; [lia|].
    intros t Ht. apply Hrun. lia.
Qed.

(** Every unit but the last stands for a run of marked blocks of one
    level. *)
Lemma emit_units_runs : forall chip_size maps sorted_erasers u,
  In u (emit_units chip_size maps sorted_erasers) ->
  u = sentinel
  \/ exists i, (i < length maps)%nat /\ run_of (map_at maps i) u.
Proof.
  intros chip_size maps sorted_erasers u Hu. unfold emit_units in Hu.
  apply in_app_or in Hu. destruct Hu as [Hu|[<-|[]]]; [|left; reflexivity].
  right. revert u Hu.
  assert (G : (fun st : emit_state =>
                 fst st = 0
                 /\ forall u, In u (snd st) ->
                      exists i, (i < length maps)%nat /\ run_of (map_at maps i) u)
              (fold_left (emit_level chip_size) (combine maps sorted_erasers) (0, []))).
  { apply fold_left_inv.
    - split; [reflexivity|]. intros u [].
    - intros [cb us] [m e] Hin (Hcb & Hus). simpl in Hcb, Hus. subst cb.
      pose proof (emit_level_runs chip_size m e us) as (H0 & Hr).
      split; [exact H0|]. intros u Hu. apply Hr in Hu.
      destruct Hu as [Hu|Hu]; [apply Hus; assumption|].
      apply in_combine_l in Hin. apply (In_nth _ _ no_map) in Hin.
      destruct Hin as (i & Hi & Hm). exists i. split; [assumption|].
      unfold map_at. rewrite Hm. assumption. }
  destruct G as (_ & G). exact G.
Qed.

(** A byte in the range of a unit lies in a marked block of its level. *)
Lemma run_of_covers : forall m u a,
  0 < block_size m -> run_of m u -> covers u a ->
  unit_block_size u = block_size m
  /\ in_block (block_size m) (a / block_size m) a
  /\ marked (block_at (block_map m) (a / block_size m)) = true.
Proof.
  intros m u a Hpos (Hbs & s & Hoff & Hs & Hnb & Hrun) Hc.
  unfold covers in Hc. rewrite Hbs, Hoff in Hc.
  split; [assumption|]. unfold in_block.
  pose proof (Z.mul_div_le a (block_size m) Hpos).
  pose proof (Z.mul_succ_div_gt a (block_size m) Hpos).
  split; [lia|]. apply Hrun. split.
  - apply Z.div_le_lower_bound; lia.
  - apply Z.div_lt_upper_bound; [lia|]. nia.
Qed.

Lemma levels_disjoint_units : forall chip_size maps sorted_erasers,
  (forall i, (i < length maps)%nat -> 0 < block_size (map_at maps i)) ->
  levels_disjoint maps ->
  units_disjoint (emit_units chip_size maps sorted_erasers).
Proof.
  intros chip_size maps sorted_erasers Hpos Hd u1 u2 a H1 H2 Hne C1 C2.
  apply emit_units_runs in H1, H2.
  destruct H1 as [->|(i1 & Hi1 & R1)].
  { unfold covers in C1. simpl in C1. lia. }
  destruct H2 as [->|(i2 & Hi2 & R2)].
  { unfold covers in C2. simpl in C2. lia. }
  destruct (run_of_covers _ _ _ (Hpos i1 Hi1) R1 C1) as (S1 & B1 & M1).
  destruct (run_of_covers _ _ _ (Hpos i2 Hi2) R2 C2) as (S2 & B2 & M2).
  apply (Hd i1 i2 (a / block_size (map_at maps i1))
            (a / block_size (map_at maps i2)) a); try assumption.
  intros ->. congruence.
Qed.

(** ** The downward loop *)

(** C5, as stated: on [skew_chip] the erasers taken have blocks of 256 and
    of 384 bytes.  With [patch_before] and [patch_after] block 0 of 256
    bytes needs an erase and block 1 a write; the upward loop marks block 0
    of 384 bytes, the downward loop unmarks block 0 of 256 bytes under it
    and leaves block 1, and the planner writes a unit for the bytes from
    256 to 511 and a unit for the bytes from 0 to 383. *)
Lemma skew_blocks_overlap :
  fill_sorted_erasers skew_chip (max_modified patch_before patch_after 1024)
  = Some [mkEraser 0 0; mkEraser 1 0]
  /\ prepare_action_descriptor skew_chip patch_before patch_after
     = Some (mkDescriptor patch_before patch_after
               [mkUnit 256 256 1 0 0; mkUnit 0 384 1 1 0; sentinel])
  /\ ~ levels_never_overlap patch_before patch_after
        [mkEraser 0 0; mkEraser 1 0] (block_erasers skew_chip) 1024 255.
Proof.
  split; [vm_compute; reflexivity|]. split; [vm_compute; reflexivity|].
  intros H.
  destruct (plan_maps patch_before patch_after [mkEraser 0 0; mkEraser 1 0]
              (block_erasers skew_chip) 1024 2 255) as [maps|] eqn:P;
    [|vm_compute in P; discriminate].
  destruct (H maps [mkUnit 256 256 1 0 0; mkUnit 0 384 1 1 0; sentinel] P)
    as (_ & Hu); [vm_compute; reflexivity|].
  apply (Hu (mkUnit 256 256 1 0 0) (mkUnit 0 384 1 1 0) 300).
  - left. reflexivity.
  - right. left. reflexivity.
  - simpl. lia.
  - unfold covers. simpl. lia.
  - unfold covers. simpl. lia.
Qed.

(** C5, amended: with block sizes that are positive and each a divisor of the
    next, on a chip whose size an [int] holds, the maps the planner ends
    with have no byte in two marked blocks of different levels, and so no
    byte lies in the ranges of two processing units of different block
    sizes. *)
Theorem prune_levels_disjoint : forall oldc newc sorted_erasers chip_erasers
    chip_size erased_value,
  let sizes := map (eraser_size chip_erasers) sorted_erasers in
  0 <= chip_size <= INT_MAX ->
  (forall e, In e sorted_erasers -> 0 < eraser_size chip_erasers e) ->
  (forall i, (S i < length sizes)%nat -> (nth i sizes 0 | nth (S i) sizes 0)) ->
  exists maps units,
    plan_maps oldc newc sorted_erasers chip_erasers chip_size
              (length sorted_erasers) erased_value = Some maps
    /\ fill_action_descriptor oldc newc sorted_erasers chip_erasers chip_size
                              (length sorted_erasers) erased_value = Some units
    /\ levels_disjoint maps
    /\ units_disjoint units.
Proof.
  intros oldc newc sorted_erasers chip_erasers chip_size erased_value sizes
         Hc Hpos Hchain.
  destruct (scan_maps_total oldc newc sorted_erasers chip_erasers chip_size
              erased_value Hc) as (maps0 & Hscan).
  pose proof (scan_maps_fits _ _ _ _ _ _ _ Hscan) as (Hs & Hf & Hu & Hlen).
  fold sizes in Hs.
  pose proof (positive_sizes _ _ Hpos) as Hp. fold sizes in Hp.
  assert (Hn : length sizes = length sorted_erasers)
    by (unfold sizes; apply length_map).
  set (up := fold_up chip_size (length sorted_erasers) maps0).
  assert (Sh : shape up = shape maps0) by apply fold_up_shape.
  assert (Hd : levels_disjoint (fold_range_maps maps0 (length sorted_erasers) chip_size)).
  { unfold fold_range_maps. fold up. rewrite <- Hn.
    apply (prune_down_disjoint sizes Hp Hchain chip_size (proj2 Hc)).
    - eapply has_sizes_shape; eassumption.
    - eapply fits_shape; eassumption.
    - apply fold_up_upper_marks. assumption. }
  exists (fold_range_maps maps0 (length sorted_erasers) chip_size).
  exists (emit_units chip_size
            (fold_range_maps maps0 (length sorted_erasers) chip_size)
            sorted_erasers).
  unfold fill_action_descriptor, plan_maps. rewrite Hscan.
  split; [reflexivity|]. split; [reflexivity|]. split; [assumption|].
  apply levels_disjoint_units; [|assumption].
  intros i Hi.
  assert (Hr : cleared_below (length sorted_erasers) up
                 (fold_range_maps maps0 (length sorted_erasers) chip_size))
    by apply prune_down_below.
  destruct Hr as (Sh2 & _).
  assert (Hs2 : has_sizes sizes
                  (fold_range_maps maps0 (length sorted_erasers) chip_size)).
  { eapply has_sizes_shape; [exact Sh2|].
    eapply has_sizes_shape; eassumption. }
  rewrite (has_sizes_block_size _ _ _ Hs2). apply Hp.
  rewrite <- (has_sizes_length _ _ Hs2). assumption.
Qed.

Lemma prune_levels_disjoint_witness :
  exists maps units,
    plan_maps worn_image fresh_image [mkEraser 1 0; mkEraser 2 0]
              (block_erasers twin_chip) 1024 2 255 = Some maps
    /\ fill_action_descriptor worn_image fresh_image
         [mkEraser 1 0; mkEraser 2 0] (block_erasers twin_chip) 1024 2 255
       = Some units
    /\ levels_disjoint maps
    /\ units_disjoint units.
Proof.
  apply (prune_levels_disjoint worn_image fresh_image
           [mkEraser 1 0; mkEraser 2 0] (block_erasers twin_chip) 1024 255).
  - unfold INT_MAX. lia.
  - intros e [<-|[<-|[]]]; reflexivity.
  - intros [|i] Hi; [exists 4; reflexivity|simpl in Hi; lia].
Defined.

(** With those images the downward loop has work to do: after the upward
    loop three blocks of 256 bytes and the block of 1024 bytes over them are
    marked, the downward loop unmarks the three, and the planner writes the
    one unit of 1024 bytes. *)
Lemma prune_unmarks_children :
  exists maps0,
    scan_maps worn_image fresh_image [mkEraser 1 0; mkEraser 2 0]
              (block_erasers twin_chip) 1024 2 255 = Some maps0
    /\ let up := fold_up 1024 2 maps0 in
       let down := prune_down 1024 2 up in
       map (mark_at up 0) [0; 1; 2; 3]
       = [mkBMap true true; mkBMap true true; mkBMap true true; no_mark]
       /\ mark_at up 1 0 = mkBMap true true
       /\ map (mark_at down 0) [0; 1; 2; 3] = [no_mark; no_mark; no_mark; no_mark]
       /\ mark_at down 1 0 = mkBMap true true
       /\ emit_units 1024 down [mkEraser 1 0; mkEraser 2 0]
          = [mkUnit 0 1024 1 2 0; sentinel].
Proof.
  eexists. split; [vm_compute; reflexivity|]. vm_compute. repeat split.
Qed.

(** ** The byte after a block that is done with

    When a block of the smallest size has both its flags set the scan moves
    [i] to the start of the next block, and the [i++] of the loop then
    steps over that byte: a difference in the first byte of a block that
    follows such a block is not seen. *)

(** C2 at [before_image] and [after_image] on [twin_chip]: the images
    differ at byte 256, the planner writes the single unit for block 0, and
    no unit covers byte 256. *)
Theorem planner_skips_block_start :
  exists descriptor,
    prepare_action_descriptor twin_chip before_image after_image = Some descriptor
    /\ processing_units descriptor = [mkUnit 0 256 1 1 0; sentinel]
    /\ byte_at before_image 256 <> byte_at after_image 256
    /\ ~ covered (processing_units descriptor) 256
    /\ ~ covers_differences before_image after_image 1024
         (processing_units descriptor).
Proof.
  eexists. split; [vm_compute; reflexivity|].
  split; [reflexivity|].
  assert (D : byte_at before_image 256 <> byte_at after_image 256)
    by (vm_compute; discriminate).
  assert (N : ~ covered [mkUnit 0 256 1 1 0; sentinel] 256).
  { intros (u & [<-|[<-|[]]] & Hc); unfold covers in Hc; simpl in Hc; lia. }
  split; [exact D|]. split; [exact N|].
  intros H. apply N. apply H; [lia|exact D].
Qed.

(** C1 at the same images: carried out by an ideal master the plan
    succeeds and leaves byte 256 as it was, so the array is not equal to
    [after_image]. *)
Theorem ideal_master_misses_after :
  exists final,
    plan_and_execute plain_programmer twin_chip before_image after_image
    = Some (0, final)
    /\ length final = length after_image
    /\ byte_at final 256 = 0
    /\ byte_at after_image 256 = 1
    /\ final <> after_image.
Proof.
  eexists. split; [vm_compute; reflexivity|].
  split; [reflexivity|]. split; [reflexivity|]. split; [reflexivity|].
  intros H. apply (f_equal (fun l => byte_at l 256)) in H.
  vm_compute in H. discriminate.
Qed.

(** ** The verification of a range *)

Lemma verify_range_zero_length : forall p chip h cmpbuf start,
  verify_range p chip h cmpbuf start 0 = Some (-1, h).
Proof.
  reflexivity.
Qed.

Lemma verify_range_out_of_range : forall p chip h cmpbuf start len,
  to_uint (total_size chip * 1024) < to_uint (start + len) ->
  verify_range p chip h cmpbuf start len = Some (-1, h).
Proof.
  intros p chip h cmpbuf start len H. unfold verify_range.
  destruct (len =? 0); [reflexivity|].
  destruct (chip_read chip); [|reflexivity].
  apply Z.ltb_lt in H. rewrite H. reflexivity.
Qed.

(** C10: [verify_range] fails, and calls nothing of the chip, for a length
    of zero and for a range that ends beyond the chip; [start + len] and the
    size of the chip are the [unsigned] values the source compares. *)
Theorem verify_range_rejects : forall p chip h cmpbuf start len,
  len = 0 \/ to_uint (total_size chip * 1024) < to_uint (start + len) ->
  verify_range p chip h cmpbuf start len = Some (-1, h).
Proof.
  intros p chip h cmpbuf start len [->|H].
  - apply verify_range_zero_length.
  - apply verify_range_out_of_range. assumption.
Qed.

Lemma verify_range_rejects_witness :
  verify_range plain_programmer twin_chip (mkHw blank_image []) [] 0 0
  = Some (-1, mkHw blank_image [])
  /\ verify_range plain_programmer twin_chip (mkHw blank_image [])
       (repeat 255 100) 1000 100
     = Some (-1, mkHw blank_image []).
Proof.
  split.
  - apply (verify_range_rejects plain_programmer twin_chip
             (mkHw blank_image []) [] 0 0).
    left. reflexivity.
  - apply (verify_range_rejects plain_programmer twin_chip
             (mkHw blank_image []) (repeat 255 100) 1000 100).
    right. vm_compute. reflexivity.
Defined.

(** Where nothing wraps the comparison is the one of the exact values. *)
Lemma verify_range_rejects_beyond_chip : forall p chip h cmpbuf start len,
  0 <= total_size chip * 1024 < UINT_MODULUS ->
  0 <= start + len < UINT_MODULUS ->
  total_size chip * 1024 < start + len ->
  verify_range p chip h cmpbuf start len = Some (-1, h).
Proof.
  intros p chip h cmpbuf start len Ht Hs Hlt.
  apply verify_range_out_of_range. rewrite !to_uint_id by assumption.
  assumption.
Qed.

(** ** The decision to erase *)

Lemma existsb_zrange : forall f lo hi,
  existsb f (zrange lo hi) = true <-> exists i, lo <= i < hi /\ f i = true.
Proof.
  intros f lo hi. rewrite existsb_exists. split.
  - intros (i & Hi & Hf). apply zrange_In in Hi. eauto.
  - intros (i & Hi & Hf). exists i. split; [apply zrange_In|]; assumption.
Qed.

(** For a chip written byte by byte [need_erase] asks for an erase exactly
    when some byte differs and does not hold the erased value it is given. *)
Lemma need_erase_1byte : forall have want len erased_value,
  need_erase have want len write_gran_1byte erased_value = 1
  <-> exists i, 0 <= i < len
                /\ byte_at have i <> byte_at want i
                /\ byte_at have i <> erased_value.
Proof.
  intros have want len erased_value. simpl.
  destruct (existsb _ (zrange 0 len)) eqn:E.
  - apply existsb_zrange in E. destruct E as (i & Hi & Hf).
    apply andb_prop in Hf. destruct Hf as [H1 H2].
    apply negb_true_iff in H1, H2. apply Z.eqb_neq in H1, H2.
    split; [intros _; eauto|reflexivity].
  - split; [discriminate|]. intros (i & Hi & H1 & H2). exfalso.
    assert (T : existsb (fun i => negb (byte_at have i =? byte_at want i)
                                  && negb (byte_at have i =? erased_value))
                        (zrange 0 len) = true).
    { apply existsb_zrange. exists i. split; [assumption|].
      apply Z.eqb_neq in H1, H2. rewrite H1, H2. reflexivity. }
    congruence.
Qed.

(** C8 at [stale_block] and [fresh_block] on [zero_chip]: byte 0 differs and
    does not hold the erased value 0 of the chip, so by the erased value of
    the chip the block needs an erase; the executor decides with 255, finds
    no need, calls no erase and writes the byte over the unerased one. *)
Theorem executor_decides_with_ff :
  ERASED_VALUE zero_chip = 0
  /\ need_erase (ptr_add stale_block 0) (ptr_add fresh_block 0) 256
                (gran zero_chip) (ERASED_VALUE zero_chip) = 1
  /\ need_erase (ptr_add stale_block 0) (ptr_add fresh_block 0) 256
                (gran zero_chip) 255 = 0
  /\ erase_and_write_block_helper plain_programmer zero_chip
       (mkHw stale_block []) 0 256 stale_block fresh_block (ideal_erase 0)
     = Some (0, mkHw fresh_block [EvWrite 0 1], stale_block).
Proof.
  split; [reflexivity|]. split; [vm_compute; reflexivity|].
  split; [vm_compute; reflexivity|]. vm_compute. reflexivity.
Qed.

(** ** Reading back what was written *)

Lemma byte_at_ptr_add : forall buf n i,
  0 <= n -> 0 <= i -> byte_at (ptr_add buf n) i = byte_at buf (n + i).
Proof.
  intros buf n i Hn Hi. unfold byte_at, ptr_add.
  destruct (i <? 0) eqn:E1; [apply Z.ltb_lt in E1; lia|].
  destruct (n + i <? 0) eqn:E2; [apply Z.ltb_lt in E2; lia|].
  rewrite nth_skipn. f_equal. lia.
Qed.

Lemma compare_range_equal : forall wantbuf havebuf start len,
  compare_range wantbuf havebuf start len = 0 ->
  forall k, 0 <= k < len -> byte_at wantbuf k = byte_at havebuf k.
Proof.
  intros wantbuf havebuf start len H k Hk. unfold compare_range in H.
  set (f := fun failcount i =>
              if byte_at wantbuf i =? byte_at havebuf i then failcount
              else failcount + 1) in H.
  assert (G : (fun j fc => 0 <= fc
                 /\ (fc = 0 -> forall x, 0 <= x < j ->
                       byte_at wantbuf x = byte_at havebuf x))
              len (fold_left f (zrange 0 len) 0)).
  { apply fold_zrange_inv; [lia| |].
    - split; [lia|]. intros; lia.
    - intros j fc Hj (H0 & Heq). unfold f.
      destruct (byte_at wantbuf j =? byte_at havebuf j) eqn:E.
      + split; [assumption|]. intros Hfc x Hx.
        destruct (Z.eq_dec x j) as [->|Hne]; [apply Z.eqb_eq; assumption|].
        apply Heq; [assumption|lia].
      + split; [lia|]. intros; lia. }
  destruct G as (H0 & Heq).
  destruct (fold_left f (zrange 0 len) 0 =? 0) eqn:E; [|discriminate].
  apply Z.eqb_eq in E. apply Heq; assumption.
Qed.

Section ReadBack.

Variable p : programmer_state.
Variable chip : flashchip.
Variable want : list Z.

Hypothesis page_size_ok : 0 < page_size chip <= INT_MAX.

(** The paranoid loop of [verify_range], when it returns 0, has read the
    rest of the range chunk by chunk and found every chunk equal to
    [cmpbuf] but those the access check denied. *)
Lemma verify_chunks_reads_back : forall fuel read h cmpbuf start len i ret h',
  0 <= start -> 0 <= i <= len -> start + len <= INT_MAX ->
  (forall x, 0 <= x < len -> byte_at cmpbuf x = byte_at want (start + x)) ->
  verify_chunks fuel p chip read h cmpbuf start len i ret = Some (0, h') ->
  ret = 0
  /\ exists reads,
       trace h' = rev reads ++ trace h
       /\ reads_back p want (start + i) (start + len) reads.
Proof.
  induction fuel as [|fuel IH]; intros read h cmpbuf start len i ret h'
                                       Hs Hi Hmax Hcmp H;
    simpl in H; destruct (i <? len) eqn:E; try discriminate.
  - apply Z.ltb_ge in E. inversion H; subst. split; [reflexivity|].
    exists []. split; [reflexivity|]. replace i with len by lia. constructor.
  - apply Z.ltb_lt in E. unfold INT_MAX in *.
    assert (Hc : to_uint (min_int (page_size chip) (to_uint (len - i)))
                 = Z.min (page_size chip) (len - i)).
    { unfold min_int. rewrite (to_uint_id (len - i)) by (unfold UINT_MODULUS; lia).
      rewrite !to_int_id by (unfold INT_MAX; lia).
      apply to_uint_id. unfold UINT_MODULUS. lia. }
    rewrite Hc in H. set (chunksize := Z.min (page_size chip) (len - i)) in *.
    rewrite (to_uint_id (start + i)) in H by (unfold UINT_MODULUS; lia).
    rewrite (to_uint_id (i + chunksize)) in H by (unfold UINT_MODULUS; lia).
    assert (Hb : 0 < chunksize /\ 0 <= i + chunksize <= len)
      by (unfold chunksize; lia).
    unfold call_read in H.
    destruct (read (mem h) (start + i) chunksize) as [[tmp data] m] eqn:R.
    destruct (negb (tmp =? 0)) eqn:T.
    + destruct (ignore_error p tmp); [|inversion H; subst; discriminate].
      destruct (IH _ _ _ _ _ _ _ _ Hs (proj2 Hb) Hmax Hcmp H) as (H0 & _).
      subst tmp. discriminate.
    + assert (Hsame : compare_range (ptr_add cmpbuf i) data (start + i) chunksize
                      = 0 ->
                      forall k, 0 <= k < chunksize ->
                        byte_at data k = byte_at want (start + i + k)).
      { intros C k Hk.
        rewrite <- (compare_range_equal _ _ _ _ C k Hk).
        rewrite byte_at_ptr_add by lia.
        rewrite Hcmp by lia. f_equal. lia. }
      destruct (check_access chip) as [access|].
      * unfold call_access in H. cbn [mem trace] in H. cbv zeta in H.
        set (rca := access m (start + i) chunksize 0) in *.
        fold (access_denied p rca) in H.
        destruct (access_denied p rca) eqn:D.
        -- destruct (IH _ _ _ _ _ _ _ _ Hs (proj2 Hb) Hmax Hcmp H)
             as (H0 & reads & Ht & Hr).
           split; [assumption|].
           exists (EvRead (start + i) chunksize data
                   :: EvAccess (start + i) chunksize rca :: reads). split.
           ++ rewrite Ht. simpl. rewrite <- !app_assoc. reflexivity.
           ++ apply reads_back_checked; try lia.
              ** intros D'. rewrite D in D'. discriminate.
              ** replace (start + i + chunksize) with (start + (i + chunksize))
                   by lia.
                 assumption.
        -- destruct (negb (compare_range (ptr_add cmpbuf i) data (start + i)
                                         chunksize =? 0))
             eqn:C; [inversion H|].
           apply negb_false_iff in C. apply Z.eqb_eq in C.
           destruct (IH _ _ _ _ _ _ _ _ Hs (proj2 Hb) Hmax Hcmp H)
             as (H0 & reads & Ht & Hr).
           split; [assumption|].
           exists (EvRead (start + i) chunksize data
                   :: EvAccess (start + i) chunksize rca :: reads). split.
           ++ rewrite Ht. simpl. rewrite <- !app_assoc. reflexivity.
           ++ apply reads_back_checked; try lia.
              ** intros _. apply Hsame. assumption.
              ** replace (start + i + chunksize) with (start + (i + chunksize))
                   by lia.
                 assumption.
      * destruct (negb (compare_range (ptr_add cmpbuf i) data (start + i)
                                      chunksize =? 0))
          eqn:C; [inversion H|].
        apply negb_false_iff in C. apply Z.eqb_eq in C.
        destruct (IH _ _ _ _ _ _ _ _ Hs (proj2 Hb) Hmax Hcmp H)
          as (H0 & reads & Ht & Hr).
        split; [assumption|].
        exists (EvRead (start + i) chunksize data :: reads). split.
        -- rewrite Ht. simpl. rewrite <- app_assoc. reflexivity.
        -- apply reads_back_chunk; try lia.
           ++ apply Hsame. assumption.
           ++ replace (start + i + chunksize) with (start + (i + chunksize))
                by lia.
              assumption.
  - apply Z.ltb_ge in E. inversion H; subst. split; [reflexivity|].
    exists []. split; [reflexivity|]. replace i with len by lia. constructor.
Qed.

Lemma verify_range_reads_back : forall h cmpbuf start len h',
  paranoid p = true ->
  0 <= start -> 0 <= len -> start + len <= INT_MAX ->
  (forall x, 0 <= x < len -> byte_at cmpbuf x = byte_at want (start + x)) ->
  verify_range p chip h cmpbuf start len = Some (0, h') ->
  exists reads,
    trace h' = rev reads ++ trace h
    /\ reads_back p want start (start + len) reads.
Proof.
  intros h cmpbuf start len h' Hp Hs Hl Hmax Hcmp H. unfold verify_range in H.
  destruct (len =? 0); [inversion H|].
  destruct (chip_read chip) as [read|]; [|inversion H].
  destruct (_ <? _); [inversion H|].
  rewrite Hp in H.
  apply verify_chunks_reads_back in H; try assumption; try lia.
  destruct H as (_ & reads & Ht & Hr). exists reads.
  rewrite Z.add_0_r in Hr. split; assumption.
Qed.

End ReadBack.

(** ** The runs to write *)

Lemma stride_of_pos : forall gran, 0 < stride_of gran.
Proof.
  intros []; simpl; lia.
Qed.

Lemma zrange_cons : forall lo hi,
  lo < hi -> zrange lo hi = lo :: zrange (lo + 1) hi.
Proof.
  intros lo hi H. unfold zrange.
  replace (Z.to_nat (hi - lo)) with (S (Z.to_nat (hi - (lo + 1)))) by lia.
  simpl. f_equal; [lia|].
  rewrite <- seq_shift, map_map. apply map_ext. intros k. lia.
Qed.

(** The loop of [get_next_write] ends with a run that starts at a chunk it
    has seen and ends at or before the chunk it stands at. *)
Lemma next_write_scan_bounds : forall have want len stride n lo hi
    need_write rel_start need_write' rel_start' i',
  0 < stride ->
  0 <= lo -> hi = lo + Z.of_nat n ->
  (need_write = true -> 0 <= rel_start /\ rel_start + stride <= lo * stride) ->
  next_write_scan have want len stride (zrange lo hi) need_write rel_start hi
  = (need_write', rel_start', i') ->
  i' <= hi
  /\ (need_write' = true ->
      0 <= rel_start' /\ rel_start' + stride <= i' * stride).
Proof.
  intros have want len stride.
  induction n as [|n IH]; intros lo hi need_write rel_start need_write'
                                 rel_start' i' Hst Hlo Hhi Hinv H.
  - rewrite zrange_nil in H by lia. simpl in H. inversion H; subst.
    split; [lia|]. intros Hn. specialize (Hinv Hn). nia.
  - rewrite zrange_cons in H by lia. simpl in H.
    assert (Hlo1 : 0 <= lo + 1) by lia.
    assert (Hhi1 : hi = lo + 1 + Z.of_nat n) by lia.
    destruct (negb (memcmp_eq _ _ _)).
    + destruct need_write.
      * refine (IH (lo + 1) hi _ _ _ _ _ Hst Hlo1 Hhi1 _ H).
        intros _. specialize (Hinv eq_refl). nia.
      * refine (IH (lo + 1) hi _ _ _ _ _ Hst Hlo1 Hhi1 _ H).
        intros _. nia.
    + destruct need_write.
      * inversion H; subst. split; [lia|]. intros _. apply Hinv. reflexivity.
      * refine (IH (lo + 1) hi _ _ _ _ _ Hst Hlo1 Hhi1 _ H).
        intros Hf. discriminate.
Qed.

Lemma get_next_write_bounds : forall have want len first_start gran first_len
    first_start',
  0 <= len <= INT_MAX ->
  0 <= first_start ->
  first_start + len <= INT_MAX ->
  get_next_write have want len first_start gran = (first_len, first_start') ->
  first_len <> 0 ->
  first_start <= first_start'
  /\ 0 < first_len
  /\ first_start' + first_len <= first_start + len.
Proof.
  intros have want len first_start gran first_len first_start' Hl Hf Hmax H Hne.
  unfold get_next_write in H.
  pose proof (stride_of_pos gran) as Hst. set (stride := stride_of gran) in *.
  destruct (next_write_scan have want len stride (zrange 0 (len / stride))
              false 0 (len / stride)) as [[need_write rel_start] i] eqn:S.
  assert (Hq : 0 <= len / stride) by (apply Z.div_pos; lia).
  assert (Hn : len / stride = 0 + Z.of_nat (Z.to_nat (len / stride))) by lia.
  assert (Hfalse : false = true -> 0 <= 0 /\ 0 + stride <= 0 * stride)
    by (intros; discriminate).
  destruct (next_write_scan_bounds _ _ _ _ _ _ _ _ _ _ _ _ Hst (Z.le_refl 0) Hn Hfalse S)
    as (Hi & Hrun).
  inversion H; subst first_len first_start'. clear H.
  destruct need_write; [|contradiction].
  destruct (Hrun eq_refl) as (Hr0 & Hr1).
  pose proof (Z.mul_div_le len stride Hst) as Hmul.
  assert (Hend : i * stride <= len) by nia.
  unfold INT_MAX in *.
  assert (E1 : to_uint (i * stride - rel_start) = i * stride - rel_start)
    by (apply to_uint_id; unfold UINT_MODULUS; lia).
  assert (E2 : to_uint (min_int (to_uint (i * stride - rel_start)) len)
               = i * stride - rel_start).
  { rewrite E1. unfold min_int. rewrite !to_int_id by (unfold INT_MAX; lia).
    rewrite Z.min_l by lia. apply to_uint_id. unfold UINT_MODULUS. lia. }
  rewrite E2 in *.
  rewrite to_uint_id by (unfold UINT_MODULUS; lia). lia.
Qed.

Lemma write_runs_unfold : forall fuel p chip h start len cur new
    block_was_erased starthere ret,
  write_runs fuel p chip h start len cur new block_was_erased starthere ret
  = let '(lenhere, starthere) :=
      get_next_write (ptr_add cur starthere) (ptr_add new starthere)
                     (to_uint (len - starthere)) starthere (gran chip) in
    if lenhere =? 0 then Some (ret, h)
    else
      match fuel with
      | O => None
      | S fuel' =>
          let '(ret, h) :=
            write_flash chip h (ptr_add new starthere)
                        (to_uint (start + starthere)) lenhere in
          if negb (ret =? 0) then Some (ret, h)
          else if paranoid p && negb block_was_erased then
            match verify_range p chip h (ptr_add new starthere)
                               (to_uint (start + starthere)) lenhere with
            | None => None
            | Some (failed, h) =>
                if negb (failed =? 0) then Some (-1, h)
                else write_runs fuel' p chip h start len cur new block_was_erased
                                (to_uint (starthere + lenhere)) ret
            end
          else write_runs fuel' p chip h start len cur new block_was_erased
                          (to_uint (starthere + lenhere)) ret
      end.
Proof.
  intros. destruct fuel; reflexivity.
Qed.

Section WriteRuns.

Variable p : programmer_state.
Variable chip : flashchip.
Variable want : list Z.

Hypothesis is_paranoid : paranoid p = true.
Hypothesis page_size_ok : 0 < page_size chip <= INT_MAX.

(** The loop over the runs of a block that was not erased: when it returns
    0 every write was followed by the reading back of its run. *)
Lemma write_runs_read_back : forall fuel h start len cur starthere h',
  0 <= start -> 0 <= starthere <= len -> start + len <= INT_MAX ->
  write_runs fuel p chip h start len cur (ptr_add want start) false starthere 0
  = Some (0, h') ->
  exists evs, trace h' = rev evs ++ trace h /\ writes_read_back p want evs.
Proof.
  induction fuel as [|fuel IH]; intros h start len cur starthere h' Hs Hsh Hmax H;
    rewrite write_runs_unfold in H;
    destruct (get_next_write _ _ _ _ _) as [lenhere starthere'] eqn:G;
    destruct (lenhere =? 0) eqn:E;
    try (inversion H; subst; exists []; split; [reflexivity|constructor]);
    try discriminate.
  apply Z.eqb_neq in E. unfold INT_MAX in *.
  rewrite (to_uint_id (len - starthere)) in G by (unfold UINT_MODULUS; lia).
  apply get_next_write_bounds in G; try assumption; unfold INT_MAX; try lia.
  destruct G as (G1 & G2 & G3).
  rewrite (to_uint_id (start + starthere')) in H by (unfold UINT_MODULUS; lia).
  rewrite (to_uint_id (starthere' + lenhere)) in H by (unfold UINT_MODULUS; lia).
  unfold write_flash in H.
  destruct (chip_write chip) as [write|]; [|inversion H].
  unfold call_write in H.
  destruct (write (mem h) (ptr_add (ptr_add want start) starthere')
                  (start + starthere') lenhere) as [rcw m] eqn:W.
  destruct (negb (rcw =? 0)) eqn:T.
  { inversion H; subst. discriminate. }
  apply negb_false_iff in T. apply Z.eqb_eq in T. subst rcw.
  rewrite is_paranoid in H. simpl in H.
  destruct (verify_range _ _ _ _ _ _) as [[failed h2]|] eqn:V; [|discriminate].
  destruct (negb (failed =? 0)) eqn:F; [inversion H|].
  apply negb_false_iff in F. apply Z.eqb_eq in F. subst failed.
  apply (verify_range_reads_back p chip want page_size_ok) in V;
    try assumption; unfold INT_MAX; try lia.
  - destruct V as (reads & Ht & Hr).
    apply IH in H; try assumption; unfold INT_MAX; try lia.
    destruct H as (evs & Ht' & Hw).
    exists (EvWrite (start + starthere') lenhere :: reads ++ evs). split.
    + rewrite Ht', Ht. simpl. rewrite rev_app_distr, <- !app_assoc. reflexivity.
    + apply writes_read_back_run; assumption.
  - intros x Hx. rewrite !byte_at_ptr_add by lia. f_equal. lia.
Qed.

End WriteRuns.

(** ** When the executor erases *)

Lemma no_erase_refl : forall h, no_erase_between h h.
Proof.
  intros h. exists []. split; [reflexivity|constructor].
Qed.

Lemma no_erase_trans : forall a b c,
  no_erase_between a b -> no_erase_between b c -> no_erase_between a c.
Proof.
  intros a b c (e1 & T1 & F1) (e2 & T2 & F2). exists (e2 ++ e1). split.
  - rewrite T2, T1. apply app_assoc.
  - apply Forall_app. split; assumption.
Qed.

Lemma no_erase_step : forall h m e,
  is_erase e = false -> no_erase_between h (mkHw m (e :: trace h)).
Proof.
  intros h m e He. exists [e]. split; [reflexivity|].
  constructor; [assumption|constructor].
Qed.

Lemma verify_chunks_no_erase : forall fuel p chip read h cmpbuf start len i ret
    rc h',
  verify_chunks fuel p chip read h cmpbuf start len i ret = Some (rc, h') ->
  no_erase_between h h'.
Proof.
  induction fuel as [|fuel IH]; intros p chip read h cmpbuf start len i ret rc h' H;
    simpl in H; destruct (i <? len); try discriminate;
    try (inversion H; subst; apply no_erase_refl).
  unfold call_read in H.
  destruct (read (mem h) _ _) as [[tmp data] m].
  set (h1 := mkHw m (EvRead (to_uint (start + i))
                       (to_uint (min_int (page_size chip) (to_uint (len - i)))) data
                     :: trace h)) in *.
  assert (S1 : no_erase_between h h1) by (apply no_erase_step; reflexivity).
  destruct (negb (tmp =? 0)).
  - destruct (ignore_error p tmp).
    + eapply no_erase_trans; [exact S1|]. eapply IH. exact H.
    + inversion H; subst. exact S1.
  - destruct (check_access chip) as [access|].
    + unfold call_access in H. cbn [mem trace] in H.
      match type of H with context [mkHw ?mm (?e :: trace h1)] =>
        set (h2 := mkHw mm (e :: trace h1)) in *;
        assert (S2 : no_erase_between h1 h2)
          by (exists [e]; split; [reflexivity|constructor; [reflexivity|constructor]])
      end.
      destruct (negb (_ =? 0) && ignore_error p _)%bool.
      * eapply no_erase_trans; [exact S1|]. eapply no_erase_trans; [exact S2|].
        eapply IH. exact H.
      * destruct (negb (compare_range _ _ _ _ =? 0)).
        -- inversion H; subst. eapply no_erase_trans; eassumption.
        -- eapply no_erase_trans; [exact S1|]. eapply no_erase_trans; [exact S2|].
           eapply IH. exact H.
    + destruct (negb (compare_range _ _ _ _ =? 0)).
      * inversion H; subst. exact S1.
      * eapply no_erase_trans; [exact S1|]. eapply IH. exact H.
Qed.

Lemma verify_range_no_erase : forall p chip h cmpbuf start len rc h',
  verify_range p chip h cmpbuf start len = Some (rc, h') ->
  no_erase_between h h'.
Proof.
  intros p chip h cmpbuf start len rc h' H. unfold verify_range in H.
  destruct (len =? 0); [inversion H; apply no_erase_refl|].
  destruct (chip_read chip) as [read|]; [|inversion H; apply no_erase_refl].
  destruct (_ <? _); [inversion H; apply no_erase_refl|].
  destruct (paranoid p).
  - eapply verify_chunks_no_erase. exact H.
  - unfold call_read in H. destruct (read (mem h) start len) as [[tmp data] m].
    assert (S1 : no_erase_between h (mkHw m (EvRead start len data :: trace h)))
      by (apply no_erase_step; reflexivity).
    destruct (negb (tmp =? 0) && negb (ignore_error p tmp))%bool;
      [inversion H; subst; exact S1|].
    destruct (negb (compare_range _ _ _ _ =? 0)); inversion H; subst; exact S1.
Qed.

Lemma write_runs_no_erase : forall fuel p chip h start len cur new erased
    starthere ret rc h',
  write_runs fuel p chip h start len cur new erased starthere ret = Some (rc, h') ->
  no_erase_between h h'.
Proof.
  induction fuel as [|fuel IH]; intros p chip h start len cur new erased
                                       starthere ret rc h' H;
    rewrite write_runs_unfold in H;
    destruct (get_next_write _ _ _ _ _) as [lenhere starthere'];
    destruct (lenhere =? 0);
    try (inversion H; subst; apply no_erase_refl); try discriminate.
  unfold write_flash in H.
  destruct (chip_write chip) as [write|].
  - unfold call_write in H. destruct (write (mem h) _ _ _) as [rcw m].
    match type of H with context [mkHw m (?e :: trace h)] =>
      set (h1 := mkHw m (e :: trace h)) in *;
      assert (S1 : no_erase_between h h1) by (apply no_erase_step; reflexivity)
    end.
    destruct (negb (rcw =? 0)); [inversion H; subst; exact S1|].
    destruct (paranoid p && negb erased)%bool.
    + destruct (verify_range _ _ _ _ _ _) as [[failed h2]|] eqn:V; [|discriminate].
      apply verify_range_no_erase in V.
      destruct (negb (failed =? 0)).
      * inversion H; subst. eapply no_erase_trans; eassumption.
      * eapply no_erase_trans; [exact S1|]. eapply no_erase_trans; [exact V|].
        eapply IH. exact H.
    + eapply no_erase_trans; [exact S1|]. eapply IH. exact H.
  - cbn [negb Z.eqb] in H. inversion H; subst. apply no_erase_refl.
Qed.

(** For every block the executor is given, it calls the erase function
    exactly when [need_erase] with 255 for the erased value asks for it; the
    erased value of the chip has no part in the decision. *)
Lemma helper_erases_by_ff : forall p chip h start len curcontents newcontents
    erasefn rc h' curcontents',
  erase_and_write_block_helper p chip h start len curcontents newcontents erasefn
  = Some (rc, h', curcontents') ->
  if need_erase (ptr_add curcontents start) (ptr_add newcontents start) len
                (gran chip) 255 =? 0
  then no_erase_between h h'
  else no_erase_between (mkHw (snd (erasefn (mem h) start len))
                              (EvErase start len :: trace h)) h'.
Proof.
  intros p chip h start len curcontents newcontents erasefn rc h' cur' H.
  unfold erase_and_write_block_helper in H.
  destruct (need_erase _ _ _ _ _ =? 0); cbn [negb] in H.
  - destruct (write_runs _ _ _ _ _ _ _ _ _ _ _) as [[ret h2]|] eqn:W; [|discriminate].
    inversion H; subst. eapply write_runs_no_erase. exact W.
  - unfold call_erase in H. destruct (erasefn (mem h) start len) as [ret m].
    cbn [snd].
    destruct (negb (ret =? 0)); [inversion H; subst; apply no_erase_refl|].
    destruct (paranoid p).
    + destruct (check_erased_range _ _ _ _ _) as [[failed h2]|] eqn:C; [|discriminate].
      unfold check_erased_range in C. apply verify_range_no_erase in C.
      destruct (negb (failed =? 0)); [inversion H; subst; exact C|].
      destruct (write_runs _ _ _ _ _ _ _ _ _ _ _) as [[ret2 h3]|] eqn:W; [|discriminate].
      inversion H; subst. eapply no_erase_trans; [exact C|].
      eapply write_runs_no_erase. exact W.
    + cbn [negb Z.eqb] in H.
      destruct (write_runs _ _ _ _ _ _ _ _ _ _ _) as [[ret2 h3]|] eqn:W; [|discriminate].
      inversion H; subst. eapply write_runs_no_erase. exact W.
Qed.

(** ** The executor ends *)

Section Termination.

Variable p : programmer_state.
Variable chip : flashchip.

Hypothesis page_size_ok : 0 < page_size chip <= INT_MAX.

Lemma verify_chunks_total : forall fuel read h cmpbuf start len i ret,
  0 <= start -> 0 <= i -> start + len <= INT_MAX ->
  (Z.to_nat (len - i) <= fuel)%nat ->
  exists r, verify_chunks fuel p chip read h cmpbuf start len i ret = Some r.
Proof.
  induction fuel as [|fuel IH]; intros read h cmpbuf start len i ret Hs Hi Hmax Hf;
    simpl; destruct (i <? len) eqn:E; try (eexists; reflexivity).
  - apply Z.ltb_lt in E. lia.
  - apply Z.ltb_lt in E. unfold INT_MAX in *.
    assert (Hc : to_uint (min_int (page_size chip) (to_uint (len - i)))
                 = Z.min (page_size chip) (len - i)).
    { unfold min_int. rewrite (to_uint_id (len - i)) by (unfold UINT_MODULUS; lia).
      rewrite !to_int_id by (unfold INT_MAX; lia).
      apply to_uint_id. unfold UINT_MODULUS. lia. }
    rewrite Hc. set (chunksize := Z.min (page_size chip) (len - i)).
    assert (Hb : 0 < chunksize /\ i + chunksize <= len) by (unfold chunksize; lia).
    rewrite (to_uint_id (i + chunksize)) by (unfold UINT_MODULUS; lia).
    assert (Hnext : forall h2 ret2,
              exists r, verify_chunks fuel p chip read h2 cmpbuf start len
                                      (i + chunksize) ret2 = Some r).
    { intros h2 ret2. apply IH; try assumption; unfold INT_MAX; lia. }
    destruct (call_read read h (to_uint (start + i)) chunksize) as [[tmp data] h1].
    destruct (negb (tmp =? 0)).
    + destruct (ignore_error p tmp); [apply Hnext|eexists; reflexivity].
    + destruct (check_access chip) as [access|].
      * destruct (negb (_ =? 0) && ignore_error p _)%bool; [apply Hnext|].
        destruct (negb (_ =? 0)); [eexists; reflexivity|apply Hnext].
      * destruct (negb (_ =? 0)); [eexists; reflexivity|apply Hnext].
Qed.

Lemma verify_range_total : forall h cmpbuf start len,
  0 <= start -> 0 <= len -> start + len <= INT_MAX ->
  exists r, verify_range p chip h cmpbuf start len = Some r.
Proof.
  intros h cmpbuf start len Hs Hl Hmax. unfold verify_range.
  destruct (len =? 0); [eexists; reflexivity|].
  destruct (chip_read chip) as [read|]; [|eexists; reflexivity].
  destruct (_ <? _); [eexists; reflexivity|].
  destruct (paranoid p).
  - apply verify_chunks_total; try assumption; lia.
  - destruct (call_read read h start len) as [[tmp data] h1].
    destruct (_ && _)%bool; [eexists; reflexivity|].
    destruct (negb (_ =? 0)); eexists; reflexivity.
Qed.

Lemma write_runs_total : forall fuel h start len cur new erased starthere ret,
  0 <= start -> 0 <= starthere <= len -> start + len <= INT_MAX ->
  (Z.to_nat (len - starthere) <= fuel)%nat ->
  exists r,
    write_runs fuel p chip h start len cur new erased starthere ret = Some r.
Proof.
  induction fuel as [|fuel IH]; intros h start len cur new erased starthere ret
                                       Hs Hsh Hmax Hf;
    rewrite write_runs_unfold;
    destruct (get_next_write _ _ _ _ _) as [lenhere starthere'] eqn:G;
    destruct (lenhere =? 0) eqn:E; try (eexists; reflexivity);
    apply Z.eqb_neq in E; unfold INT_MAX in *;
    rewrite (to_uint_id (len - starthere)) in G by (unfold UINT_MODULUS; lia);
    apply get_next_write_bounds in G; try assumption; unfold INT_MAX; try lia;
    destruct G as (G1 & G2 & G3).
  rewrite (to_uint_id (start + starthere')) by (unfold UINT_MODULUS; lia).
  rewrite (to_uint_id (starthere' + lenhere)) by (unfold UINT_MODULUS; lia).
  assert (Hnext : forall h2 ret2,
            exists r, write_runs fuel p chip h2 start len cur new erased
                                 (starthere' + lenhere) ret2 = Some r).
  { intros h2 ret2. apply IH; try assumption; unfold INT_MAX; lia. }
  destruct (write_flash chip h _ _ _) as [rcw h1].
  destruct (negb (rcw =? 0)); [eexists; reflexivity|].
  destruct (paranoid p && negb erased)%bool; [|apply Hnext].
  destruct (verify_range_total h1 (ptr_add new starthere')
              (start + starthere') lenhere) as ([failed h2] & V);
    unfold INT_MAX; try lia.
  rewrite V. destruct (negb (failed =? 0)); [eexists; reflexivity|apply Hnext].
Qed.

(** The processing of a block returns, whatever the chip does. *)
Lemma erase_and_write_block_helper_total : forall h start len curcontents
    newcontents erasefn,
  0 <= start -> 0 <= len -> start + len <= INT_MAX ->
  exists rc h' curcontents',
    erase_and_write_block_helper p chip h start len curcontents newcontents
                                 erasefn = Some (rc, h', curcontents').
Proof.
  intros h start len curcontents newcontents erasefn Hs Hl Hmax.
  unfold erase_and_write_block_helper.
  assert (Hruns : forall h2 cur2 erased,
            exists r, write_runs (S (Z.to_nat len)) p chip h2 start len cur2
                                 (ptr_add newcontents start) erased 0 0 = Some r).
  { intros h2 cur2 erased. apply write_runs_total; try assumption; lia. }
  destruct (negb (need_erase _ _ _ _ _ =? 0)).
  - destruct (call_erase erasefn h start len) as [ret h1].
    destruct (negb (ret =? 0)); [eexists; eexists; eexists; reflexivity|].
    destruct (paranoid p).
    + unfold check_erased_range.
      destruct (verify_range_total h1 (repeat (ERASED_VALUE chip) (Z.to_nat len))
                  start len Hs Hl Hmax) as ([failed h2] & V).
      rewrite V.
      destruct (negb (failed =? 0)); [eexists; eexists; eexists; reflexivity|].
      destruct (Hruns h2 (ptr_add (memset curcontents start (ERASED_VALUE chip) len) start)
                      true) as ([r1 r2] & W).
      rewrite W. eexists; eexists; eexists; reflexivity.
    + cbn [negb Z.eqb].
      destruct (Hruns h1 (ptr_add (memset curcontents start (ERASED_VALUE chip) len) start)
                      true) as ([r1 r2] & W).
      rewrite W. eexists; eexists; eexists; reflexivity.
  - destruct (Hruns h (ptr_add curcontents start) false) as ([r1 r2] & W).
    rewrite W. eexists; eexists; eexists; reflexivity.
Qed.

End Termination.

(** ** What the verification and the writing call *)

(** The paranoid loop of [verify_range] calls the read function and the
    access check and nothing else. *)
Lemma verify_chunks_calls : forall (P : event -> Prop),
  (forall a l d, P (EvRead a l d)) ->
  (forall a l r, P (EvAccess a l r)) ->
  forall fuel p chip read h cmpbuf start len i ret rc h',
    verify_chunks fuel p chip read h cmpbuf start len i ret = Some (rc, h') ->
    exists evs, trace h' = evs ++ trace h /\ Forall P evs.
Proof.
  intros P Pr Pa.
  assert (Hnil : forall h : hw,
            exists evs, trace h = evs ++ trace h /\ Forall P evs)
    by (intros h; exists []; split; [reflexivity|constructor]).
  assert (Hcons : forall (h h1 h' : hw) e,
            trace h1 = e :: trace h -> P e ->
            (exists evs, trace h' = evs ++ trace h1 /\ Forall P evs) ->
            exists evs, trace h' = evs ++ trace h /\ Forall P evs).
  { intros h h1 h' e T Pe (evs & T' & F). exists (evs ++ [e]). split.
    - rewrite T', T, <- app_assoc. reflexivity.
    - apply Forall_app. split; [assumption|].
      constructor; [assumption|constructor]. }
  induction fuel as [|fuel IH];
    intros p chip read h cmpbuf start len i ret rc h' H;
    simpl in H; destruct (i <? len); try discriminate;
    try (inversion H; subst; apply Hnil).
  unfold call_read in H.
  destruct (read (mem h) _ _) as [[tmp data] m].
  match type of H with context [mkHw m (?e :: trace h)] =>
    set (h1 := mkHw m (e :: trace h)) in *;
    apply (Hcons h h1 h' e eq_refl (Pr _ _ _))
  end.
  destruct (negb (tmp =? 0)).
  - destruct (ignore_error p tmp);
      [eapply IH; exact H|inversion H; subst; apply Hnil].
  - destruct (check_access chip) as [access|].
    + unfold call_access in H. cbn [mem trace] in H. cbv zeta in H.
      match type of H with context [mkHw ?mm (?e :: trace h1)] =>
        set (h2 := mkHw mm (e :: trace h1)) in *;
        apply (Hcons h1 h2 h' e eq_refl (Pa _ _ _))
      end.
      destruct (negb (_ =? 0) && ignore_error p _)%bool;
        [eapply IH; exact H|].
      destruct (negb (compare_range _ _ _ _ =? 0));
        [inversion H; subst; apply Hnil|eapply IH; exact H].
    + destruct (negb (compare_range _ _ _ _ =? 0));
        [inversion H; subst; apply Hnil|eapply IH; exact H].
Qed.

(** [verify_range] writes nothing. *)
Lemma verify_range_no_write : forall p chip h cmpbuf start len rc h',
  verify_range p chip h cmpbuf start len = Some (rc, h') ->
  exists evs,
    trace h' = evs ++ trace h /\ Forall (fun e => is_write e = false) evs.
Proof.
  intros p chip h cmpbuf start len rc h' H. unfold verify_range in H.
  assert (Hnil : exists evs,
            trace h = evs ++ trace h /\ Forall (fun e => is_write e = false) evs)
    by (exists []; split; [reflexivity|constructor]).
  destruct (len =? 0); [inversion H; subst; exact Hnil|].
  destruct (chip_read chip) as [read|]; [|inversion H; subst; exact Hnil].
  destruct (_ <? _); [inversion H; subst; exact Hnil|].
  destruct (paranoid p).
  - eapply (verify_chunks_calls (fun e => is_write e = false));
      [reflexivity|reflexivity|exact H].
  - unfold call_read in H. destruct (read (mem h) start len) as [[tmp data] m].
    assert (S1 : exists evs,
              trace (mkHw m (EvRead start len data :: trace h)) = evs ++ trace h
              /\ Forall (fun e => is_write e = false) evs).
    { exists [EvRead start len data]. split; [reflexivity|].
      constructor; [reflexivity|constructor]. }
    destruct (negb (tmp =? 0) && negb (ignore_error p tmp))%bool;
      [inversion H; subst; exact S1|].
    destruct (negb (compare_range _ _ _ _ =? 0)); inversion H; subst; exact S1.
Qed.

(** The loop over the runs of a block that was erased calls the write
    function and nothing else. *)
Lemma write_runs_erased_writes : forall fuel p chip h start len cur new
    starthere ret rc h',
  write_runs fuel p chip h start len cur new true starthere ret = Some (rc, h') ->
  exists evs,
    trace h' = evs ++ trace h /\ Forall (fun e => is_write e = true) evs.
Proof.
  assert (Hnil : forall h : hw,
            exists evs,
              trace h = evs ++ trace h
              /\ Forall (fun e => is_write e = true) evs)
    by (intros h; exists []; split; [reflexivity|constructor]).
  induction fuel as [|fuel IH];
    intros p chip h start len cur new starthere ret rc h' H;
    rewrite write_runs_unfold in H;
    destruct (get_next_write _ _ _ _ _) as [lenhere starthere'];
    destruct (lenhere =? 0);
    try (inversion H; subst; apply Hnil); try discriminate.
  unfold write_flash in H.
  destruct (chip_write chip) as [write|].
  - unfold call_write in H. destruct (write (mem h) _ _ _) as [rcw m].
    match type of H with context [mkHw m (?ev :: trace h)] =>
      set (h1 := mkHw m (ev :: trace h)) in *
    end.
    assert (S1 : forall h2 : hw,
              (exists evs, trace h2 = evs ++ trace h1
                           /\ Forall (fun e => is_write e = true) evs) ->
              exists evs, trace h2 = evs ++ trace h
                          /\ Forall (fun e => is_write e = true) evs).
    { intros h2 (evs & T & F). eexists (evs ++ [_]). split.
      - rewrite T. unfold h1. cbn [trace]. rewrite <- app_assoc. reflexivity.
      - apply Forall_app. split; [assumption|].
        constructor; [reflexivity|constructor]. }
    apply S1.
    destruct (negb (rcw =? 0)); [inversion H; subst; apply Hnil|].
    rewrite andb_false_r in H. eapply IH. exact H.
  - cbn [negb Z.eqb] in H. inversion H; subst. apply Hnil.
Qed.

(** ** The reading back by a paranoid programmer *)

(** C9, as stated: on [twin_chip] with a paranoid programmer, block 0 of
    [before_image] is erased, the erase is checked, and the run then written
    is not read back. *)
Lemma erased_block_runs_not_read_back :
  ~ written_runs_read_back paranoid_programmer twin_chip
      (mkHw before_image []) 0 256 before_image after_image (ideal_erase 255).
Proof.
  intros H. unfold written_runs_read_back in H.
  destruct (erase_and_write_block_helper paranoid_programmer twin_chip
              (mkHw before_image []) 0 256 before_image after_image
              (ideal_erase 255)) as [[[rc h'] cur']|] eqn:R;
    [|vm_compute in R; discriminate].
  specialize (H rc h' cur' eq_refl).
  vm_compute in R. inversion R; subst rc h' cur'. clear R.
  destruct (H eq_refl) as (evs & Ht & Hw). clear H.
  cbn [trace] in Ht. rewrite app_nil_r in Ht.
  apply (f_equal (@rev event)) in Ht. rewrite rev_involutive in Ht.
  cbn [rev app] in Ht. subst evs.
  inversion Hw as [|e rest He Hrest|a l reads rest Hr Hrest]; subst.
  inversion Hrest as [|e rest He2 Hrest2|a l reads rest Hr Hrest2]; subst.
  inversion Hrest2 as [|e rest He3 Hrest3|a l reads rest Hr Hrest3]; subst.
  - discriminate.
  - destruct reads; [|discriminate]. inversion Hr.
Qed.

(** What this costs: behind a master that drops the writes the processing
    of an erased block still succeeds, with the block left erased. *)
Lemma erased_block_lost_write_unnoticed :
  exists h' cur',
    erase_and_write_block_helper paranoid_programmer deaf_chip
      (mkHw before_image []) 0 256 before_image after_image (ideal_erase 255)
    = Some (0, h', cur')
    /\ byte_at (mem h') 0 = 255
    /\ byte_at after_image 0 = 1.
Proof.
  eexists. eexists. split; [vm_compute; reflexivity|].
  split; reflexivity.
Qed.

(** C9, amended: for a paranoid programmer the processing of a block always
    returns.  When the block is not erased in this call, every run written
    is read back chunk by chunk straight after its write, and the processing
    succeeds only if every chunk read back is equal to the new contents,
    but for the chunks the access check of the chip denied.  When the block
    is erased in this call, nothing follows the check of the erase but
    writes: no run written is read back. *)
Theorem runs_read_back_unless_erased : forall p chip h start len curcontents
    newcontents erasefn,
  paranoid p = true ->
  0 < page_size chip <= INT_MAX ->
  0 <= start -> 0 <= len -> start + len <= INT_MAX ->
  (exists rc h' curcontents',
     erase_and_write_block_helper p chip h start len curcontents newcontents
                                  erasefn = Some (rc, h', curcontents'))
  /\ (need_erase (ptr_add curcontents start) (ptr_add newcontents start) len
                 (gran chip) 255 = 0 ->
      written_runs_read_back p chip h start len curcontents newcontents erasefn)
  /\ (need_erase (ptr_add curcontents start) (ptr_add newcontents start) len
                 (gran chip) 255 <> 0 ->
      written_runs_unread p chip h start len curcontents newcontents erasefn).
Proof.
  intros p chip h start len curcontents newcontents erasefn
         Hp Hpage Hs Hl Hmax.
  split; [apply erase_and_write_block_helper_total; assumption|].
  split.
  - intros Hne rc h' cur' H Hrc.
    unfold erase_and_write_block_helper in H. rewrite Hne in H.
    cbn [negb Z.eqb] in H.
    destruct (write_runs _ _ _ _ _ _ _ _ _ _ _) as [[ret h2]|] eqn:W;
      [|discriminate].
    inversion H; subst ret h2 cur'. subst rc.
    apply (write_runs_read_back p chip newcontents Hp Hpage) in W;
      try assumption; lia.
  - intros Hne rc h' cur' H.
    unfold erase_and_write_block_helper in H.
    apply Z.eqb_neq in Hne. rewrite Hne in H. cbn [negb] in H.
    unfold call_erase in H. destruct (erasefn (mem h) start len) as [ret m].
    set (h1 := mkHw m (EvErase start len :: trace h)) in *.
    destruct (negb (ret =? 0)).
    { inversion H; subst. exists [], []. split; [reflexivity|].
      split; constructor. }
    rewrite Hp in H.
    destruct (check_erased_range _ _ _ _ _) as [[failed h2]|] eqn:C;
      [|discriminate].
    unfold check_erased_range in C. apply verify_range_no_write in C.
    destruct C as (checks & Tc & Fc).
    destruct (negb (failed =? 0)).
    { inversion H; subst. exists [], checks. split; [exact Tc|].
      split; [constructor|assumption]. }
    destruct (write_runs _ _ _ _ _ _ _ _ _ _ _) as [[ret2 h3]|] eqn:W;
      [|discriminate].
    inversion H; subst. apply write_runs_erased_writes in W.
    destruct W as (writes & Tw & Fw).
    exists writes, checks. split; [|split; assumption].
    rewrite Tw, Tc. reflexivity.
Qed.

Lemma runs_read_back_unless_erased_witness :
  (exists rc h' curcontents',
     erase_and_write_block_helper paranoid_programmer guarded_chip
       (mkHw blank_image []) 0 256 blank_image after_image (ideal_erase 255)
     = Some (rc, h', curcontents'))
  /\ (need_erase (ptr_add blank_image 0) (ptr_add after_image 0) 256
                 (gran guarded_chip) 255 = 0 ->
      written_runs_read_back paranoid_programmer guarded_chip
        (mkHw blank_image []) 0 256 blank_image after_image (ideal_erase 255))
  /\ (need_erase (ptr_add blank_image 0) (ptr_add after_image 0) 256
                 (gran guarded_chip) 255 <> 0 ->
      written_runs_unread paranoid_programmer guarded_chip
        (mkHw blank_image []) 0 256 blank_image after_image (ideal_erase 255)).
Proof.
  apply (runs_read_back_unless_erased paranoid_programmer guarded_chip
           (mkHw blank_image []) 0 256 blank_image after_image
           (ideal_erase 255)).
  - reflexivity.
  - simpl. unfold INT_MAX. lia.
  - lia.
  - lia.
  - unfold INT_MAX. lia.
Defined.

(** On that block no erase is needed and the processing succeeds: the run
    of 256 bytes is written, read back, and checked for access. *)
Lemma unerased_block_succeeds :
  need_erase (ptr_add blank_image 0) (ptr_add after_image 0) 256
             (gran guarded_chip) 255 = 0
  /\ erase_and_write_block_helper paranoid_programmer guarded_chip
       (mkHw blank_image []) 0 256 blank_image after_image (ideal_erase 255)
     = Some (0,
             mkHw (poke blank_image 0 1)
                  [EvAccess 0 256 0;
                   EvRead 0 256 (firstn 256 (poke blank_image 0 1));
                   EvWrite 0 256],
             blank_image).
Proof. vm_compute. split; reflexivity. Qed.

(** A chunk the access check denies is read and not compared: behind a
    master that drops the writes, the processing of block 2, which lies in
    the part denied, succeeds with the block left as it was. *)
Lemma denied_chunk_not_compared :
  need_erase (ptr_add blank_image 512) (ptr_add fresh_image 512) 256
             (gran guarded_deaf_chip) 255 = 0
  /\ erase_and_write_block_helper paranoid_programmer guarded_deaf_chip
       (mkHw blank_image []) 512 256 blank_image fresh_image (ideal_erase 255)
     = Some (0,
             mkHw blank_image
                  [EvAccess 512 256 ACCESS_DENIED;
                   EvRead 512 256 (repeat 255 256);
                   EvWrite 512 256],
             blank_image)
  /\ byte_at fresh_image 513 = 1.
Proof. vm_compute. repeat split. Qed.

(** The same master on a block it has access to: the write that was dropped
    is found out. *)
Lemma permitted_chunk_compared :
  erase_and_write_block_helper paranoid_programmer guarded_deaf_chip
    (mkHw blank_image []) 0 256 blank_image fresh_image (ideal_erase 255)
  = Some (-1,
          mkHw blank_image
               [EvAccess 0 256 0; EvRead 0 256 (repeat 255 256); EvWrite 0 256],
          blank_image).
Proof. vm_compute. reflexivity. Qed.

(** ** When no eraser is found *)

(** X1.  [fill_sorted_erasers] leaves through [exit] exactly when none of
    the [NUM_ERASEFUNCTIONS] erasers of the chip qualifies: when each of them
    lacks its erase function or has no region whose [size * count] reaches
    the erase size asked for. *)
Theorem fill_sorted_erasers_exits_iff : forall chip erase_size,
  fill_sorted_erasers chip erase_size = None
  <-> forall k, (k < NUM_ERASEFUNCTIONS)%nat ->
        qualifies (block_erasers chip) erase_size k = None.
Proof.
  intros chip erase_size.
  destruct (selection_inv_loop (block_erasers chip) erase_size NUM_ERASEFUNCTIONS)
    as (_ & Hin & Hall).
  unfold fill_sorted_erasers.
  destruct (sorted_erasers_loop (block_erasers chip) erase_size
              (seq 0 NUM_ERASEFUNCTIONS) []) as [|e sorted] eqn:E.
  - split; [|reflexivity]. intros _ k Hk.
    destruct (qualifies (block_erasers chip) erase_size k) as [m|] eqn:Q;
      [|reflexivity].
    destruct (Hall k m Hk Q) as (e & [] & _).
  - split; [discriminate|]. intros H.
    destruct (Hin e (or_introl eq_refl)) as [Hlt Hq].
    rewrite (H _ Hlt) in Hq. discriminate.
Qed.

(** ** The size handed to the eraser selection *)

(** X2.  The loop of [prepare_action_descriptor] over the two images ends
    with [block_size] one past the last offset at which they differ: it is 0
    or lies within the chip with differing bytes just below it, and from it
    on the images agree. *)
Theorem max_modified_last_difference : forall oldcontents newcontents chip_size,
  let m := max_modified oldcontents newcontents chip_size in
  (m = 0
   \/ (0 < m <= chip_size
       /\ byte_at newcontents (m - 1) <> byte_at oldcontents (m - 1)))
  /\ forall i, m <= i < chip_size ->
       byte_at newcontents i = byte_at oldcontents i.
Proof.
  intros oldc newc chip_size m.
  destruct (Z.le_gt_cases 0 chip_size) as [Hc|Hc].
  - subst m. unfold max_modified.
    apply (fold_zrange_inv Z
             (fun j s =>
                (s = 0 \/ (0 < s <= j /\ byte_at newc (s - 1) <> byte_at oldc (s - 1)))
                /\ forall i, s <= i < j -> byte_at newc i = byte_at oldc i)).
    + assumption.
    + split; [left; reflexivity|]. intros i Hi. lia.
    + intros j s Hj [Hs Heq].
      destruct (byte_at newc j =? byte_at oldc j) eqn:E.
      * apply Z.eqb_eq in E. split.
        -- destruct Hs as [Hs|[Hs Hd]]; [left; assumption|right].
           split; [lia|assumption].
        -- intros i Hi. destruct (Z.eq_dec i j) as [->|Hne]; [assumption|].
           apply Heq. lia.
      * apply Z.eqb_neq in E. split.
        -- right. split; [lia|]. replace (j + 1 - 1) with j by lia. assumption.
        -- intros i Hi. lia.
  - assert (E : m = 0).
    { subst m. unfold max_modified. rewrite zrange_nil by lia. reflexivity. }
    split; [left; assumption|]. intros i Hi. lia.
Qed.

(** ** The shape of the units *)

(** The maps the planner ends with have the block sizes of the sorted
    erasers and one mark for each block of the chip. *)
Lemma plan_maps_fits : forall oldc newc sorted_erasers chip_erasers chip_size
    erased_value maps,
  plan_maps oldc newc sorted_erasers chip_erasers chip_size
            (length sorted_erasers) erased_value = Some maps ->
  has_sizes (map (eraser_size chip_erasers) sorted_erasers) maps
  /\ fits chip_size maps
  /\ length maps = length sorted_erasers.
Proof.
  intros oldc newc sorted_erasers chip_erasers chip_size erased_value maps H.
  unfold plan_maps in H.
  destruct (scan_maps oldc newc sorted_erasers chip_erasers chip_size
              (length sorted_erasers) erased_value) as [maps0|] eqn:Hscan;
    [|discriminate].
  assert (E : maps = fold_range_maps maps0 (length sorted_erasers) chip_size)
    by congruence.
  clear H. subst maps.
  pose proof (scan_maps_fits _ _ _ _ _ _ _ Hscan) as (Hs & Hf & _ & Hlen).
  pose proof (fold_up_shape chip_size (length sorted_erasers) maps0) as Sh.
  pose proof (prune_down_below chip_size (length sorted_erasers)
                (fold_up chip_size (length sorted_erasers) maps0)) as (Sh2 & _).
  fold (fold_range_maps maps0 (length sorted_erasers) chip_size) in Sh2.
  assert (Sh3 : shape (fold_range_maps maps0 (length sorted_erasers) chip_size)
                = shape maps0) by congruence.
  split; [eapply has_sizes_shape; eassumption|].
  split; [eapply fits_shape; eassumption|].
  apply shape_length in Sh3. congruence.
Qed.

(** A unit made for a level has the block size of the level and names the
    eraser of the level. *)
Lemma emit_level_erasers : forall chip_size m e st u,
  In u (snd (emit_level chip_size st (m, e))) ->
  In u (snd st)
  \/ (unit_block_size u = block_size m
      /\ block_eraser_index u = eraser_index e
      /\ block_region_index u = region_index e).
Proof.
  intros chip_size m e st u. unfold emit_level.
  assert (G : (fun st' : emit_state =>
                 forall u, In u (snd st') ->
                   In u (snd st)
                   \/ (unit_block_size u = block_size m
                       /\ block_eraser_index u = eraser_index e
                       /\ block_region_index u = region_index e))
              (fold_left (emit_block m e) (zrange 0 (chip_size / block_size m)) st)).
  { apply fold_left_inv.
    - intros v Hv. left. assumption.
    - intros [cb us] j _ Hus. unfold emit_block.
      destruct (b_need_erase (block_at (block_map m) j)
                || b_need_change (block_at (block_map m) j))%bool;
        [exact Hus|].
      destruct (cb =? 0); [exact Hus|].
      simpl. intros v Hv. apply in_app_or in Hv.
      destruct Hv as [Hv|[<-|[]]]; [apply Hus; assumption|].
      right. repeat split. }
  destruct (fold_left (emit_block m e) (zrange 0 (chip_size / block_size m)) st)
    as [cb us].
  simpl in G. destruct (cb =? 0); simpl.
  - apply G.
  - intros Hu. apply in_app_or in Hu.
    destruct Hu as [Hu|[<-|[]]]; [apply G; assumption|].
    right. repeat split.
Qed.

Lemma nth_combine : forall (A B : Type) (l : list A) (l' : list B) i x y,
  (i < length (combine l l'))%nat ->
  nth i (combine l l') (x, y) = (nth i l x, nth i l' y).
Proof.
  intros A B l. induction l as [|a l IH]; intros l' i x y Hi.
  - simpl in Hi. lia.
  - destruct l' as [|b l']; [simpl in Hi; lia|].
    destruct i as [|i]; [reflexivity|]. simpl. apply IH. simpl in Hi. lia.
Qed.

Lemma emit_units_erasers : forall chip_size maps sorted_erasers u,
  In u (emit_units chip_size maps sorted_erasers) ->
  u = sentinel
  \/ exists i, (i < length maps)%nat /\ (i < length sorted_erasers)%nat
       /\ unit_block_size u = block_size (map_at maps i)
       /\ mkEraser (block_eraser_index u) (block_region_index u)
          = nth i sorted_erasers (mkEraser 0 0).
Proof.
  intros chip_size maps sorted_erasers u Hu. unfold emit_units in Hu.
  apply in_app_or in Hu. destruct Hu as [Hu|[<-|[]]]; [|left; reflexivity].
  right. revert u Hu.
  apply (fold_left_inv emit_state (range_map * eraser)
           (fun st => forall u, In u (snd st) ->
              exists i, (i < length maps)%nat /\ (i < length sorted_erasers)%nat
                /\ unit_block_size u = block_size (map_at maps i)
                /\ mkEraser (block_eraser_index u) (block_region_index u)
                   = nth i sorted_erasers (mkEraser 0 0))).
  - intros u [].
  - intros st [m e] Hin Hst u Hu.
    apply emit_level_erasers in Hu.
    destruct Hu as [Hu|(H1 & H2 & H3)]; [apply Hst; assumption|].
    apply (In_nth _ _ (no_map, mkEraser 0 0)) in Hin.
    destruct Hin as (i & Hi & Hm).
    rewrite nth_combine in Hm by assumption.
    rewrite length_combine in Hi.
    exists i.
    split; [lia|]. split; [lia|].
    injection Hm as Hm1 Hm2. unfold map_at. rewrite Hm1, Hm2.
    split; [assumption|]. rewrite H2, H3. destruct e; reflexivity.
Qed.

(** The units written before the terminating entry are runs of marked
    blocks. *)
Lemma emit_levels_runs : forall chip_size maps sorted_erasers u,
  In u (snd (fold_left (emit_level chip_size) (combine maps sorted_erasers)
                       (0, []))) ->
  exists i, (i < length maps)%nat /\ run_of (map_at maps i) u.
Proof.
  intros chip_size maps sorted_erasers u Hu.
  pose proof (emit_units_runs chip_size maps sorted_erasers u) as H.
  unfold emit_units in H.
  destruct H as [->|H]; [apply in_or_app; left; assumption| |assumption].
  exfalso. revert Hu.
  assert (G : (fun st : emit_state =>
                 fst st = 0 /\ forall u, In u (snd st) -> 0 < num_blocks u)
              (fold_left (emit_level chip_size) (combine maps sorted_erasers)
                         (0, []))).
  { apply fold_left_inv.
    - split; [reflexivity|]. intros u [].
    - intros [cb us] [m e] _ (Hcb & Hus). simpl in Hcb, Hus. subst cb.
      pose proof (emit_level_runs chip_size m e us) as (H0 & Hr).
      split; [exact H0|]. intros u Hu. apply Hr in Hu.
      destruct Hu as [Hu|(_ & s & _ & _ & Hn & _)];
        [apply Hus; assumption|assumption]. }
  destruct G as (_ & G). intros Hu. apply G in Hu. simpl in Hu. lia.
Qed.

(** X3.  Every processing unit the planner writes before the terminating
    entry lies inside the chip: its offset is a multiple of its block size
    and is not negative, it has one block at least, and its last block ends
    no later than the chip does. *)
Theorem units_lie_in_chip : forall oldc newc sorted_erasers chip_erasers
    chip_size erased_value units u,
  (forall e, In e sorted_erasers -> 0 < eraser_size chip_erasers e) ->
  fill_action_descriptor oldc newc sorted_erasers chip_erasers chip_size
                         (length sorted_erasers) erased_value = Some units ->
  In u units ->
  num_blocks u <> 0 ->
  0 < num_blocks u
  /\ 0 < unit_block_size u
  /\ 0 <= offset u
  /\ (unit_block_size u | offset u)
  /\ offset u + num_blocks u * unit_block_size u <= chip_size.
Proof.
  intros oldc newc sorted_erasers chip_erasers chip_size erased_value units u
         Hpos H Hin Hnb.
  unfold fill_action_descriptor in H.
  destruct (plan_maps oldc newc sorted_erasers chip_erasers chip_size
              (length sorted_erasers) erased_value) as [maps|] eqn:Hplan;
    [|discriminate].
  assert (E : units = emit_units chip_size maps sorted_erasers) by congruence.
  subst units. clear H.
  destruct (plan_maps_fits _ _ _ _ _ _ _ Hplan) as (Hs & Hf & Hlen).
  apply emit_units_runs in Hin.
  destruct Hin as [->|(i & Hi & Hbs & s & Hoff & Hs0 & Hn & Hrun)];
    [simpl in Hnb; lia|].
  assert (Hp : 0 < block_size (map_at maps i)).
  { rewrite (has_sizes_block_size _ _ _ Hs).
    apply positive_sizes; [assumption|].
    rewrite <- (has_sizes_length _ _ Hs). assumption. }
  assert (Hlast : 0 <= s + num_blocks u - 1
                  < Z.of_nat (length (block_map (map_at maps i)))).
  { apply marked_in_range. intros C.
    specialize (Hrun (s + num_blocks u - 1)). rewrite C in Hrun.
    simpl in Hrun. assert (false = true) by (apply Hrun; lia). discriminate. }
  rewrite (Hf i) in Hlast.
  pose proof (Z.mul_div_le chip_size _ Hp) as Hdiv.
  rewrite Hbs, Hoff.
  split; [assumption|]. split; [assumption|]. split; [nia|].
  split; [exists s; reflexivity|]. nia.
Qed.

Lemma units_lie_in_chip_witness :
  let u := mkUnit 0 256 1 1 0 in
  0 < num_blocks u
  /\ 0 < unit_block_size u
  /\ 0 <= offset u
  /\ (unit_block_size u | offset u)
  /\ offset u + num_blocks u * unit_block_size u <= 1024.
Proof.
  apply (units_lie_in_chip before_image after_image
           [mkEraser 1 0; mkEraser 2 0] (block_erasers twin_chip) 1024 255
           [mkUnit 0 256 1 1 0; sentinel]).
  - intros e [<-|[<-|[]]]; reflexivity.
  - vm_compute. reflexivity.
  - left. reflexivity.
  - simpl. lia.
Defined.

(** ** The descriptor as a whole *)

(** The erasers [fill_sorted_erasers] returns qualify for the erase size. *)
Lemma fill_sorted_erasers_qualify : forall chip erase_size sorted e,
  fill_sorted_erasers chip erase_size = Some sorted ->
  In e sorted ->
  (eraser_index e < NUM_ERASEFUNCTIONS)%nat
  /\ qualifies (block_erasers chip) erase_size (eraser_index e)
     = Some (region_index e).
Proof.
  intros chip erase_size sorted e H Hin.
  apply fill_sorted_erasers_loop in H. subst sorted.
  destruct (selection_inv_loop (block_erasers chip) erase_size NUM_ERASEFUNCTIONS)
    as (_ & Hq & _).
  apply Hq. assumption.
Qed.

(** What a descriptor from [prepare_action_descriptor] is made of. *)
Lemma prepare_action_descriptor_some : forall chip oldc newc descriptor,
  prepare_action_descriptor chip oldc newc = Some descriptor ->
  exists sorted units max_units,
    fill_sorted_erasers chip
      (max_modified oldc newc (to_uint (total_size chip * 1024))) = Some sorted
    /\ max_units_for (to_uint (total_size chip * 1024))
         (eraser_size (block_erasers chip) (nth 0 sorted (mkEraser 0 0)))
       = Some max_units
    /\ fill_action_descriptor oldc newc sorted (block_erasers chip)
         (to_uint (total_size chip * 1024)) (length sorted)
         (flash_erase_value chip) = Some units
    /\ Z.of_nat (length units) <= max_units
    /\ descriptor = mkDescriptor oldc newc units.
Proof.
  intros chip oldc newc descriptor H.
  unfold prepare_action_descriptor in H.
  set (chip_size := to_uint (total_size chip * 1024)) in *.
  destruct (fill_sorted_erasers chip (max_modified oldc newc chip_size))
    as [sorted|] eqn:Hs; [|discriminate].
  destruct (max_units_for chip_size
              (eraser_size (block_erasers chip) (nth 0 sorted (mkEraser 0 0))))
    as [max_units|] eqn:Hm; [|discriminate].
  destruct (fill_action_descriptor oldc newc sorted (block_erasers chip)
              chip_size (length sorted) (flash_erase_value chip))
    as [units|] eqn:Hf; [|discriminate].
  unfold store_units in H.
  destruct (Z.of_nat (length units) <=? max_units) eqn:Hroom; [|discriminate].
  exists sorted, units, max_units.
  repeat (split; [first [reflexivity | assumption]|]).
  split; [lia|congruence].
Qed.

(** X5.  On a chip whose size an [int] holds, [prepare_action_descriptor]
    fails in three ways only: the [exit] of [fill_sorted_erasers] when no
    eraser reaches the last modified byte, the division by zero when the
    first eraser has a block size of zero, and an entry written past the
    [max_units] entries allocated.  The scan of the two images always comes
    to its end.  The descriptor it returns holds the two images it was given
    and the entries [fill_action_descriptor] writes, [max_units] at most. *)
Theorem prepare_action_descriptor_returns : forall chip oldc newc,
  to_uint (total_size chip * 1024) <= INT_MAX ->
  let chip_size := to_uint (total_size chip * 1024) in
  let first_size sorted_erasers :=
    eraser_size (block_erasers chip) (nth 0 sorted_erasers (mkEraser 0 0)) in
  let max_units sorted_erasers :=
    to_int (chip_size / (2 * first_size sorted_erasers) + 1) in
  match prepare_action_descriptor chip oldc newc with
  | None =>
      fill_sorted_erasers chip (max_modified oldc newc chip_size) = None
      \/ exists sorted_erasers,
           fill_sorted_erasers chip (max_modified oldc newc chip_size)
           = Some sorted_erasers
           /\ (first_size sorted_erasers = 0
               \/ exists units,
                    fill_action_descriptor oldc newc sorted_erasers
                      (block_erasers chip) chip_size (length sorted_erasers)
                      (flash_erase_value chip) = Some units
                    /\ max_units sorted_erasers < Z.of_nat (length units))
  | Some descriptor =>
      oldcontents descriptor = oldc /\ newcontents descriptor = newc
      /\ exists sorted_erasers,
           fill_sorted_erasers chip (max_modified oldc newc chip_size)
           = Some sorted_erasers
           /\ first_size sorted_erasers <> 0
           /\ fill_action_descriptor oldc newc sorted_erasers
                (block_erasers chip) chip_size (length sorted_erasers)
                (flash_erase_value chip)
              = Some (processing_units descriptor)
           /\ Z.of_nat (length (processing_units descriptor))
              <= max_units sorted_erasers
  end.
Proof.
  intros chip oldc newc Hc chip_size first_size max_units.
  unfold prepare_action_descriptor. fold chip_size.
  destruct (fill_sorted_erasers chip (max_modified oldc newc chip_size))
    as [sorted|] eqn:Hs; [|left; reflexivity].
  fold (first_size sorted). unfold max_units_for.
  destruct (2 * first_size sorted =? 0) eqn:Hz.
  { right. exists sorted. split; [reflexivity|]. left. lia. }
  fold (max_units sorted).
  assert (H0 : 0 <= chip_size).
  { unfold chip_size, to_uint, UINT_MODULUS. apply Z.mod_pos_bound. lia. }
  destruct (scan_maps_total oldc newc sorted (block_erasers chip) chip_size
              (flash_erase_value chip) (conj H0 Hc)) as (maps0 & Hscan).
  assert (Hf : fill_action_descriptor oldc newc sorted (block_erasers chip)
                 chip_size (length sorted) (flash_erase_value chip)
               = Some (emit_units chip_size
                         (fold_range_maps maps0 (length sorted) chip_size)
                         sorted)).
  { unfold fill_action_descriptor, plan_maps. rewrite Hscan. reflexivity. }
  rewrite Hf. unfold store_units.
  destruct (Z.of_nat (length (emit_units chip_size
                                (fold_range_maps maps0 (length sorted) chip_size)
                                sorted)) <=? max_units sorted) eqn:Hroom.
  - cbn [oldcontents newcontents processing_units].
    split; [reflexivity|]. split; [reflexivity|].
    exists sorted. split; [reflexivity|]. split; [lia|].
    split; [exact Hf|lia].
  - right. exists sorted. split; [reflexivity|]. right.
    eexists. split; [exact Hf|lia].
Qed.

Lemma prepare_action_descriptor_returns_witness :
  let chip_size := to_uint (total_size twin_chip * 1024) in
  let first_size sorted_erasers :=
    eraser_size (block_erasers twin_chip)
                (nth 0 sorted_erasers (mkEraser 0 0)) in
  let max_units sorted_erasers :=
    to_int (chip_size / (2 * first_size sorted_erasers) + 1) in
  match prepare_action_descriptor twin_chip before_image after_image with
  | None =>
      fill_sorted_erasers twin_chip
        (max_modified before_image after_image chip_size) = None
      \/ exists sorted_erasers,
           fill_sorted_erasers twin_chip
             (max_modified before_image after_image chip_size)
           = Some sorted_erasers
           /\ (first_size sorted_erasers = 0
               \/ exists units,
                    fill_action_descriptor before_image after_image
                      sorted_erasers (block_erasers twin_chip) chip_size
                      (length sorted_erasers) (flash_erase_value twin_chip)
                    = Some units
                    /\ max_units sorted_erasers < Z.of_nat (length units))
  | Some descriptor =>
      oldcontents descriptor = before_image
      /\ newcontents descriptor = after_image
      /\ exists sorted_erasers,
           fill_sorted_erasers twin_chip
             (max_modified before_image after_image chip_size)
           = Some sorted_erasers
           /\ first_size sorted_erasers <> 0
           /\ fill_action_descriptor before_image after_image sorted_erasers
                (block_erasers twin_chip) chip_size (length sorted_erasers)
                (flash_erase_value twin_chip)
              = Some (processing_units descriptor)
           /\ Z.of_nat (length (processing_units descriptor))
              <= max_units sorted_erasers
  end.
Proof.
  apply (prepare_action_descriptor_returns twin_chip before_image after_image).
  vm_compute. discriminate.
Defined.

(** The two other ways to fail are met: on [void_chip] the first eraser
    taken has a block size of zero, and on [lone_chip] one entry is
    allocated where a unit and the terminating entry are written. *)
Lemma prepare_divides_by_zero :
  fill_sorted_erasers void_chip
    (max_modified blank_image blank_image 1024)
  = Some [mkEraser 0 0; mkEraser 1 0]
  /\ eraser_size (block_erasers void_chip) (mkEraser 0 0) = 0
  /\ prepare_action_descriptor void_chip blank_image blank_image = None.
Proof. vm_compute. repeat split. Qed.

Lemma prepare_writes_past_allocation :
  fill_sorted_erasers lone_chip
    (max_modified before_image after_image 1024) = Some [mkEraser 0 0]
  /\ max_units_for 1024 1024 = Some 1
  /\ fill_action_descriptor before_image after_image [mkEraser 0 0]
       (block_erasers lone_chip) 1024 1 255
     = Some [mkUnit 0 1024 1 0 0; sentinel]
  /\ prepare_action_descriptor lone_chip before_image after_image = None.
Proof. vm_compute. repeat split. Qed.

(** The executor does not look behind the terminating entry. *)
Lemma walk_units_stops_at_sentinel : forall p chip newc real rest h oldc rc,
  walk_units p chip h (real ++ sentinel :: rest) oldc newc rc
  = walk_units p chip h (real ++ [sentinel]) oldc newc rc.
Proof.
  intros p chip newc real rest. induction real as [|u real IH]; intros h oldc rc.
  - reflexivity.
  - cbn [app walk_units].
    destruct (num_blocks u =? 0); [reflexivity|].
    destruct (walk_unit _ p chip h u _ _ oldc newc rc)
      as [[[[stop rc'] h'] oldc']|]; [|reflexivity].
    destruct stop; [reflexivity|]. apply IH.
Qed.

(** X4.  The entries of a descriptor from [prepare_action_descriptor] are a
    row of units with one block or more each, followed by the terminating
    entry; all of them lie within the [max_units] entries allocated, and
    the executor, which stops at the first entry without blocks, reads none
    of what lies behind the terminating entry. *)
Theorem units_end_with_sentinel : forall chip oldc newc descriptor,
  prepare_action_descriptor chip oldc newc = Some descriptor ->
  exists real sorted_erasers max_units,
    processing_units descriptor = real ++ [sentinel]
    /\ Forall (fun u => 0 < num_blocks u) real
    /\ fill_sorted_erasers chip
         (max_modified oldc newc (to_uint (total_size chip * 1024)))
       = Some sorted_erasers
    /\ max_units_for (to_uint (total_size chip * 1024))
         (eraser_size (block_erasers chip)
                      (nth 0 sorted_erasers (mkEraser 0 0)))
       = Some max_units
    /\ Z.of_nat (length real) + 1 <= max_units
    /\ forall p h rest rc,
         walk_units p chip h (processing_units descriptor ++ rest)
                    (oldcontents descriptor) (newcontents descriptor) rc
         = walk_units p chip h (processing_units descriptor)
                      (oldcontents descriptor) (newcontents descriptor) rc.
Proof.
  intros chip oldc newc descriptor H.
  apply prepare_action_descriptor_some in H.
  destruct H as (sorted & units & max_units & Hs & Hm & Hf & Hroom & ->).
  cbn [oldcontents newcontents processing_units].
  unfold fill_action_descriptor in Hf.
  destruct (plan_maps oldc newc sorted (block_erasers chip)
              (to_uint (total_size chip * 1024)) (length sorted)
              (flash_erase_value chip)) as [maps|]; [|discriminate].
  assert (E : units = emit_units (to_uint (total_size chip * 1024)) maps sorted)
    by congruence.
  subst units. clear Hf. unfold emit_units in *.
  eexists. exists sorted, max_units.
  split; [reflexivity|]. split.
  { apply Forall_forall. intros u Hu.
    apply emit_levels_runs in Hu.
    destruct Hu as (i & _ & _ & s & _ & _ & Hn & _). assumption. }
  split; [assumption|]. split; [assumption|].
  split.
  { rewrite length_app in Hroom. simpl in Hroom. lia. }
  intros p h rest rc. rewrite <- app_assoc.
  apply walk_units_stops_at_sentinel.
Qed.

Lemma units_end_with_sentinel_witness :
  exists real sorted_erasers max_units,
    [mkUnit 0 256 1 1 0; sentinel] = real ++ [sentinel]
    /\ Forall (fun u => 0 < num_blocks u) real
    /\ fill_sorted_erasers twin_chip
         (max_modified before_image after_image
            (to_uint (total_size twin_chip * 1024)))
       = Some sorted_erasers
    /\ max_units_for (to_uint (total_size twin_chip * 1024))
         (eraser_size (block_erasers twin_chip)
                      (nth 0 sorted_erasers (mkEraser 0 0)))
       = Some max_units
    /\ Z.of_nat (length real) + 1 <= max_units
    /\ forall p h rest rc,
         walk_units p twin_chip h ([mkUnit 0 256 1 1 0; sentinel] ++ rest)
                    before_image after_image rc
         = walk_units p twin_chip h [mkUnit 0 256 1 1 0; sentinel]
                      before_image after_image rc.
Proof.
  apply (units_end_with_sentinel twin_chip before_image after_image
           (mkDescriptor before_image after_image
              [mkUnit 0 256 1 1 0; sentinel])).
  vm_compute. reflexivity.
Defined.

(** X6.  Every processing unit of a descriptor from
    [prepare_action_descriptor] names an eraser the chip has an erase
    function for, in a region whose block size is the block size of the unit
    and whose [size * count] reaches the last modified byte: the executor
    calls no null pointer and erases blocks of the size the planner meant. *)
Theorem prepared_units_name_erasers : forall chip oldc newc descriptor u,
  prepare_action_descriptor chip oldc newc = Some descriptor ->
  In u (processing_units descriptor) ->
  num_blocks u <> 0 ->
  (block_eraser_index u < NUM_ERASEFUNCTIONS)%nat
  /\ (block_region_index u < NUM_ERASEREGIONS)%nat
  /\ block_erase (eraser_at (block_erasers chip) (block_eraser_index u)) <> None
  /\ size (region_at (block_erasers chip) (block_eraser_index u)
                     (block_region_index u))
     = unit_block_size u
  /\ max_modified oldc newc (to_uint (total_size chip * 1024))
     <= region_reach (region_at (block_erasers chip) (block_eraser_index u)
                                (block_region_index u)).
Proof.
  intros chip oldc newc descriptor u H Hin Hnb.
  apply prepare_action_descriptor_some in H.
  set (chip_size := to_uint (total_size chip * 1024)) in *.
  destruct H as (sorted & units & max_units & Hs & _ & Hf & _ & ->).
  simpl in Hin.
  unfold fill_action_descriptor in Hf.
  destruct (plan_maps oldc newc sorted (block_erasers chip) chip_size
              (length sorted) (flash_erase_value chip)) as [maps|] eqn:Hplan;
    [|discriminate].
  assert (E : units = emit_units chip_size maps sorted) by congruence.
  subst units. clear Hf.
  destruct (plan_maps_fits _ _ _ _ _ _ _ Hplan) as (Hsz & _ & Hlen).
  apply emit_units_erasers in Hin.
  destruct Hin as [->|(i & Hi & Hi' & Hbs & He)]; [simpl in Hnb; lia|].
  assert (Hin : In (mkEraser (block_eraser_index u) (block_region_index u)) sorted)
    by (rewrite He; apply nth_In; assumption).
  destruct (fill_sorted_erasers_qualify _ _ _ _ Hs Hin) as (Hk & Hq).
  simpl in Hk, Hq.
  destruct (qualifies_some _ _ _ _ Hq) as (Hfn & Hr & Hreach).
  split; [assumption|]. split; [assumption|]. split; [assumption|].
  split; [|assumption].
  rewrite Hbs, (has_sizes_block_size _ _ _ Hsz).
  rewrite (nth_indep _ 0 (eraser_size (block_erasers chip) (mkEraser 0 0)))
    by (rewrite length_map; assumption).
  rewrite map_nth, <- He. reflexivity.
Qed.

Lemma prepared_units_name_erasers_witness :
  let u := mkUnit 0 256 1 1 0 in
  (block_eraser_index u < NUM_ERASEFUNCTIONS)%nat
  /\ (block_region_index u < NUM_ERASEREGIONS)%nat
  /\ block_erase (eraser_at (block_erasers twin_chip) (block_eraser_index u))
     <> None
  /\ size (region_at (block_erasers twin_chip) (block_eraser_index u)
                     (block_region_index u))
     = unit_block_size u
  /\ max_modified before_image after_image
       (to_uint (total_size twin_chip * 1024))
     <= region_reach (region_at (block_erasers twin_chip) (block_eraser_index u)
                                (block_region_index u)).
Proof.
  apply (prepared_units_name_erasers twin_chip before_image after_image
           (mkDescriptor before_image after_image
              [mkUnit 0 256 1 1 0; sentinel])).
  - vm_compute. reflexivity.
  - left. reflexivity.
  - simpl. lia.
Defined.

(** ** What the comparisons say *)

Lemma memcmp_eq_iff : forall a b n,
  memcmp_eq a b n = true
  <-> forall k, 0 <= k < n -> byte_at a k = byte_at b k.
Proof.
  intros a b n. unfold memcmp_eq. rewrite forallb_forall. split.
  - intros H k Hk. apply Z.eqb_eq. apply H. apply zrange_In. assumption.
  - intros H k Hk. apply Z.eqb_eq. apply H. apply zrange_In. assumption.
Qed.

(** X7.  [compare_range] returns 0 when the two buffers hold the same [len]
    bytes and -1 when they differ in one byte or more. *)
Theorem compare_range_zero_iff : forall wantbuf havebuf start len,
  (compare_range wantbuf havebuf start len = 0
   <-> forall k, 0 <= k < len -> byte_at wantbuf k = byte_at havebuf k)
  /\ (compare_range wantbuf havebuf start len = -1
      <-> exists k, 0 <= k < len /\ byte_at wantbuf k <> byte_at havebuf k).
Proof.
  intros wantbuf havebuf start len.
  assert (G : (forall k, 0 <= k < len -> byte_at wantbuf k = byte_at havebuf k)
              -> compare_range wantbuf havebuf start len = 0).
  { intros H. unfold compare_range.
    assert (E : fold_left
                  (fun failcount i =>
                     if byte_at wantbuf i =? byte_at havebuf i then failcount
                     else failcount + 1) (zrange 0 len) 0 = 0).
    { apply (fold_left_inv Z Z (fun fc => fc = 0)); [reflexivity|].
      intros fc i Hi ->. apply zrange_In in Hi.
      rewrite (proj2 (Z.eqb_eq _ _) (H i Hi)). reflexivity. }
    rewrite E. reflexivity. }
  assert (V : compare_range wantbuf havebuf start len = 0
              \/ compare_range wantbuf havebuf start len = -1).
  { unfold compare_range. destruct (_ =? 0); [left|right]; reflexivity. }
  split; split.
  - apply compare_range_equal.
  - exact G.
  - intros H.
    destruct (existsb (fun k => negb (byte_at wantbuf k =? byte_at havebuf k))
                      (zrange 0 len)) eqn:E.
    + apply existsb_zrange in E. destruct E as (k & Hk & Hne).
      exists k. split; [assumption|].
      apply negb_true_iff in Hne. apply Z.eqb_neq. assumption.
    + exfalso. assert (Z0 : compare_range wantbuf havebuf start len = 0).
      { apply G. intros k Hk.
        destruct (byte_at wantbuf k =? byte_at havebuf k) eqn:Ek;
          [apply Z.eqb_eq; assumption|].
        assert (T : existsb (fun k => negb (byte_at wantbuf k =? byte_at havebuf k))
                            (zrange 0 len) = true).
        { apply existsb_zrange. exists k. split; [assumption|].
          rewrite Ek. reflexivity. }
        congruence. }
      lia.
  - intros (k & Hk & Hne). destruct V as [V|V]; [|assumption].
    exfalso. apply Hne. apply (compare_range_equal _ _ _ _ V). assumption.
Qed.

(** ** When no erase is needed *)

(** Within the whole chunks of a buffer the length compared is the chunk
    size. *)
Lemma chunk_limit : forall stride len i,
  0 < stride -> 0 <= len <= INT_MAX -> 0 <= i < len / stride ->
  to_uint (min_int stride (to_uint (len - i * stride))) = stride
  /\ (i + 1) * stride <= len.
Proof.
  intros stride len i Hst Hl Hi.
  pose proof (Z.mul_div_le len stride Hst) as Hmul.
  assert (Hend : (i + 1) * stride <= len) by nia.
  split; [|assumption].
  unfold INT_MAX in *.
  rewrite (to_uint_id (len - i * stride)) by (unfold UINT_MODULUS; nia).
  unfold min_int. rewrite !to_int_id by (unfold INT_MAX; nia).
  rewrite Z.min_l by nia. apply to_uint_id. unfold UINT_MODULUS. nia.
Qed.

Lemma memcmp_chunk : forall have want stride len i,
  0 < stride -> 0 <= len <= INT_MAX -> 0 <= i < len / stride ->
  memcmp_eq (ptr_add have (i * stride)) (ptr_add want (i * stride))
            (to_uint (min_int stride (to_uint (len - i * stride)))) = true
  <-> chunk_equal have want stride i.
Proof.
  intros have want stride len i Hst Hl Hi.
  destruct (chunk_limit stride len i Hst Hl Hi) as (-> & _).
  rewrite memcmp_eq_iff. unfold chunk_equal. split.
  - intros H k Hk. specialize (H (k - i * stride)).
    rewrite !byte_at_ptr_add in H by nia.
    replace (i * stride + (k - i * stride)) with k in H by lia.
    apply H. lia.
  - intros H k Hk. rewrite !byte_at_ptr_add by nia. apply H. lia.
Qed.

Lemma need_erase_gran_bytes_equal : forall have want len gran erased_value,
  0 < gran -> 0 <= len <= INT_MAX ->
  (forall k, 0 <= k < len -> byte_at have k = byte_at want k) ->
  need_erase_gran_bytes have want len gran erased_value = 0.
Proof.
  intros have want len gran ev Hg Hl Heq. unfold need_erase_gran_bytes.
  destruct (existsb _ (zrange 0 (len / gran))) eqn:E; [|reflexivity].
  apply existsb_zrange in E. destruct E as (j & Hj & Hf).
  apply andb_prop in Hf. destruct Hf as [Hf _].
  apply negb_true_iff in Hf.
  assert (T : memcmp_eq (ptr_add have (j * gran)) (ptr_add want (j * gran))
                (to_uint (min_int gran (to_uint (len - j * gran)))) = true).
  { apply memcmp_chunk; try assumption.
    destruct (chunk_limit gran len j Hg Hl Hj) as (_ & Hend).
    intros k Hk. apply Heq. nia. }
  congruence.
Qed.

Lemma need_erase_gran_bytes_erased : forall have want len gran erased_value,
  0 < gran -> 0 <= len <= INT_MAX ->
  (forall k, 0 <= k < len -> byte_at have k = erased_value) ->
  need_erase_gran_bytes have want len gran erased_value = 0.
Proof.
  intros have want len gran ev Hg Hl Her. unfold need_erase_gran_bytes.
  destruct (existsb _ (zrange 0 (len / gran))) eqn:E; [|reflexivity].
  apply existsb_zrange in E. destruct E as (j & Hj & Hf).
  apply andb_prop in Hf. destruct Hf as [_ Hf].
  destruct (chunk_limit gran len j Hg Hl Hj) as (Hlim & Hend).
  rewrite Hlim in Hf.
  apply existsb_zrange in Hf. destruct Hf as (i & Hi & Hne).
  apply negb_true_iff in Hne. apply Z.eqb_neq in Hne.
  exfalso. apply Hne. apply Her. nia.
Qed.

Lemma need_erase_equal : forall have want len gran erased_value,
  0 <= len <= INT_MAX ->
  (forall k, 0 <= k < len -> byte_at have k = byte_at want k) ->
  need_erase have want len gran erased_value = 0.
Proof.
  intros have want len gran ev Hl Heq.
  destruct gran; simpl;
    try (apply need_erase_gran_bytes_equal; [lia|assumption|assumption]);
    try reflexivity.
  - destruct (existsb _ (zrange 0 len)) eqn:E; [|reflexivity].
    apply existsb_zrange in E. destruct E as (i & Hi & Hf).
    apply negb_true_iff in Hf. apply Z.eqb_neq in Hf.
    exfalso. apply Hf. rewrite (Heq i Hi). apply Z.land_diag.
  - destruct (existsb _ (zrange 0 len)) eqn:E; [|reflexivity].
    apply existsb_zrange in E. destruct E as (i & Hi & Hf).
    apply andb_prop in Hf. destruct Hf as [Hf _].
    apply negb_true_iff in Hf. apply Z.eqb_neq in Hf.
    exfalso. apply Hf. apply Heq. assumption.
Qed.

(** X8.  Whatever the write granularity and the erased value, [need_erase]
    asks for no erase of a range in which the chip already holds the bytes
    wanted. *)
Theorem need_erase_equal_contents : forall have want len gran erased_value,
  0 <= len <= INT_MAX ->
  (forall k, 0 <= k < len -> byte_at have k = byte_at want k) ->
  need_erase have want len gran erased_value = 0.
Proof.
  exact need_erase_equal.
Qed.

Lemma need_erase_equal_contents_witness :
  need_erase after_image after_image 1024 write_gran_256bytes 255 = 0.
Proof.
  apply need_erase_equal_contents.
  - unfold INT_MAX. lia.
  - intros k Hk. reflexivity.
Defined.

(** X9.  For every write granularity but [write_gran_1bit], [need_erase]
    asks for no erase of a range in which every byte of the chip holds the
    erased value it is given. *)
Theorem need_erase_erased_contents : forall have want len gran erased_value,
  0 <= len <= INT_MAX ->
  gran <> write_gran_1bit ->
  (forall k, 0 <= k < len -> byte_at have k = erased_value) ->
  need_erase have want len gran erased_value = 0.
Proof.
  intros have want len gran ev Hl Hg Her.
  destruct gran; simpl;
    try (apply need_erase_gran_bytes_erased; [lia|assumption|assumption]);
    try reflexivity.
  - contradiction.
  - destruct (existsb _ (zrange 0 len)) eqn:E; [|reflexivity].
    apply existsb_zrange in E. destruct E as (i & Hi & Hf).
    apply andb_prop in Hf. destruct Hf as [_ Hf].
    apply negb_true_iff in Hf. apply Z.eqb_neq in Hf.
    exfalso. apply Hf. apply Her. assumption.
Qed.

Lemma need_erase_erased_contents_witness :
  need_erase (repeat 0 1024) fresh_block 1024 write_gran_1byte 0 = 0.
Proof.
  apply need_erase_erased_contents.
  - unfold INT_MAX. lia.
  - discriminate.
  - intros k Hk. unfold byte_at.
    destruct (k <? 0) eqn:E; [reflexivity|].
    apply nth_repeat.
Defined.

(** ** The first run to write *)

(** The loop of [get_next_write] over whole chunks: begun outside a run it
    ends outside one when all chunks are equal, or else with the run that
    starts at the first chunk that differs and goes on up to the next chunk
    that is equal; begun inside a run it goes on up to the next equal
    chunk. *)
Lemma next_write_scan_spec : forall have want len stride n lo hi
    need_write rel_start need_write' rel_start' i',
  0 < stride -> 0 <= len <= INT_MAX ->
  0 <= lo -> hi = lo + Z.of_nat n -> hi <= len / stride ->
  next_write_scan have want len stride (zrange lo hi) need_write rel_start hi
  = (need_write', rel_start', i') ->
  if need_write then
    need_write' = true /\ rel_start' = rel_start /\ lo <= i' <= hi
    /\ (forall j, lo <= j < i' -> ~ chunk_equal have want stride j)
    /\ (i' < hi -> chunk_equal have want stride i')
  else if need_write' then
    exists f, rel_start' = f * stride /\ lo <= f < i' /\ i' <= hi
      /\ (forall j, lo <= j < f -> chunk_equal have want stride j)
      /\ (forall j, f <= j < i' -> ~ chunk_equal have want stride j)
      /\ (i' < hi -> chunk_equal have want stride i')
  else forall j, lo <= j < hi -> chunk_equal have want stride j.
Proof.
  intros have want len stride.
  induction n as [|n IH]; intros lo hi need_write rel_start need_write'
                                 rel_start' i' Hst Hl Hlo Hhi Hq H.
  - rewrite zrange_nil in H by lia. simpl in H. inversion H; subst.
    destruct need_write'.
    + split; [reflexivity|]. split; [reflexivity|]. split; [lia|].
      split; intros; lia.
    + intros j Hj. lia.
  - rewrite zrange_cons in H by lia. simpl in H.
    assert (Hlo1 : 0 <= lo + 1) by lia.
    assert (Hhi1 : hi = lo + 1 + Z.of_nat n) by lia.
    assert (Hin : 0 <= lo < len / stride) by lia.
    pose proof (memcmp_chunk have want stride len lo Hst Hl Hin) as Hc.
    destruct (memcmp_eq (ptr_add have (lo * stride)) (ptr_add want (lo * stride))
                (to_uint (min_int stride (to_uint (len - lo * stride))))) eqn:M;
      simpl in H.
    + assert (Ceq : chunk_equal have want stride lo) by (apply Hc; reflexivity).
      destruct need_write.
      * inversion H; subst. split; [reflexivity|]. split; [reflexivity|].
        split; [lia|]. split; [intros; lia|]. intros _. assumption.
      * specialize (IH (lo + 1) hi false rel_start need_write' rel_start' i'
                       Hst Hl Hlo1 Hhi1 Hq H). simpl in IH.
        destruct need_write'.
        -- destruct IH as (f & Hf & Hfi & Hi & Hbefore & Hrun & Hend).
           exists f. split; [assumption|]. split; [lia|]. split; [assumption|].
           split; [|split; assumption].
           intros j Hj. destruct (Z.eq_dec j lo) as [->|Hne]; [assumption|].
           apply Hbefore. lia.
        -- intros j Hj. destruct (Z.eq_dec j lo) as [->|Hne]; [assumption|].
           apply IH. lia.
    + assert (Cne : ~ chunk_equal have want stride lo).
      { intros C. apply Hc in C. discriminate. }
      destruct need_write.
      * specialize (IH (lo + 1) hi true rel_start need_write' rel_start' i'
                       Hst Hl Hlo1 Hhi1 Hq H). simpl in IH.
        destruct IH as (H1 & H2 & H3 & Hrun & Hend).
        split; [assumption|]. split; [assumption|]. split; [lia|].
        split; [|assumption].
        intros j Hj. destruct (Z.eq_dec j lo) as [->|Hne]; [assumption|].
        apply Hrun. lia.
      * specialize (IH (lo + 1) hi true (lo * stride) need_write' rel_start' i'
                       Hst Hl Hlo1 Hhi1 Hq H). simpl in IH.
        destruct IH as (H1 & H2 & H3 & Hrun & Hend). subst need_write'.
        exists lo. split; [assumption|]. split; [lia|]. split; [lia|].
        split; [intros; lia|]. split; [|assumption].
        intros j Hj. destruct (Z.eq_dec j lo) as [->|Hne]; [assumption|].
        apply Hrun. lia.
Qed.

(** What [get_next_write] returns, in chunks of the write granularity:
    [f] is the chunk the run starts at and [i] the chunk it ends before. *)
Lemma get_next_write_spec : forall have want len first_start gran first_len
    first_start',
  0 <= len <= INT_MAX ->
  0 <= first_start ->
  first_start + len <= INT_MAX ->
  get_next_write have want len first_start gran = (first_len, first_start') ->
  let stride := stride_of gran in
  (first_len = 0
   /\ forall j, 0 <= j < len / stride -> chunk_equal have want stride j)
  \/ exists f i,
       first_start' = first_start + f * stride
       /\ first_len = (i - f) * stride
       /\ 0 <= f < i /\ i <= len / stride
       /\ (forall j, 0 <= j < f -> chunk_equal have want stride j)
       /\ (forall j, f <= j < i -> ~ chunk_equal have want stride j)
       /\ (i < len / stride -> chunk_equal have want stride i).
Proof.
  intros have want len first_start gran first_len first_start' Hl Hf Hmax H.
  unfold get_next_write in H.
  pose proof (stride_of_pos gran) as Hst. simpl.
  set (stride := stride_of gran) in *.
  destruct (next_write_scan have want len stride (zrange 0 (len / stride))
              false 0 (len / stride)) as [[need_write rel_start] i] eqn:S.
  assert (Hq : 0 <= len / stride) by (apply Z.div_pos; lia).
  assert (Hn : len / stride = 0 + Z.of_nat (Z.to_nat (len / stride))) by lia.
  pose proof (next_write_scan_spec _ _ _ _ _ _ _ _ _ _ _ _ Hst Hl (Z.le_refl 0)
                Hn (Z.le_refl _) S) as Sp.
  simpl in Sp. inversion H; subst first_len first_start'. clear H.
  destruct need_write.
  - right. destruct Sp as (f & Hrs & Hfi & Hi & Hbefore & Hrun & Hend).
    exists f, i. subst rel_start.
    pose proof (Z.mul_div_le len stride Hst) as Hmul.
    assert (Hend' : i * stride <= len) by nia.
    unfold INT_MAX in *.
    assert (E1 : to_uint (i * stride - f * stride) = i * stride - f * stride)
      by (apply to_uint_id; unfold UINT_MODULUS; nia).
    assert (E2 : to_uint (min_int (to_uint (i * stride - f * stride)) len)
                 = i * stride - f * stride).
    { rewrite E1. unfold min_int. rewrite !to_int_id by (unfold INT_MAX; nia).
      rewrite Z.min_l by nia. apply to_uint_id. unfold UINT_MODULUS. nia. }
    rewrite E2. rewrite to_uint_id by (unfold UINT_MODULUS; nia).
    split; [reflexivity|]. split; [lia|]. split; [lia|]. split; [assumption|].
    split; [assumption|]. split; assumption.
  - left. split; [reflexivity|]. assumption.
Qed.

(** X10.  [get_next_write] looks at the whole chunks of the write
    granularity only.  It returns 0 exactly when the two buffers agree in
    all of them; otherwise the run it returns is made of whole chunks within
    the buffer, before it the buffers agree, its first chunk holds a byte
    that differs, and it ends at the end of the whole chunks or before a
    chunk in which the buffers agree. *)
Theorem get_next_write_first_run : forall have want len first_start gran
    first_len first_start',
  0 <= len <= INT_MAX ->
  0 <= first_start ->
  first_start + len <= INT_MAX ->
  get_next_write have want len first_start gran = (first_len, first_start') ->
  let stride := stride_of gran in
  let rel_start := first_start' - first_start in
  (first_len = 0
   <-> forall k, 0 <= k < len / stride * stride ->
         byte_at have k = byte_at want k)
  /\ (first_len <> 0 ->
      (stride | rel_start) /\ (stride | first_len)
      /\ 0 <= rel_start /\ 0 < first_len
      /\ rel_start + first_len <= len / stride * stride
      /\ (forall k, 0 <= k < rel_start -> byte_at have k = byte_at want k)
      /\ (exists k, rel_start <= k < rel_start + stride
                    /\ byte_at have k <> byte_at want k)
      /\ (rel_start + first_len < len / stride * stride ->
          forall k, rel_start + first_len <= k < rel_start + first_len + stride ->
            byte_at have k = byte_at want k)).
Proof.
  intros have want len first_start gran first_len first_start' Hl Hf Hmax H.
  pose proof (stride_of_pos gran) as Hst.
  pose proof (get_next_write_spec _ _ _ _ _ _ _ Hl Hf Hmax H) as Sp.
  simpl in Sp. simpl. set (stride := stride_of gran) in *.
  assert (Hq : 0 <= len / stride) by (apply Z.div_pos; lia).
  assert (Hchunks : forall n, 0 <= n ->
            (forall j, 0 <= j < n -> chunk_equal have want stride j) ->
            forall k, 0 <= k < n * stride -> byte_at have k = byte_at want k).
  { intros n Hn Hall k Hk. apply (Hall (k / stride)).
    - split; [apply Z.div_pos; lia|]. apply Z.div_lt_upper_bound; lia.
    - pose proof (Z.mul_div_le k stride Hst).
      pose proof (Z.mul_succ_div_gt k stride Hst). lia. }
  assert (Hdiff : forall j, ~ chunk_equal have want stride j ->
            exists k, j * stride <= k < j * stride + stride
                      /\ byte_at have k <> byte_at want k).
  { intros j Hne.
    destruct (existsb (fun k => negb (byte_at have k =? byte_at want k))
                      (zrange (j * stride) ((j + 1) * stride))) eqn:E.
    - apply existsb_zrange in E. destruct E as (k & Hk & Hk').
      exists k. split; [lia|]. apply negb_true_iff in Hk'.
      apply Z.eqb_neq. assumption.
    - exfalso. apply Hne. intros k Hk.
      destruct (byte_at have k =? byte_at want k) eqn:Ek;
        [apply Z.eqb_eq; assumption|].
      assert (T : existsb (fun k => negb (byte_at have k =? byte_at want k))
                          (zrange (j * stride) ((j + 1) * stride)) = true).
      { apply existsb_zrange. exists k. split; [assumption|].
        rewrite Ek. reflexivity. }
      congruence. }
  destruct Sp as [(H0 & Hall)|(f & i & Hs & Hlen & Hfi & Hi & Hbefore & Hrun & Hend)].
  - split; [|intros; contradiction].
    split; [intros _|intros _; assumption].
    apply Hchunks; assumption.
  - assert (Hne : first_len <> 0) by nia.
    split.
    + split; [intros; contradiction|]. intros Hall. exfalso.
      apply (Hrun f); [lia|]. intros k Hk. apply Hall. nia.
    + intros _.
      replace (first_start' - first_start) with (f * stride) by lia.
      split; [exists f; reflexivity|].
      split; [exists (i - f); assumption|].
      split; [nia|]. split; [nia|]. split; [nia|].
      split; [apply Hchunks; [lia|assumption]|].
      split.
      * destruct (Hdiff f) as (k & Hk & Hk'); [apply Hrun; lia|].
        exists k. split; [lia|assumption].
      * intros Hlt k Hk. apply (Hend ltac:(nia)). nia.
Qed.

Lemma get_next_write_first_run_witness :
  let have := before_image in
  let want := after_image in
  let len := 1024 in
  let first_len := 512 in
  let stride := stride_of write_gran_256bytes in
  let rel_start := 0 - 0 in
  (first_len = 0
   <-> forall k, 0 <= k < len / stride * stride ->
         byte_at have k = byte_at want k)
  /\ (first_len <> 0 ->
      (stride | rel_start) /\ (stride | first_len)
      /\ 0 <= rel_start /\ 0 < first_len
      /\ rel_start + first_len <= len / stride * stride
      /\ (forall k, 0 <= k < rel_start -> byte_at have k = byte_at want k)
      /\ (exists k, rel_start <= k < rel_start + stride
                    /\ byte_at have k <> byte_at want k)
      /\ (rel_start + first_len < len / stride * stride ->
          forall k, rel_start + first_len <= k < rel_start + first_len + stride ->
            byte_at have k = byte_at want k)).
Proof.
  apply (get_next_write_first_run before_image after_image 1024 0
           write_gran_256bytes 512 0).
  - unfold INT_MAX. lia.
  - lia.
  - unfold INT_MAX. lia.
  - vm_compute. reflexivity.
Defined.

(** ** The contents of the array behind an ideal master *)

Lemma byte_at_nth : forall buf a,
  0 <= a -> byte_at buf a = nth (Z.to_nat a) buf 0.
Proof.
  intros buf a Ha. unfold byte_at.
  destruct (a <? 0) eqn:E; [apply Z.ltb_lt in E; lia|reflexivity].
Qed.

Lemma byte_at_negative : forall buf a, a < 0 -> byte_at buf a = 0.
Proof.
  intros buf a Ha. unfold byte_at.
  destruct (a <? 0) eqn:E; [reflexivity|apply Z.ltb_ge in E; lia].
Qed.

Lemma length_memcpy : forall buf off src len,
  0 <= off -> 0 <= len -> off + len <= Z.of_nat (length buf) ->
  length (memcpy buf off src len) = length buf.
Proof.
  intros buf off src len Ho Hl Hb. unfold memcpy.
  rewrite !length_app, !length_firstn, length_skipn, length_app, repeat_length.
  lia.
Qed.

Lemma byte_at_memcpy : forall buf off src len a,
  0 <= off -> 0 <= len -> off + len <= Z.of_nat (length buf) ->
  byte_at (memcpy buf off src len) a
  = if (off <=? a) && (a <? off + len) then byte_at src (a - off)
    else byte_at buf a.
Proof.
  intros buf off src len a Ho Hl Hb.
  destruct (Z.lt_ge_cases a 0) as [Ha|Ha].
  { rewrite (byte_at_negative _ a Ha), (byte_at_negative buf a Ha).
    destruct (off <=? a) eqn:E; [apply Z.leb_le in E; lia|reflexivity]. }
  rewrite (byte_at_nth _ a Ha), (byte_at_nth buf a Ha). unfold memcpy.
  set (o := Z.to_nat off). set (n := Z.to_nat len).
  assert (Hlen1 : length (firstn o buf) = o)
    by (apply firstn_length_le; unfold o; lia).
  assert (Hlen2 : length (firstn (Nat.min n (length buf - o))
                                 (src ++ repeat 0 n)) = n).
  { rewrite length_firstn, length_app, repeat_length. unfold o, n. lia. }
  destruct (off <=? a) eqn:E1; simpl.
  - apply Z.leb_le in E1. rewrite app_nth2 by (rewrite Hlen1; unfold o; lia).
    rewrite Hlen1.
    destruct (a <? off + len) eqn:E2.
    + apply Z.ltb_lt in E2.
      rewrite app_nth1 by (rewrite Hlen2; unfold o, n; lia).
      rewrite nth_firstn.
      replace (Nat.min n (length buf - o)) with n by (unfold o, n; lia).
      assert (Hlt : (Z.to_nat a - o <? n)%nat = true)
        by (apply Nat.ltb_lt; unfold o, n; lia).
      rewrite Hlt. rewrite (byte_at_nth src) by lia.
      replace (Z.to_nat (a - off)) with (Z.to_nat a - o)%nat by (unfold o; lia).
      destruct (Nat.lt_ge_cases (Z.to_nat a - o) (length src)) as [L|L].
      * apply app_nth1. assumption.
      * rewrite app_nth2 by lia. rewrite (nth_overflow src) by lia.
        destruct (Nat.lt_ge_cases (Z.to_nat a - o - length src) n) as [L2|L2].
        -- apply nth_repeat_lt. assumption.
        -- apply nth_overflow. rewrite repeat_length. assumption.
    + apply Z.ltb_ge in E2.
      rewrite app_nth2 by (rewrite Hlen2; unfold o, n; lia).
      rewrite Hlen2, nth_skipn. f_equal. unfold o, n. lia.
  - apply Z.leb_gt in E1.
    rewrite app_nth1 by (rewrite Hlen1; unfold o; lia).
    rewrite nth_firstn.
    assert (Hlt : (Z.to_nat a <? o)%nat = true)
      by (apply Nat.ltb_lt; unfold o; lia).
    rewrite Hlt. reflexivity.
Qed.

Lemma length_memset : forall buf off c len,
  0 <= off -> 0 <= len -> off + len <= Z.of_nat (length buf) ->
  length (memset buf off c len) = length buf.
Proof.
  intros buf off c len Ho Hl Hb. unfold memset.
  rewrite !length_app, length_firstn, length_skipn, repeat_length.
  lia.
Qed.

Lemma byte_at_memset : forall buf off c len a,
  0 <= off -> 0 <= len -> off + len <= Z.of_nat (length buf) ->
  byte_at (memset buf off c len) a
  = if (off <=? a) && (a <? off + len) then c else byte_at buf a.
Proof.
  intros buf off c len a Ho Hl Hb.
  destruct (Z.lt_ge_cases a 0) as [Ha|Ha].
  { rewrite (byte_at_negative _ a Ha), (byte_at_negative buf a Ha).
    destruct (off <=? a) eqn:E; [apply Z.leb_le in E; lia|reflexivity]. }
  rewrite (byte_at_nth _ a Ha), (byte_at_nth buf a Ha). unfold memset.
  set (o := Z.to_nat off). set (n := Z.to_nat len).
  assert (Hlen1 : length (firstn o buf) = o)
    by (apply firstn_length_le; unfold o; lia).
  replace (Nat.min n (length buf - o)) with n by (unfold o, n; lia).
  destruct (off <=? a) eqn:E1; simpl.
  - apply Z.leb_le in E1. rewrite app_nth2 by (rewrite Hlen1; unfold o; lia).
    rewrite Hlen1.
    destruct (a <? off + len) eqn:E2.
    + apply Z.ltb_lt in E2.
      rewrite app_nth1 by (rewrite repeat_length; unfold o, n; lia).
      apply nth_repeat_lt. unfold o, n. lia.
    + apply Z.ltb_ge in E2.
      rewrite app_nth2 by (rewrite repeat_length; unfold o, n; lia).
      rewrite repeat_length, nth_skipn. f_equal. unfold o, n. lia.
  - apply Z.leb_gt in E1.
    rewrite app_nth1 by (rewrite Hlen1; unfold o; lia).
    rewrite nth_firstn.
    assert (Hlt : (Z.to_nat a <? o)%nat = true)
      by (apply Nat.ltb_lt; unfold o; lia).
    rewrite Hlt. reflexivity.
Qed.

(** ** Verification against what an ideal master reads *)

Lemma byte_at_firstn : forall l n k,
  0 <= k < n -> byte_at (firstn (Z.to_nat n) l) k = byte_at l k.
Proof.
  intros l n k Hk. rewrite !byte_at_nth by lia. rewrite nth_firstn.
  assert (E : (Z.to_nat k <? Z.to_nat n)%nat = true) by (apply Nat.ltb_lt; lia).
  rewrite E. reflexivity.
Qed.

(** What an ideal read of [len] bytes at [start] returns. *)
Lemma ideal_read_bytes : forall m start len k,
  0 <= start -> 0 <= k < len ->
  byte_at (firstn (Z.to_nat len) (ptr_add m start)) k = byte_at m (start + k).
Proof.
  intros m start len k Hs Hk.
  rewrite byte_at_firstn by assumption. apply byte_at_ptr_add; lia.
Qed.

Section IdealRead.

Variable p : programmer_state.
Variable chip : flashchip.

(** Reading changes nothing in the array, and the paranoid loop returns
    the value it was entered with or -1. *)
Lemma verify_chunks_ideal_mem : forall fuel h cmpbuf start len i ret rc h',
  verify_chunks fuel p chip ideal_read h cmpbuf start len i ret = Some (rc, h') ->
  mem h' = mem h /\ (rc = ret \/ rc = -1).
Proof.
  induction fuel as [|fuel IH]; intros h cmpbuf start len i ret rc h' H;
    simpl in H; destruct (i <? len) eqn:E; try discriminate;
    try (inversion H; subst; split; [reflexivity|left; reflexivity]).
  unfold call_read, ideal_read in H. cbn [negb Z.eqb] in H.
  destruct (check_access chip) as [access|].
  - unfold call_access in H.
    destruct (negb (_ =? 0) && ignore_error p _)%bool.
    + apply IH in H. simpl in H. assumption.
    + destruct (negb (_ =? 0)).
      * inversion H; subst. split; [reflexivity|right; reflexivity].
      * apply IH in H. simpl in H. assumption.
  - destruct (negb (_ =? 0)).
    + inversion H; subst. split; [reflexivity|right; reflexivity].
    + apply IH in H. simpl in H. assumption.
Qed.

Lemma verify_range_ideal_mem : forall h cmpbuf start len rc h',
  chip_read chip = Some ideal_read ->
  verify_range p chip h cmpbuf start len = Some (rc, h') ->
  mem h' = mem h /\ (rc = 0 \/ rc = -1).
Proof.
  intros h cmpbuf start len rc h' Hr H. unfold verify_range in H.
  destruct (len =? 0);
    [inversion H; subst; split; [reflexivity|right; reflexivity]|].
  rewrite Hr in H.
  destruct (_ <? _);
    [inversion H; subst; split; [reflexivity|right; reflexivity]|].
  destruct (paranoid p).
  - apply verify_chunks_ideal_mem in H. assumption.
  - unfold call_read, ideal_read in H. cbn [negb Z.eqb andb] in H.
    destruct (negb (_ =? 0)); inversion H; subst;
      (split; [reflexivity|]); [right|left]; reflexivity.
Qed.

Hypothesis no_access_check : check_access chip = None.
Hypothesis page_size_ok : 0 < page_size chip <= INT_MAX.

(** The paranoid loop over an ideal read returns the value it was entered
    with when the rest of the range holds the bytes of [cmpbuf], and -1
    when it does not. *)
Lemma verify_chunks_ideal : forall fuel h cmpbuf start len i ret,
  0 <= start -> 0 <= i -> start + len <= INT_MAX ->
  (Z.to_nat (len - i) <= fuel)%nat ->
  exists rc h',
    verify_chunks fuel p chip ideal_read h cmpbuf start len i ret = Some (rc, h')
    /\ ((forall k, i <= k < len -> byte_at cmpbuf k = byte_at (mem h) (start + k))
        -> rc = ret)
    /\ ((exists k, i <= k < len /\ byte_at cmpbuf k <> byte_at (mem h) (start + k))
        -> rc = -1).
Proof.
  induction fuel as [|fuel IH]; intros h cmpbuf start len i ret Hs Hi Hmax Hf;
    simpl; destruct (i <? len) eqn:E;
    try (apply Z.ltb_ge in E; eexists; eexists; split; [reflexivity|];
         split; [reflexivity|]; intros (k & Hk & _); lia).
  - apply Z.ltb_lt in E. lia.
  - apply Z.ltb_lt in E. unfold INT_MAX in *.
    assert (Hc : to_uint (min_int (page_size chip) (to_uint (len - i)))
                 = Z.min (page_size chip) (len - i)).
    { unfold min_int. rewrite (to_uint_id (len - i)) by (unfold UINT_MODULUS; lia).
      rewrite !to_int_id by (unfold INT_MAX; lia).
      apply to_uint_id. unfold UINT_MODULUS. lia. }
    rewrite Hc. set (chunksize := Z.min (page_size chip) (len - i)).
    assert (Hb : 0 < chunksize /\ i + chunksize <= len) by (unfold chunksize; lia).
    rewrite (to_uint_id (i + chunksize)) by (unfold UINT_MODULUS; lia).
    rewrite (to_uint_id (start + i)) by (unfold UINT_MODULUS; lia).
    unfold call_read, ideal_read. cbn [negb Z.eqb].
    rewrite no_access_check.
    set (data := firstn (Z.to_nat chunksize) (ptr_add (mem h) (start + i))).
    set (h1 := mkHw (mem h) (EvRead (start + i) chunksize data :: trace h)).
    pose proof (compare_range_equal (ptr_add cmpbuf i) data (start + i) chunksize)
      as Hsound.
    assert (Hbytes : forall k, 0 <= k < chunksize ->
              byte_at (ptr_add cmpbuf i) k = byte_at cmpbuf (i + k)
              /\ byte_at data k = byte_at (mem h) (start + (i + k))).
    { intros k Hk. split; [apply byte_at_ptr_add; lia|].
      unfold data. rewrite ideal_read_bytes by lia. f_equal. lia. }
    destruct (compare_range (ptr_add cmpbuf i) data (start + i) chunksize =? 0)
      eqn:C; cbn [negb].
    + apply Z.eqb_eq in C. specialize (Hsound C).
      destruct (IH h1 cmpbuf start len (i + chunksize) ret Hs ltac:(lia)
                   ltac:(unfold INT_MAX; lia) ltac:(lia))
        as (rc & h' & Hv & Hyes & Hno).
      exists rc, h'. split; [exact Hv|]. simpl in Hyes, Hno. split.
      * intros Hall. apply Hyes. intros k Hk. apply Hall. lia.
      * intros (k & Hk & Hne). apply Hno.
        destruct (Z.lt_ge_cases k (i + chunksize)) as [L|L].
        -- exfalso. apply Hne.
           destruct (Hbytes (k - i) ltac:(lia)) as (B1 & B2).
           replace (i + (k - i)) with k in B1, B2 by lia.
           rewrite <- B1, <- B2. apply Hsound. lia.
        -- exists k. split; [lia|assumption].
    + exists (-1), h1. split; [reflexivity|]. split; [|reflexivity].
      intros Hall. exfalso.
      assert (Z0 : compare_range (ptr_add cmpbuf i) data (start + i) chunksize = 0).
      { unfold compare_range.
        assert (F : fold_left
                      (fun failcount k =>
                         if byte_at (ptr_add cmpbuf i) k =? byte_at data k
                         then failcount else failcount + 1)
                      (zrange 0 chunksize) 0 = 0).
        { apply (fold_left_inv Z Z (fun fc => fc = 0)); [reflexivity|].
          intros fc k Hk ->. apply zrange_In in Hk.
          destruct (Hbytes k Hk) as (B1 & B2). rewrite B1, B2.
          rewrite (proj2 (Z.eqb_eq _ _) (Hall (i + k) ltac:(lia))).
          reflexivity. }
        rewrite F. reflexivity. }
      rewrite Z0 in C. discriminate.
Qed.

End IdealRead.

Lemma bytes_agree_dec : forall (f g : Z -> Z) lo hi,
  (forall k, lo <= k < hi -> f k = g k)
  \/ (exists k, lo <= k < hi /\ f k <> g k).
Proof.
  intros f g lo hi.
  destruct (existsb (fun k => negb (f k =? g k)) (zrange lo hi)) eqn:E.
  - right. apply existsb_zrange in E. destruct E as (k & Hk & Hne).
    exists k. split; [assumption|]. apply negb_true_iff in Hne.
    apply Z.eqb_neq. assumption.
  - left. intros k Hk. destruct (f k =? g k) eqn:Ek;
      [apply Z.eqb_eq; assumption|].
    assert (T : existsb (fun k => negb (f k =? g k)) (zrange lo hi) = true).
    { apply existsb_zrange. exists k. split; [assumption|].
      rewrite Ek. reflexivity. }
    congruence.
Qed.

(** [verify_range] over an ideal read, for a range within the chip: it
    returns, the array is as before, and the value is 0 when the range holds
    the bytes of [cmpbuf] and -1 when it does not. *)
Lemma verify_range_ideal : forall p chip h cmpbuf start len,
  chip_read chip = Some ideal_read ->
  check_access chip = None ->
  0 < page_size chip <= INT_MAX ->
  0 <= start -> 0 < len ->
  start + len <= to_uint (total_size chip * 1024) ->
  to_uint (total_size chip * 1024) <= INT_MAX ->
  exists rc h',
    verify_range p chip h cmpbuf start len = Some (rc, h')
    /\ mem h' = mem h
    /\ (rc = 0 \/ rc = -1)
    /\ (rc = 0
        <-> forall k, 0 <= k < len ->
              byte_at cmpbuf k = byte_at (mem h) (start + k)).
Proof.
  intros p chip h cmpbuf start len Hr Ha Hp Hs Hl Hin Hmax.
  assert (Hsome : exists rc h',
            verify_range p chip h cmpbuf start len = Some (rc, h')
            /\ ((forall k, 0 <= k < len ->
                   byte_at cmpbuf k = byte_at (mem h) (start + k)) -> rc = 0)
            /\ ((exists k, 0 <= k < len
                   /\ byte_at cmpbuf k <> byte_at (mem h) (start + k)) -> rc = -1)).
  { unfold verify_range.
    destruct (len =? 0) eqn:E; [apply Z.eqb_eq in E; lia|].
    rewrite Hr.
    assert (E2 : to_uint (start + len) = start + len)
      by (apply to_uint_id; unfold UINT_MODULUS, INT_MAX in *; lia).
    rewrite E2.
    destruct (_ <? _) eqn:E3; [apply Z.ltb_lt in E3; lia|].
    destruct (paranoid p).
    - apply (verify_chunks_ideal p chip Ha Hp); try lia.
    - unfold call_read, ideal_read. cbn [negb Z.eqb andb].
      pose proof (compare_range_equal cmpbuf
                    (firstn (Z.to_nat len) (ptr_add (mem h) start)) start len)
        as Hsound.
      destruct (compare_range cmpbuf
                  (firstn (Z.to_nat len) (ptr_add (mem h) start)) start len =? 0)
        eqn:C; cbn [negb]; eexists; eexists; (split; [reflexivity|]).
      + apply Z.eqb_eq in C. specialize (Hsound C).
        split; [reflexivity|]. intros (k & Hk & Hne). exfalso. apply Hne.
        rewrite (Hsound k Hk). apply ideal_read_bytes; lia.
      + split; [|reflexivity]. intros Hall. exfalso.
        assert (Z0 : compare_range cmpbuf
                       (firstn (Z.to_nat len) (ptr_add (mem h) start)) start len
                     = 0).
        { unfold compare_range.
          assert (F : fold_left
                        (fun failcount k =>
                           if byte_at cmpbuf k
                              =? byte_at (firstn (Z.to_nat len)
                                                 (ptr_add (mem h) start)) k
                           then failcount else failcount + 1)
                        (zrange 0 len) 0 = 0).
          { apply (fold_left_inv Z Z (fun fc => fc = 0)); [reflexivity|].
            intros fc k Hk ->. apply zrange_In in Hk.
            rewrite ideal_read_bytes by lia.
            rewrite (proj2 (Z.eqb_eq _ _) (Hall k Hk)). reflexivity. }
          rewrite F. reflexivity. }
        rewrite Z0 in C. discriminate. }
  destruct Hsome as (rc & h' & Hv & Hyes & Hno).
  exists rc, h'. split; [assumption|].
  destruct (verify_range_ideal_mem p chip _ _ _ _ _ _ Hr Hv) as (Hm & Hrc).
  split; [assumption|]. split; [assumption|]. split; [|assumption].
  intros H0.
  destruct (bytes_agree_dec (byte_at cmpbuf)
              (fun k => byte_at (mem h) (start + k)) 0 len) as [Hall|Hex];
    [assumption|].
  apply Hno in Hex. lia.
Qed.

(** X11.  With a master whose reads return what the array holds, and no
    access check, [verify_range] on a range within the chip returns 0 when
    the range holds the bytes of [cmpbuf] and -1 when it does not, and it
    leaves the array as it was; this holds for the single read and for the
    reading page by page of a paranoid programmer alike. *)
Theorem verify_range_sound_and_complete : forall p chip h cmpbuf start len,
  chip_read chip = Some ideal_read ->
  check_access chip = None ->
  0 < page_size chip <= INT_MAX ->
  0 <= start -> 0 < len ->
  start + len <= to_uint (total_size chip * 1024) ->
  to_uint (total_size chip * 1024) <= INT_MAX ->
  exists rc h',
    verify_range p chip h cmpbuf start len = Some (rc, h')
    /\ mem h' = mem h
    /\ (rc = 0 \/ rc = -1)
    /\ (rc = 0
        <-> forall k, 0 <= k < len ->
              byte_at cmpbuf k = byte_at (mem h) (start + k)).
Proof.
  exact verify_range_ideal.
Qed.

Lemma verify_range_sound_and_complete_witness :
  exists rc h',
    verify_range paranoid_programmer twin_chip (mkHw before_image [])
                 (ptr_add after_image 512) 512 512 = Some (rc, h')
    /\ mem h' = mem (mkHw before_image [])
    /\ (rc = 0 \/ rc = -1)
    /\ (rc = 0
        <-> forall k, 0 <= k < 512 ->
              byte_at (ptr_add after_image 512) k
              = byte_at (mem (mkHw before_image [])) (512 + k)).
Proof.
  apply (verify_range_sound_and_complete paranoid_programmer twin_chip
           (mkHw before_image []) (ptr_add after_image 512) 512 512).
  - reflexivity.
  - reflexivity.
  - simpl. unfold INT_MAX. lia.
  - lia.
  - lia.
  - vm_compute. discriminate.
  - vm_compute. discriminate.
Defined.

(** X12.  Under the same conditions [check_erased_range] returns 0 when
    every byte of the range holds the erased value of the chip, and -1 when
    some byte does not. *)
Theorem check_erased_range_ideal_read : forall p chip h start len,
  chip_read chip = Some ideal_read ->
  check_access chip = None ->
  0 < page_size chip <= INT_MAX ->
  0 <= start -> 0 < len ->
  start + len <= to_uint (total_size chip * 1024) ->
  to_uint (total_size chip * 1024) <= INT_MAX ->
  exists rc h',
    check_erased_range p chip h start len = Some (rc, h')
    /\ mem h' = mem h
    /\ (rc = 0 \/ rc = -1)
    /\ (rc = 0
        <-> forall a, start <= a < start + len ->
              byte_at (mem h) a = ERASED_VALUE chip).
Proof.
  intros p chip h start len Hr Ha Hp Hs Hl Hin Hmax.
  unfold check_erased_range.
  destruct (verify_range_ideal p chip h
              (repeat (ERASED_VALUE chip) (Z.to_nat len)) start len
              Hr Ha Hp Hs Hl Hin Hmax) as (rc & h' & Hv & Hm & Hrc & Hiff).
  exists rc, h'. split; [assumption|]. split; [assumption|].
  split; [assumption|].
  assert (Hrep : forall k, 0 <= k < len ->
            byte_at (repeat (ERASED_VALUE chip) (Z.to_nat len)) k
            = ERASED_VALUE chip).
  { intros k Hk. rewrite byte_at_nth by lia. apply nth_repeat_lt. lia. }
  rewrite Hiff. split.
  - intros H a Ha'. specialize (H (a - start) ltac:(lia)).
    rewrite Hrep in H by lia.
    replace (start + (a - start)) with a in H by lia. symmetry. assumption.
  - intros H k Hk. rewrite Hrep by assumption. symmetry. apply H. lia.
Qed.

Lemma check_erased_range_ideal_read_witness :
  exists rc h',
    check_erased_range paranoid_programmer twin_chip (mkHw before_image [])
                       512 512 = Some (rc, h')
    /\ mem h' = mem (mkHw before_image [])
    /\ (rc = 0 \/ rc = -1)
    /\ (rc = 0
        <-> forall a, 512 <= a < 512 + 512 ->
              byte_at (mem (mkHw before_image [])) a = ERASED_VALUE twin_chip).
Proof.
  apply (check_erased_range_ideal_read paranoid_programmer twin_chip
           (mkHw before_image []) 512 512).
  - reflexivity.
  - reflexivity.
  - simpl. unfold INT_MAX. lia.
  - lia.
  - lia.
  - vm_compute. discriminate.
  - vm_compute. discriminate.
Defined.

(** ** The executor behind an ideal master *)

Lemma chunks_equal_bytes : forall have want stride n,
  0 < stride -> 0 <= n ->
  (forall j, 0 <= j < n -> chunk_equal have want stride j) ->
  forall k, 0 <= k < n * stride -> byte_at have k = byte_at want k.
Proof.
  intros have want stride n Hst Hn Hall k Hk. apply (Hall (k / stride)).
  - split; [apply Z.div_pos; lia|]. apply Z.div_lt_upper_bound; lia.
  - pose proof (Z.mul_div_le k stride Hst).
    pose proof (Z.mul_succ_div_gt k stride Hst). lia.
Qed.

Lemma write_flash_ideal : forall chip h buf start len,
  chip_write chip = Some ideal_write ->
  write_flash chip h buf start len
  = (0, mkHw (memcpy (mem h) start buf len) (EvWrite start len :: trace h)).
Proof.
  intros chip h buf start len Hw. unfold write_flash. rewrite Hw. reflexivity.
Qed.

Section IdealChip.

Variable p : programmer_state.
Variable chip : flashchip.

Hypothesis ideal_write_fn : chip_write chip = Some ideal_write.
Hypothesis ideal_read_fn : chip_read chip = Some ideal_read.

Variable start len : Z.
Variable cur new : list Z.

Hypothesis start_ok : 0 <= start.
Hypothesis len_ok : 0 <= len.
Hypothesis whole_chunks : (stride_of (gran chip) | len).

(** The loop that writes the runs of a block: what was written is what
    [new] holds, what was stepped over held it already, and nothing outside
    the block is touched. *)
Lemma write_runs_ideal : forall fuel h erased starthere rc h',
  start + len <= Z.of_nat (length (mem h)) ->
  Z.of_nat (length (mem h)) <= INT_MAX ->
  0 <= starthere <= len ->
  (stride_of (gran chip) | starthere) ->
  (forall k, 0 <= k < starthere ->
     byte_at (mem h) (start + k) = byte_at new k) ->
  (forall k, starthere <= k < len ->
     byte_at (mem h) (start + k) = byte_at cur k
     \/ byte_at (mem h) (start + k) = byte_at new k) ->
  write_runs fuel p chip h start len cur new erased starthere 0 = Some (rc, h') ->
  (rc = 0 \/ rc = -1)
  /\ length (mem h') = length (mem h)
  /\ (forall a, ~ start <= a < start + len ->
        byte_at (mem h') a = byte_at (mem h) a)
  /\ (rc = 0 ->
      forall k, 0 <= k < len -> byte_at (mem h') (start + k) = byte_at new k).
Proof.
  pose proof (stride_of_pos (gran chip)) as Hst.
  set (stride := stride_of (gran chip)) in *.
  induction fuel as [|fuel IH]; intros h erased starthere rc h'
                                       Hmem Hmax Hsh Hdiv Hdone Hrest H;
    rewrite write_runs_unfold in H;
    destruct (get_next_write _ _ _ _ _) as [lenhere starthere'] eqn:G;
    unfold INT_MAX in *;
    rewrite (to_uint_id (len - starthere)) in G by (unfold UINT_MODULUS; lia);
    apply get_next_write_spec in G; try (unfold INT_MAX; lia);
    simpl in G; fold stride in G;
    (assert (Hq : (len - starthere) / stride * stride = len - starthere);
     [destruct whole_chunks as (a & Ha); destruct Hdiv as (b & Hb);
      replace (len - starthere) with ((a - b) * stride) by lia;
      rewrite Z.div_mul by lia; reflexivity|]);
    (assert (Hq0 : 0 <= (len - starthere) / stride);
     [apply Z.div_pos; lia|]);
    (assert (Hshift : forall k, 0 <= k ->
               byte_at (ptr_add cur starthere) k = byte_at cur (starthere + k)
               /\ byte_at (ptr_add new starthere) k = byte_at new (starthere + k));
     [intros k Hk; split; apply byte_at_ptr_add; lia|]);
    (destruct G as [(H0 & Hall)
                   |(f & i & Hs & Hlen & Hfi & Hi & Hbefore & Hrun & Hend)];
     [subst lenhere; simpl in H; inversion H; subst rc h';
      split; [left; reflexivity|]; split; [reflexivity|];
      split; [intros; reflexivity|]; intros _ k Hk;
      destruct (Z.lt_ge_cases k starthere) as [L|L]; [apply Hdone; lia|];
      pose proof (chunks_equal_bytes _ _ _ _ Hst Hq0 Hall (k - starthere)
                    ltac:(lia)) as Heq;
      destruct (Hshift (k - starthere) ltac:(lia)) as (S1 & S2);
      rewrite S1, S2 in Heq;
      replace (starthere + (k - starthere)) with k in Heq by lia;
      destruct (Hrest k ltac:(lia)) as [R|R]; congruence|]).
  - assert (Hne : (lenhere =? 0) = false) by (apply Z.eqb_neq; nia).
    rewrite Hne in H. discriminate.
  - assert (Hne : (lenhere =? 0) = false) by (apply Z.eqb_neq; nia).
    rewrite Hne in H.
    assert (Hend' : i * stride <= len - starthere) by nia.
    rewrite (to_uint_id (start + starthere')) in H by (unfold UINT_MODULUS; nia).
    rewrite (to_uint_id (starthere' + lenhere)) in H by (unfold UINT_MODULUS; nia).
    rewrite write_flash_ideal in H by assumption.
    cbn [negb Z.eqb] in H.
    set (m2 := memcpy (mem h) (start + starthere') (ptr_add new starthere') lenhere)
      in *.
    assert (Hlen2 : length m2 = length (mem h))
      by (apply length_memcpy; nia).
    assert (Hin2 : forall k, starthere' <= k < starthere' + lenhere ->
              byte_at m2 (start + k) = byte_at new k).
    { intros k Hk. unfold m2. rewrite byte_at_memcpy by nia.
      assert (C1 : (start + starthere' <=? start + k) = true)
        by (apply Z.leb_le; lia).
      assert (C2 : (start + k <? start + starthere' + lenhere) = true)
        by (apply Z.ltb_lt; lia).
      rewrite C1, C2. simpl. rewrite byte_at_ptr_add by nia. f_equal. lia. }
    assert (Hout2 : forall a,
              ~ start + starthere' <= a < start + starthere' + lenhere ->
              byte_at m2 a = byte_at (mem h) a).
    { intros a Ha. unfold m2. rewrite byte_at_memcpy by nia.
      destruct (start + starthere' <=? a) eqn:C1; [|reflexivity].
      destruct (a <? start + starthere' + lenhere) eqn:C2; [|reflexivity].
      apply Z.leb_le in C1. apply Z.ltb_lt in C2. lia. }
    assert (Hnext : forall h2 rc h',
              mem h2 = m2 ->
              write_runs fuel p chip h2 start len cur new erased
                         (starthere' + lenhere) 0 = Some (rc, h') ->
              (rc = 0 \/ rc = -1)
              /\ length (mem h') = length (mem h)
              /\ (forall a, ~ start <= a < start + len ->
                    byte_at (mem h') a = byte_at (mem h) a)
              /\ (rc = 0 ->
                  forall k, 0 <= k < len ->
                    byte_at (mem h') (start + k) = byte_at new k)).
    { intros h2 rc2 h2' Hm2 W.
      apply IH in W.
      - destruct W as (W1 & W2 & W3 & W4).
        split; [assumption|]. split; [rewrite W2, Hm2; assumption|].
        split; [|assumption].
        intros a Ha. rewrite (W3 a Ha), Hm2. apply Hout2. nia.
      - rewrite Hm2, Hlen2. assumption.
      - rewrite Hm2, Hlen2. unfold INT_MAX. assumption.
      - nia.
      - destruct Hdiv as (b & Hb). exists (b + f + (i - f)). nia.
      - intros k Hk. rewrite Hm2.
        destruct (Z.lt_ge_cases k starthere') as [L|L].
        + rewrite Hout2 by lia.
          destruct (Z.lt_ge_cases k starthere) as [L2|L2]; [apply Hdone; lia|].
          pose proof (chunks_equal_bytes _ _ _ _ Hst (proj1 Hfi) Hbefore
                        (k - starthere) ltac:(nia)) as Heq.
          destruct (Hshift (k - starthere) ltac:(lia)) as (S1 & S2).
          rewrite S1, S2 in Heq.
          replace (starthere + (k - starthere)) with k in Heq by lia.
          destruct (Hrest k ltac:(nia)) as [R|R]; congruence.
        + apply Hin2. lia.
      - intros k Hk. rewrite Hm2. rewrite Hout2 by lia. apply Hrest. nia. }
    destruct (paranoid p && negb erased)%bool.
    + destruct (verify_range p chip _ _ _ _) as [[failed h2]|] eqn:V;
        [|discriminate].
      apply verify_range_ideal_mem in V; [|assumption].
      destruct V as (Vm & Vrc). simpl in Vm.
      destruct (negb (failed =? 0)).
      * inversion H; subst rc h'.
        split; [right; reflexivity|]. split; [rewrite Vm; assumption|].
        split; [|intros; discriminate].
        intros a Ha. rewrite Vm. apply Hout2. nia.
      * apply (Hnext h2 rc h' Vm H).
    + eapply Hnext; [|exact H]. reflexivity.
Qed.

End IdealChip.

(** The processing of one block behind an ideal master: the return value is
    0 or -1, nothing outside the block changes in the array or in the
    buffer [curcontents], and on success the block holds the new
    contents.  The array may hold the new contents already where it does
    not hold what [curcontents] says. *)
Lemma helper_ideal : forall p chip h start len curcontents newcontents rc h'
    curcontents',
  chip_write chip = Some ideal_write ->
  chip_read chip = Some ideal_read ->
  0 <= start -> 0 <= len ->
  (stride_of (gran chip) | len) ->
  start + len <= Z.of_nat (length (mem h)) ->
  Z.of_nat (length (mem h)) <= INT_MAX ->
  start + len <= Z.of_nat (length curcontents) ->
  (forall a, start <= a < start + len ->
     byte_at (mem h) a = byte_at curcontents a
     \/ byte_at (mem h) a = byte_at newcontents a) ->
  erase_and_write_block_helper p chip h start len curcontents newcontents
    (ideal_erase (ERASED_VALUE chip)) = Some (rc, h', curcontents') ->
  (rc = 0 \/ rc = -1)
  /\ length (mem h') = length (mem h)
  /\ length curcontents' = length curcontents
  /\ (forall a, ~ start <= a < start + len ->
        byte_at (mem h') a = byte_at (mem h) a
        /\ byte_at curcontents' a = byte_at curcontents a)
  /\ (rc = 0 ->
      forall a, start <= a < start + len ->
        byte_at (mem h') a = byte_at newcontents a).
Proof.
  intros p chip h start len curcontents newcontents rc h' curcontents'
         Hw Hr Hs Hl Hdiv Hmem Hmax Hcur Hinv H.
  unfold erase_and_write_block_helper in H.
  assert (Hruns : forall h2 cur2 erased rc2 h2',
            length (mem h2) = length (mem h) ->
            (forall a, start <= a < start + len ->
               byte_at (mem h2) a = byte_at cur2 a
               \/ byte_at (mem h2) a = byte_at newcontents a) ->
            write_runs (S (Z.to_nat len)) p chip h2 start len
                       (ptr_add cur2 start) (ptr_add newcontents start)
                       erased 0 0 = Some (rc2, h2') ->
            (rc2 = 0 \/ rc2 = -1)
            /\ length (mem h2') = length (mem h)
            /\ (forall a, ~ start <= a < start + len ->
                  byte_at (mem h2') a = byte_at (mem h2) a)
            /\ (rc2 = 0 ->
                forall a, start <= a < start + len ->
                  byte_at (mem h2') a = byte_at newcontents a)).
  { intros h2 cur2 erased rc2 h2' Hlen2 Hinv2 W.
    apply (write_runs_ideal p chip Hw Hr start len _ _ Hs Hl Hdiv) in W.
    - destruct W as (W1 & W2 & W3 & W4).
      split; [assumption|]. split; [congruence|]. split; [assumption|].
      intros H0 a Ha. specialize (W4 H0 (a - start) ltac:(lia)).
      rewrite byte_at_ptr_add in W4 by lia.
      replace (start + (a - start)) with a in W4 by lia. assumption.
    - rewrite Hlen2. assumption.
    - rewrite Hlen2. assumption.
    - lia.
    - exists 0. lia.
    - intros k Hk. lia.
    - intros k Hk. rewrite !byte_at_ptr_add by lia. apply Hinv2. lia. }
  destruct (negb (need_erase _ _ _ _ _ =? 0)).
  - unfold call_erase, ideal_erase in H. cbn [negb Z.eqb] in H.
    set (ev := ERASED_VALUE chip) in *.
    set (h1 := mkHw (memset (mem h) start ev len) (EvErase start len :: trace h))
      in *.
    assert (Hlen1 : length (mem h1) = length (mem h))
      by (apply length_memset; lia).
    assert (Hout1 : forall a, ~ start <= a < start + len ->
              byte_at (mem h1) a = byte_at (mem h) a).
    { intros a Ha. simpl. rewrite byte_at_memset by lia.
      destruct (start <=? a) eqn:C1; [|reflexivity].
      destruct (a <? start + len) eqn:C2; [|reflexivity].
      apply Z.leb_le in C1. apply Z.ltb_lt in C2. lia. }
    assert (Hin1 : forall buf a, start + len <= Z.of_nat (length buf) ->
              start <= a < start + len ->
              byte_at (memset buf start ev len) a = ev).
    { intros buf a Hb Ha. rewrite byte_at_memset by lia.
      assert (C1 : (start <=? a) = true) by (apply Z.leb_le; lia).
      assert (C2 : (a <? start + len) = true) by (apply Z.ltb_lt; lia).
      rewrite C1, C2. reflexivity. }
    assert (Hcur1 : forall a, ~ start <= a < start + len ->
              byte_at (memset curcontents start ev len) a = byte_at curcontents a).
    { intros a Ha. rewrite byte_at_memset by lia.
      destruct (start <=? a) eqn:C1; [|reflexivity].
      destruct (a <? start + len) eqn:C2; [|reflexivity].
      apply Z.leb_le in C1. apply Z.ltb_lt in C2. lia. }
    assert (Hchecked : forall h2 failed,
              (if paranoid p then check_erased_range p chip h1 start len
               else Some (0, h1)) = Some (failed, h2) ->
              mem h2 = mem h1).
    { intros h2 failed C. destruct (paranoid p).
      - unfold check_erased_range in C.
        apply verify_range_ideal_mem in C; [|assumption]. apply C.
      - inversion C. reflexivity. }
    destruct (if paranoid p then check_erased_range p chip h1 start len
              else Some (0, h1)) as [[failed h2]|] eqn:C; [|discriminate].
    specialize (Hchecked h2 failed eq_refl).
    destruct (negb (failed =? 0)).
    + inversion H; subst rc h' curcontents'.
      split; [right; reflexivity|]. split; [congruence|].
      split; [reflexivity|]. split; [|intros; discriminate].
      intros a Ha. split; [|reflexivity]. rewrite Hchecked. apply Hout1.
      assumption.
    + destruct (write_runs _ _ _ _ _ _ _ _ _ _ _) as [[rc2 h2']|] eqn:W;
        [|discriminate].
      inversion H; subst rc h' curcontents'. clear H.
      apply Hruns in W.
      * destruct W as (W1 & W2 & W3 & W4).
        split; [assumption|]. split; [assumption|].
        split; [apply length_memset; lia|]. split; [|assumption].
        intros a Ha. split; [|apply Hcur1; assumption].
        rewrite (W3 a Ha), Hchecked. apply Hout1. assumption.
      * congruence.
      * intros a Ha. left. rewrite Hchecked. simpl.
        rewrite !Hin1 by lia. reflexivity.
  - destruct (write_runs _ _ _ _ _ _ _ _ _ _ _) as [[rc2 h2']|] eqn:W;
      [|discriminate].
    inversion H; subst rc h' curcontents'. clear H.
    apply Hruns in W; [|reflexivity|assumption].
    destruct W as (W1 & W2 & W3 & W4).
    split; [assumption|]. split; [assumption|]. split; [reflexivity|].
    split; [|assumption].
    intros a Ha. split; [apply W3; assumption|reflexivity].
Qed.

(** The blocks of one unit, from [base] on, behind an ideal master. *)
Lemma walk_unit_ideal : forall p chip n pu newc top fuel h base oldc stop rc h'
    oldc',
  chip_write chip = Some ideal_write ->
  chip_read chip = Some ideal_read ->
  n <= INT_MAX ->
  unit_fits chip n pu ->
  top = offset pu + num_blocks pu * unit_block_size pu ->
  (exists j, 0 <= j /\ base = top - j * unit_block_size pu) ->
  offset pu <= base ->
  Z.of_nat (length (mem h)) = n ->
  Z.of_nat (length oldc) = n ->
  (forall a, byte_at (mem h) a = byte_at oldc a
             \/ byte_at (mem h) a = byte_at newc a) ->
  walk_unit fuel p chip h pu base top oldc newc 0 = Some (stop, rc, h', oldc') ->
  Z.of_nat (length (mem h')) = n
  /\ Z.of_nat (length oldc') = n
  /\ (forall a, ~ base <= a < top -> byte_at (mem h') a = byte_at (mem h) a)
  /\ (if stop then rc = -1
      else rc = 0
           /\ (forall a, base <= a < top -> byte_at (mem h') a = byte_at newc a)
           /\ (forall a, byte_at (mem h') a = byte_at oldc' a
                         \/ byte_at (mem h') a = byte_at newc a)).
Proof.
  intros p chip n pu newc top fuel.
  induction fuel as [|fuel IH]; intros h base oldc stop rc h' oldc'
                                       Hw Hr Hmax Hfit Htop Hj Hbase Hlm Hlo Hinv H;
    simpl in H; destruct (base <? top) eqn:E; try discriminate;
    try (apply Z.ltb_ge in E; inversion H; subst stop rc h' oldc';
         split; [assumption|]; split; [assumption|];
         split; [intros; reflexivity|];
         split; [reflexivity|]; split; [intros; lia|assumption]).
  apply Z.ltb_lt in E.
  destruct Hfit as (F1 & F2 & F3 & F4 & F5 & F6).
  destruct Hj as (j & Hj0 & Hj).
  assert (Hj1 : 1 <= j) by nia.
  set (bs := unit_block_size pu) in *.
  assert (Hstep : base + bs <= top) by nia.
  rewrite F6 in H. cbn [do_something] in H. unfold INT_MAX in *.
  rewrite (to_uint_id bs) in H by (unfold UINT_MODULUS; nia).
  rewrite (to_uint_id (base + bs)) in H by (unfold UINT_MODULUS; nia).
  destruct (erase_and_write_block_helper p chip h base bs oldc newc
              (ideal_erase (ERASED_VALUE chip))) as [[[rc1 h1] old1]|] eqn:B;
    [|discriminate].
  apply helper_ideal in B; try assumption; try (unfold INT_MAX; nia).
  2:{ intros a _. apply Hinv. }
  destruct B as (B1 & B2 & B3 & B4 & B5).
  destruct B1 as [->| ->].
  - cbn [negb Z.eqb andb] in H.
    assert (Hinv1 : forall a, byte_at (mem h1) a = byte_at old1 a
                              \/ byte_at (mem h1) a = byte_at newc a).
    { intros a. destruct (Z.lt_ge_cases a base) as [L|L];
        [|destruct (Z.lt_ge_cases a (base + bs)) as [L2|L2]].
      - destruct (B4 a ltac:(lia)) as (-> & ->). apply Hinv.
      - right. apply B5; [reflexivity|lia].
      - destruct (B4 a ltac:(lia)) as (-> & ->). apply Hinv. }
    assert (Hfit : unit_fits chip n pu) by (repeat split; assumption).
    assert (Hj' : exists j', 0 <= j' /\ base + bs = top - j' * unit_block_size pu).
    { exists (j - 1). split; [lia|]. fold bs. lia. }
    assert (Hb1 : offset pu <= base + bs) by lia.
    assert (Hlm1 : Z.of_nat (length (mem h1)) = n) by lia.
    assert (Hlo1 : Z.of_nat (length old1) = n) by lia.
    destruct (IH h1 (base + bs) old1 stop rc h' oldc' Hw Hr Hmax Hfit Htop Hj'
                 Hb1 Hlm1 Hlo1 Hinv1 H) as (H1 & H2 & H3 & H4).
    split; [assumption|]. split; [assumption|]. split.
    + intros a Ha. rewrite H3 by lia. apply B4. lia.
    + destruct stop; [assumption|].
      destruct H4 as (H4 & H5 & H6). split; [assumption|].
      split; [|assumption].
      intros a Ha. destruct (Z.lt_ge_cases a (base + bs)) as [L|L].
      * rewrite H3 by lia. apply B5; [reflexivity|lia].
      * apply H5. lia.
  - assert (Ei : ignore_error p (-1) = false) by reflexivity.
    rewrite Ei in H. cbn [negb Z.eqb andb] in H.
    inversion H; subst stop rc h' oldc'.
    split; [lia|]. split; [lia|]. split; [|reflexivity].
    intros a Ha. apply B4. nia.
Qed.

(** The units of a descriptor, one after the other, behind an ideal
    master. *)
Lemma walk_units_ideal : forall p chip n newc real h oldc rc h' oldc',
  chip_write chip = Some ideal_write ->
  chip_read chip = Some ideal_read ->
  n <= INT_MAX ->
  Forall (unit_fits chip n) real ->
  Z.of_nat (length (mem h)) = n ->
  Z.of_nat (length oldc) = n ->
  (forall a, byte_at (mem h) a = byte_at oldc a
             \/ byte_at (mem h) a = byte_at newc a) ->
  walk_units p chip h (real ++ [sentinel]) oldc newc 0 = Some (rc, h', oldc') ->
  (rc = 0 \/ rc = -1)
  /\ Z.of_nat (length (mem h')) = n
  /\ (forall a, ~ covered real a -> byte_at (mem h') a = byte_at (mem h) a)
  /\ (rc = 0 ->
      (forall a, covered real a -> byte_at (mem h') a = byte_at newc a)
      /\ (forall a, byte_at (mem h) a = byte_at newc a ->
                    byte_at (mem h') a = byte_at newc a)).
Proof.
  intros p chip n newc real.
  induction real as [|u real IH]; intros h oldc rc h' oldc' Hw Hr Hmax Hfit
                                         Hlm Hlo Hinv H.
  - simpl in H. inversion H; subst rc h' oldc'.
    split; [left; reflexivity|]. split; [assumption|].
    split; [intros; reflexivity|]. intros _.
    split; [|intros; assumption]. intros a (v & [] & _).
  - inversion Hfit as [|u' real' Hu Hreal]; subst u' real'.
    pose proof Hu as (F1 & F2 & F3 & F4 & F5 & F6).
    simpl in H.
    assert (E0 : (num_blocks u =? 0) = false) by (apply Z.eqb_neq; lia).
    rewrite E0 in H. unfold INT_MAX in *.
    rewrite (to_uint_id (offset u)) in H by (unfold UINT_MODULUS; nia).
    rewrite (to_uint_id (offset u + unit_block_size u * num_blocks u)) in H
      by (unfold UINT_MODULUS; nia).
    destruct (walk_unit (Z.to_nat (num_blocks u)) p chip h u (offset u)
                (offset u + unit_block_size u * num_blocks u) oldc newc 0)
      as [[[[stop rc1] h1] old1]|] eqn:W; [|discriminate].
    apply (walk_unit_ideal p chip n) in W; try assumption;
      try (unfold INT_MAX; lia).
    2:{ exists (num_blocks u). split; lia. }
    destruct W as (W1 & W2 & W3 & W4).
    assert (Hcov : forall a,
              offset u <= a < offset u + unit_block_size u * num_blocks u ->
              covered (u :: real) a).
    { intros a Ha. exists u. split; [left; reflexivity|]. unfold covers. lia. }
    assert (Hmono : forall a, covered real a -> covered (u :: real) a).
    { intros a (v & Hv & Hc). exists v. split; [right|]; assumption. }
    destruct stop.
    + inversion H; subst rc h' oldc'.
      split; [right; assumption|]. split; [assumption|].
      split; [|intros; lia].
      intros a Ha. apply W3. intros C. apply Ha, Hcov, C.
    + destruct W4 as (-> & W5 & W6).
      apply IH in H; try assumption; try (unfold INT_MAX; lia).
      destruct H as (H1 & H2 & H3 & H4).
      split; [assumption|]. split; [assumption|]. split.
      * intros a Ha. rewrite H3 by (intros C; apply Ha, Hmono, C).
        apply W3. intros C. apply Ha, Hcov, C.
      * intros H0. destruct (H4 H0) as (H5 & H6).
        assert (Hkeep : forall a, byte_at (mem h) a = byte_at newc a ->
                                  byte_at (mem h1) a = byte_at newc a).
        { intros a Ha.
          destruct (Z.lt_ge_cases a (offset u)) as [L|L];
            [rewrite W3 by lia; assumption|].
          destruct (Z.lt_ge_cases a (offset u + unit_block_size u * num_blocks u))
            as [L2|L2]; [apply W5; lia|rewrite W3 by lia; assumption]. }
        split.
        -- intros a (v & [<-|Hv] & Hc).
           ++ apply H6, W5. unfold covers in Hc. lia.
           ++ apply H5. exists v. split; assumption.
        -- intros a Ha. apply H6, Hkeep, Ha.
Qed.

(** X13.  Behind an ideal master, on a chip that holds the old image, the
    executor carries out any row of units that fit the chip: when it
    returns 0, every byte in the range of a unit holds the byte of the new
    image and every other byte of the chip is as it was. *)
Theorem executor_programs_units : forall p chip oldc newc real rc h' oldc',
  chip_write chip = Some ideal_write ->
  chip_read chip = Some ideal_read ->
  Z.of_nat (length oldc) <= INT_MAX ->
  Forall (unit_fits chip (Z.of_nat (length oldc))) real ->
  erase_and_write_flash p chip (mkHw oldc [])
    (mkDescriptor oldc newc (real ++ [sentinel])) = Some (rc, h', oldc') ->
  rc = 0 ->
  forall a,
    (covered real a -> byte_at (mem h') a = byte_at newc a)
    /\ (~ covered real a -> byte_at (mem h') a = byte_at oldc a).
Proof.
  intros p chip oldc newc real rc h' oldc' Hw Hr Hmax Hfit H H0 a.
  unfold erase_and_write_flash, walk_eraseregions in H. simpl in H.
  apply (walk_units_ideal p chip (Z.of_nat (length oldc))) in H;
    try assumption; try reflexivity.
  - destruct H as (_ & _ & H3 & H4). destruct (H4 H0) as (H5 & _).
    split; [apply H5|apply H3].
  - intros b. left. reflexivity.
Qed.

Lemma executor_programs_units_witness :
  (covered [mkUnit 0 256 2 1 0] 256 ->
   byte_at (mem (mkHw after_image
                   [EvWrite 256 256; EvErase 256 256;
                    EvWrite 0 256; EvErase 0 256])) 256
   = byte_at after_image 256)
  /\ (~ covered [mkUnit 0 256 2 1 0] 256 ->
      byte_at (mem (mkHw after_image
                      [EvWrite 256 256; EvErase 256 256;
                       EvWrite 0 256; EvErase 0 256])) 256
      = byte_at before_image 256).
Proof.
  apply (executor_programs_units plain_programmer twin_chip before_image
           after_image [mkUnit 0 256 2 1 0] 0
           (mkHw after_image
              [EvWrite 256 256; EvErase 256 256; EvWrite 0 256; EvErase 0 256])
           blank_image).
  - reflexivity.
  - reflexivity.
  - vm_compute. discriminate.
  - constructor; [|constructor].
    unfold unit_fits. simpl.
    split; [lia|]. split; [lia|]. split; [lia|]. split; [lia|].
    split; [exists 1; reflexivity|reflexivity].
  - vm_compute. reflexivity.
  - reflexivity.
Defined.

(** ** The executor succeeds behind an ideal master *)

Section IdealSuccess.

Variable p : programmer_state.
Variable chip : flashchip.

Hypothesis ideal_write_fn : chip_write chip = Some ideal_write.
Hypothesis ideal_read_fn : chip_read chip = Some ideal_read.
Hypothesis no_access_check : check_access chip = None.
Hypothesis page_size_ok : 0 < page_size chip <= INT_MAX.
Hypothesis chip_size_ok : to_uint (total_size chip * 1024) <= INT_MAX.

(** The loop that writes the runs of a block does not fail: what a
    paranoid programmer reads back is what was written. *)
Lemma write_runs_succeeds : forall fuel h start len cur new erased starthere
    rc h',
  0 <= start -> 0 <= starthere <= len ->
  start + len <= Z.of_nat (length (mem h)) ->
  Z.of_nat (length (mem h)) <= to_uint (total_size chip * 1024) ->
  write_runs fuel p chip h start len cur new erased starthere 0 = Some (rc, h') ->
  rc = 0.
Proof.
  induction fuel as [|fuel IH]; intros h start len cur new erased starthere rc h'
                                       Hs Hsh Hmem Hchip H;
    rewrite write_runs_unfold in H;
    destruct (get_next_write _ _ _ _ _) as [lenhere starthere'] eqn:G;
    (destruct (lenhere =? 0) eqn:E; [inversion H; reflexivity|]);
    [discriminate|].
  apply Z.eqb_neq in E. unfold INT_MAX in *.
  rewrite (to_uint_id (len - starthere)) in G by (unfold UINT_MODULUS; lia).
  apply get_next_write_bounds in G; try assumption; unfold INT_MAX; try lia.
  destruct G as (G1 & G2 & G3).
  rewrite (to_uint_id (start + starthere')) in H by (unfold UINT_MODULUS; lia).
  rewrite (to_uint_id (starthere' + lenhere)) in H by (unfold UINT_MODULUS; lia).
  rewrite write_flash_ideal in H by assumption.
  cbn [negb Z.eqb] in H.
  set (m2 := memcpy (mem h) (start + starthere') (ptr_add new starthere') lenhere)
    in *.
  assert (Hlen2 : length m2 = length (mem h)) by (apply length_memcpy; lia).
  assert (Hnext : forall h2,
            mem h2 = m2 ->
            write_runs fuel p chip h2 start len cur new erased
                       (starthere' + lenhere) 0 = Some (rc, h') ->
            rc = 0).
  { intros h2 Hm2 W. apply IH in W; try assumption; try lia.
    - rewrite Hm2, Hlen2. assumption.
    - rewrite Hm2, Hlen2. assumption. }
  destruct (paranoid p && negb erased)%bool.
  - set (h1 := mkHw m2 (EvWrite (start + starthere') lenhere :: trace h)) in *.
    destruct (verify_range_ideal p chip h1 (ptr_add new starthere')
                (start + starthere') lenhere ideal_read_fn no_access_check
                ltac:(unfold INT_MAX; lia) ltac:(lia) ltac:(lia)
                ltac:(simpl; lia) ltac:(unfold INT_MAX; lia))
      as (failed & h2 & V & Vm & _ & Viff).
    rewrite V in H.
    assert (F0 : failed = 0).
    { apply Viff. intros k Hk. simpl. unfold m2.
      rewrite byte_at_memcpy by lia.
      assert (C1 : (start + starthere' <=? start + starthere' + k) = true)
        by (apply Z.leb_le; lia).
      assert (C2 : (start + starthere' + k <? start + starthere' + lenhere) = true)
        by (apply Z.ltb_lt; lia).
      rewrite C1, C2. simpl. f_equal. lia. }
    subst failed. cbn [negb Z.eqb] in H.
    apply (Hnext h2 Vm H).
  - eapply Hnext; [|exact H]. reflexivity.
Qed.

(** The processing of a block returns 0. *)
Lemma helper_succeeds : forall h start len curcontents newcontents,
  0 <= start -> 0 < len ->
  start + len <= Z.of_nat (length (mem h)) ->
  Z.of_nat (length (mem h)) <= to_uint (total_size chip * 1024) ->
  exists h' curcontents',
    erase_and_write_block_helper p chip h start len curcontents newcontents
      (ideal_erase (ERASED_VALUE chip)) = Some (0, h', curcontents').
Proof.
  intros h start len curcontents newcontents Hs Hl Hmem Hchip.
  destruct (erase_and_write_block_helper_total p chip page_size_ok h start len
              curcontents newcontents (ideal_erase (ERASED_VALUE chip))
              Hs ltac:(lia) ltac:(lia)) as (rc & h' & cur' & H).
  exists h', cur'. rewrite H. f_equal. f_equal. f_equal.
  unfold erase_and_write_block_helper in H.
  assert (Hruns : forall h2 cur2 erased rc2 h2',
            length (mem h2) = length (mem h) ->
            write_runs (S (Z.to_nat len)) p chip h2 start len cur2
                       (ptr_add newcontents start) erased 0 0 = Some (rc2, h2') ->
            rc2 = 0).
  { intros h2 cur2 erased rc2 h2' Hlen2 W.
    apply write_runs_succeeds in W; try assumption; try lia;
      rewrite Hlen2; assumption. }
  destruct (negb (need_erase _ _ _ _ _ =? 0)).
  - unfold call_erase, ideal_erase in H. cbn [negb Z.eqb] in H.
    set (ev := ERASED_VALUE chip) in *.
    set (h1 := mkHw (memset (mem h) start ev len) (EvErase start len :: trace h))
      in *.
    assert (Hlen1 : length (mem h1) = length (mem h))
      by (apply length_memset; lia).
    destruct (check_erased_range p chip h1 start len) as [[failed h2]|] eqn:C.
    + pose proof C as C'. unfold check_erased_range in C'.
      destruct (verify_range_ideal p chip h1
                  (repeat (ERASED_VALUE chip) (Z.to_nat len)) start len
                  ideal_read_fn no_access_check page_size_ok Hs Hl
                  ltac:(lia) chip_size_ok)
        as (failed' & h2' & V & Vm & _ & Viff).
      assert (F0 : failed = 0).
      { rewrite V in C'. inversion C'; subst failed' h2'.
        apply Viff. intros k Hk. simpl.
        rewrite byte_at_memset by lia.
        assert (C1 : (start <=? start + k) = true) by (apply Z.leb_le; lia).
        assert (C2 : (start + k <? start + len) = true) by (apply Z.ltb_lt; lia).
        rewrite C1, C2. simpl. rewrite byte_at_nth by lia.
        apply nth_repeat_lt. lia. }
      assert (Hm2 : mem h2 = mem h1).
      { rewrite V in C'. inversion C'; subst. assumption. }
      subst failed.
      destruct (paranoid p).
      * cbn [negb Z.eqb] in H.
        destruct (write_runs _ _ _ _ _ _ _ _ _ _ _) as [[rc2 h3]|] eqn:W;
          [|discriminate].
        inversion H; subst. eapply Hruns; [|exact W]. congruence.
      * cbn [negb Z.eqb] in H.
        destruct (write_runs _ _ _ _ _ _ _ _ _ _ _) as [[rc2 h3]|] eqn:W;
          [|discriminate].
        inversion H; subst. eapply Hruns; [|exact W]. assumption.
    + destruct (paranoid p); [discriminate|].
      cbn [negb Z.eqb] in H.
      destruct (write_runs _ _ _ _ _ _ _ _ _ _ _) as [[rc2 h3]|] eqn:W;
        [|discriminate].
      inversion H; subst. eapply Hruns; [|exact W]. assumption.
  - destruct (write_runs _ _ _ _ _ _ _ _ _ _ _) as [[rc2 h3]|] eqn:W;
      [|discriminate].
    inversion H; subst. eapply Hruns; [|exact W]. reflexivity.
Qed.

End IdealSuccess.

(** The blocks of a unit are gone through to the end. *)
Lemma walk_unit_succeeds : forall p chip n pu newc top,
  chip_write chip = Some ideal_write ->
  chip_read chip = Some ideal_read ->
  check_access chip = None ->
  0 < page_size chip <= INT_MAX ->
  n <= to_uint (total_size chip * 1024) ->
  to_uint (total_size chip * 1024) <= INT_MAX ->
  unit_fits chip n pu ->
  top = offset pu + num_blocks pu * unit_block_size pu ->
  forall fuel j h oldc,
    (Z.to_nat j <= fuel)%nat -> 0 <= j <= num_blocks pu ->
    Z.of_nat (length (mem h)) = n ->
    Z.of_nat (length oldc) = n ->
    (forall a, byte_at (mem h) a = byte_at oldc a
               \/ byte_at (mem h) a = byte_at newc a) ->
    exists h' oldc',
      walk_unit fuel p chip h pu (top - j * unit_block_size pu) top oldc newc 0
      = Some (false, 0, h', oldc').
Proof.
  intros p chip n pu newc top Hw Hr Ha Hp Hn Hmax Hfit Htop.
  pose proof Hfit as (F1 & F2 & F3 & F4 & F5 & F6).
  set (bs := unit_block_size pu) in *.
  induction fuel as [|fuel IH]; intros j h oldc Hf Hj Hlm Hlo Hinv.
  - assert (j = 0) by lia. subst j. simpl.
    destruct (_ <? top) eqn:E; [apply Z.ltb_lt in E; lia|].
    eexists; eexists; reflexivity.
  - simpl. destruct (top - j * bs <? top) eqn:E;
      [|eexists; eexists; reflexivity].
    apply Z.ltb_lt in E. assert (Hj1 : 1 <= j) by nia.
    set (base := top - j * bs) in *.
    assert (Hb : offset pu <= base /\ base + bs <= top) by (unfold base; nia).
    rewrite F6. cbn [do_something]. fold bs. unfold INT_MAX in *.
    rewrite (to_uint_id bs) by (unfold UINT_MODULUS; nia).
    rewrite (to_uint_id (base + bs)) by (unfold UINT_MODULUS; nia).
    destruct (helper_succeeds p chip Hw Hr Ha Hp Hmax h base bs oldc newc
                ltac:(lia) ltac:(lia) ltac:(lia) ltac:(lia)) as (h1 & old1 & B).
    rewrite B. cbn [negb Z.eqb andb].
    apply helper_ideal in B; try assumption; try (unfold INT_MAX; lia).
    2:{ intros a _. apply Hinv. }
    destruct B as (_ & B2 & B3 & B4 & B5).
    replace (base + bs) with (top - (j - 1) * bs) by (unfold base; lia).
    apply IH; try lia.
    intros a. destruct (Z.lt_ge_cases a base) as [L|L];
      [|destruct (Z.lt_ge_cases a (base + bs)) as [L2|L2]].
    + destruct (B4 a ltac:(lia)) as (-> & ->). apply Hinv.
    + right. apply B5; [reflexivity|lia].
    + destruct (B4 a ltac:(lia)) as (-> & ->). apply Hinv.
Qed.

(** The units of a descriptor are gone through to the end. *)
Lemma walk_units_succeeds : forall p chip n newc real h oldc,
  chip_write chip = Some ideal_write ->
  chip_read chip = Some ideal_read ->
  check_access chip = None ->
  0 < page_size chip <= INT_MAX ->
  n <= to_uint (total_size chip * 1024) ->
  to_uint (total_size chip * 1024) <= INT_MAX ->
  Forall (unit_fits chip n) real ->
  Z.of_nat (length (mem h)) = n ->
  Z.of_nat (length oldc) = n ->
  (forall a, byte_at (mem h) a = byte_at oldc a
             \/ byte_at (mem h) a = byte_at newc a) ->
  exists h' oldc',
    walk_units p chip h (real ++ [sentinel]) oldc newc 0 = Some (0, h', oldc').
Proof.
  intros p chip n newc real.
  induction real as [|u real IH]; intros h oldc Hw Hr Ha Hp Hn Hmax Hfit
                                         Hlm Hlo Hinv.
  - simpl. eexists; eexists; reflexivity.
  - inversion Hfit as [|u' real' Hu Hreal]; subst u' real'.
    pose proof Hu as (F1 & F2 & F3 & F4 & F5 & F6).
    simpl.
    assert (E0 : (num_blocks u =? 0) = false) by (apply Z.eqb_neq; lia).
    rewrite E0. unfold INT_MAX in *.
    rewrite (to_uint_id (offset u)) by (unfold UINT_MODULUS; nia).
    rewrite (to_uint_id (offset u + unit_block_size u * num_blocks u))
      by (unfold UINT_MODULUS; nia).
    set (top := offset u + unit_block_size u * num_blocks u).
    assert (Htop : top = offset u + num_blocks u * unit_block_size u)
      by (unfold top; lia).
    destruct (walk_unit_succeeds p chip n u newc top Hw Hr Ha Hp Hn Hmax Hu Htop
                (Z.to_nat (num_blocks u)) (num_blocks u) h oldc
                (Nat.le_refl _) ltac:(lia) Hlm Hlo Hinv) as (h1 & old1 & W).
    replace (top - num_blocks u * unit_block_size u) with (offset u) in W by lia.
    rewrite W.
    apply (walk_unit_ideal p chip n) in W; try assumption;
      try (unfold INT_MAX; lia).
    2:{ exists (num_blocks u). split; lia. }
    destruct W as (W1 & W2 & _ & _ & _ & W6).
    apply IH; assumption.
Qed.

(** X14.  Behind an ideal master, with no access check and a page size
    above 0, on a chip that holds the old image, the executor returns 0 for
    any row of units that fit the chip, whether the programmer is paranoid
    or not: every block is processed, every reading back agrees, and in the
    end every byte in the range of a unit holds the byte of the new image
    and every other byte of the chip is as it was. *)
Theorem executor_succeeds_on_ideal_master : forall p chip oldc newc real,
  chip_write chip = Some ideal_write ->
  chip_read chip = Some ideal_read ->
  check_access chip = None ->
  0 < page_size chip <= INT_MAX ->
  Z.of_nat (length oldc) <= to_uint (total_size chip * 1024) ->
  to_uint (total_size chip * 1024) <= INT_MAX ->
  Forall (unit_fits chip (Z.of_nat (length oldc))) real ->
  exists h' oldc',
    erase_and_write_flash p chip (mkHw oldc [])
      (mkDescriptor oldc newc (real ++ [sentinel])) = Some (0, h', oldc')
    /\ forall a,
         (covered real a -> byte_at (mem h') a = byte_at newc a)
         /\ (~ covered real a -> byte_at (mem h') a = byte_at oldc a).
Proof.
  intros p chip oldc newc real Hw Hr Ha Hp Hn Hmax Hfit.
  unfold erase_and_write_flash, walk_eraseregions. simpl.
  assert (Hinv : forall a, byte_at (mem (mkHw oldc [])) a = byte_at oldc a
                           \/ byte_at (mem (mkHw oldc [])) a = byte_at newc a)
    by (intros a; left; reflexivity).
  destruct (walk_units_succeeds p chip (Z.of_nat (length oldc)) newc real
              (mkHw oldc []) oldc Hw Hr Ha Hp Hn Hmax Hfit eq_refl eq_refl Hinv)
    as (h' & oldc' & W).
  exists h', oldc'. split; [assumption|].
  apply (walk_units_ideal p chip (Z.of_nat (length oldc))) in W;
    try assumption; try reflexivity; try lia.
  destruct W as (_ & _ & H3 & H4). destruct (H4 eq_refl) as (H5 & _).
  intros a. split; [apply H5|apply H3].
Qed.

Lemma executor_succeeds_on_ideal_master_witness :
  exists h' oldc',
    erase_and_write_flash paranoid_programmer twin_chip (mkHw before_image [])
      (mkDescriptor before_image after_image
         ([mkUnit 0 256 2 1 0] ++ [sentinel])) = Some (0, h', oldc')
    /\ forall a,
         (covered [mkUnit 0 256 2 1 0] a ->
          byte_at (mem h') a = byte_at after_image a)
         /\ (~ covered [mkUnit 0 256 2 1 0] a ->
             byte_at (mem h') a = byte_at before_image a).
Proof.
  apply (executor_succeeds_on_ideal_master paranoid_programmer twin_chip
           before_image after_image [mkUnit 0 256 2 1 0]).
  - reflexivity.
  - reflexivity.
  - reflexivity.
  - simpl. unfold INT_MAX. lia.
  - vm_compute. discriminate.
  - vm_compute. discriminate.
  - constructor; [|constructor].
    unfold unit_fits. simpl.
    split; [lia|]. split; [lia|]. split; [lia|]. split; [lia|].
    split; [exists 1; reflexivity|reflexivity].
Defined.

(** ** The plan carried out *)

(** On a chip whose erasers set a block to the erased value, with blocks
    made of whole chunks of the write granularity, the units of a descriptor
    from [prepare_action_descriptor] fit the chip. *)
Lemma prepared_units_fit : forall chip oldc newc descriptor,
  let chip_size := to_uint (total_size chip * 1024) in
  (forall k f, block_erase (eraser_at (block_erasers chip) k) = Some f ->
     f = ideal_erase (ERASED_VALUE chip)) ->
  (forall k n,
     qualifies (block_erasers chip) (max_modified oldc newc chip_size) k = Some n ->
     0 < size (region_at (block_erasers chip) k n)
     /\ (stride_of (gran chip) | size (region_at (block_erasers chip) k n))) ->
  prepare_action_descriptor chip oldc newc = Some descriptor ->
  oldcontents descriptor = oldc /\ newcontents descriptor = newc
  /\ exists real,
       processing_units descriptor = real ++ [sentinel]
       /\ Forall (unit_fits chip chip_size) real.
Proof.
  intros chip oldc newc descriptor chip_size Hideal Hsizes H.
  apply prepare_action_descriptor_some in H. fold chip_size in H.
  destruct H as (sorted & units & max_units & Hs & _ & Hf & _ & ->).
  simpl.
  split; [reflexivity|]. split; [reflexivity|].
  unfold fill_action_descriptor in Hf.
  destruct (plan_maps oldc newc sorted (block_erasers chip) chip_size
              (length sorted) (flash_erase_value chip)) as [maps|] eqn:Hplan;
    [|discriminate].
  assert (E : units = emit_units chip_size maps sorted) by congruence.
  subst units. clear Hf.
  destruct (plan_maps_fits _ _ _ _ _ _ _ Hplan) as (Hsz & Hfits & Hlen).
  assert (Hq : forall e, In e sorted ->
            0 < eraser_size (block_erasers chip) e
            /\ (stride_of (gran chip) | eraser_size (block_erasers chip) e)
            /\ block_erase (eraser_at (block_erasers chip) (eraser_index e))
               = Some (ideal_erase (ERASED_VALUE chip))).
  { intros e He.
    destruct (fill_sorted_erasers_qualify _ _ _ _ Hs He) as (_ & Q).
    destruct (Hsizes _ _ Q) as (S1 & S2).
    destruct (qualifies_some _ _ _ _ Q) as (Hfn & _).
    split; [assumption|]. split; [assumption|].
    destruct (block_erase (eraser_at (block_erasers chip) (eraser_index e)))
      as [f|] eqn:F; [|contradiction].
    rewrite (Hideal _ _ F). reflexivity. }
  unfold emit_units. eexists. split; [reflexivity|].
  apply Forall_forall. intros u Hu.
  pose proof (emit_levels_runs _ _ _ _ Hu)
    as (i & Hi & Hbs & s & Hoff & Hs0 & Hn & Hrun).
  assert (Hin : In u (emit_units chip_size maps sorted))
    by (unfold emit_units; apply in_or_app; left; assumption).
  apply emit_units_erasers in Hin.
  destruct Hin as [->|(i' & Hi' & Hi'' & Hbs' & He)]; [simpl in Hn; lia|].
  assert (Hin : In (mkEraser (block_eraser_index u) (block_region_index u)) sorted)
    by (rewrite He; apply nth_In; assumption).
  destruct (Hq _ Hin) as (Q1 & Q2 & Q3). simpl in Q3.
  assert (Hsize : eraser_size (block_erasers chip)
                    (mkEraser (block_eraser_index u) (block_region_index u))
                  = unit_block_size u).
  { rewrite Hbs', (has_sizes_block_size _ _ _ Hsz).
    rewrite (nth_indep _ 0 (eraser_size (block_erasers chip) (mkEraser 0 0)))
      by (rewrite length_map; assumption).
    rewrite map_nth, <- He. reflexivity. }
  rewrite Hsize in Q1, Q2.
  assert (Hlast : 0 <= s + num_blocks u - 1
                  < Z.of_nat (length (block_map (map_at maps i)))).
  { apply marked_in_range. intros C.
    specialize (Hrun (s + num_blocks u - 1)). rewrite C in Hrun.
    simpl in Hrun. assert (false = true) by (apply Hrun; lia). discriminate. }
  rewrite (Hfits i) in Hlast.
  rewrite <- Hbs in Hlast.
  pose proof (Z.mul_div_le chip_size _ Q1) as Hdiv.
  unfold unit_fits. rewrite <- Hbs in Hoff.
  split; [nia|]. split; [assumption|]. split; [assumption|].
  split; [nia|]. split; assumption.
Qed.

(** X15.  Planning and carrying out compose: on a chip that holds the old
    image behind an ideal master, whose erasers set a block to the erased
    value and whose blocks are made of whole chunks of the write
    granularity, the executor returns 0 for the descriptor of
    [prepare_action_descriptor]; in the end the bytes in the ranges of the
    units hold the new image and the others the old one, so that the chip
    holds the new image when the units cover the differences. *)
Theorem plan_is_carried_out : forall p chip oldc newc descriptor,
  let chip_size := to_uint (total_size chip * 1024) in
  chip_write chip = Some ideal_write ->
  chip_read chip = Some ideal_read ->
  check_access chip = None ->
  0 < page_size chip <= INT_MAX ->
  chip_size <= INT_MAX ->
  Z.of_nat (length oldc) = chip_size ->
  (forall k f, block_erase (eraser_at (block_erasers chip) k) = Some f ->
     f = ideal_erase (ERASED_VALUE chip)) ->
  (forall k n,
     qualifies (block_erasers chip) (max_modified oldc newc chip_size) k = Some n ->
     0 < size (region_at (block_erasers chip) k n)
     /\ (stride_of (gran chip) | size (region_at (block_erasers chip) k n))) ->
  prepare_action_descriptor chip oldc newc = Some descriptor ->
  exists m,
    plan_and_execute p chip oldc newc = Some (0, m)
    /\ (forall a,
          (covered (processing_units descriptor) a ->
           byte_at m a = byte_at newc a)
          /\ (~ covered (processing_units descriptor) a ->
              byte_at m a = byte_at oldc a))
    /\ (covers_differences oldc newc chip_size (processing_units descriptor) ->
        forall a, 0 <= a < chip_size -> byte_at m a = byte_at newc a).
Proof.
  intros p chip oldc newc descriptor chip_size Hw Hr Ha Hp Hmax Hlen Hideal
         Hsizes Hprep.
  destruct (prepared_units_fit chip oldc newc descriptor Hideal Hsizes Hprep)
    as (Ho & Hn & real & Hu & Hfit).
  fold chip_size in Hfit.
  unfold plan_and_execute. rewrite Hprep.
  destruct descriptor as [o n' units]. simpl in Ho, Hn, Hu. subst o n' units.
  simpl.
  assert (Hinv : forall a, byte_at (mem (mkHw oldc [])) a = byte_at oldc a
                           \/ byte_at (mem (mkHw oldc [])) a = byte_at newc a)
    by (intros a; left; reflexivity).
  assert (Hn : chip_size <= to_uint (total_size chip * 1024)) by (apply Z.le_refl).
  destruct (walk_units_succeeds p chip chip_size newc real (mkHw oldc []) oldc
              Hw Hr Ha Hp Hn Hmax Hfit Hlen Hlen Hinv) as (h' & oldc' & W).
  unfold erase_and_write_flash, walk_eraseregions. simpl. rewrite W.
  exists (mem h'). split; [reflexivity|].
  apply (walk_units_ideal p chip chip_size) in W; try assumption.
  destruct W as (_ & _ & H3 & H4). destruct (H4 eq_refl) as (H5 & H6).
  assert (Hcov : forall a, covered (real ++ [sentinel]) a <-> covered real a).
  { intros a. split.
    - intros (u & Hin & Hc). apply in_app_or in Hin.
      destruct Hin as [Hin|[<-|[]]]; [exists u; split; assumption|].
      unfold covers in Hc. simpl in Hc. lia.
    - intros (u & Hin & Hc). exists u. split; [|assumption].
      apply in_or_app. left. assumption. }
  split.
  - intros a. split.
    + intros C. apply H5, Hcov, C.
    + intros C. apply H3. intros C'. apply C, Hcov, C'.
  - intros Hall a Ha'.
    destruct (Z.eq_dec (byte_at oldc a) (byte_at newc a)) as [Heq|Hne].
    + apply H6. assumption.
    + apply H5, Hcov. apply Hall; assumption.
Qed.

Lemma plan_is_carried_out_witness :
  exists m,
    plan_and_execute paranoid_programmer twin_chip before_image after_image
    = Some (0, m)
    /\ (forall a,
          (covered [mkUnit 0 256 1 1 0; sentinel] a ->
           byte_at m a = byte_at after_image a)
          /\ (~ covered [mkUnit 0 256 1 1 0; sentinel] a ->
              byte_at m a = byte_at before_image a))
    /\ (covers_differences before_image after_image
          (to_uint (total_size twin_chip * 1024))
          [mkUnit 0 256 1 1 0; sentinel] ->
        forall a, 0 <= a < to_uint (total_size twin_chip * 1024) ->
          byte_at m a = byte_at after_image a).
Proof.
  apply (plan_is_carried_out paranoid_programmer twin_chip before_image
           after_image
           (mkDescriptor before_image after_image
              [mkUnit 0 256 1 1 0; sentinel])).
  - reflexivity.
  - reflexivity.
  - reflexivity.
  - simpl. unfold INT_MAX. lia.
  - vm_compute. discriminate.
  - reflexivity.
  - intros [|[|[|[|k]]]] f H; simpl in H; inversion H; reflexivity.
  - intros [|[|[|[|k]]]] n H; vm_compute in H; inversion H;
      (split; [reflexivity|]); simpl.
    + exists 1. reflexivity.
    + exists 1. reflexivity.
    + exists 4. reflexivity.
  - vm_compute. reflexivity.
Defined.

(** ** A block that needs nothing *)

(** X16.  A block in which the old image already holds the bytes of the new
    one is stepped over: [erase_and_write_block_helper] returns 0 and calls
    neither the erase function nor the write or read function of the chip,
    whatever those would do. *)
Theorem helper_skips_equal_block : forall p chip h start len curcontents
    newcontents erasefn,
  0 <= start -> 0 <= len <= INT_MAX ->
  (forall a, start <= a < start + len ->
     byte_at curcontents a = byte_at newcontents a) ->
  erase_and_write_block_helper p chip h start len curcontents newcontents erasefn
  = Some (0, h, curcontents).
Proof.
  intros p chip h start len curcontents newcontents erasefn Hs Hl Heq.
  assert (Hrel : forall k, 0 <= k < len ->
            byte_at (ptr_add curcontents start) k
            = byte_at (ptr_add newcontents start) k).
  { intros k Hk. rewrite !byte_at_ptr_add by lia. apply Heq. lia. }
  unfold erase_and_write_block_helper.
  rewrite (need_erase_equal _ _ _ (gran chip) 255 Hl Hrel).
  cbn [negb Z.eqb].
  rewrite write_runs_unfold.
  destruct (get_next_write _ _ _ _ _) as [lenhere starthere'] eqn:G.
  unfold INT_MAX in *.
  rewrite (to_uint_id (len - 0)) in G by (unfold UINT_MODULUS; lia).
  apply get_next_write_spec in G; try (unfold INT_MAX; lia).
  simpl in G.
  destruct G as [(-> & _)|(f & i & _ & _ & Hfi & Hi & _ & Hrun & _)];
    [reflexivity|].
  exfalso. apply (Hrun f); [lia|].
  intros k Hk.
  pose proof (stride_of_pos (gran chip)) as Hst.
  pose proof (Z.mul_div_le (len - 0) (stride_of (gran chip)) Hst) as Hmul.
  rewrite !(byte_at_ptr_add _ 0) by nia. simpl. apply Hrel. nia.
Qed.

Lemma helper_skips_equal_block_witness :
  erase_and_write_block_helper paranoid_programmer twin_chip
    (mkHw before_image []) 512 256 before_image after_image (ideal_erase 255)
  = Some (0, mkHw before_image [], before_image).
Proof.
  apply helper_skips_equal_block.
  - lia.
  - unfold INT_MAX. lia.
  - intros a Ha. unfold byte_at.
    destruct (a <? 0) eqn:E; [reflexivity|].
    unfold before_image, after_image, poke.
    rewrite !nth_upd_nth.
    assert (E1 : Nat.eqb 256 (Z.to_nat a) = false) by (apply Nat.eqb_neq; lia).
    assert (E2 : Nat.eqb 0 (Z.to_nat a) = false) by (apply Nat.eqb_neq; lia).
    rewrite E1, E2. reflexivity.
Defined.

(** ** Whether the loops end *)

(** X17.  With a page size above 0 the processing of a block comes to an
    end whatever the erase, write, read and access functions of the chip
    return and do to the array: no run is written twice and every
    verification moves on by a chunk. *)
Theorem block_processing_ends : forall p chip h start len curcontents
    newcontents erasefn,
  0 < page_size chip <= INT_MAX ->
  0 <= start -> 0 <= len -> start + len <= INT_MAX ->
  exists rc h' curcontents',
    erase_and_write_block_helper p chip h start len curcontents newcontents
                                 erasefn = Some (rc, h', curcontents').
Proof.
  intros p chip h start len curcontents newcontents erasefn Hp.
  apply erase_and_write_block_helper_total. assumption.
Qed.

Lemma block_processing_ends_witness :
  exists rc h' curcontents',
    erase_and_write_block_helper paranoid_programmer deaf_chip
      (mkHw before_image []) 0 256 before_image after_image (ideal_erase 255)
    = Some (rc, h', curcontents').
Proof.
  apply block_processing_ends.
  - simpl. unfold INT_MAX. lia.
  - lia.
  - lia.
  - unfold INT_MAX. lia.
Defined.

(** X18.  With a page size of 0 the verification of a paranoid programmer
    does not end when the reads succeed: the chunk it reads and compares is
    empty and the loop never moves on.  No amount of fuel lets the loop
    return. *)
Theorem paranoid_verify_page_size_zero : forall fuel p chip read h cmpbuf start
    len i ret,
  page_size chip = 0 ->
  check_access chip = None ->
  (forall m s l, fst (fst (read m s l)) = 0) ->
  0 <= i < len -> len <= INT_MAX ->
  verify_chunks fuel p chip read h cmpbuf start len i ret = None.
Proof.
  induction fuel as [|fuel IH]; intros p chip read h cmpbuf start len i ret
                                       Hp Ha Hread Hi Hmax;
    simpl; (destruct (i <? len) eqn:E; [|apply Z.ltb_ge in E; lia]);
    [reflexivity|].
  unfold INT_MAX in *.
  assert (Hc : to_uint (min_int (page_size chip) (to_uint (len - i))) = 0).
  { rewrite Hp. unfold min_int.
    rewrite (to_uint_id (len - i)) by (unfold UINT_MODULUS; lia).
    rewrite !to_int_id by (unfold INT_MAX; lia).
    rewrite Z.min_l by lia. reflexivity. }
  rewrite Hc. rewrite Z.add_0_r.
  rewrite (to_uint_id i) by (unfold UINT_MODULUS; lia).
  unfold call_read.
  pose proof (Hread (mem h) (to_uint (start + i)) 0) as R.
  destruct (read (mem h) (to_uint (start + i)) 0) as [[tmp data] m].
  simpl in R. subst tmp. cbn [negb Z.eqb].
  rewrite Ha.
  assert (C : compare_range (ptr_add cmpbuf i) data (to_uint (start + i)) 0 = 0)
    by reflexivity.
  rewrite C. cbn [negb Z.eqb].
  apply IH; assumption.
Qed.

Lemma paranoid_verify_page_size_zero_witness :
  verify_chunks 1000 paranoid_programmer
    (mkFlashchip 1 0 0 write_gran_256bytes [one_region 1024 1 255]
       (Some ideal_write) (Some ideal_read) None)
    ideal_read (mkHw blank_image []) blank_image 0 1024 0 0 = None.
Proof.
  apply paranoid_verify_page_size_zero.
  - reflexivity.
  - reflexivity.
  - intros m s l. reflexivity.
  - lia.
  - unfold INT_MAX. lia.
Defined.

(** ** The functions kept for shutdown and for chip restore *)

Lemma fold_lor_zero : forall rs ret,
  fold_left Z.lor rs ret = 0 <-> ret = 0 /\ Forall (fun r => r = 0) rs.
Proof.
  induction rs as [|r rs IH]; intros ret; simpl.
  - split; [intros H; split; [assumption|constructor]|intros [H _]; assumption].
  - rewrite IH, Z.lor_eq_0_iff. split.
    + intros [[H1 H2] H3]. split; [assumption|]. constructor; assumption.
    + intros [H1 H2]. inversion H2; subst. repeat split; assumption.
Qed.

Lemma firstn_succ_nth_error : forall (A : Type) (l : list A) i x,
  nth_error l i = Some x -> firstn (S i) l = firstn i l ++ [x].
Proof.
  intros A l. induction l as [|a l IH]; intros [|i] x H; simpl in H;
    try discriminate.
  - inversion H. reflexivity.
  - simpl. f_equal. apply IH. assumption.
Qed.

(** The loop of [programmer_shutdown] calls the entries below the count
    from the last to the first and ors what they return. *)
Lemma shutdown_loop_calls : forall (world data : Type)
    (fns : list (shutdown_func_data world data)) n ret w,
  (n <= length fns)%nat ->
  shutdown_loop fns n ret w
  = let '(rs, w') := shutdown_calls (rev (firstn n fns)) w in
    (fold_left Z.lor rs ret, w').
Proof.
  intros world data fns. induction n as [|i IH]; intros ret w Hc.
  - reflexivity.
  - simpl shutdown_loop.
    destruct (nth_error fns i) as [f|] eqn:E;
      [|apply nth_error_None in E; lia].
    rewrite (firstn_succ_nth_error _ _ _ _ E), rev_app_distr. simpl.
    destruct (shutdown_func f (shutdown_data f) w) as [r w1].
    rewrite IH by lia.
    destruct (shutdown_calls (rev (firstn i fns)) w1) as [rs w2].
    reflexivity.
Qed.

Lemma chip_restore_loop_calls : forall (world flashctx : Type)
    (fns : list (chip_restore_func_data world flashctx)) n rc w,
  (n <= length fns)%nat ->
  chip_restore_loop fns n rc w
  = let '(rs, w') := restore_calls (rev (firstn n fns)) w in
    (fold_left Z.lor rs rc, w').
Proof.
  intros world flashctx fns. induction n as [|i IH]; intros rc w Hc.
  - reflexivity.
  - simpl chip_restore_loop.
    destruct (nth_error fns i) as [f|] eqn:E;
      [|apply nth_error_None in E; lia].
    rewrite (firstn_succ_nth_error _ _ _ _ E), rev_app_distr. simpl.
    destruct (restore_func f (restore_flash f) (restore_status f) w) as [r w1].
    rewrite IH by lia.
    destruct (restore_calls (rev (firstn i fns)) w1) as [rs w2].
    reflexivity.
Qed.

(** X19.  [programmer_shutdown] calls the registered functions in the
    reverse of the order they were registered in, each on what the one
    before left, and returns 0 exactly when every one of them returned 0.
    It leaves the table empty and registering forbidden: a registration
    after it fails, and a second shutdown calls nothing and returns 0. *)
Theorem programmer_shutdown_last_first : forall (world data : Type)
    (st : shutdown_state world data) (w : world),
  let results := fst (shutdown_calls (rev (shutdown_fn st)) w) in
  let w_end := snd (shutdown_calls (rev (shutdown_fn st)) w) in
  let closed := mkShutdownState [] false in
  exists ret,
    programmer_shutdown st w = (ret, closed, w_end)
    /\ (ret = 0 <-> Forall (fun r => r = 0) results)
    /\ (forall function d, register_shutdown closed function d = (1, closed))
    /\ programmer_shutdown closed w_end = (0, closed, w_end).
Proof.
  intros world data st w. simpl.
  unfold programmer_shutdown.
  rewrite shutdown_loop_calls by apply Nat.le_refl.
  rewrite firstn_all.
  destruct (shutdown_calls (rev (shutdown_fn st)) w) as [rs w'].
  simpl. exists (fold_left Z.lor rs 0).
  split; [reflexivity|]. split; [|split; reflexivity].
  rewrite fold_lor_zero. split; [intros [_ H]; assumption|].
  intros H. split; [reflexivity|assumption].
Qed.

(** X20.  [chip_restore] calls the registered functions in the reverse of
    the order they were registered in, each with the chip and the status it
    was registered with, and returns 0 exactly when every one of them
    returned 0; it leaves the table empty, so that a second call returns 0
    and calls nothing.  [register_chip_restore] takes a function as long as
    fewer than [CHIP_RESTORE_MAXFN] are kept. *)
Theorem chip_restore_last_first : forall (world flashctx : Type)
    (fns : list (chip_restore_func_data world flashctx)) (w : world),
  let results := fst (restore_calls (rev fns) w) in
  let w_end := snd (restore_calls (rev fns) w) in
  (exists rc,
     chip_restore fns w = (rc, [], w_end)
     /\ (rc = 0 <-> Forall (fun r => r = 0) results))
  /\ @chip_restore world flashctx [] w_end = (0, [], w_end)
  /\ forall func flash status,
       register_chip_restore fns func flash status
       = if (length fns <? CHIP_RESTORE_MAXFN)%nat
         then (0, fns ++ [mkChipRestoreFunc func flash status])
         else (1, fns).
Proof.
  intros world flashctx fns w. simpl. split; [|split; [reflexivity|]].
  - unfold chip_restore.
    rewrite chip_restore_loop_calls by apply Nat.le_refl.
    rewrite firstn_all.
    destruct (restore_calls (rev fns) w) as [rs w'].
    simpl. exists (fold_left Z.lor rs 0). split; [reflexivity|].
    rewrite fold_lor_zero. split; [intros [_ H]; assumption|].
    intros H. split; [reflexivity|assumption].
  - intros func flash status. unfold register_chip_restore.
    destruct (CHIP_RESTORE_MAXFN <=? length fns)%nat eqn:E.
    + apply Nat.leb_le in E.
      assert (E2 : (length fns <? CHIP_RESTORE_MAXFN)%nat = false)
        by (apply Nat.ltb_ge; assumption).
      rewrite E2. reflexivity.
    + apply Nat.leb_gt in E.
      assert (E2 : (length fns <? CHIP_RESTORE_MAXFN)%nat = true)
        by (apply Nat.ltb_lt; assumption).
      rewrite E2. reflexivity.
Qed.

(** X21.  Of the functions handed to [register_shutdown] one after the
    other the table keeps the first ones up to [SHUTDOWN_MAXFN] entries in
    all, in the order they came; those registrations return 0 and all later
    ones return 1.  While registering is forbidden, before
    [programmer_init] and after [programmer_shutdown], every registration
    returns 1 and the table stays as it is. *)
Theorem register_shutdown_keeps_first : forall (world data : Type)
    (fs : list (shutdown_func_data world data))
    (st : shutdown_state world data),
  (length (shutdown_fn st) <= SHUTDOWN_MAXFN)%nat ->
  let room := (SHUTDOWN_MAXFN - length (shutdown_fn st))%nat in
  let returned := fst (register_each st fs) in
  let st' := snd (register_each st fs) in
  may_register_shutdown st' = may_register_shutdown st
  /\ (length (shutdown_fn st') <= SHUTDOWN_MAXFN)%nat
  /\ if may_register_shutdown st then
       shutdown_fn st' = shutdown_fn st ++ firstn room fs
       /\ returned = repeat 0 (Nat.min room (length fs))
                     ++ repeat 1 (length fs - room)
     else
       shutdown_fn st' = shutdown_fn st
       /\ returned = repeat 1 (length fs).
Proof.
  intros world data fs. induction fs as [|f fs IH]; intros st Hlen.
  - cbn [register_each fst snd length]. rewrite firstn_nil, app_nil_r, Nat.min_0_r.
    cbn [repeat app Nat.sub].
    split; [reflexivity|]. split; [assumption|].
    destruct (may_register_shutdown st); split; reflexivity.
  - cbn [register_each]. unfold register_shutdown.
    destruct (SHUTDOWN_MAXFN <=? length (shutdown_fn st))%nat eqn:E.
    + apply Nat.leb_le in E.
      specialize (IH st Hlen). cbv zeta in IH.
      destruct (register_each st fs) as [rs st'] eqn:R.
      cbn [fst snd] in *.
      destruct IH as (I1 & I2 & I3).
      split; [assumption|]. split; [assumption|].
      replace (SHUTDOWN_MAXFN - length (shutdown_fn st))%nat with O in * by lia.
      cbn [firstn Nat.min repeat app length Nat.sub] in *.
      destruct (may_register_shutdown st).
      * destruct I3 as (I3 & I4). split; [assumption|].
        rewrite I4, Nat.sub_0_r. reflexivity.
      * destruct I3 as (I3 & I4). split; [assumption|]. rewrite I4. reflexivity.
    + apply Nat.leb_gt in E.
      destruct (may_register_shutdown st) eqn:M; cbn [negb].
      * set (st1 := mkShutdownState (shutdown_fn st ++ [mkShutdownFunc
                                       (shutdown_func f) (shutdown_data f)]) true).
        assert (Hlen1 : (length (shutdown_fn st1) <= SHUTDOWN_MAXFN)%nat).
        { unfold st1. cbn [shutdown_fn]. rewrite length_app.
          cbn [length]. lia. }
        specialize (IH st1 Hlen1). cbv zeta in IH.
        destruct (register_each st1 fs) as [rs st'] eqn:R.
        cbn [fst snd] in *.
        unfold st1 in IH. cbn [shutdown_fn may_register_shutdown] in IH.
        destruct IH as (I1 & I2 & I3 & I4).
        split; [assumption|]. split; [assumption|].
        rewrite length_app in I3, I4. cbn [length] in I3, I4.
        destruct (SHUTDOWN_MAXFN - length (shutdown_fn st))%nat as [|room] eqn:Rm;
          [lia|].
        replace (SHUTDOWN_MAXFN - (length (shutdown_fn st) + 1))%nat with room
          in * by lia.
        split.
        -- rewrite I3, <- app_assoc. cbn [firstn app]. destruct f; reflexivity.
        -- rewrite I4. cbn [length Nat.min Nat.sub repeat app]. reflexivity.
      * specialize (IH st Hlen). cbv zeta in IH.
        destruct (register_each st fs) as [rs st'] eqn:R.
        cbn [fst snd] in *.
        rewrite M in IH. destruct IH as (I1 & I2 & I3 & I4).
        split; [assumption|]. split; [assumption|]. split; [assumption|].
        rewrite I4. reflexivity.
Qed.

Lemma register_shutdown_keeps_first_witness :
  let fs := repeat (mkShutdownFunc (fun (d : Z) (w : Z) => (0, w + d)) 1) 40 in
  let st := @mkShutdownState Z Z [] true in
  let room := (SHUTDOWN_MAXFN - length (shutdown_fn st))%nat in
  let returned := fst (register_each st fs) in
  let st' := snd (register_each st fs) in
  may_register_shutdown st' = may_register_shutdown st
  /\ (length (shutdown_fn st') <= SHUTDOWN_MAXFN)%nat
  /\ if may_register_shutdown st then
       shutdown_fn st' = shutdown_fn st ++ firstn room fs
       /\ returned = repeat 0 (Nat.min room (length fs))
                     ++ repeat 1 (length fs - room)
     else
       shutdown_fn st' = shutdown_fn st
       /\ returned = repeat 1 (length fs).
Proof.
  apply (register_shutdown_keeps_first Z Z
           (repeat (mkShutdownFunc (fun (d : Z) (w : Z) => (0, w + d)) 1) 40)
           (mkShutdownState [] true)).
  simpl. unfold SHUTDOWN_MAXFN. lia.
Defined.

(** ** The parameters of the programmer *)

Lemma starts_with_app : forall needle s,
  starts_with s needle = true -> s = needle ++ skipn (length needle) s.
Proof.
  induction needle as [|c needle IH]; intros s H.
  - reflexivity.
  - destruct s as [|d s]; [discriminate|]. simpl in H.
    apply andb_prop in H. destruct H as [H1 H2].
    apply Ascii.eqb_eq in H1. subst d. simpl. f_equal. apply IH. assumption.
Qed.

Lemma starts_with_prefix : forall needle t,
  starts_with (needle ++ t) needle = true.
Proof.
  induction needle as [|c needle IH]; intros t; simpl.
  - destruct t; reflexivity.
  - rewrite Ascii.eqb_refl. apply IH.
Qed.

Lemma strstr_some : forall s needle k,
  strstr s needle = Some k -> starts_with (skipn k s) needle = true.
Proof.
  induction s as [|c s IH]; intros needle k H; cbn [strstr] in H.
  - destruct (starts_with [] needle) eqn:E; [|discriminate].
    inversion H; subst. assumption.
  - destruct (starts_with (c :: s) needle) eqn:E.
    + inversion H; subst. assumption.
    + destruct (strstr s needle) as [k'|] eqn:E2; [|discriminate].
      inversion H; subst. simpl. apply IH. assumption.
Qed.

Lemma strcspn_spec : forall s delim,
  Forall (fun c => strchr delim c = false) (firstn (strcspn s delim) s)
  /\ match skipn (strcspn s delim) s with
     | [] => True
     | c :: _ => strchr delim c = true
     end.
Proof.
  induction s as [|c s IH]; intros delim; simpl.
  - split; [constructor|exact I].
  - destruct (strchr delim c) eqn:E; simpl.
    + split; [constructor|assumption].
    + destruct (IH delim) as [H1 H2]. split; [|assumption].
      constructor; assumption.
Qed.

Lemma strspn_spec : forall s delim,
  Forall (fun c => strchr delim c = true) (firstn (strspn s delim) s)
  /\ match skipn (strspn s delim) s with
     | [] => True
     | c :: _ => strchr delim c = false
     end.
Proof.
  induction s as [|c s IH]; intros delim; simpl.
  - split; [constructor|exact I].
  - destruct (strchr delim c) eqn:E; simpl.
    + destruct (IH delim) as [H1 H2]. split; [|assumption].
      constructor; assumption.
    + split; [constructor|assumption].
Qed.

(** The loop of [extract_param] ends, with NULL or at an occurrence of the
    needle that passes the test. *)
Lemma find_param_spec : forall haystack needle delim fuel pos,
  needle <> [] ->
  starts_with (skipn pos haystack) needle = true ->
  (length haystack - pos <= fuel)%nat ->
  exists r,
    find_param fuel haystack needle delim (Some pos) = Some r
    /\ match r with
       | None => True
       | Some p =>
           param_here haystack needle delim p = true
           /\ starts_with (skipn p haystack) needle = true
       end.
Proof.
  intros haystack needle delim.
  induction fuel as [|fuel IH]; intros pos Hne Hs Hf; simpl;
    (destruct (param_here haystack needle delim pos) eqn:P;
     [exists (Some pos); split; [reflexivity|split; assumption]|]);
    (assert (Hpos : (pos < length haystack)%nat);
     [destruct (Nat.lt_ge_cases pos (length haystack)) as [L|L]; [assumption|];
      rewrite skipn_all2 in Hs by assumption;
      destruct needle; [contradiction|discriminate]|]).
  - lia.
  - destruct (strstr (skipn (pos + 1) haystack) needle) as [k|] eqn:S; simpl.
    + apply strstr_some in S. rewrite skipn_skipn in S.
      replace (k + (pos + 1))%nat with (pos + 1 + k)%nat in S by lia.
      apply IH; [assumption|assumption|lia].
    + exists None. split; [destruct fuel; reflexivity|exact I].
Qed.

(** X22.  [extract_param] with a needle that is not empty returns; when it
    finds nothing it returns NULL and leaves the string alone.  When it
    returns a value, the string was made of a part before the parameter
    that is empty or ends with a delimiter, the needle, ['='], the value,
    which holds no delimiter, the delimiters that follow and a rest that
    does not begin with a delimiter; what is left of the string is the part
    before and the rest. *)
Theorem extract_param_takes_parameter : forall haystack needle delim,
  needle <> [] ->
  exists opt left,
    extract_param (Some haystack) needle delim = Some (opt, Some left)
    /\ match opt with
       | None => left = haystack
       | Some value =>
           exists before delims rest,
             haystack
             = before ++ needle ++ "="%char :: value ++ delims ++ rest
             /\ left = before ++ rest
             /\ Forall (fun c => strchr delim c = false) value
             /\ Forall (fun c => strchr delim c = true) delims
             /\ match rest with
                | [] => True
                | c :: _ => strchr delim c = false
                end
             /\ (before = []
                 \/ exists before' c,
                      before = before' ++ [c] /\ strchr delim c = true)
       end.
Proof.
  intros haystack needle delim Hne. unfold extract_param.
  assert (E0 : (length needle =? 0)%nat = false).
  { apply Nat.eqb_neq. destruct needle; [contradiction|simpl; lia]. }
  rewrite E0.
  assert (Hfind : exists r,
            find_param (length haystack) haystack needle delim
                       (strstr haystack needle) = Some r
            /\ match r with
               | None => True
               | Some p =>
                   param_here haystack needle delim p = true
                   /\ starts_with (skipn p haystack) needle = true
               end).
  { destruct (strstr haystack needle) as [k|] eqn:S.
    - apply strstr_some in S. apply find_param_spec; [assumption|assumption|lia].
    - exists None. split; [destruct (length haystack); reflexivity|exact I]. }
  destruct Hfind as (r & Hr & Hspec). rewrite Hr.
  destruct r as [p|]; [|exists None, haystack; split; reflexivity].
  destruct Hspec as (Hhere & Hstart).
  eexists. eexists. split; [reflexivity|]. cbv zeta.
  set (n := length needle) in *.
  set (tail := skipn (p + n + 1) haystack).
  set (optlen := strcspn tail delim).
  set (after := skipn (p + n + 1 + optlen) haystack).
  assert (Hafter : after = skipn optlen tail).
  { unfold after, tail. rewrite skipn_skipn. f_equal. lia. }
  exists (firstn p haystack), (firstn (strspn after delim) after),
         (skipn (p + n + 1 + optlen + strspn after delim) haystack).
  assert (Hrest : skipn (p + n + 1 + optlen + strspn after delim) haystack
                  = skipn (strspn after delim) after).
  { unfold after. rewrite skipn_skipn. f_equal. lia. }
  unfold param_here in Hhere. fold n in Hhere.
  destruct (nth_error haystack (p + n)) as [c|] eqn:Hc; [|discriminate].
  destruct (Ascii.eqb c "=") eqn:Heq; [|discriminate].
  apply Ascii.eqb_eq in Heq. subst c.
  assert (Htail : skipn (p + n) haystack = "="%char :: tail).
  { unfold tail.
    assert (Hl : (p + n <= length haystack)%nat).
    { apply Nat.lt_le_incl. apply nth_error_Some. congruence. }
    rewrite <- (firstn_skipn (p + n) haystack) in Hc.
    rewrite nth_error_app2 in Hc by (rewrite length_firstn; lia).
    rewrite length_firstn in Hc.
    replace (p + n - Nat.min (p + n) (length haystack))%nat with O in Hc by lia.
    destruct (skipn (p + n) haystack) as [|d t] eqn:Sk; [discriminate|].
    simpl in Hc. inversion Hc; subst d. f_equal.
    replace (p + n + 1)%nat with (1 + (p + n))%nat by lia.
    rewrite <- skipn_skipn, Sk. reflexivity. }
  split.
  - rewrite <- (firstn_skipn p haystack) at 1. f_equal.
    rewrite (starts_with_app _ _ Hstart) at 1. f_equal.
    fold n. rewrite skipn_skipn.
    replace (n + p)%nat with (p + n)%nat by lia.
    rewrite Htail. f_equal.
    rewrite <- (firstn_skipn optlen tail) at 1. f_equal.
    rewrite <- Hafter, Hrest. symmetry. apply firstn_skipn.
  - split; [reflexivity|].
    split; [apply strcspn_spec|].
    split; [apply strspn_spec|].
    split; [rewrite Hrest; apply strspn_spec|].
    destruct (p =? 0)%nat eqn:P0.
    + apply Nat.eqb_eq in P0. subst p. left. reflexivity.
    + apply Nat.eqb_neq in P0. right.
      destruct (nth_error haystack (p - 1)) as [b|] eqn:Hb; [|discriminate].
      exists (firstn (p - 1) haystack), b. split; [|assumption].
      replace p with (S (p - 1)) at 1 by lia.
      apply firstn_succ_nth_error. assumption.
Qed.

Lemma extract_param_takes_parameter_witness :
  let haystack := ["a"; "="; "1"; ","; "b"; "="; "2"; ","; ","; "c"]%char in
  let needle := ["b"]%char in
  let delim := [","]%char in
  exists opt left,
    extract_param (Some haystack) needle delim = Some (opt, Some left)
    /\ match opt with
       | None => left = haystack
       | Some value =>
           exists before delims rest,
             haystack
             = before ++ needle ++ "="%char :: value ++ delims ++ rest
             /\ left = before ++ rest
             /\ Forall (fun c => strchr delim c = false) value
             /\ Forall (fun c => strchr delim c = true) delims
             /\ match rest with
                | [] => True
                | c :: _ => strchr delim c = false
                end
             /\ (before = []
                 \/ exists before' c,
                      before = before' ++ [c] /\ strchr delim c = true)
       end.
Proof.
  apply (extract_param_takes_parameter
           ["a"; "="; "1"; ","; "b"; "="; "2"; ","; ","; "c"]%char
           ["b"]%char [","]%char).
  discriminate.
Defined.

Lemma strcspn_app : forall value tail delim,
  Forall (fun c => strchr delim c = false) value ->
  match tail with
  | [] => True
  | c :: _ => strchr delim c = true
  end ->
  strcspn (value ++ tail) delim = length value.
Proof.
  induction value as [|v value IH]; intros tail delim Hv Ht; simpl.
  - destruct tail as [|c tail]; [reflexivity|]. simpl. rewrite Ht. reflexivity.
  - inversion Hv; subst. rewrite H1. f_equal. apply IH; assumption.
Qed.

Lemma strspn_app : forall delims rest delim,
  Forall (fun c => strchr delim c = true) delims ->
  match rest with
  | [] => True
  | c :: _ => strchr delim c = false
  end ->
  strspn (delims ++ rest) delim = length delims.
Proof.
  induction delims as [|d delims IH]; intros rest delim Hd Hr; simpl.
  - destruct rest as [|c rest]; [reflexivity|]. simpl. rewrite Hr. reflexivity.
  - inversion Hd; subst. rewrite H1. f_equal. apply IH; assumption.
Qed.

(** X23.  A parameter the string begins with is read back: from a string
    made of the needle, ['='], a value without delimiters, delimiters and a
    rest that does not begin with one, [extract_param] returns the value
    and leaves the rest. *)
Theorem extract_param_reads_first : forall needle value delims rest delim,
  needle <> [] ->
  Forall (fun c => strchr delim c = false) value ->
  Forall (fun c => strchr delim c = true) delims ->
  match rest with
  | [] => True
  | c :: _ => delims <> [] /\ strchr delim c = false
  end ->
  extract_param (Some (needle ++ "="%char :: value ++ delims ++ rest))
                needle delim
  = Some (Some value, Some rest).
Proof.
  intros needle value delims rest delim Hne Hv Hd Hr. unfold extract_param.
  assert (E0 : (length needle =? 0)%nat = false).
  { apply Nat.eqb_neq. destruct needle; [contradiction|simpl; lia]. }
  rewrite E0.
  set (hs := needle ++ "="%char :: value ++ delims ++ rest).
  assert (S0 : strstr hs needle = Some O).
  { unfold hs. destruct needle as [|c needle]; [contradiction|].
    cbn [strstr app].
    change (c :: needle ++ "="%char :: value ++ delims ++ rest)
      with ((c :: needle) ++ "="%char :: value ++ delims ++ rest).
    rewrite starts_with_prefix. reflexivity. }
  rewrite S0.
  assert (P0 : param_here hs needle delim 0 = true).
  { unfold param_here, hs. simpl.
    rewrite nth_error_app2 by lia. rewrite Nat.sub_diag. simpl. reflexivity. }
  assert (F0 : find_param (length hs) hs needle delim (Some O) = Some (Some O)).
  { destruct (length hs); simpl; rewrite P0; reflexivity. }
  rewrite F0. cbv zeta.
  assert (Sk : skipn (0 + length needle + 1) hs = value ++ delims ++ rest).
  { unfold hs. replace (0 + length needle + 1)%nat with (length needle + 1)%nat
      by lia.
    rewrite skipn_app. rewrite skipn_all2 by lia.
    replace (length needle + 1 - length needle)%nat with 1%nat by lia.
    reflexivity. }
  rewrite Sk.
  assert (Hlen : strcspn (value ++ delims ++ rest) delim = length value).
  { apply strcspn_app; [assumption|].
    destruct delims as [|d delims].
    - destruct rest as [|c rest]; [exact I|]. destruct Hr as [Hr _].
      contradiction.
    - inversion Hd; subst. assumption. }
  rewrite Hlen. rewrite firstn_app, firstn_all, Nat.sub_diag. simpl firstn.
  rewrite app_nil_r.
  assert (Sk2 : skipn (0 + length needle + 1 + length value) hs = delims ++ rest).
  { rewrite Nat.add_comm, <- skipn_skipn, Sk.
    rewrite skipn_app, skipn_all, Nat.sub_diag. reflexivity. }
  rewrite Sk2.
  assert (Hsp : strspn (delims ++ rest) delim = length delims).
  { apply strspn_app; [assumption|].
    destruct rest as [|c rest]; [exact I|apply Hr]. }
  rewrite Hsp.
  assert (Sk3 : skipn (0 + length needle + 1 + length value + length delims) hs
                = rest).
  { rewrite Nat.add_comm, <- skipn_skipn, Sk2.
    rewrite skipn_app, skipn_all, Nat.sub_diag. reflexivity. }
  rewrite Sk3. reflexivity.
Qed.

Lemma extract_param_reads_first_witness :
  extract_param
    (Some (["d"; "e"; "v"]%char
           ++ "="%char :: ["/"; "x"]%char ++ [","; ","]%char ++ ["s"; "="; "1"]%char))
    ["d"; "e"; "v"]%char [","]%char
  = Some (Some ["/"; "x"]%char, Some ["s"; "="; "1"]%char).
Proof.
  apply extract_param_reads_first.
  - discriminate.
  - repeat constructor.
  - repeat constructor.
  - split; [discriminate|reflexivity].
Defined.

(** ** The verification after the run *)

(** The loop of [verify_flash] over units that fit the chip, behind an
    ideal master: it returns 0 when every byte in the range of a unit holds
    the byte of [buf], and -1 when some byte does not. *)
Lemma verify_units_ideal : forall p chip buf real h,
  chip_read chip = Some ideal_read ->
  check_access chip = None ->
  0 < page_size chip <= INT_MAX ->
  to_uint (total_size chip * 1024) <= INT_MAX ->
  Forall (unit_fits chip (to_uint (total_size chip * 1024))) real ->
  real <> [] ->
  exists rc h',
    verify_units p chip h buf (real ++ [sentinel]) 0 = Some (rc, h')
    /\ mem h' = mem h
    /\ (rc = 0 \/ rc = -1)
    /\ (rc = 0
        <-> forall a, covered real a -> byte_at buf a = byte_at (mem h) a).
Proof.
  intros p chip buf real. induction real as [|u real IH];
    intros h Hr Ha Hp Hmax Hfit Hne; [contradiction|].
  inversion Hfit as [|u' real' Hu Hreal]; subst u' real'.
  pose proof Hu as (F1 & F2 & F3 & F4 & F5 & F6).
  cbn [app verify_units].
  assert (E0 : (num_blocks u =? 0) = false) by (apply Z.eqb_neq; lia).
  rewrite E0. unfold INT_MAX in *.
  rewrite (to_uint_id (offset u)) by (unfold UINT_MODULUS; nia).
  rewrite (to_uint_id (unit_block_size u * num_blocks u))
    by (unfold UINT_MODULUS; nia).
  destruct (verify_range_ideal p chip h (ptr_add buf (offset u)) (offset u)
              (unit_block_size u * num_blocks u) Hr Ha
              ltac:(unfold INT_MAX; lia) F1 ltac:(nia) ltac:(nia)
              ltac:(unfold INT_MAX; lia))
    as (rc1 & h1 & V & Vm & Vrc & Viff).
  rewrite V.
  assert (Hown : rc1 = 0
                 <-> forall a, covers u a -> byte_at buf a = byte_at (mem h) a).
  { rewrite Viff. split.
    - intros H a Hc. unfold covers in Hc.
      specialize (H (a - offset u) ltac:(nia)).
      rewrite byte_at_ptr_add in H by lia.
      replace (offset u + (a - offset u)) with a in H by lia. assumption.
    - intros H k Hk. rewrite byte_at_ptr_add by lia. apply H.
      unfold covers. nia. }
  destruct Vrc as [-> | ->]; cbn [negb Z.eqb].
  - destruct real as [|v real].
    + simpl. exists 0, h1. split; [reflexivity|]. split; [assumption|].
      split; [left; reflexivity|]. split; [|reflexivity].
      intros _ a (w & [<-|[]] & Hc). apply Hown; [reflexivity|assumption].
    + destruct (IH h1 Hr Ha ltac:(unfold INT_MAX; lia)
                   ltac:(unfold INT_MAX; lia) Hreal ltac:(discriminate))
        as (rc & h' & W & Wm & Wrc & Wiff).
      exists rc, h'. split; [exact W|]. split; [congruence|].
      split; [assumption|]. rewrite Wiff, Vm. split.
      * intros H a (w & [<-|Hin] & Hc).
        -- apply Hown; [reflexivity|assumption].
        -- apply H. exists w. split; assumption.
      * intros H a (w & Hin & Hc). apply H. exists w.
        split; [right|]; assumption.
  - exists (-1), h1. split; [reflexivity|]. split; [assumption|].
    split; [right; reflexivity|]. split; [discriminate|].
    intros H. exfalso.
    assert (C : -1 = 0); [|discriminate].
    apply Hown. intros a Hc. apply H. exists u.
    split; [left; reflexivity|assumption].
Qed.

(** X24.  Behind an ideal master, with no access check, the full
    verification of [verify_flash] returns 0 when the chip holds the new
    image of the descriptor from its first byte to its last, and -1 when
    some byte differs. *)
Theorem verify_flash_full : forall p chip h descriptor verify_it ret_unassigned,
  chip_read chip = Some ideal_read ->
  check_access chip = None ->
  0 < page_size chip <= INT_MAX ->
  0 < to_uint (total_size chip * 1024) <= INT_MAX ->
  verify_it <> VERIFY_PARTIAL ->
  exists rc h',
    verify_flash p chip h descriptor verify_it ret_unassigned = Some (rc, h')
    /\ mem h' = mem h
    /\ (rc = 0 \/ rc = -1)
    /\ (rc = 0
        <-> forall a, 0 <= a < to_uint (total_size chip * 1024) ->
              byte_at (mem h) a = byte_at (newcontents descriptor) a).
Proof.
  intros p chip h descriptor verify_it ret_unassigned Hr Ha Hp Hsz Hv.
  unfold verify_flash.
  assert (E : (verify_it =? VERIFY_PARTIAL) = false)
    by (apply Z.eqb_neq; assumption).
  rewrite E.
  destruct (verify_range_ideal p chip h (newcontents descriptor) 0
              (to_uint (total_size chip * 1024)) Hr Ha Hp (Z.le_refl 0)
              (proj1 Hsz) (Z.le_refl _) (proj2 Hsz))
    as (rc & h' & V & Vm & Vrc & Viff).
  rewrite V. exists rc, h'.
  assert (E2 : (rc =? ACCESS_DENIED) = false)
    by (destruct Vrc as [-> | ->]; reflexivity).
  rewrite E2. split; [reflexivity|]. split; [assumption|].
  split; [assumption|]. rewrite Viff. split.
  - intros H a Ha'. symmetry. apply (H a Ha').
  - intros H k Hk. symmetry. apply (H k Hk).
Qed.

Lemma verify_flash_full_witness :
  exists rc h',
    verify_flash paranoid_programmer twin_chip (mkHw after_image [])
      (mkDescriptor before_image after_image [sentinel]) VERIFY_FULL 0
    = Some (rc, h')
    /\ mem h' = mem (mkHw after_image [])
    /\ (rc = 0 \/ rc = -1)
    /\ (rc = 0
        <-> forall a, 0 <= a < to_uint (total_size twin_chip * 1024) ->
              byte_at (mem (mkHw after_image [])) a
              = byte_at (newcontents
                           (mkDescriptor before_image after_image [sentinel])) a).
Proof.
  apply verify_flash_full.
  - reflexivity.
  - reflexivity.
  - simpl. unfold INT_MAX. lia.
  - vm_compute. split; [reflexivity|discriminate].
  - discriminate.
Defined.

(** Past a unit with blocks the loop no longer holds the value it was
    entered with. *)
Lemma verify_units_first : forall p chip h buf u units ret,
  num_blocks u <> 0 ->
  verify_units p chip h buf (u :: units) ret
  = verify_units p chip h buf (u :: units) 0.
Proof.
  intros p chip h buf u units ret Hn. cbn [verify_units].
  assert (E0 : (num_blocks u =? 0) = false) by (apply Z.eqb_neq; assumption).
  rewrite E0. reflexivity.
Qed.

(** X25.  The partial verification of [verify_flash] goes by the units of
    the descriptor.  With one unit or more before the terminating entry,
    all fitting the chip, behind an ideal master it returns 0 when every
    byte in the range of a unit holds the byte of the new image, and -1
    when some byte does not.  With the terminating entry first it returns
    the value its variable [ret] was never given, turned to 0 only if that
    is [ACCESS_DENIED] and access errors are ignored. *)
Theorem verify_flash_partial : forall p chip h oldc newc real ret_unassigned,
  chip_read chip = Some ideal_read ->
  check_access chip = None ->
  0 < page_size chip <= INT_MAX ->
  to_uint (total_size chip * 1024) <= INT_MAX ->
  Forall (unit_fits chip (to_uint (total_size chip * 1024))) real ->
  match real with
  | [] =>
      verify_flash p chip h (mkDescriptor oldc newc [sentinel]) VERIFY_PARTIAL
                   ret_unassigned
      = Some (if ignore_error p ret_unassigned then 0 else ret_unassigned, h)
  | _ :: _ =>
      exists rc h',
        verify_flash p chip h (mkDescriptor oldc newc (real ++ [sentinel]))
                     VERIFY_PARTIAL ret_unassigned = Some (rc, h')
        /\ mem h' = mem h
        /\ (rc = 0 \/ rc = -1)
        /\ (rc = 0
            <-> forall a, covered real a -> byte_at (mem h) a = byte_at newc a)
  end.
Proof.
  intros p chip h oldc newc real ret_unassigned Hr Ha Hp Hmax Hfit.
  destruct real as [|u real].
  - unfold verify_flash, ignore_error. simpl.
    destruct (ret_unassigned =? ACCESS_DENIED);
      [destruct (access_denied_action p)|]; reflexivity.
  - unfold verify_flash. simpl newcontents. simpl processing_units.
    cbn [Z.eqb VERIFY_PARTIAL Pos.eqb].
    assert (Hne : u :: real <> []) by discriminate.
    pose proof Hfit as Hfit'. inversion Hfit' as [|u' r' Hu _]; subst u' r'.
    destruct Hu as (_ & _ & F3 & _).
    change ((u :: real) ++ [sentinel]) with (u :: real ++ [sentinel]).
    rewrite verify_units_first by lia.
    change (u :: real ++ [sentinel]) with ((u :: real) ++ [sentinel]).
    destruct (verify_units_ideal p chip newc (u :: real) h Hr Ha Hp Hmax
                Hfit Hne) as (rc & h' & V & Vm & Vrc & Viff).
    rewrite V. exists rc, h'.
    assert (E2 : (rc =? ACCESS_DENIED) = false)
      by (destruct Vrc as [-> | ->]; reflexivity).
    rewrite E2. split; [reflexivity|]. split; [assumption|].
    split; [assumption|]. rewrite Viff.
    split; intros H a Hc; symmetry; apply H; assumption.
Qed.

Lemma verify_flash_partial_witness :
  exists rc h',
    verify_flash paranoid_programmer twin_chip (mkHw after_image [])
      (mkDescriptor before_image after_image
         ([mkUnit 0 256 2 1 0] ++ [sentinel])) VERIFY_PARTIAL 77
    = Some (rc, h')
    /\ mem h' = mem (mkHw after_image [])
    /\ (rc = 0 \/ rc = -1)
    /\ (rc = 0
        <-> forall a, covered [mkUnit 0 256 2 1 0] a ->
              byte_at (mem (mkHw after_image [])) a = byte_at after_image a).
Proof.
  apply (verify_flash_partial paranoid_programmer twin_chip
           (mkHw after_image []) before_image after_image
           [mkUnit 0 256 2 1 0] 77).
  - reflexivity.
  - reflexivity.
  - simpl. unfold INT_MAX. lia.
  - vm_compute. discriminate.
  - constructor; [|constructor].
    unfold unit_fits. simpl.
    split; [lia|]. split; [lia|]. split; [lia|].
    split; [vm_compute; discriminate|].
    split; [exists 1; reflexivity|reflexivity].
Defined.

(** ** Whether the chip can be worked on *)

Lemma check_block_eraser_usable : forall chip k,
  check_block_eraser chip k = 0
  <-> block_erase (eraser_at (block_erasers chip) k) <> None
      /\ count (region_at (block_erasers chip) k 0) <> 0.
Proof.
  intros chip k. unfold check_block_eraser, region_at.
  destruct (block_erase (eraser_at (block_erasers chip) k)) as [f|];
    destruct (count (nth 0 (eraseblocks (eraser_at (block_erasers chip) k))
                         no_eraseblock) =? 0) eqn:E; simpl.
  - apply Z.eqb_eq in E. split; [discriminate|]. intros [_ H]. contradiction.
  - apply Z.eqb_neq in E. split; [|reflexivity].
    intros _. split; [discriminate|assumption].
  - split; [discriminate|]. intros [H _]. contradiction.
  - split; [discriminate|]. intros [H _]. contradiction.
Qed.

Lemma count_usable_erasers_some : forall chip,
  count_usable_erasers chip <> 0 ->
  exists k, (k < NUM_ERASEFUNCTIONS)%nat /\ check_block_eraser chip k = 0.
Proof.
  intros chip H.
  destruct (existsb (fun k => check_block_eraser chip k =? 0)
                    (seq 0 NUM_ERASEFUNCTIONS)) eqn:E.
  - apply existsb_exists in E. destruct E as (k & Hk & Hc).
    apply in_seq in Hk. apply Z.eqb_eq in Hc. exists k. split; [lia|assumption].
  - exfalso. apply H. unfold count_usable_erasers.
    apply (fold_left_inv Z nat (fun u => u = 0)); [reflexivity|].
    intros u k Hk ->.
    destruct (check_block_eraser chip k =? 0) eqn:Hc; [|reflexivity].
    assert (T : existsb (fun k => check_block_eraser chip k =? 0)
                        (seq 0 NUM_ERASEFUNCTIONS) = true).
    { apply existsb_exists. exists k. split; assumption. }
    congruence.
Qed.

(** X26.  When [chip_safety_check] lets the actions go ahead, the chip has
    what they need, forced or not: a read function for any action; for an
    erase or a write an erase that is not marked as not applicable and an
    eraser with both an erase function and a block layout; for a write a
    write function and a write that is not marked as not applicable.
    Forcing overrides only the marks for known bad operations and the
    programmer's refusal to write. *)
Theorem chip_safety_check_passes : forall programmer_may_write chip t force
    read_it write_it erase_it verify_it,
  chip_safety_check programmer_may_write chip t force read_it write_it erase_it
                    verify_it = 0 ->
  ((read_it <> 0 \/ erase_it <> 0 \/ write_it <> 0 \/ verify_it <> 0) ->
     chip_read chip <> None
     /\ (force = 0 -> tested_read t <> BAD))
  /\ ((erase_it <> 0 \/ write_it <> 0) ->
        tested_erase t <> NA
        /\ (exists k, (k < NUM_ERASEFUNCTIONS)%nat
              /\ block_erase (eraser_at (block_erasers chip) k) <> None
              /\ count (region_at (block_erasers chip) k 0) <> 0)
        /\ (force = 0 ->
            programmer_may_write <> 0 /\ tested_erase t <> BAD))
  /\ (write_it <> 0 ->
        tested_write t <> NA
        /\ chip_write chip <> None
        /\ (force = 0 -> tested_write t <> BAD)).
Proof.
  intros pmw chip t force read_it write_it erase_it verify_it H.
  unfold chip_safety_check in H.
  destruct (pmw =? 0) eqn:Epmw; destruct (force =? 0) eqn:Ef;
    destruct (read_it =? 0) eqn:Er; destruct (write_it =? 0) eqn:Ew;
    destruct (erase_it =? 0) eqn:Ee; destruct (verify_it =? 0) eqn:Ev;
    cbn [negb andb orb] in H; try discriminate;
    repeat match goal with
           | E : (_ =? 0) = true |- _ => apply Z.eqb_eq in E
           | E : (_ =? 0) = false |- _ => apply Z.eqb_neq in E
           end;
    subst;
    destruct (tested_read t) eqn:Tr; destruct (chip_read chip) eqn:Cr;
    cbn [test_state_eqb negb andb orb Z.eqb] in H; try discriminate;
    destruct (tested_erase t) eqn:Te;
    cbn [test_state_eqb negb andb orb Z.eqb] in H; try discriminate;
    try (destruct (count_usable_erasers chip =? 0) eqn:Eu;
         cbn [test_state_eqb negb andb orb Z.eqb] in H; try discriminate;
         apply Z.eqb_neq in Eu; apply count_usable_erasers_some in Eu;
         destruct Eu as (k & Hk & Hu); apply check_block_eraser_usable in Hu);
    destruct (tested_write t) eqn:Tw; destruct (chip_write chip) eqn:Cw;
    cbn [test_state_eqb negb andb orb Z.eqb] in H; try discriminate;
    (split; [|split]); intros Hx;
    repeat match goal with
           | |- _ /\ _ => split
           | |- _ -> _ => intros ?
           | |- _ <> _ => discriminate
           | |- _ <> _ => assumption
           | |- _ <> _ => congruence
           | |- exists _, _ => exists k; split; [assumption|exact Hu]
           | Hy : _ \/ _ |- _ => destruct Hy
           | Hy : ?x <> ?x |- _ => contradiction
           end.
Qed.

Lemma chip_safety_check_passes_witness :
  let t := mkTested OK OK OK NT NT in
  ((0 <> 0 \/ 0 <> 0 \/ 1 <> 0 \/ 0 <> 0) ->
     chip_read twin_chip <> None
     /\ (0 = 0 -> tested_read t <> BAD))
  /\ ((0 <> 0 \/ 1 <> 0) ->
        tested_erase t <> NA
        /\ (exists k, (k < NUM_ERASEFUNCTIONS)%nat
              /\ block_erase (eraser_at (block_erasers twin_chip) k) <> None
              /\ count (region_at (block_erasers twin_chip) k 0) <> 0)
        /\ (0 = 0 -> 1 <> 0 /\ tested_erase t <> BAD))
  /\ (1 <> 0 ->
        tested_write t <> NA
        /\ chip_write twin_chip <> None
        /\ (0 = 0 -> tested_write t <> BAD)).
Proof.
  apply (chip_safety_check_passes 1 twin_chip (mkTested OK OK OK NT NT) 0 0 1 0 0).
  vm_compute. reflexivity.
Defined.

(** ** Where the executor calls the chip *)

Lemma calls_within_refl : forall lo hi h, calls_within lo hi h h.
Proof.
  intros lo hi h. exists []. split; [reflexivity|constructor].
Qed.

Lemma calls_within_trans : forall lo hi a b c,
  calls_within lo hi a b -> calls_within lo hi b c -> calls_within lo hi a c.
Proof.
  intros lo hi a b c (e1 & T1 & F1) (e2 & T2 & F2). exists (e2 ++ e1). split.
  - rewrite T2, T1. apply app_assoc.
  - apply Forall_app. split; assumption.
Qed.

Lemma calls_within_step : forall lo hi h m e,
  within lo hi e -> calls_within lo hi h (mkHw m (e :: trace h)).
Proof.
  intros lo hi h m e He. exists [e]. split; [reflexivity|].
  constructor; [assumption|constructor].
Qed.

Section CallsWithin.

Variable p : programmer_state.
Variable chip : flashchip.

Hypothesis page_size_ok : 0 < page_size chip <= INT_MAX.

Lemma verify_chunks_within : forall fuel read h cmpbuf start len i ret rc h',
  0 <= start -> 0 <= i -> start + len <= INT_MAX ->
  verify_chunks fuel p chip read h cmpbuf start len i ret = Some (rc, h') ->
  calls_within start (start + len) h h'.
Proof.
  induction fuel as [|fuel IH]; intros read h cmpbuf start len i ret rc h'
                                       Hs Hi Hmax H;
    simpl in H; destruct (i <? len) eqn:E; try discriminate;
    try (inversion H; subst; apply calls_within_refl).
  apply Z.ltb_lt in E. unfold INT_MAX in *.
  assert (Hc : to_uint (min_int (page_size chip) (to_uint (len - i)))
               = Z.min (page_size chip) (len - i)).
  { unfold min_int. rewrite (to_uint_id (len - i)) by (unfold UINT_MODULUS; lia).
    rewrite !to_int_id by (unfold INT_MAX; lia).
    apply to_uint_id. unfold UINT_MODULUS. lia. }
  rewrite Hc in H. set (chunksize := Z.min (page_size chip) (len - i)) in *.
  assert (Hb : 0 < chunksize /\ i + chunksize <= len) by (unfold chunksize; lia).
  rewrite (to_uint_id (start + i)) in H by (unfold UINT_MODULUS; lia).
  rewrite (to_uint_id (i + chunksize)) in H by (unfold UINT_MODULUS; lia).
  unfold call_read in H.
  destruct (read (mem h) (start + i) chunksize) as [[tmp data] m].
  set (h1 := mkHw m (EvRead (start + i) chunksize data :: trace h)) in *.
  assert (S1 : calls_within start (start + len) h h1).
  { apply calls_within_step. unfold within. simpl. lia. }
  assert (Hnext : forall h2 ret2,
            calls_within start (start + len) h h2 ->
            verify_chunks fuel p chip read h2 cmpbuf start len (i + chunksize)
                          ret2 = Some (rc, h') ->
            calls_within start (start + len) h h').
  { intros h2 ret2 S2 V. eapply calls_within_trans; [exact S2|].
    eapply IH; [| | |exact V]; unfold INT_MAX; lia. }
  destruct (negb (tmp =? 0)).
  - destruct (ignore_error p tmp).
    + eapply Hnext; [exact S1|exact H].
    + inversion H; subst. exact S1.
  - destruct (check_access chip) as [access|].
    + unfold call_access in H. cbn [mem trace] in H.
      match type of H with context [mkHw ?mm (?e :: trace h1)] =>
        set (h2 := mkHw mm (e :: trace h1)) in *;
        assert (S2 : calls_within start (start + len) h h2)
          by (eapply calls_within_trans; [exact S1|];
              apply calls_within_step; unfold within; simpl; lia)
      end.
      destruct (negb (_ =? 0) && ignore_error p _)%bool.
      * eapply Hnext; [exact S2|exact H].
      * destruct (negb (compare_range _ _ _ _ =? 0)).
        -- inversion H; subst. exact S2.
        -- eapply Hnext; [exact S2|exact H].
    + destruct (negb (compare_range _ _ _ _ =? 0)).
      * inversion H; subst. exact S1.
      * eapply Hnext; [exact S1|exact H].
Qed.

Lemma verify_range_within : forall h cmpbuf start len rc h',
  0 <= start -> 0 <= len -> start + len <= INT_MAX ->
  verify_range p chip h cmpbuf start len = Some (rc, h') ->
  calls_within start (start + len) h h'.
Proof.
  intros h cmpbuf start len rc h' Hs Hl Hmax H. unfold verify_range in H.
  destruct (len =? 0); [inversion H; apply calls_within_refl|].
  destruct (chip_read chip) as [read|]; [|inversion H; apply calls_within_refl].
  destruct (_ <? _); [inversion H; apply calls_within_refl|].
  destruct (paranoid p).
  - eapply verify_chunks_within; [| | |exact H]; lia.
  - unfold call_read in H. destruct (read (mem h) start len) as [[tmp data] m].
    assert (S1 : calls_within start (start + len) h
                   (mkHw m (EvRead start len data :: trace h))).
    { apply calls_within_step. unfold within. simpl. lia. }
    destruct (negb (tmp =? 0) && negb (ignore_error p tmp))%bool;
      [inversion H; subst; exact S1|].
    destruct (negb (compare_range _ _ _ _ =? 0)); inversion H; subst; exact S1.
Qed.

Lemma calls_within_wider : forall lo hi lo' hi' h h',
  lo' <= lo -> hi <= hi' ->
  calls_within lo hi h h' -> calls_within lo' hi' h h'.
Proof.
  intros lo hi lo' hi' h h' Hlo Hhi (evs & T & F). exists evs.
  split; [assumption|].
  eapply Forall_impl; [|exact F]. intros e [H1 H2]. unfold within. lia.
Qed.

Lemma write_runs_within : forall fuel h start len cur new erased starthere ret
    rc h',
  0 <= start -> 0 <= starthere <= len -> start + len <= INT_MAX ->
  write_runs fuel p chip h start len cur new erased starthere ret = Some (rc, h') ->
  calls_within start (start + len) h h'.
Proof.
  induction fuel as [|fuel IH]; intros h start len cur new erased starthere ret
                                       rc h' Hs Hsh Hmax H;
    rewrite write_runs_unfold in H;
    destruct (get_next_write _ _ _ _ _) as [lenhere starthere'] eqn:G;
    (destruct (lenhere =? 0) eqn:E;
     [inversion H; subst; apply calls_within_refl|]);
    [discriminate|].
  apply Z.eqb_neq in E. unfold INT_MAX in *.
  rewrite (to_uint_id (len - starthere)) in G by (unfold UINT_MODULUS; lia).
  apply get_next_write_bounds in G; try assumption; unfold INT_MAX; try lia.
  destruct G as (G1 & G2 & G3).
  rewrite (to_uint_id (start + starthere')) in H by (unfold UINT_MODULUS; lia).
  rewrite (to_uint_id (starthere' + lenhere)) in H by (unfold UINT_MODULUS; lia).
  assert (Hnext : forall h2 ret2,
            calls_within start (start + len) h h2 ->
            write_runs fuel p chip h2 start len cur new erased
                       (starthere' + lenhere) ret2 = Some (rc, h') ->
            calls_within start (start + len) h h').
  { intros h2 ret2 S2 W. eapply calls_within_trans; [exact S2|].
    eapply IH; [| | |exact W]; unfold INT_MAX; lia. }
  unfold write_flash in H.
  destruct (chip_write chip) as [write|].
  - unfold call_write in H.
    destruct (write (mem h) _ _ _) as [rcw m].
    set (h1 := mkHw m (EvWrite (start + starthere') lenhere :: trace h)) in *.
    assert (S1 : calls_within start (start + len) h h1).
    { apply calls_within_step. unfold within. simpl. lia. }
    destruct (negb (rcw =? 0)); [inversion H; subst; exact S1|].
    destruct (paranoid p && negb erased)%bool.
    + destruct (verify_range _ _ _ _ _ _) as [[failed h2]|] eqn:V; [|discriminate].
      apply verify_range_within in V; try (unfold INT_MAX; lia).
      assert (S2 : calls_within start (start + len) h h2).
      { eapply calls_within_trans; [exact S1|].
        eapply calls_within_wider; [| |exact V]; lia. }
      destruct (negb (failed =? 0)).
      * inversion H; subst. exact S2.
      * eapply Hnext; [exact S2|exact H].
    + eapply Hnext; [exact S1|exact H].
  - cbn [negb Z.eqb] in H. inversion H; subst. apply calls_within_refl.
Qed.

Lemma helper_within : forall h start len curcontents newcontents erasefn rc h'
    curcontents',
  0 <= start -> 0 <= len -> start + len <= INT_MAX ->
  erase_and_write_block_helper p chip h start len curcontents newcontents erasefn
  = Some (rc, h', curcontents') ->
  calls_within start (start + len) h h'.
Proof.
  intros h start len curcontents newcontents erasefn rc h' cur' Hs Hl Hmax H.
  unfold erase_and_write_block_helper in H.
  assert (Hruns : forall h2 cur2 erased rc2 h3,
            write_runs (S (Z.to_nat len)) p chip h2 start len cur2
                       (ptr_add newcontents start) erased 0 0 = Some (rc2, h3) ->
            calls_within start (start + len) h2 h3).
  { intros h2 cur2 erased rc2 h3 W.
    eapply write_runs_within; [| | |exact W]; lia. }
  destruct (negb (need_erase _ _ _ _ _ =? 0)).
  - unfold call_erase in H. destruct (erasefn (mem h) start len) as [ret m].
    set (h1 := mkHw m (EvErase start len :: trace h)) in *.
    assert (S1 : calls_within start (start + len) h h1).
    { apply calls_within_step. unfold within. simpl. lia. }
    destruct (negb (ret =? 0)); [inversion H; subst; exact S1|].
    destruct (paranoid p).
    + destruct (check_erased_range _ _ _ _ _) as [[failed h2]|] eqn:C;
        [|discriminate].
      unfold check_erased_range in C.
      apply verify_range_within in C; try assumption.
      destruct (negb (failed =? 0)).
      * inversion H; subst. eapply calls_within_trans; eassumption.
      * destruct (write_runs _ _ _ _ _ _ _ _ _ _ _) as [[rc2 h3]|] eqn:W;
          [|discriminate].
        inversion H; subst.
        eapply calls_within_trans; [exact S1|].
        eapply calls_within_trans; [exact C|]. eapply Hruns. exact W.
    + cbn [negb Z.eqb] in H.
      destruct (write_runs _ _ _ _ _ _ _ _ _ _ _) as [[rc2 h3]|] eqn:W;
        [|discriminate].
      inversion H; subst.
      eapply calls_within_trans; [exact S1|]. eapply Hruns. exact W.
  - destruct (write_runs _ _ _ _ _ _ _ _ _ _ _) as [[rc2 h3]|] eqn:W;
      [|discriminate].
    inversion H; subst. eapply Hruns. exact W.
Qed.

End CallsWithin.

(** X27.  Whatever the functions of the chip return and do, every call
    [erase_and_write_block_helper] makes through them, to erase, write, read
    or check access, is for a range that lies inside the block it was
    given. *)
Theorem block_calls_stay_inside : forall p chip h start len curcontents
    newcontents erasefn rc h' curcontents',
  0 < page_size chip <= INT_MAX ->
  0 <= start -> 0 <= len -> start + len <= INT_MAX ->
  erase_and_write_block_helper p chip h start len curcontents newcontents erasefn
  = Some (rc, h', curcontents') ->
  calls_within start (start + len) h h'.
Proof.
  intros p chip h start len curcontents newcontents erasefn rc h' cur' Hp.
  apply helper_within. assumption.
Qed.

Lemma block_calls_stay_inside_witness :
  calls_within 256 (256 + 256) (mkHw before_image [])
    (mkHw (memcpy (memset before_image 256 255 256) 256
                  (ptr_add after_image 256) 256)
          [EvWrite 256 256; EvRead 256 256 (repeat 255 256); EvErase 256 256]).
Proof.
  apply (block_calls_stay_inside paranoid_programmer twin_chip
           (mkHw before_image []) 256 256 before_image after_image
           (ideal_erase 255) 0
           (mkHw (memcpy (memset before_image 256 255 256) 256
                         (ptr_add after_image 256) 256)
                 [EvWrite 256 256; EvRead 256 256 (repeat 255 256);
                  EvErase 256 256])
           (memset before_image 256 255 256)).
  - simpl. unfold INT_MAX. lia.
  - lia.
  - lia.
  - unfold INT_MAX. lia.
  - vm_compute. reflexivity.
Defined.

(** The same for the call with the pointer as the table has it. *)
Lemma do_something_within : forall p chip h start len curcontents newcontents
    block_erase rc h' curcontents',
  0 < page_size chip <= INT_MAX ->
  0 <= start -> 0 <= len -> start + len <= INT_MAX ->
  do_something p chip h start len curcontents newcontents block_erase
  = Some (rc, h', curcontents') ->
  calls_within start (start + len) h h'.
Proof.
  intros p chip h start len curcontents newcontents block_erase rc h' cur'
         Hp Hs Hl Hmax H.
  unfold do_something in H.
  destruct block_erase as [erasefn|].
  - eapply helper_within; eassumption.
  - destruct (negb (need_erase _ _ _ _ _ =? 0)); [discriminate|].
    eapply helper_within; eassumption.
Qed.

(** A unit whose eraser has no function is gone through as long as no block
    of it needs an erase. *)
Lemma null_eraser_block_written :
  block_erase (eraser_at (block_erasers twin_chip) 5) = None
  /\ erase_and_write_flash plain_programmer twin_chip (mkHw blank_image [])
       (mkDescriptor blank_image after_image [mkUnit 0 256 2 5 0; sentinel])
     = Some (0, mkHw after_image [EvWrite 256 256; EvWrite 0 256], blank_image).
Proof. vm_compute. split; reflexivity. Qed.

Lemma walk_unit_within : forall p chip pu newc top fuel h base oldc rc0 stop rc
    h' oldc',
  0 < page_size chip <= INT_MAX ->
  0 <= offset pu -> 0 < unit_block_size pu ->
  top = offset pu + num_blocks pu * unit_block_size pu ->
  top <= INT_MAX ->
  (exists j, 0 <= j /\ base = top - j * unit_block_size pu) ->
  offset pu <= base ->
  walk_unit fuel p chip h pu base top oldc newc rc0 = Some (stop, rc, h', oldc') ->
  calls_within (offset pu) top h h'.
Proof.
  intros p chip pu newc top fuel.
  induction fuel as [|fuel IH]; intros h base oldc rc0 stop rc h' oldc'
                                       Hp Ho Hbs Htop Hmax Hj Hbase H;
    simpl in H; destruct (base <? top) eqn:E; try discriminate;
    try (inversion H; subst; apply calls_within_refl).
  apply Z.ltb_lt in E.
  destruct Hj as (j & Hj0 & Hj).
  assert (Hj1 : 1 <= j) by nia.
  set (bs := unit_block_size pu) in *.
  assert (Hstep : base + bs <= top) by nia.
  unfold INT_MAX in *.
  rewrite (to_uint_id bs) in H by (unfold UINT_MODULUS; nia).
  rewrite (to_uint_id (base + bs)) in H by (unfold UINT_MODULUS; nia).
  destruct (do_something p chip h base bs oldc newc
              (block_erase (eraser_at (block_erasers chip)
                                      (block_eraser_index pu))))
    as [[[rc1 h1] old1]|] eqn:B; [|discriminate].
  apply do_something_within in B;
    try assumption; try (unfold INT_MAX; lia).
  assert (S1 : calls_within (offset pu) top h h1).
  { eapply calls_within_wider; [| |exact B]; lia. }
  destruct (negb (rc1 =? 0) && negb (ignore_error p rc1))%bool.
  - inversion H; subst. exact S1.
  - eapply calls_within_trans; [exact S1|].
    eapply IH; [exact Hp|exact Ho|exact Hbs|exact Htop|unfold INT_MAX; lia| |
                |exact H].
    + exists (j - 1). split; [lia|]. fold bs. lia.
    + lia.
Qed.

(** X28.  Whatever the functions of the chip return and do, and whether the
    erasers the units name have a function or not, every call the executor
    makes through the functions of the chip while it goes through the units
    of a descriptor is for a range inside the range of one of the units: it
    erases, writes and reads nowhere else. *)
Theorem executor_calls_stay_inside_units : forall p chip real h oldc newc rc h'
    oldc',
  0 < page_size chip <= INT_MAX ->
  Forall (fun u => 0 <= offset u /\ 0 < unit_block_size u /\ 0 < num_blocks u
                   /\ offset u + num_blocks u * unit_block_size u <= INT_MAX)
         real ->
  erase_and_write_flash p chip h (mkDescriptor oldc newc (real ++ [sentinel]))
  = Some (rc, h', oldc') ->
  exists evs,
    trace h' = evs ++ trace h /\ Forall (within_a_unit real) evs.
Proof.
  intros p chip real h oldc newc rc h' oldc' Hp Hfit H.
  unfold erase_and_write_flash, walk_eraseregions in H. simpl in H.
  remember 0 as rc0 eqn:Hrc0 in H. clear Hrc0.
  revert h oldc rc0 H.
  induction real as [|u real IH]; intros h oldc rc0 H.
  - simpl in H. inversion H; subst. exists []. split; [reflexivity|constructor].
  - inversion Hfit as [|u' real' Hu Hreal]; subst u' real'.
    destruct Hu as (F1 & F2 & F3 & F4).
    simpl in H.
    assert (E0 : (num_blocks u =? 0) = false) by (apply Z.eqb_neq; lia).
    rewrite E0 in H. unfold INT_MAX in *.
    rewrite (to_uint_id (offset u)) in H by (unfold UINT_MODULUS; nia).
    rewrite (to_uint_id (offset u + unit_block_size u * num_blocks u)) in H
      by (unfold UINT_MODULUS; nia).
    destruct (walk_unit (Z.to_nat (num_blocks u)) p chip h u (offset u)
                (offset u + unit_block_size u * num_blocks u) oldc newc rc0)
      as [[[[stop rc1] h1] old1]|] eqn:W; [|discriminate].
    apply walk_unit_within in W; try assumption; try (unfold INT_MAX; lia).
    2:{ exists (num_blocks u). split; lia. }
    destruct W as (e1 & T1 & W1).
    assert (U1 : Forall (within_a_unit (u :: real)) e1).
    { eapply Forall_impl; [|exact W1]. intros e He. exists u.
      split; [left; reflexivity|].
      replace (offset u + num_blocks u * unit_block_size u)
        with (offset u + unit_block_size u * num_blocks u) by lia.
      assumption. }
    destruct stop.
    + inversion H; subst. exists e1. split; assumption.
    + destruct (IH Hreal h1 old1 rc1 H) as (e2 & T2 & W2).
      exists (e2 ++ e1). split.
      * rewrite T2, T1. apply app_assoc.
      * apply Forall_app. split; [|assumption].
        eapply Forall_impl; [|exact W2]. intros e (v & Hv & He).
        exists v. split; [right|]; assumption.
Qed.

Lemma executor_calls_stay_inside_units_witness :
  exists evs,
    trace (mkHw after_image
             [EvWrite 256 256; EvErase 256 256; EvWrite 0 256; EvErase 0 256])
    = evs ++ trace (mkHw before_image [])
    /\ Forall (within_a_unit [mkUnit 0 256 2 1 0]) evs.
Proof.
  apply (executor_calls_stay_inside_units plain_programmer twin_chip
           [mkUnit 0 256 2 1 0] (mkHw before_image []) before_image after_image
           0
           (mkHw after_image
              [EvWrite 256 256; EvErase 256 256; EvWrite 0 256; EvErase 0 256])
           blank_image).
  - simpl. unfold INT_MAX. lia.
  - constructor; [|constructor]. simpl. unfold INT_MAX. lia.
  - vm_compute. reflexivity.
Defined.

(** ** Test patterns *)

Lemma length_set_byte : forall buf i v, length (set_byte buf i v) = length buf.
Proof.
  intros buf i v. unfold set_byte.
  destruct (i <? 0); [reflexivity|apply upd_nth_length].
Qed.

Lemma byte_at_set_byte : forall buf i v j,
  0 <= i < Z.of_nat (length buf) ->
  byte_at (set_byte buf i v) j = if i =? j then to_uint8 v else byte_at buf j.
Proof.
  intros buf i v j Hi. unfold set_byte.
  destruct (i <? 0) eqn:E; [apply Z.ltb_lt in E; lia|].
  destruct (Z.lt_ge_cases j 0) as [Hj|Hj].
  - rewrite !byte_at_negative by assumption.
    destruct (i =? j) eqn:E2; [apply Z.eqb_eq in E2; lia|reflexivity].
  - rewrite !byte_at_nth by assumption. rewrite nth_upd_nth.
    assert (L : (Z.to_nat i <? length buf)%nat = true)
      by (apply Nat.ltb_lt; lia).
    rewrite L, andb_true_r.
    destruct (i =? j) eqn:E2.
    + apply Z.eqb_eq in E2. subst j. rewrite Nat.eqb_refl. reflexivity.
    + apply Z.eqb_neq in E2.
      assert (N : Nat.eqb (Z.to_nat i) (Z.to_nat j) = false)
        by (apply Nat.eqb_neq; lia).
      rewrite N. reflexivity.
Qed.

Lemma fill_bytes_spec : forall f size buf,
  0 <= size <= Z.of_nat (length buf) ->
  length (fill_bytes f size buf) = length buf
  /\ forall j, byte_at (fill_bytes f size buf) j
               = if (0 <=? j) && (j <? size) then to_uint8 (f j)
                 else byte_at buf j.
Proof.
  intros f size buf Hs. unfold fill_bytes.
  apply (fold_zrange_inv (list Z)
           (fun k b =>
              length b = length buf
              /\ forall j, byte_at b j
                           = if (0 <=? j) && (j <? k) then to_uint8 (f j)
                             else byte_at buf j)).
  - lia.
  - split; [reflexivity|]. intros j.
    destruct (0 <=? j) eqn:E1; destruct (j <? 0) eqn:E2; try reflexivity.
    apply Z.leb_le in E1. apply Z.ltb_lt in E2. lia.
  - intros k b Hk (Hl & Hb). split; [rewrite length_set_byte; assumption|].
    intros j. rewrite byte_at_set_byte by lia. rewrite Hb.
    destruct (k =? j) eqn:E.
    + apply Z.eqb_eq in E. subst j.
      assert (C1 : (0 <=? k) = true) by (apply Z.leb_le; lia).
      assert (C2 : (k <? k + 1) = true) by (apply Z.ltb_lt; lia).
      rewrite C1, C2. reflexivity.
    + apply Z.eqb_neq in E.
      destruct (0 <=? j) eqn:E1; [|reflexivity]. simpl.
      destruct (j <? k) eqn:E2; destruct (j <? k + 1) eqn:E3; try reflexivity.
      * apply Z.ltb_lt in E2. apply Z.ltb_ge in E3. lia.
      * apply Z.ltb_ge in E2. apply Z.ltb_lt in E3. lia.
Qed.

Lemma to_uint8_land : forall x, to_uint8 (Z.land x 255) = Z.land x 255.
Proof.
  intros x. unfold to_uint8. apply Z.mod_small.
  pose proof (land_le_r x 255 ltac:(lia)).
  assert (0 <= Z.land x 255) by (apply Z.land_nonneg; right; lia).
  lia.
Qed.

(** After the block numbers are written, the last two bytes of each whole
    block of 256 bytes hold its number and the other bytes are as before. *)
Lemma write_block_numbers_spec : forall size buf,
  0 <= size <= Z.of_nat (length buf) ->
  length (write_block_numbers size buf) = length buf
  /\ forall j, byte_at (write_block_numbers size buf) j
               = if (0 <=? j) && (j / 256 <? size / 256)
                    && (j mod 256 =? 254)
                 then Z.land (Z.shiftr (j / 256) 8) 255
                 else if (0 <=? j) && (j / 256 <? size / 256)
                         && (j mod 256 =? 255)
                 then Z.land (j / 256) 255
                 else byte_at buf j.
Proof.
  intros size buf Hs. unfold write_block_numbers.
  assert (Hq : 0 <= size / 256) by (apply Z.div_pos; lia).
  pose proof (Z.mul_div_le size 256 ltac:(lia)) as Hmul.
  apply (fold_zrange_inv (list Z)
           (fun k b =>
              length b = length buf
              /\ forall j, byte_at b j
                           = if (0 <=? j) && (j / 256 <? k) && (j mod 256 =? 254)
                             then Z.land (Z.shiftr (j / 256) 8) 255
                             else if (0 <=? j) && (j / 256 <? k)
                                     && (j mod 256 =? 255)
                             then Z.land (j / 256) 255
                             else byte_at buf j)).
  - assumption.
  - split; [reflexivity|]. intros j.
    destruct (0 <=? j) eqn:E1; [|reflexivity]. apply Z.leb_le in E1.
    assert (E2 : (j / 256 <? 0) = false)
      by (apply Z.ltb_ge; apply Z.div_pos; lia).
    rewrite E2. reflexivity.
  - intros k b Hk (Hl & Hb).
    split; [rewrite !length_set_byte; assumption|].
    intros j.
    rewrite byte_at_set_byte by (rewrite length_set_byte; lia).
    rewrite byte_at_set_byte by lia. rewrite Hb, !to_uint8_land.
    destruct (Z.lt_ge_cases j 0) as [Hj|Hj].
    { assert (E1 : (0 <=? j) = false) by (apply Z.leb_gt; assumption).
      rewrite E1. simpl.
      destruct (k * 256 + 255 =? j) eqn:A1; [apply Z.eqb_eq in A1; lia|].
      destruct (k * 256 + 254 =? j) eqn:A2; [apply Z.eqb_eq in A2; lia|].
      reflexivity. }
    assert (E1 : (0 <=? j) = true) by (apply Z.leb_le; assumption).
    rewrite E1. simpl.
    pose proof (Z.div_mod j 256 ltac:(lia)) as Hdm.
    pose proof (Z.mod_pos_bound j 256 ltac:(lia)) as Hmb.
    destruct (k * 256 + 255 =? j) eqn:A1.
    + apply Z.eqb_eq in A1.
      assert (D : j / 256 = k /\ j mod 256 = 255) by lia.
      destruct D as (D1 & D2). rewrite D1, D2.
      assert (C : (k <? k + 1) = true) by (apply Z.ltb_lt; lia).
      rewrite C. reflexivity.
    + apply Z.eqb_neq in A1.
      destruct (k * 256 + 254 =? j) eqn:A2.
      * apply Z.eqb_eq in A2.
        assert (D : j / 256 = k /\ j mod 256 = 254) by lia.
        destruct D as (D1 & D2). rewrite D1, D2.
        assert (C : (k <? k + 1) = true) by (apply Z.ltb_lt; lia).
        rewrite C. reflexivity.
      * apply Z.eqb_neq in A2.
        destruct (j / 256 <? k) eqn:B1.
        -- apply Z.ltb_lt in B1.
           assert (C : (j / 256 <? k + 1) = true) by (apply Z.ltb_lt; lia).
           rewrite C. reflexivity.
        -- apply Z.ltb_ge in B1.
           destruct (j / 256 <? k + 1) eqn:B2; [|reflexivity].
           apply Z.ltb_lt in B2. assert (D : j / 256 = k) by lia.
           simpl.
           destruct (j mod 256 =? 254) eqn:M1;
             [apply Z.eqb_eq in M1; lia|].
           destruct (j mod 256 =? 255) eqn:M2;
             [apply Z.eqb_eq in M2; lia|].
           reflexivity.
Qed.

(** The last two bytes of a whole block of 256 bytes after the block
    numbers are written. *)
Lemma testpattern_block_bytes : forall size buf1 k,
  0 <= size <= Z.of_nat (length buf1) ->
  0 <= k < size / 256 ->
  byte_at (write_block_numbers size buf1) (k * 256 + 254) = (k / 256) mod 256
  /\ byte_at (write_block_numbers size buf1) (k * 256 + 255) = k mod 256.
Proof.
  intros size buf1 k Hs Hk.
  destruct (write_block_numbers_spec size buf1 Hs) as (_ & Hb).
  assert (Hland : forall x, Z.land x 255 = x mod 256).
  { intros x. change 255 with (Z.ones 8). rewrite Z.land_ones by lia.
    reflexivity. }
  assert (Hshift : Z.shiftr k 8 = k / 256).
  { rewrite Z.shiftr_div_pow2 by lia. reflexivity. }
  assert (D1 : (k * 256 + 254) / 256 = k /\ (k * 256 + 254) mod 256 = 254).
  { pose proof (Z.div_mod (k * 256 + 254) 256 ltac:(lia)).
    pose proof (Z.mod_pos_bound (k * 256 + 254) 256 ltac:(lia)). lia. }
  assert (D2 : (k * 256 + 255) / 256 = k /\ (k * 256 + 255) mod 256 = 255).
  { pose proof (Z.div_mod (k * 256 + 255) 256 ltac:(lia)).
    pose proof (Z.mod_pos_bound (k * 256 + 255) 256 ltac:(lia)). lia. }
  assert (C : (k <? size / 256) = true) by (apply Z.ltb_lt; lia).
  split.
  - rewrite Hb. destruct D1 as (-> & ->). rewrite C.
    assert (C0 : (0 <=? k * 256 + 254) = true) by (apply Z.leb_le; lia).
    rewrite C0. simpl. rewrite Hland, Hshift. reflexivity.
  - rewrite Hb. destruct D2 as (-> & ->). rewrite C.
    assert (C0 : (0 <=? k * 256 + 255) = true) by (apply Z.leb_le; lia).
    rewrite C0. simpl. rewrite Hland. reflexivity.
Qed.

(** X29.  In each of the patterns 0 to 7 [generate_testpattern] leaves the
    number of every whole block of 256 bytes in the last two bytes of the
    block, the high byte first, taken modulo 65536; it returns 0 and keeps
    the length of the buffer. *)
Theorem testpattern_block_numbers : forall buf size variant,
  0 <= variant <= 7 ->
  0 <= size <= Z.of_nat (length buf) ->
  exists buf',
    generate_testpattern (Some buf) size variant = (0, Some buf')
    /\ length buf' = length buf
    /\ forall k, 0 <= k < size / 256 ->
         byte_at buf' (k * 256 + 254) = (k / 256) mod 256
         /\ byte_at buf' (k * 256 + 255) = k mod 256.
Proof.
  intros buf size variant Hv Hs. unfold generate_testpattern.
  assert (C : ((0 <=? variant) && (variant <=? 7))%bool = true).
  { apply andb_true_intro. split; apply Z.leb_le; lia. }
  rewrite C.
  assert (Hfill : forall f, length (fill_bytes f size buf) = length buf)
    by (intros f; apply fill_bytes_spec; assumption).
  assert (Hset : forall c, length (memset buf 0 c size) = length buf)
    by (intros c; apply length_memset; lia).
  assert (Hcases : variant = 0 \/ variant = 1 \/ variant = 2 \/ variant = 3
                   \/ variant = 4 \/ variant = 5 \/ variant = 6 \/ variant = 7)
    by lia.
  eexists. split; [reflexivity|].
  assert (G : forall buf1, length buf1 = length buf ->
            length (write_block_numbers size buf1) = length buf
            /\ forall k, 0 <= k < size / 256 ->
                 byte_at (write_block_numbers size buf1) (k * 256 + 254)
                 = (k / 256) mod 256
                 /\ byte_at (write_block_numbers size buf1) (k * 256 + 255)
                    = k mod 256).
  { intros buf1 Hl. split.
    - rewrite <- Hl. apply write_block_numbers_spec. lia.
    - intros k Hk. apply testpattern_block_bytes; lia. }
  destruct Hcases as [->|[->|[->|[->|[->|[->|[->| ->]]]]]]];
    apply G; auto.
Qed.

Lemma testpattern_block_numbers_witness :
  exists buf',
    generate_testpattern (Some (repeat 0 1024)) 1024 3 = (0, Some buf')
    /\ length buf' = length (repeat 0 1024)
    /\ forall k, 0 <= k < 1024 / 256 ->
         byte_at buf' (k * 256 + 254) = (k / 256) mod 256
         /\ byte_at buf' (k * 256 + 255) = k mod 256.
Proof.
  apply testpattern_block_numbers.
  - lia.
  - simpl. lia.
Defined.

Lemma nibble_identities : forall n,
  0 <= n <= 15 ->
  Z.land (to_uint8 (Z.lor (Z.shiftl n 4) 5)) (to_uint8 (Z.lor (Z.shiftl n 4) 10))
  = to_uint8 (Z.shiftl n 4)
  /\ Z.land (to_uint8 (Z.lor 80 n)) (to_uint8 (Z.lor 160 n)) = to_uint8 n
  /\ Z.land (to_uint8 (Z.shiftl n 4)) (to_uint8 n) = 0.
Proof.
  intros n Hn.
  set (holds := fun n =>
         (Z.land (to_uint8 (Z.lor (Z.shiftl n 4) 5))
                 (to_uint8 (Z.lor (Z.shiftl n 4) 10))
          =? to_uint8 (Z.shiftl n 4))
         && (Z.land (to_uint8 (Z.lor 80 n)) (to_uint8 (Z.lor 160 n))
             =? to_uint8 n)
         && (Z.land (to_uint8 (Z.shiftl n 4)) (to_uint8 n) =? 0)).
  assert (All : forallb holds (zrange 0 16) = true) by (vm_compute; reflexivity).
  rewrite forallb_forall in All.
  specialize (All n (proj2 (zrange_In 0 16 n) ltac:(lia))).
  unfold holds in All.
  apply andb_prop in All. destruct All as [All H3].
  apply andb_prop in All. destruct All as [H1 H2].
  apply Z.eqb_eq in H1, H2, H3. repeat split; assumption.
Qed.

Lemma byte_and_complement : forall x,
  Z.land (to_uint8 (Z.land x 255)) (to_uint8 (Z.lnot (Z.land x 255))) = 0.
Proof.
  intros x. rewrite to_uint8_land. unfold to_uint8.
  change 256 with (2 ^ 8). rewrite <- Z.land_ones by lia.
  rewrite Z.land_assoc, (Z.land_lnot_diag (Z.land x 255)). reflexivity.
Qed.

(** X30.  The identities the source states for the test patterns hold for
    every byte the patterns fill: byte by byte the AND of the patterns 0
    and 1 is pattern 4, the AND of the patterns 2 and 3 is pattern 5, the
    AND of the patterns 4 and 5 is pattern 6, and the AND of the patterns 8
    and 9 is pattern 12. *)
Theorem testpattern_and_identities : forall buf size i,
  0 <= size <= Z.of_nat (length buf) ->
  0 <= i < size ->
  let pattern variant :=
    match snd (generate_testpattern (Some buf) size variant) with
    | Some filled => byte_at filled i
    | None => 0
    end in
  Z.land (pattern 0) (pattern 1) = pattern 4
  /\ Z.land (pattern 2) (pattern 3) = pattern 5
  /\ Z.land (pattern 4) (pattern 5) = pattern 6
  /\ Z.land (pattern 8) (pattern 9) = pattern 12.
Proof.
  intros buf size i Hs Hi. cbv zeta. unfold generate_testpattern.
  cbn [snd Z.leb Z.compare Pos.compare Pos.compare_cont andb].
  assert (Hfill : forall f,
            byte_at (write_block_numbers size (fill_bytes f size buf)) i
            = if (i / 256 <? size / 256) && (i mod 256 =? 254)
              then Z.land (Z.shiftr (i / 256) 8) 255
              else if (i / 256 <? size / 256) && (i mod 256 =? 255)
              then Z.land (i / 256) 255
              else to_uint8 (f i)).
  { intros f. destruct (fill_bytes_spec f size buf Hs) as (Hl & Hb).
    destruct (write_block_numbers_spec size (fill_bytes f size buf)
                ltac:(lia)) as (_ & Hw).
    rewrite Hw, Hb.
    assert (C1 : (0 <=? i) = true) by (apply Z.leb_le; lia).
    assert (C2 : (i <? size) = true) by (apply Z.ltb_lt; lia).
    rewrite C1, C2. reflexivity. }
  assert (Hzero : byte_at (write_block_numbers size (memset buf 0 0 size)) i
                  = if (i / 256 <? size / 256) && (i mod 256 =? 254)
                    then Z.land (Z.shiftr (i / 256) 8) 255
                    else if (i / 256 <? size / 256) && (i mod 256 =? 255)
                    then Z.land (i / 256) 255
                    else 0).
  { destruct (write_block_numbers_spec size (memset buf 0 0 size)
                ltac:(rewrite length_memset by lia; lia)) as (_ & Hw).
    rewrite Hw, byte_at_memset by lia.
    assert (C1 : (0 <=? i) = true) by (apply Z.leb_le; lia).
    assert (C2 : (i <? 0 + size) = true) by (apply Z.ltb_lt; lia).
    rewrite C1, C2. reflexivity. }
  assert (Hplain : forall f, byte_at (fill_bytes f size buf) i = to_uint8 (f i)).
  { intros f. destruct (fill_bytes_spec f size buf Hs) as (_ & Hb).
    rewrite Hb.
    assert (C1 : (0 <=? i) = true) by (apply Z.leb_le; lia).
    assert (C2 : (i <? size) = true) by (apply Z.ltb_lt; lia).
    rewrite C1, C2. reflexivity. }
  assert (Hzero12 : byte_at (memset buf 0 0 size) i = 0).
  { rewrite byte_at_memset by lia.
    assert (C1 : (0 <=? i) = true) by (apply Z.leb_le; lia).
    assert (C2 : (i <? 0 + size) = true) by (apply Z.ltb_lt; lia).
    rewrite C1, C2. reflexivity. }
  rewrite !Hfill, Hzero, !Hplain, Hzero12.
  assert (Hn : 0 <= Z.land i 15 <= 15).
  { split; [apply Z.land_nonneg; right; lia|apply land_le_r; lia]. }
  destruct (nibble_identities (Z.land i 15) Hn) as (N1 & N2 & N3).
  destruct ((i / 256 <? size / 256) && (i mod 256 =? 254))%bool.
  - rewrite Z.land_diag. repeat split; try reflexivity. apply byte_and_complement.
  - destruct ((i / 256 <? size / 256) && (i mod 256 =? 255))%bool.
    + rewrite Z.land_diag. repeat split; try reflexivity.
      apply byte_and_complement.
    + split; [exact N1|]. split; [exact N2|]. split; [exact N3|].
      apply byte_and_complement.
Qed.

Lemma testpattern_and_identities_witness :
  let buf := repeat 0 1024 in
  let pattern variant :=
    match snd (generate_testpattern (Some buf) 1024 variant) with
    | Some filled => byte_at filled 300
    | None => 0
    end in
  Z.land (pattern 0) (pattern 1) = pattern 4
  /\ Z.land (pattern 2) (pattern 3) = pattern 5
  /\ Z.land (pattern 4) (pattern 5) = pattern 6
  /\ Z.land (pattern 8) (pattern 9) = pattern 12.
Proof.
  apply (testpattern_and_identities (repeat 0 1024) 1024 300).
  - simpl. lia.
  - lia.
Defined.
